(** * Format-to-scene-graph conversion: SMD, STL, AC3D and LWS readers

    A shallow embedding of the parts of the importers that decide the
    properties stated below: the SMD bone-weight resolver and vertex
    animation section, the STL binary detector and loader, the AC3D object
    sections and the LWS element parser, hierarchy resolver and batch
    attachment. *)

From Stdlib Require Import ZArith Lia Bool Ascii String.
From Stdlib Require Import QArith Qabs Qcanon.
From Stdlib Require Import Floats.SpecFloat.
From stdpp Require Import base list numbers.

#[local] Open Scope Z_scope.
#[local] Open Scope list_scope.

(** ** Machine integers *)

Definition UINT_MAX : Z := 4294967295.

(** Conversion to [unsigned int]: reduction modulo 2^32. *)
Definition wrap32 (z : Z) : Z := z mod 4294967296.

(** ** The C++ [float] (IEEE 754 binary32, round to nearest even) *)

Module B32.
Definition prec : Z := 24.
Definition emax : Z := 128.
Definition t : Type := spec_float.
Definition add : t -> t -> t := SFadd prec emax.
Definition sub : t -> t -> t := SFsub prec emax.
Definition mul : t -> t -> t := SFmul prec emax.
Definition div : t -> t -> t := SFdiv prec emax.
Definition ltb : t -> t -> bool := SFltb.
Definition of_Z (z : Z) : t := binary_normalize prec emax z 0 false.
Definition zero : t := S754_zero false.
Definition one : t := Eval vm_compute in of_Z 1.
  (** A decimal literal [n/d] is the correctly rounded quotient. *)
Definition lit (n d : Z) : t := div (of_Z n) (of_Z d).
  (** Contextual conversion to [bool], as in [if (fSum)]. *)
Definition truth (x : t) : bool := negb (SFeqb x zero).
  (** The exact rational value of a finite float. *)
Definition toQ (x : t) : Q :=
    match x with
    | S754_finite s m e =>
        let v := if (0 <=? e)%Z then inject_Z (Z.pos m * 2 ^ e)
                 else (Z.pos m # Z.to_pos (2 ^ (- e))) in
        if s then Qopp v else v
    | _ => 0%Q
    end.
Definition is_finite (x : t) : bool :=
    match x with S754_finite _ _ _ | S754_zero _ => true | _ => false end.
End B32.

(** ** Results of fallible code *)

Inductive outcome (A : Type) : Type :=
| Ret (a : A)            (* normal return *)
| Throw (msg : string)   (* a C++ exception leaves the function *)
| Undefined              (* an access outside a container *)
| OutOfFuel.             (* the model ran out of fuel *)
Arguments Ret {A} a.
Arguments Throw {A} msg.
Arguments Undefined {A}.
Arguments OutOfFuel {A}.

(** ** Scanner: character cursor primitives

    A cursor is the list of characters that remain; the terminating NUL that
    [TextFileToBuffer] appends is the end of the list, so that reading at the
    end yields NUL.  Every loop of the primitives stops on NUL, hence before
    the [end] pointer they are given. *)

Module Scanner.

#[local] Open Scope char_scope.

Definition NUL : ascii := "000".

(** [*in] *)
Definition peek (l : list ascii) : ascii :=
  match l with
  | [] => NUL
  | c :: _ => c
  end.

(** Modelled from the spec: [IsSpace] of ParsingUtils.h is not among the
    sources; blank and tab. *)
Definition IsSpace (c : ascii) : bool := (c =? " ") || (c =? "009").

(** Modelled from the spec: [IsLineEnd] of ParsingUtils.h is not among the
    sources; CR, LF, NUL and form feed. *)
Definition IsLineEnd (c : ascii) : bool :=
  (c =? "013") || (c =? "010") || (c =? "000") || (c =? "012").

(** Modelled from the spec: [IsSpaceOrNewLine] of ParsingUtils.h is not among
    the sources. *)
Definition IsSpaceOrNewLine (c : ascii) : bool := IsSpace c || IsLineEnd c.

(** Modelled from the spec: [IsNumeric] of ParsingUtils.h is not among the
    sources; a digit or a sign. *)
Definition IsNumeric (c : ascii) : bool :=
  (("0" <=? c) && (c <=? "9")) || (c =? "-") || (c =? "+").

(** Modelled from the spec: the cursor movement of [SkipSpaces]
    (ParsingUtils.h, not among the sources), the scanner's [skip_spaces]. *)
Fixpoint skip_spaces (l : list ascii) : list ascii :=
  match l with
  | c :: r => if IsSpace c then skip_spaces r else l
  | [] => []
  end.

(** Modelled from the spec: [SkipSpaces] returns whether the cursor is left
    on something else than a line end. *)
Definition SkipSpaces (l : list ascii) : bool * list ascii :=
  let l' := skip_spaces l in (negb (IsLineEnd (peek l')), l').

Fixpoint skip_to_eol (l : list ascii) : list ascii :=
  match l with
  | c :: r => if (c =? "013") || (c =? "010") || (c =? "000") then l else skip_to_eol r
  | [] => []
  end.

Fixpoint skip_eols (l : list ascii) : list ascii :=
  match l with
  | c :: r => if (c =? "013") || (c =? "010") then skip_eols r else l
  | [] => []
  end.

(** Modelled from the spec: [SkipLine] (ParsingUtils.h, not among the
    sources), the scanner's [skip_line]: to the end of the line, then over
    the line ends; returns whether content remains. *)
Definition SkipLine (l : list ascii) : bool * list ascii :=
  let l' := skip_eols (skip_to_eol l) in (negb (peek l' =? NUL), l').

Fixpoint skip_spaces_and_eols (l : list ascii) : list ascii :=
  match l with
  | c :: r =>
      if (c =? " ") || (c =? "009") || (c =? "013") || (c =? "010")
      then skip_spaces_and_eols r else l
  | [] => []
  end.

(** Modelled from the spec: [SkipSpacesAndLineEnd] (ParsingUtils.h, not among
    the sources), the scanner's [skip_spaces_and_line_ends]: returns whether
    any non-exhausted content remains. *)
Definition SkipSpacesAndLineEnd (l : list ascii) : bool * list ascii :=
  let l' := skip_spaces_and_eols l in (negb (peek l' =? NUL), l').

Fixpoint starts_with (tok l : list ascii) : bool :=
  match tok, l with
  | [], _ => true
  | t :: tok', c :: l' => (t =? c) && starts_with tok' l'
  | _ :: _, [] => false
  end.

(** [strncmp(in, token, strlen(token)) == 0] for a token without NUL. *)
Definition strncmp_eq (l : list ascii) (tok : string) : bool :=
  starts_with (list_ascii_of_string tok) l.

(** Modelled from the spec: [TokenMatch] (ParsingUtils.h, not among the
    sources), the scanner's [token_match]: exact match followed by a word
    boundary; the cursor moves over the token and the boundary character
    unless that is the terminator. *)
Definition TokenMatch (l : list ascii) (tok : string) : option (list ascii) :=
  let n := String.length tok in
  if strncmp_eq l tok && IsSpaceOrNewLine (peek (drop n l)) then
    if peek (drop n l) =? NUL then Some (drop n l) else Some (drop (S n) l)
  else None.

Definition digit_val (c : ascii) : option Z :=
  if ("0" <=? c) && (c <=? "9") then Some (Z.of_nat (nat_of_ascii c) - 48)%Z else None.

Fixpoint strtoul10_from (value : Z) (l : list ascii) : Z * list ascii :=
  match l with
  | c :: r =>
      match digit_val c with
      | Some d => strtoul10_from (wrap32 (value * 10 + d)) r
      | None => (value, l)
      end
  | [] => (value, l)
  end.

(** Modelled from the spec: [strtoul10] (fast_atof.h, not among the sources),
    the scanner's [parse_unsigned_int]: decimal digits accumulated in an
    [unsigned int]. *)
Definition strtoul10 (l : list ascii) : Z * list ascii := strtoul10_from 0 l.

(** Conversion of an [unsigned int] to [int]. *)
Definition signed32 (z : Z) : Z :=
  let w := wrap32 z in if (w <? 2147483648)%Z then w else (w - 4294967296)%Z.

(** Modelled from the spec: [strtol10] (fast_atof.h, not among the sources),
    the scanner's [parse_signed_int]: an optional sign, then [strtoul10]; the
    value is negated unless that overflows. *)
Definition strtol10 (l : list ascii) : Z * list ascii :=
  let inv := peek l =? "-" in
  let l1 := if inv || (peek l =? "+") then drop 1 l else l in
  let '(u, l2) := strtoul10 l1 in
  let value := signed32 u in
  let value' :=
    if inv then
      if (value <? 2147483647)%Z && (-2147483648 <? value)%Z then (- value)%Z else value
    else value in
  (value', l2).

Definition hex_val (c : ascii) : option Z :=
  if ("0" <=? c) && (c <=? "9") then Some (Z.of_nat (nat_of_ascii c) - 48)%Z
  else if ("A" <=? c) && (c <=? "F") then Some (Z.of_nat (nat_of_ascii c) - 55)%Z
  else if ("a" <=? c) && (c <=? "f") then Some (Z.of_nat (nat_of_ascii c) - 87)%Z
  else None.

Fixpoint strtoul16_from (value : Z) (l : list ascii) : Z * list ascii :=
  match l with
  | c :: r =>
      match hex_val c with
      | Some d => strtoul16_from (wrap32 (value * 16 + d)) r
      | None => (value, l)
      end
  | [] => (value, l)
  end.

(** Modelled from the spec: [strtoul16] (fast_atof.h, not among the sources):
    hexadecimal digits accumulated in an [unsigned int]. *)
Definition strtoul16 (l : list ascii) : Z * list ascii := strtoul16_from 0 l.

(** *** Cursors that can step back

    The AC3D reader decrements its cursor; there the cursor keeps the text
    behind it, nearest character first. *)

Record cursor : Type := mkCursor {
  behind : list ascii;
  ahead : list ascii
}.

(** [++p] and [--p] *)
Definition step (c : cursor) : cursor :=
  match ahead c with
  | [] => c
  | x :: r => mkCursor (x :: behind c) r
  end.

Definition step_back (c : cursor) : cursor :=
  match behind c with
  | [] => c
  | x :: b => mkCursor b (x :: ahead c)
  end.

Fixpoint steps (n : nat) (c : cursor) : cursor :=
  match n with
  | O => c
  | S n' => steps n' (step c)
  end.

(** Move on while [p] holds of the character under the cursor. *)
Fixpoint skip_while (p : ascii -> bool) (b a : list ascii) : cursor :=
  match a with
  | x :: r => if p x then skip_while p (x :: b) r else mkCursor b a
  | [] => mkCursor b []
  end.

Definition cskip (p : ascii -> bool) (c : cursor) : cursor :=
  skip_while p (behind c) (ahead c).

(** The primitives above on such cursors. *)
Definition cSkipSpaces (c : cursor) : bool * cursor :=
  let c' := cskip IsSpace c in (negb (IsLineEnd (peek (ahead c'))), c').

Definition cSkipLine (c : cursor) : bool * cursor :=
  let c1 := cskip (fun x => negb ((x =? "013") || (x =? "010") || (x =? "000"))) c in
  let c2 := cskip (fun x => (x =? "013") || (x =? "010")) c1 in
  (negb (peek (ahead c2) =? NUL), c2).

Definition cTokenMatch (c : cursor) (tok : string) : option cursor :=
  let n := String.length tok in
  if strncmp_eq (ahead c) tok && IsSpaceOrNewLine (peek (drop n (ahead c))) then
    if peek (drop n (ahead c)) =? NUL then Some (steps n c) else Some (steps (S n) c)
  else None.

Fixpoint cstrtoul10_from (value : Z) (b a : list ascii) : Z * cursor :=
  match a with
  | x :: r =>
      match digit_val x with
      | Some d => cstrtoul10_from (wrap32 (value * 10 + d)) (x :: b) r
      | None => (value, mkCursor b a)
      end
  | [] => (value, mkCursor b [])
  end.

Definition cstrtoul10 (c : cursor) : Z * cursor :=
  cstrtoul10_from 0 (behind c) (ahead c).

(** Move a cursor on to where a reader of its text has stopped. *)
Definition sync (c : cursor) (rest : list ascii) : cursor :=
  steps (length (ahead c) - length rest) c.

Definition lower (c : ascii) : ascii :=
  if ("A" <=? c) && (c <=? "Z") then ascii_of_nat (nat_of_ascii c + 32) else c.

(** Modelled from the spec: [ASSIMP_strincmp] (StringComparison.h, not among
    the sources) compares without regard to case; [true] when the text at
    the cursor starts with the token. *)
Definition strincmp_eq (l : list ascii) (tok : string) : bool :=
  starts_with (map lower (list_ascii_of_string tok))
    (map lower (take (String.length tok) l)).

Fixpoint strtoul8_from (value : Z) (l : list ascii) : Z :=
  match l with
  | c :: r =>
      if ("0" <=? c) && (c <=? "7")
      then strtoul8_from (wrap32 (value * 8 + (Z.of_nat (nat_of_ascii c) - 48))) r
      else value
  | [] => value
  end.

(** Modelled from the spec: [strtoul_cppstyle] (fast_atof.h, not among the
    sources) reads an unsigned number the way C++ writes it: hexadecimal
    behind [0x], octal behind [0], decimal otherwise. *)
Definition strtoul_cppstyle (l : list ascii) : Z :=
  match l with
  | "0" :: "x" :: r => fst (strtoul16 r)
  | "0" :: r => strtoul8_from 0 r
  | _ => fst (strtoul10 l)
  end.

(** Modelled from the spec: [fast_atoreal_move] (fast_atof.h, not among the
    sources) is taken as a parameter: it reads a real number at the cursor
    and returns the cursor behind it. *)
Class FloatParser (R : Type) := {
  fzero : R;
  fast_atoreal_move : list ascii -> R * list ascii
}.

End Scanner.

(** ** SMD: bone-weight resolution in [SMDImporter::CreateOutputMeshes] *)

Module SMD.

(** The arithmetic the converter applies to weights: the constants [0.0f],
    [1.0f] and [0.975f], the four operations, [<] and the conversion to
    [bool] of [if (fSum)]. *)
Class Weight (R : Type) := {
  r0 : R;
  r1 : R;
  limit : R;
  radd : R -> R -> R;
  rsub : R -> R -> R;
  rmul : R -> R -> R;
  rdiv : R -> R -> R;
  rltb : R -> R -> bool;
  rtruth : R -> bool
}.

Abbreviation Tables R := (list (list (Z * R))) (only parsing).

Section Weights.
(** [R] is the type of weights (the C++ [float]); [V] stands for
    [aiVector3D]; [B] for [SMD::Bone]. *)
Context {R : Type} `{Weight R} {V B : Type}.

(** [SMD::Vertex]; [iParentNode] is a [uint32_t]. *)
Record Vertex := mkVertex {
  iParentNode : Z;
  pos : V;
  nor : V;
  uv : V;
  aiBoneLinks : list (Z * R)
}.

(** [SMD::Face]. *)
Record Face := mkFace {
  iTexture : Z;
  avVertices : Vertex * Vertex * Vertex
}.

(** [Tables R] is [TempBoneWeightList[]]: one list of (vertex id, weight)
    per bone. *)

(** [aaiBones[b].emplace_back(iNum, w)] *)
Definition emplace_back (t : Tables R) (b : Z) (e : Z * R) : Tables R :=
  alter (fun l => l ++ [e]) (Z.to_nat b) t.

Definition scale_last (f : R) (l : list (Z * R)) : list (Z * R) :=
  match reverse l with
  | [] => []
  | (v, w) :: tl => reverse tl ++ [(v, rmul w f)]
  end.

(** [aaiBones[b].back().second *= f] *)
Definition scale_back (t : Tables R) (b : Z) (f : R) : Tables R :=
  alter (scale_last f) (Z.to_nat b) t.

(** The first inner loop (lines 310-323): links whose bone index is out of
    range or equal to the vertex's parent are skipped, the others are
    appended to their bone's table and summed. *)
Fixpoint collect (nb parent iNum : Z) (links : list (Z * R))
    (t : Tables R) (fSum : R) : Tables R * R :=
  match links with
  | [] => (t, fSum)
  | (b, w) :: rest =>
      if (nb <=? b) || (b =? parent)
      then collect nb parent iNum rest t fSum
      else collect nb parent iNum rest (emplace_back t b (iNum, w)) (radd fSum w)
  end.

(** The renormalisation loop (lines 341-346). *)
Fixpoint renorm (nb : Z) (f : R) (links : list (Z * R)) (t : Tables R) : Tables R :=
  match links with
  | [] => t
  | (b, _) :: rest =>
      if nb <=? b then renorm nb f rest t
      else renorm nb f rest (scale_back t b f)
  end.

(** One iteration of the [iVert] loop (lines 308-352) without the final
    index store: [nb] is [asBones.size()]. *)
Definition resolve_vertex (nb iNum : Z) (v : Vertex) (t : Tables R) : Tables R :=
  let '(t1, fSum) := collect nb (iParentNode v) iNum (aiBoneLinks v) t r0 in
  if rltb fSum limit && negb (iParentNode v =? UINT_MAX) then
    if nb <=? iParentNode v then
      if rtruth fSum then renorm nb (rdiv r1 fSum) (aiBoneLinks v) t1 else t1
    else emplace_back t1 (iParentNode v) (iNum, rsub r1 fSum)
  else t1.

(** The [iVert] loop over the three vertices of a face: returns the face's
    indices, the next vertex id and the tables. *)
Fixpoint resolve_vertices (nb iNum : Z) (vs : list Vertex) (t : Tables R)
    : list Z * Z * Tables R :=
  match vs with
  | [] => ([], iNum, t)
  | v :: rest =>
      let t' := resolve_vertex nb iNum v t in
      let '(idx, n, t'') := resolve_vertices nb (wrap32 (iNum + 1)) rest t' in
      (iNum :: idx, n, t'')
  end.

Definition face_vertices (f : Face) : list Vertex :=
  let '(a, b, c) := avVertices f in [a; b; c].

(** What the face loop (lines 283-354) has written so far. *)
Record MeshAcc := mkMeshAcc {
  acc_iNum : Z;
  acc_verts : list V;
  acc_nors : list V;
  acc_uvs : list V;
  acc_faces : list (list Z);
  acc_bones : Tables R
}.

(** The face loop; [srcs] is [aaiFaces[i]].  [None] stands for an access
    outside [asTriangles]. *)
Fixpoint fill_faces (nb : Z) (asTriangles : list Face) (srcs : list Z)
    (a : MeshAcc) : option MeshAcc :=
  match srcs with
  | [] => Some a
  | iSrcFace :: rest =>
      match asTriangles !! Z.to_nat iSrcFace with
      | None => None
      | Some face =>
          let vs := face_vertices face in
          let '(idx, n, t) := resolve_vertices nb (acc_iNum a) vs (acc_bones a) in
          fill_faces nb asTriangles rest
            (mkMeshAcc n
               (acc_verts a ++ map pos vs)
               (acc_nors a ++ map nor vs)
               (acc_uvs a ++ map uv vs)
               (acc_faces a ++ [idx])
               t)
      end
  end.

(** The loop that sorts the faces by material (lines 240-249).  When the
    material index is out of range the code indexes [aaiFaces] with it
    before substituting anything: [None]. *)
Fixpoint collect_faces (ntex : Z) (tris : list Face) (iNum : Z)
    (aaiFaces : list (list Z)) : option (list (list Z)) :=
  match tris with
  | [] => Some aaiFaces
  | f :: rest =>
      if ntex <=? iTexture f then None
      else collect_faces ntex rest (wrap32 (iNum + 1))
             (alter (fun l => l ++ [iNum]) (Z.to_nat (iTexture f)) aaiFaces)
  end.

(** [aiBone]: the source bone it was built from and its weights. *)
Definition aiBone : Type := B * list (Z * R).

(** The bones of a mesh (lines 356-385): one per non-empty table. *)
Fixpoint build_bones (asBones : list B) (t : Tables R) : list aiBone :=
  match asBones, t with
  | b :: bs, w :: ws =>
      match w with
      | [] => build_bones bs ws
      | _ :: _ => (b, w) :: build_bones bs ws
      end
  | _, _ => []
  end.

Record aiMesh := mk_aiMesh {
  mNumVertices : Z;
  mNumFaces : Z;
  mMaterialIndex : Z;
  mFaces : list (list Z);
  mVertices : list V;
  mNormals : list V;
  mTextureCoords : option (list V);
  mBones : list aiBone
}.

(** The bone tables of one mesh: the face loop started on empty tables. *)
Definition mesh_tables (asBones : list B) (asTriangles : list Face)
    (srcs : list Z) : option MeshAcc :=
  fill_faces (Z.of_nat (length asBones)) asTriangles srcs
    (mkMeshAcc 0 [] [] [] [] (replicate (length asBones) [])).

Definition build_mesh (bHasUVs : bool) (asBones : list B)
    (asTriangles : list Face) (i : Z) (srcs : list Z) : option aiMesh :=
  match mesh_tables asBones asTriangles srcs with
  | None => None
  | Some a =>
      Some (mk_aiMesh
              (wrap32 (Z.of_nat (length srcs) * 3))
              (wrap32 (Z.of_nat (length srcs)))
              i
              (acc_faces a)
              (acc_verts a)
              (acc_nors a)
              (if bHasUVs then Some (acc_uvs a) else None)
              (build_bones asBones (acc_bones a)))
  end.

Fixpoint build_meshes (bHasUVs : bool) (asBones : list B)
    (asTriangles : list Face) (i : Z) (aaiFaces : list (list Z))
    : option (list aiMesh) :=
  match aaiFaces with
  | [] => Some []
  | srcs :: rest =>
      match build_mesh bHasUVs asBones asTriangles i srcs with
      | None => None
      | Some m =>
          match build_meshes bHasUVs asBones asTriangles (i + 1) rest with
          | None => None
          | Some ms => Some (m :: ms)
          end
      end
  end.

(** [SMDImporter::CreateOutputMeshes]; [ntex] is [aszTextures.size()] after
    the empty texture has been added when there was none. *)
Definition CreateOutputMeshes (bHasUVs : bool) (aszTextures : list string)
    (asBones : list B) (asTriangles : list Face) : option (list aiMesh) :=
  let ntex := Nat.max 1 (length aszTextures) in
  match collect_faces (Z.of_nat ntex) asTriangles 0 (replicate ntex []) with
  | None => None
  | Some aaiFaces => build_meshes bHasUVs asBones asTriangles 0 aaiFaces
  end.

(** The links that survive validation (a bone index inside [asBones] and
    different from the vertex's parent), and their sum [fSum]. *)
Definition survives (nb parent : Z) (l : Z * R) : bool :=
  (fst l <? nb) && negb (fst l =? parent).

Definition surviving (nb : Z) (v : Vertex) : list (Z * R) :=
  List.filter (survives nb (iParentNode v)) (aiBoneLinks v).

Definition sum_from (ws : list R) (s : R) : R := fold_left radd ws s.

Definition fSum_of (nb : Z) (v : Vertex) : R :=
  sum_from (map snd (surviving nb v)) r0.

(** The entries and the weights a vertex id has in a set of tables. *)
Definition entries_of (v : Z) (l : list (Z * R)) : list (Z * R) :=
  List.filter (fun e => fst e =? v) l.

Definition vertex_weights (t : Tables R) (v : Z) : list R :=
  concat (map (fun l => map snd (entries_of v l)) t).

(** All the vertices of a mesh, in the order the face loop numbers them. *)
Fixpoint mesh_vertices (asTriangles : list Face) (srcs : list Z) : list Vertex :=
  match srcs with
  | [] => []
  | i :: rest =>
      match asTriangles !! Z.to_nat i with
      | None => []
      | Some f => face_vertices f ++ mesh_vertices asTriangles rest
      end
  end.

End Weights.

#[global] Arguments Vertex : clear implicits.
#[global] Arguments Face : clear implicits.
#[global] Arguments MeshAcc : clear implicits.
#[global] Arguments aiMesh : clear implicits.

(** Exact rational arithmetic as weight type: what the conversion computes
    when no operation rounds. *)
#[global] Instance Weight_Qc : Weight Qc := {
  r0 := 0%Qc;
  r1 := 1%Qc;
  limit := Q2Qc (975 # 1000);
  radd := Qcplus;
  rsub := Qcminus;
  rmul := Qcmult;
  rdiv := Qcdiv;
  rltb := fun a b => negb (Qle_bool b a);
  rtruth := fun a => negb (Qc_eq_bool a 0%Qc)
}.

(** *** The vertex animation section: [SMDImporter::ParseVASection] *)

Section Parser.
Import Scanner.
Context {R : Type} `{FloatParser R}.

(** [aiVector3D] *)
Definition Vec3 : Type := R * R * R.
Definition vec0 : Vec3 := (fzero, fzero, fzero).
Definition set_x (v : Vec3) (r : R) : Vec3 := let '(_, y, z) := v in (r, y, z).
Definition set_y (v : Vec3) (r : R) : Vec3 := let '(x, _, z) := v in (x, r, z).
Definition set_z (v : Vec3) (r : R) : Vec3 := let '(x, y, _) := v in (x, y, r).

Definition SVertex : Type := Vertex R Vec3.
Definition SFace : Type := Face R Vec3.

(** The default constructors of [SMD::Vertex] and [SMD::Face] (SMDLoader.h):
    the parent of a vertex that was not read is [UINT_MAX] (see the comment
    at lines 328-331), the texture of a face is 0. *)
Definition default_vertex : SVertex := mkVertex UINT_MAX vec0 vec0 vec0 [].
Definition default_face : SFace :=
  mkFace 0 (default_vertex, default_vertex, default_vertex).

Definition with_parent (v : SVertex) (p : Z) : SVertex :=
  mkVertex p (pos v) (nor v) (uv v) (aiBoneLinks v).
Definition with_pos (f : Vec3 -> R -> Vec3) (v : SVertex) (r : R) : SVertex :=
  mkVertex (iParentNode v) (f (pos v) r) (nor v) (uv v) (aiBoneLinks v).
Definition with_nor (f : Vec3 -> R -> Vec3) (v : SVertex) (r : R) : SVertex :=
  mkVertex (iParentNode v) (pos v) (f (nor v) r) (uv v) (aiBoneLinks v).
Definition with_uv (f : Vec3 -> R -> Vec3) (v : SVertex) (r : R) : SVertex :=
  mkVertex (iParentNode v) (pos v) (nor v) (f (uv v) r) (aiBoneLinks v).
Definition with_links (v : SVertex) (l : list (Z * R)) : SVertex :=
  mkVertex (iParentNode v) (pos v) (nor v) (uv v) l.

(** [ParseFloat], [ParseUnsignedInt], [ParseSignedInt] (lines 980-1009):
    [None] is the [false] result, which leaves the caller's cursor alone. *)
Definition ParseFloat (cur : list ascii) : option (R * list ascii) :=
  let '(ok, c) := SkipSpaces cur in
  if ok then Some (fast_atoreal_move c) else None.

Definition ParseUnsignedInt (cur : list ascii) : option (Z * list ascii) :=
  let '(ok, c) := SkipSpaces cur in
  if ok then Some (strtoul10 c) else None.

Definition ParseSignedInt (cur : list ascii) : option (Z * list ascii) :=
  let '(ok, c) := SkipSpaces cur in
  if ok then Some (strtol10 c) else None.

(** [SMDI_PARSE_RETURN] *)
Definition parse_return (cur : list ascii) (v : SVertex) : list ascii * SVertex :=
  (snd (SkipLine cur), v).

Definition float_into (set : SVertex -> R -> SVertex)
    (k : list ascii -> SVertex -> list ascii * SVertex)
    (cur : list ascii) (v : SVertex) : list ascii * SVertex :=
  match ParseFloat cur with
  | None => parse_return cur v
  | Some (x, cur') => k cur' (set v x)
  end.

(** [std::vector::resize(n, val)] *)
Definition resize {A} (n : nat) (val : A) (l : list A) : list A :=
  take n l ++ replicate (n - length l) val.

(** The loop over the bone links (lines 1070-1077): returns the cursor where
    it stopped and the links. *)
Fixpoint parse_links (cur : list ascii) (done todo : list (Z * R))
    : list ascii * list (Z * R) :=
  match todo with
  | [] => (cur, done)
  | (b, w) :: rest =>
      match ParseUnsignedInt cur with
      | None => (cur, done ++ todo)
      | Some (b', cur') =>
          match ParseFloat cur' with
          | None => (cur', done ++ (b', w) :: rest)
          | Some (w', cur'') => parse_links cur'' (done ++ [(b', w')]) rest
          end
      end
  end.

(** [SMDImporter::ParseVertex] (lines 1013-1081).  The call recurses when
    the line is empty; [fuel] bounds that recursion. *)
Fixpoint ParseVertex (fuel : nat) (cur : list ascii) (vertex : SVertex)
    (bVASection : bool) : option (list ascii * SVertex) :=
  match fuel with
  | O => None
  | S fuel' =>
      let '(ok, cur) := SkipSpaces cur in
      if ok && IsLineEnd (peek cur) then
        ParseVertex fuel' (snd (SkipSpacesAndLineEnd cur)) vertex bVASection
      else
        Some
          match ParseSignedInt cur with
          | None => parse_return cur vertex
          | Some (p, cur) =>
              float_into (with_pos set_x) (
              float_into (with_pos set_y) (
              float_into (with_pos set_z) (
              float_into (with_nor set_x) (
              float_into (with_nor set_y) (
              float_into (with_nor set_z) (fun cur vertex =>
                if bVASection then parse_return cur vertex
                else
                  float_into (with_uv set_x) (
                  float_into (with_uv set_y) (fun cur vertex =>
                    match ParseUnsignedInt cur with
                    | None => parse_return cur vertex
                    | Some (iSize, cur) =>
                        let todo := resize (Z.to_nat iSize) (0, fzero) (aiBoneLinks vertex) in
                        let '(cur, links) := parse_links cur [] todo in
                        parse_return cur (with_links vertex links)
                    end)) cur vertex))))))
                cur (with_parent vertex (wrap32 p))
          end
  end.

(** [asTriangles.back().avVertices[i] = v] *)
Definition set_back_vertex (asTriangles : list SFace) (i : Z) (v : SVertex)
    : list SFace :=
  match reverse asTriangles with
  | [] => []
  | f :: tl =>
      let '(a, b, c) := avVertices f in
      let vs := if i =? 0 then (v, b, c) else if i =? 1 then (a, v, c) else (a, b, v) in
      reverse tl ++ [mkFace (iTexture f) vs]
  end.

Definition get_back_vertex (asTriangles : list SFace) (i : Z) : option SVertex :=
  match reverse asTriangles with
  | [] => None
  | f :: _ =>
      let '(a, b, c) := avVertices f in
      Some (if i =? 0 then a else if i =? 1 then b else c)
  end.

(** The loop of [ParseVASection] (lines 765-793): the result is the cursor,
    the triangles and [iCurIndex] when the loop is left.  [None]: out of
    fuel, or [back()] of an empty vector. *)
Fixpoint VA_loop (fuel : nat) (configFrameID : Z) (cur : list ascii)
    (asTriangles : list SFace) (iCurIndex : Z)
    : option (list ascii * list SFace * Z) :=
  match fuel with
  | O => None
  | S fuel' =>
      let '(more, cur) := SkipSpacesAndLineEnd cur in
      if negb more then Some (cur, asTriangles, iCurIndex)
      else
        match TokenMatch cur "end" with
        | Some cur => Some (cur, asTriangles, iCurIndex)
        | None =>
            match TokenMatch cur "time" with
            | Some cur =>
                match ParseSignedInt cur with
                | None => Some (cur, asTriangles, iCurIndex)
                | Some (iTime, cur) =>
                    if negb (configFrameID =? wrap32 iTime)
                    then Some (cur, asTriangles, iCurIndex)
                    else VA_loop fuel' configFrameID (snd (SkipLine cur))
                           asTriangles iCurIndex
                end
            | None =>
                let asTriangles :=
                  if iCurIndex =? 0 then asTriangles ++ [default_face]
                  else asTriangles in
                let iCurIndex := if iCurIndex + 1 =? 3 then 0 else iCurIndex + 1 in
                match get_back_vertex asTriangles iCurIndex with
                | None => None
                | Some v =>
                    match ParseVertex (S (length cur)) cur v true with
                    | None => None
                    | Some (cur, v') =>
                        VA_loop fuel' configFrameID cur
                          (set_back_vertex asTriangles iCurIndex v') iCurIndex
                    end
                end
            end
        end
  end.

(** [SMDImporter::ParseVASection] (lines 763-802): the cursor behind the
    section and the triangles of the importer. *)
Definition ParseVASection (fuel : nat) (configFrameID : Z) (cur : list ascii)
    (asTriangles : list SFace) : option (list ascii * list SFace) :=
  match VA_loop fuel configFrameID cur asTriangles 0 with
  | None => None
  | Some (cur, asTriangles, iCurIndex) =>
      let asTriangles :=
        if negb (iCurIndex =? 2) && negb (bool_decide (asTriangles = []))
        then removelast asTriangles else asTriangles in
      Some (snd (SkipSpacesAndLineEnd cur), asTriangles)
  end.

End Parser.

(** A reader of literals that keeps the text of the number: an instance of
    the parameter [fast_atoreal_move] for running the parser. *)
Fixpoint literal_span (l : list ascii) : list ascii * list ascii :=
  match l with
  | c :: r =>
      if Scanner.IsNumeric c || (c =? ".")%char || (c =? "e")%char || (c =? "E")%char
      then let '(a, b) := literal_span r in (c :: a, b)
      else ([], l)
  | [] => ([], [])
  end.

#[global] Instance LiteralText : Scanner.FloatParser (list ascii) := {
  fzero := ["0"%char];
  fast_atoreal_move := literal_span
}.


(** The C++ [float] as weight type. *)
#[global] Instance Weight_B32 : Weight B32.t := {
  r0 := B32.zero;
  r1 := B32.one;
  limit := B32.lit 975 1000;
  radd := B32.add;
  rsub := B32.sub;
  rmul := B32.mul;
  rdiv := B32.div;
  rltb := B32.ltb;
  rtruth := B32.truth
}.

End SMD.

(** ** LWS: element parser, hierarchy resolver and batch attachment *)

Module LWS.
Import Scanner.

#[local] Open Scope string_scope.
#[local] Open Scope Z_scope.
#[local] Open Scope list_scope.

(** [LWS::Element]: two tokens and the child elements. *)
#[local] Unset Elimination Schemes.
Inductive Element : Type :=
| mkElement (tokens0 tokens1 : string) (children : list Element).
#[local] Set Elimination Schemes.

Definition tokens0 (e : Element) : string := let '(mkElement a _ _) := e in a.
Definition tokens1 (e : Element) : string := let '(mkElement _ b _) := e in b.
Definition children (e : Element) : list Element := let '(mkElement _ _ c) := e in c.

Definition MAX_DEPTH : Z := 1000.

(** Advance the cursor until [stop] holds of the character under it; the
    text passed over is returned with the cursor. *)
Fixpoint take_until (stop : ascii -> bool) (l : list ascii) : list ascii * list ascii :=
  match l with
  | c :: r => if stop c then ([], l) else let '(a, b) := take_until stop r in (c :: a, b)
  | [] => ([], [])
  end.

(** The loop over a [Plugin] block (lines 1012-1016). *)
Fixpoint plugin_loop (fuel : nat) (cur : list ascii) : option (list ascii) :=
  match fuel with
  | O => None
  | S fuel' =>
      let '(more, cur) := SkipSpacesAndLineEnd cur in
      if negb more then Some cur
      else if strncmp_eq cur "EndPlugin" then Some cur
      else plugin_loop fuel' (snd (SkipLine cur))
  end.

(** [LWS::Element::Parse] (lines 981-1031): [children] is [this->children],
    the result is the cursor and the children after the call. *)
Fixpoint Parse (fuel : nat) (cur : list ascii) (depth : Z)
    (kids : list Element) {struct fuel} : outcome (list ascii * list Element) :=
  match fuel with
  | O => OutOfFuel
  | S fuel' =>
      if MAX_DEPTH <? depth
      then Throw "Maximum recursion depth exceeded in LWS::Element::Parse"
      else Parse_loop fuel' cur depth kids
  end
with Parse_loop (fuel : nat) (cur : list ascii) (depth : Z)
    (kids : list Element) {struct fuel} : outcome (list ascii * list Element) :=
  match fuel with
  | O => OutOfFuel
  | S fuel' =>
      let '(more, cur) := SkipSpacesAndLineEnd cur in
      if negb more then Ret (cur, kids)
      else
        let sub := (peek cur =? "{")%char in
        if negb sub && (peek cur =? "}")%char then Ret (cur, kids)
        else
          let cur := if sub then snd (SkipSpaces (drop 1 cur)) else cur in
          let '(t0, cur) := take_until IsSpaceOrNewLine cur in
          let cur := snd (SkipSpaces cur) in
          if String.eqb (string_of_list_ascii t0) "Plugin" then
            match plugin_loop (S (length cur)) cur with
            | None => OutOfFuel
            | Some cur =>
                Parse_loop fuel' (snd (SkipLine cur)) depth
                  (kids ++ [mkElement (string_of_list_ascii t0) "" []])
            end
          else
            let '(t1, cur) := take_until IsLineEnd cur in
            if sub then
              match Parse fuel' cur (depth + 1) [] with
              | Ret (cur, sub_kids) =>
                  Parse_loop fuel' (snd (SkipLine cur)) depth
                    (kids ++ [mkElement (string_of_list_ascii t0)
                                (string_of_list_ascii t1) sub_kids])
              | Throw m => Throw m
              | Undefined => Undefined
              | OutOfFuel => OutOfFuel
              end
            else
              Parse_loop fuel' (snd (SkipLine cur)) depth
                (kids ++ [mkElement (string_of_list_ascii t0)
                            (string_of_list_ascii t1) []])
  end.

(** [aiVector3D], and the translation of an [aiMatrix4x4]: its members
    [a4], [b4] and [c4]. *)
Definition Vec3 : Type := B32.t * B32.t * B32.t.

(** [LWS::NodeDesc]: the fields that take part in building the hierarchy and
    the pivot.  Pointers to other descriptions are positions in the list
    [nodes]. *)
Inductive NodeType : Type := OBJECT | LIGHT | CAMERA | BONE.

Record NodeDesc : Type := mkNodeDesc {
  nd_type : NodeType;
  nd_id : Z;
  nd_number : Z;
  nd_parent : Z;
  nd_name : string;
  nd_path : string;
  nd_parent_resolved : option nat;
  nd_children : list nat;
  nd_isPivotSet : bool;
  nd_pivotPos : Vec3
}.

Definition set_parent_resolved (d : NodeDesc) (p : option nat) : NodeDesc :=
  mkNodeDesc (nd_type d) (nd_id d) (nd_number d) (nd_parent d) (nd_name d)
    (nd_path d) p (nd_children d) (nd_isPivotSet d) (nd_pivotPos d).

Definition push_child (d : NodeDesc) (c : nat) : NodeDesc :=
  mkNodeDesc (nd_type d) (nd_id d) (nd_number d) (nd_parent d) (nd_name d)
    (nd_path d) (nd_parent_resolved d) (nd_children d ++ [c])
    (nd_isPivotSet d) (nd_pivotPos d).

Definition set_parent (d : NodeDesc) (p : Z) : NodeDesc :=
  mkNodeDesc (nd_type d) (nd_id d) (nd_number d) p (nd_name d)
    (nd_path d) (nd_parent_resolved d) (nd_children d)
    (nd_isPivotSet d) (nd_pivotPos d).

Definition set_name (d : NodeDesc) (n : string) : NodeDesc :=
  mkNodeDesc (nd_type d) (nd_id d) (nd_number d) (nd_parent d) n
    (nd_path d) (nd_parent_resolved d) (nd_children d)
    (nd_isPivotSet d) (nd_pivotPos d).

(** [pivotPos = p; isPivotSet = true] *)
Definition set_pivot (d : NodeDesc) (p : Vec3) : NodeDesc :=
  mkNodeDesc (nd_type d) (nd_id d) (nd_number d) (nd_parent d) (nd_name d)
    (nd_path d) (nd_parent_resolved d) (nd_children d) true p.

(** Modelled from the spec: the constructor of [NodeDesc] is declared in
    LWSLoader.h, which is not among the sources; a new description has no
    pivot set and its pivot at the origin. *)
Definition no_pivot : Vec3 := (B32.zero, B32.zero, B32.zero).

(** Modelled from the spec: the values of the enumeration [NodeDesc::type]
    and [AI_LWS_MASK] are declared in LWSLoader.h, which is not among the
    sources; a node's id is its type in the top four bits above its
    number (lines 1198 and 1613). *)
Definition type_code (t : NodeType) : Z :=
  match t with OBJECT => 1 | LIGHT => 2 | CAMERA => 3 | BONE => 4 end.

Definition AI_LWS_MASK : Z := 268435455.

(** Modelled from the spec: [NodeDesc::operator==(unsigned int)] is declared
    in LWSLoader.h, which is not among the sources; a node is the declared
    parent when the parent reference equals the node's id, and the
    reference 0 names no node. *)
Definition node_matches (d : NodeDesc) (num : Z) : bool :=
  negb (num =? 0) && (Z.shiftr num 28 =? type_code (nd_type d))
  && (Z.land num AI_LWS_MASK =? nd_number d).

Section Hierarchy.
(** The test of line 1743: the node at [ndIt] is what [dit] names as parent. *)
Variable matches : NodeDesc -> Z -> bool.

Definition cross_reference : string := "LWS: Found cross reference in scene-graph".

(** The body of the inner loop (lines 1743-1752) for [ndIt] at position [i]
    and [dit] at position [j]. *)
Definition claim_child (i j : nat) (st : list NodeDesc * list string)
    : list NodeDesc * list string :=
  let '(nodes, log) := st in
  match nodes !! i, nodes !! j with
  | Some ni, Some nj =>
      if negb (j =? i)%nat && matches ni (nd_parent nj) then
        match nd_parent_resolved nj with
        | Some _ => (nodes, log ++ [cross_reference])
        | None =>
            (alter (fun d => set_parent_resolved d (Some i)) j
               (alter (fun d => push_child d j) i nodes), log)
        end
      else (nodes, log)
  | _, _ => (nodes, log)
  end.

(** The two nested loops that resolve parenting (lines 1740-1754). *)
Definition resolve_node (n : nat) (i : nat) (st : list NodeDesc * list string)
    : list NodeDesc * list string :=
  foldl (fun st j => claim_child i j st) st (seq 0 n).

Definition resolve_parenting (nodes : list NodeDesc) : list NodeDesc * list string :=
  foldl (fun st i => resolve_node (length nodes) i st) (nodes, []) (seq 0 (length nodes)).

(** The positions of the nodes without a resolved parent (lines 1757-1762
    and 1790-1791). *)
Definition is_root (d : NodeDesc) : bool :=
  match nd_parent_resolved d with None => true | Some _ => false end.

Fixpoint root_positions (i : nat) (nodes : list NodeDesc) : list nat :=
  match nodes with
  | [] => []
  | d :: rest =>
      if is_root d then i :: root_positions (S i) rest
      else root_positions (S i) rest
  end.

Definition no_parent (nodes : list NodeDesc) : nat :=
  length (root_positions 0 nodes).

End Hierarchy.


(** *** Reading the elements, loading the batch and building the graph *)

(** A request of the batch loader: the file and the layer property. *)
Record LoadRequest : Type := mkLoadRequest {
  lr_file : string;
  lr_layer : option Z
}.

Definition same_request (a b : LoadRequest) : bool :=
  String.eqb (lr_file a) (lr_file b)
  && match lr_layer a, lr_layer b with
     | None, None => true
     | Some x, Some y => x =? y
     | _, _ => false
     end.

Fixpoint find_request (r : LoadRequest) (reqs : list LoadRequest) (i : Z) : option Z :=
  match reqs with
  | [] => None
  | q :: rest => if same_request q r then Some i else find_request r rest (i + 1)
  end.

(** Modelled from the spec: [BatchLoader::AddLoadRequest] is not among the
    sources; a load request is keyed by the resolved path, identical requests
    are registered once, the id is the position of the request. *)
Definition AddLoadRequest (reqs : list LoadRequest) (r : LoadRequest)
    : Z * list LoadRequest :=
  match find_request r reqs 0 with
  | Some i => (i, reqs)
  | None => (Z.of_nat (length reqs), reqs ++ [r])
  end.

(** What the element loop (lines 1445-1737) keeps. *)
Record LoopState : Type := mkLoopState {
  ls_nodes : list NodeDesc;
  ls_requests : list LoadRequest;
  cur_light : Z;
  cur_camera : Z;
  cur_object : Z;
  num_light : Z;
  num_camera : Z
}.

Definition with_nodes (st : LoopState) (nodes : list NodeDesc) : LoopState :=
  mkLoopState nodes (ls_requests st) (cur_light st) (cur_camera st)
    (cur_object st) (num_light st) (num_camera st).

(** [nodes.back() = f (nodes.back())] *)
Definition alter_back (f : NodeDesc -> NodeDesc) (nodes : list NodeDesc) : list NodeDesc :=
  alter f (Nat.pred (length nodes)) nodes.

Definition back_type (nodes : list NodeDesc) : option NodeType :=
  match reverse nodes with
  | [] => None
  | d :: _ => Some (nd_type d)
  end.

(** The number of a new node: the explicit id of LWSC 4, or a counter. *)
Definition explicit_number (c : list ascii) : Z * list ascii :=
  let '(n, c) := strtoul16 c in (Z.land n AI_LWS_MASK, c).

Section Importer.
(** The reader of real numbers of the element loop. *)
Context `{FloatParser B32.t}.
(** [Sub] is the scene read from an external file. *)
Variable Sub : Type.
(** Modelled from the spec: [BatchLoader::LoadAll] and [GetImport] are not
    among the sources; [importer file layer] is the scene the reader
    dispatch produces for a registered file through the stream opener, and
    [None] when the file is missing or its import failed. *)
Variable importer : string -> option Z -> option Sub.
(** [obj->mRootNode->mNumChildren == 1] and the removal of that root
    (lines 1243-1261). *)
Variable single_child_root : Sub -> bool.
Variable drop_root : Sub -> Sub.
(** The members [a4], [b4] and [c4] of [obj->mRootNode->mTransformation]
    (lines 1247-1249). *)
Variable root_translation : Sub -> Vec3.
(** [io->Exists] and [io->getOsSeparator]. *)
Variable Exists : string -> bool.
Variable os_separator : ascii.

Definition GetImport (reqs : list LoadRequest) (id : Z) : option Sub :=
  match reqs !! Z.to_nat id with
  | None => None
  | Some r => importer (lr_file r) (lr_layer r)
  end.

(** [LWSImporter::FindLWOFile] (lines 1356-1387). *)
Definition FindLWOFile (inp : string) : string :=
  let char_is (i : nat) (c : ascii) :=
    match String.get i inp with
    | Some x => (x =? c)%char
    | None => false
    end in
  let tmp :=
    if (3 <? Z.of_nat (String.length inp))
       && char_is 1%nat ":"%char
       && negb (char_is 2%nat "\"%char)
       && negb (char_is 2%nat "/"%char)
    then String.append (String.substring 0 1 inp)
           (String.append ":\" (String.substring 2 (String.length inp - 2) inp))
    else inp in
  if Exists tmp then inp
  else
    let test := String.append ".." (String os_separator tmp) in
    if Exists test then test
    else
      let test := String.append ".." (String os_separator test) in
      if Exists test then test else tmp.

(** The iterator movement of [ReadEnvelope_Old] (lines 1154-1193): the
    elements left once the loop has stepped over the last one it read, or
    [None] when it ran into the end with elements still expected. *)
Fixpoint skip_keys (sub_num : nat) (rest : list Element) : option (list Element) :=
  match sub_num with
  | O => Some rest
  | S k =>
      match rest with
      | [] => None
      | _ :: rest' => skip_keys k rest'
      end
  end.

Fixpoint skip_channels (num : nat) (rest : list Element) : option (list Element) :=
  match num with
  | O => Some rest
  | S num' =>
      match rest with
      | [] => None
      | e :: rest' =>
          let sub_num := Z.to_nat (fst (strtoul10 (list_ascii_of_string (tokens0 e)))) in
          match skip_keys sub_num rest' with
          | None => None
          | Some r => skip_channels num' r
          end
      end
  end.

Definition ReadEnvelope_Old (rest : list Element) : option (list Element) :=
  match rest with
  | [] => None
  | e :: rest' =>
      skip_channels (Z.to_nat (fst (strtoul10 (list_ascii_of_string (tokens0 e))))) rest'
  end.

(** One pass of the element loop (lines 1445-1737) on element [e], followed
    by [rest].  The branches that only fill animation and light fields of
    [nodes.back()] leave the modelled state alone; messages of this loop are
    not recorded. *)
Definition read_element (version : Z) (motion_file : bool) (pFile : string)
    (e : Element) (rest : list Element) (st : LoopState)
    : outcome (LoopState * list Element) :=
  let key := tokens0 e in
  let c := list_ascii_of_string (tokens1 e) in
  let new_node (t : NodeType) (id number : Z) (name path : string) :=
    mkNodeDesc t id number 0 name path None [] false no_pivot in
  if String.eqb key "LoadObjectLayer" then
    let '(layer, c) := strtoul10 c in
    let '(number, c, st) :=
      if 4 <=? version then
        let '(n, c) := explicit_number (snd (SkipSpaces c)) in (n, c, st)
      else (cur_object st, c,
            mkLoopState (ls_nodes st) (ls_requests st) (cur_light st) (cur_camera st)
              (wrap32 (cur_object st + 1)) (num_light st) (num_camera st)) in
    let c := snd (SkipSpaces c) in
    let path := FindLWOFile (string_of_list_ascii c) in
    if String.eqb path "" then Throw "LWS: Invalid LoadObjectLayer: empty path."
    else if String.eqb path pFile then Throw "LWS: Invalid LoadObjectLayer: self reference."
    else
      let '(id, reqs) := AddLoadRequest (ls_requests st) (mkLoadRequest path (Some layer)) in
      Ret (mkLoopState (ls_nodes st ++ [new_node OBJECT id number "" path]) reqs
             (cur_light st) (cur_camera st) (cur_object st) (num_light st) (num_camera st),
           rest)
  else if String.eqb key "LoadObject" then
    let '(number, c, st) :=
      if 4 <=? version then
        let '(n, c) := explicit_number c in (n, snd (SkipSpaces c), st)
      else (cur_object st, c,
            mkLoopState (ls_nodes st) (ls_requests st) (cur_light st) (cur_camera st)
              (wrap32 (cur_object st + 1)) (num_light st) (num_camera st)) in
    let path := FindLWOFile (string_of_list_ascii c) in
    if String.eqb path "" then Throw "LWS: Invalid LoadObject: empty path."
    else if String.eqb path pFile then Throw "LWS: Invalid LoadObject: self reference."
    else
      let '(id, reqs) := AddLoadRequest (ls_requests st) (mkLoadRequest path None) in
      Ret (mkLoopState (ls_nodes st ++ [new_node OBJECT id number "" path]) reqs
             (cur_light st) (cur_camera st) (cur_object st) (num_light st) (num_camera st),
           rest)
  else if String.eqb key "AddNullObject" then
    let '(number, c, st) :=
      if 4 <=? version then
        let '(n, c) := explicit_number c in (n, snd (SkipSpaces c), st)
      else (cur_object st, c,
            mkLoopState (ls_nodes st) (ls_requests st) (cur_light st) (cur_camera st)
              (wrap32 (cur_object st + 1)) (num_light st) (num_camera st)) in
    Ret (with_nodes st (ls_nodes st ++ [new_node OBJECT 0 number (string_of_list_ascii c) ""]),
         rest)
  else if String.eqb key "Channel" then
    match ls_nodes st with
    | [] =>
        if motion_file then
          Ret (mkLoopState [new_node OBJECT 0 (cur_object st) (string_of_list_ascii c) ""]
                 (ls_requests st) (cur_light st) (cur_camera st)
                 (wrap32 (cur_object st + 1)) (num_light st) (num_camera st), rest)
        else Ret (st, rest)
    | _ :: _ => Ret (st, rest)
    end
  else if (version <? 3)
          && (String.eqb key "ObjectMotion" || String.eqb key "CameraMotion"
              || String.eqb key "LightMotion") then
    match ls_nodes st with
    | [] => Ret (st, rest)
    | _ :: _ =>
        match ReadEnvelope_Old rest with
        | None => Undefined
        | Some rest' => Ret (st, rest')
        end
    end
  else if String.eqb key "ParentItem" then
    Ret (with_nodes st (alter_back (fun d => set_parent d (fst (strtoul16 c))) (ls_nodes st)),
         rest)
  else if (version <? 3) && String.eqb key "ParentObject" then
    Ret (with_nodes st
           (alter_back (fun d => set_parent d (Z.lor (fst (strtoul10 c)) (Z.shiftl 1 28)))
              (ls_nodes st)),
         rest)
  else if String.eqb key "AddCamera" then
    let '(number, st) :=
      if 4 <=? version then (fst (explicit_number c), st)
      else (cur_camera st,
            mkLoopState (ls_nodes st) (ls_requests st) (cur_light st)
              (wrap32 (cur_camera st + 1)) (cur_object st) (num_light st) (num_camera st)) in
    Ret (mkLoopState (ls_nodes st ++ [new_node CAMERA 0 number "" ""]) (ls_requests st)
           (cur_light st) (cur_camera st) (cur_object st) (num_light st)
           (wrap32 (num_camera st + 1)), rest)
  else if String.eqb key "CameraName" then
    match back_type (ls_nodes st) with
    | Some CAMERA =>
        Ret (with_nodes st (alter_back (fun d => set_name d (string_of_list_ascii c))
                              (ls_nodes st)), rest)
    | _ => Ret (st, rest)
    end
  else if String.eqb key "AddLight" then
    let '(number, st) :=
      if 4 <=? version then (fst (explicit_number c), st)
      else (cur_light st,
            mkLoopState (ls_nodes st) (ls_requests st) (wrap32 (cur_light st + 1))
              (cur_camera st) (cur_object st) (num_light st) (num_camera st)) in
    Ret (mkLoopState (ls_nodes st ++ [new_node LIGHT 0 number "" ""]) (ls_requests st)
           (cur_light st) (cur_camera st) (cur_object st) (wrap32 (num_light st + 1))
           (num_camera st), rest)
  else if String.eqb key "LightName" then
    match back_type (ls_nodes st) with
    | Some LIGHT =>
        Ret (with_nodes st (alter_back (fun d => set_name d (string_of_list_ascii c))
                              (ls_nodes st)), rest)
    | _ => Ret (st, rest)
    end
  else if String.eqb key "PivotPosition" || String.eqb key "PivotPoint" then
    match ls_nodes st with
    | [] => Ret (st, rest)
    | _ :: _ =>
        let '(x, c) := fast_atoreal_move c in
        let c := snd (SkipSpaces c) in
        let '(y, c) := fast_atoreal_move c in
        let c := snd (SkipSpaces c) in
        let '(z, _) := fast_atoreal_move c in
        Ret (with_nodes st (alter_back (fun d => set_pivot d (x, y, z)) (ls_nodes st)),
             rest)
    end
  else Ret (st, rest).

(** The element loop. *)
Fixpoint read_elements (fuel : nat) (version : Z) (motion_file : bool)
    (pFile : string) (els : list Element) (st : LoopState) : outcome LoopState :=
  match fuel with
  | O => OutOfFuel
  | S fuel' =>
      match els with
      | [] => Ret st
      | e :: rest =>
          match read_element version motion_file pFile e rest st with
          | Ret (st', rest') => read_elements fuel' version motion_file pFile rest' st'
          | Throw m => Throw m
          | Undefined => Undefined
          | OutOfFuel => OutOfFuel
          end
      end
  end.

(** The name [SetupNodeName] gives a node: a text and the combined id that
    is printed behind it; [Pivot:] is put in front for the pivot node of
    an object (line 1266). *)
Record NodeName : Type := mkNodeName {
  nn_pivot : bool;
  nn_text : string;
  nn_combined : Z
}.

Fixpoint last_index_of (stop : ascii -> bool) (s : string) (i : nat) (found : option nat)
    : option nat :=
  match s with
  | EmptyString => found
  | String c s' => last_index_of stop s' (S i) (if stop c then Some i else found)
  end.

(** [SetupNodeName] (lines 1197-1220). *)
Definition SetupNodeName (src : NodeDesc) : NodeName :=
  let combined := Z.lor (nd_number src) (wrap32 (Z.shiftl (type_code (nd_type src)) 28)) in
  match nd_type src with
  | OBJECT =>
      if negb (String.eqb (nd_path src) "") then
        let path := nd_path src in
        let s := match last_index_of (fun c => (c =? "\")%char || (c =? "/")%char) path 0 None with
                 | None => 0%nat
                 | Some i => S i
                 end in
        let file := String.substring s (String.length path - s) path in
        let stem := match last_index_of (fun c => (c =? ".")%char) file 0 None with
                    | None => file
                    | Some t => String.substring 0 t file
                    end in
        mkNodeName false stem combined
      else mkNodeName false (nd_name src) combined
  | _ => mkNodeName false (nd_name src) combined
  end.

(** [aiNode]: its name, its translation and its children.  The translation
    is the one lines 1274-1276 write into the transformation of an
    attachment node; it is [None] for the other nodes, whose transformation
    is left as it is or is what [LWO::AnimResolver::ExtractBindPose] (not
    among the sources) extracts from the channels.  [an_desc] records the
    position of the description a node was built for (it is not a member of
    [aiNode]). *)
#[local] Unset Elimination Schemes.
Inductive aiNode : Type :=
| mk_aiNode (an_name : NodeName) (an_desc : option nat) (an_translation : option Vec3)
    (an_children : list aiNode).
#[local] Set Elimination Schemes.

Definition an_name (n : aiNode) : NodeName := let '(mk_aiNode a _ _ _) := n in a.
Definition an_desc (n : aiNode) : option nat := let '(mk_aiNode _ d _ _) := n in d.
Definition an_translation (n : aiNode) : option Vec3 :=
  let '(mk_aiNode _ _ t _) := n in t.
Definition an_children (n : aiNode) : list aiNode := let '(mk_aiNode _ _ _ c) := n in c.

(** What [BuildGraph] appends to: the attachments, the cameras and lights of
    the master scene, and the log. *)
Record GraphState : Type := mkGraphState {
  gs_attach : list (Sub * NodeName);
  gs_cameras : list NodeName;
  gs_lights : list NodeName;
  gs_log : list string
}.

Definition failed_to_read (path : string) : string :=
  String.append "LWS: Failed to read external file " path.

(** A loop that builds one node per position, threading the state
    (lines 1345-1350 and 1790-1799). *)
Fixpoint build_all (build : nat -> GraphState -> outcome (aiNode * GraphState))
    (cs : list nat) (st : GraphState) : outcome (list aiNode * GraphState) :=
  match cs with
  | [] => Ret ([], st)
  | c :: cs' =>
      match build c st with
      | Ret (n, st') =>
          match build_all build cs' st' with
          | Ret (ns, st'') => Ret (n :: ns, st'')
          | Throw m => Throw m
          | Undefined => Undefined
          | OutOfFuel => OutOfFuel
          end
      | Throw m => Throw m
      | Undefined => Undefined
      | OutOfFuel => OutOfFuel
      end
  end.

(** What [BuildGraph] does for the node itself (lines 1234-1324). *)
Definition visit_node (reqs : list LoadRequest) (src : NodeDesc) (st : GraphState)
    : GraphState :=
  let name := SetupNodeName src in
  match nd_type src with
  | OBJECT =>
      if negb (String.eqb (nd_path src) "") then
        match GetImport reqs (nd_id src) with
        | None =>
            mkGraphState (gs_attach st) (gs_cameras st) (gs_lights st)
              (gs_log st ++ [failed_to_read (nd_path src)])
        | Some obj =>
            let obj := if single_child_root obj then drop_root obj else obj in
            mkGraphState (gs_attach st ++ [(obj, name)]) (gs_cameras st)
              (gs_lights st) (gs_log st)
        end
      else st
  | LIGHT =>
      mkGraphState (gs_attach st) (gs_cameras st) (gs_lights st ++ [name]) (gs_log st)
  | CAMERA =>
      mkGraphState (gs_attach st) (gs_cameras st ++ [name]) (gs_lights st) (gs_log st)
  | BONE => st
  end.

(** The pivot of an object when its attachment node is set up (lines
    1241-1250): the pivot of the description, unless the description has
    none set and the object was read from a file whose root has a single
    child; the pivot is then taken from the transformation of that root. *)
Definition pivot_of (reqs : list LoadRequest) (src : NodeDesc) : Vec3 :=
  if negb (String.eqb (nd_path src) "") then
    match GetImport reqs (nd_id src) with
    | None => nd_pivotPos src
    | Some obj =>
        if single_child_root obj && negb (nd_isPivotSet src) then
          let '(a4, b4, c4) := root_translation obj in (a4, b4, SFopp c4)
        else nd_pivotPos src
    end
  else nd_pivotPos src.

(** The translation of the attachment node (lines 1274-1276). *)
Definition attachment_translation (pivot : Vec3) : Vec3 :=
  let '(x, y, z) := pivot in (SFopp x, SFopp y, SFopp z).

(** [LWSImporter::BuildGraph] (lines 1224-1352) for the description at
    position [i].  The animation channels and the transformation that
    [LWO::AnimResolver] (not among the sources) extracts for the node itself
    are not modelled; the pivot written to [src] is read in this call
    only. *)
Fixpoint BuildGraph (fuel : nat) (nodes : list NodeDesc) (reqs : list LoadRequest)
    (i : nat) (st : GraphState) : outcome (aiNode * GraphState) :=
  match fuel with
  | O => OutOfFuel
  | S fuel' =>
      match nodes !! i with
      | None => Undefined
      | Some src =>
          let name := SetupNodeName src in
          match build_all (BuildGraph fuel' nodes reqs) (nd_children src)
                  (visit_node reqs src st) with
          | Ret (ns, st2) =>
              match nd_type src with
              | OBJECT =>
                  Ret (mk_aiNode (mkNodeName true (nn_text name) (nn_combined name)) (Some i)
                         None
                         [mk_aiNode name None
                            (Some (attachment_translation (pivot_of reqs src))) ns], st2)
              | _ => Ret (mk_aiNode name (Some i) None ns, st2)
              end
          | Throw m => Throw m
          | Undefined => Undefined
          | OutOfFuel => OutOfFuel
          end
      end
  end.

(** The loop over the roots (lines 1790-1799). *)
Definition build_roots (fuel : nat) (nodes : list NodeDesc) (reqs : list LoadRequest)
    (roots : list nat) (st : GraphState) : outcome (list aiNode * GraphState) :=
  build_all (BuildGraph fuel nodes reqs) roots st.

(** The master scene before [SceneCombiner::MergeScenes] splices the
    attachments in: the graph under [<LWSRoot>] and what [BuildGraph]
    collected. *)
Record Master : Type := mkMaster {
  ms_root : aiNode;
  ms_state : GraphState
}.

Definition no_root : string := "LWS: Unable to find scene root node".

(** The part of [InternReadFile] behind the element loop (lines 1739-1799):
    parenting, the count of roots, the batch and the master graph. *)
Definition build_master (fuel : nat) (nodes : list NodeDesc)
    (reqs : list LoadRequest) : outcome Master :=
  let '(nodes, log) := resolve_parenting node_matches nodes in
  if (no_parent nodes =? 0)%nat then Throw no_root
  else
    match build_roots fuel nodes reqs (root_positions 0 nodes)
            (mkGraphState [] [] [] log) with
    | Ret (ns, st) =>
        Ret (mkMaster (mk_aiNode (mkNodeName false "<LWSRoot>" 0) None None ns) st)
    | Throw m => Throw m
    | Undefined => Undefined
    | OutOfFuel => OutOfFuel
    end.

(** [LWSImporter::InternReadFile] (lines 1391-1838) up to the master graph.
    [file] is the content of [pFile], [None] when it cannot be opened;
    [Ret None] is the return of line 1436, which leaves the scene empty. *)
Definition InternReadFile (fuel : nat) (pFile : string) (file : option (list ascii))
    : outcome (option Master) :=
  match file with
  | None => Throw (String.append "Failed to open LWS file " (String.append pFile "."))
  | Some mBuffer =>
      match Parse fuel mBuffer 0 [] with
      | Ret (_, els) =>
          match els with
          | [] => Undefined
          | first :: rest =>
              let motion_file := String.eqb (tokens0 first) "LWMO" in
              if negb (String.eqb (tokens0 first) "LWSC") && negb motion_file
              then Throw "LWS: Not a LightWave scene, magic tag LWSC not found"
              else
                match rest with
                | [] => Ret None
                | v :: _ =>
                    if String.eqb (tokens0 v) "" then Ret None
                    else
                      let version := fst (strtoul10 (list_ascii_of_string (tokens0 v))) in
                      match read_elements (S (length rest)) version motion_file pFile rest
                              (mkLoopState [] [] 0 0 0 0 0) with
                      | Ret st =>
                          match build_master fuel (ls_nodes st) (ls_requests st) with
                          | Ret m => Ret (Some m)
                          | Throw m => Throw m
                          | Undefined => Undefined
                          | OutOfFuel => OutOfFuel
                          end
                      | Throw m => Throw m
                      | Undefined => Undefined
                      | OutOfFuel => OutOfFuel
                      end
                end
          end
      | Throw m => Throw m
      | Undefined => Undefined
      | OutOfFuel => OutOfFuel
      end
  end.

End Importer.

End LWS.

(** ** STL: detection of the binary flavour and [LoadBinaryFile] *)

Module STL.
Import Scanner.

#[local] Open Scope string_scope.
#[local] Open Scope Z_scope.
#[local] Open Scope list_scope.

(** The buffer is the content of the file, one [ascii] per [char]; the
    terminator [TextFileToBuffer] appends is the end of the list. *)
Definition byte_at (buf : list ascii) (i : nat) : Z :=
  Z.of_nat (nat_of_ascii (nth i buf NUL)).

(** [memcpy] of a [uint32_t] and of a [uint16_t], low byte first. *)
Definition read_u32 (buf : list ascii) (i : nat) : Z :=
  byte_at buf i + 256 * byte_at buf (i + 1) + 65536 * byte_at buf (i + 2)
  + 16777216 * byte_at buf (i + 3).

Definition read_u16 (buf : list ascii) (i : nat) : Z :=
  byte_at buf i + 256 * byte_at buf (i + 1).

(** The [float] a 32 bit pattern stands for. *)
Definition float_of_bits (w : Z) : B32.t :=
  let s := Z.testbit w 31 in
  let e := Z.land (Z.shiftr w 23) 255 in
  let m := Z.land w 8388607 in
  if e =? 0 then
    match m with
    | Z.pos p => S754_finite s p (-149)
    | _ => S754_zero s
    end
  else if e =? 255 then
    if m =? 0 then S754_infinity s else S754_nan
  else S754_finite s (Z.to_pos (m + 8388608)) (e - 150).

Definition read_float (buf : list ascii) (i : nat) : B32.t :=
  float_of_bits (read_u32 buf i).

(** [aiVector3D], [aiColor4D] *)
Definition Vec3 : Type := B32.t * B32.t * B32.t.
Definition Color : Type := B32.t * B32.t * B32.t * B32.t.

(** [memcpy(&theVec3F, theVec, sizeof(aiVector3f))] *)
Definition read_vec (buf : list ascii) (i : nat) : Vec3 :=
  (read_float buf i, read_float buf (i + 4), read_float buf (i + 8)).

(** [IsBinarySTL] (lines 76-87); [fileSize] is a [size_t]. *)
Definition IsBinarySTL (buffer : list ascii) (fileSize : Z) : bool :=
  if fileSize <? 84 then false
  else
    let faceCount := read_u32 buffer 80 in
    let expectedBinaryFileSize := wrap32 (faceCount * 50 + 84) in
    expectedBinaryFileSize =? fileSize.

Definition BufferSize : Z := 500.
Definition UnicodeBoundary : Z := 127.

(** The value of a [char] in a comparison: [char] is signed or not. *)
Definition char_value (char_signed : bool) (c : ascii) : Z :=
  let n := Z.of_nat (nat_of_ascii c) in
  if char_signed && (127 <? n) then n - 256 else n.

(** The loop of lines 111-116 over [buffer[0]], ..., [buffer[BufferSize - 1]],
    with [todo] bytes left to look at.  The end of the list is the
    terminator of the buffer, which is read as any other byte; [None] stands
    for a read behind it, outside the buffer. *)
Fixpoint ascii_bytes (char_signed : bool) (buffer : list ascii) (todo : nat)
    : option bool :=
  match todo with
  | O => Some true
  | S todo' =>
      match buffer with
      | c :: rest =>
          if UnicodeBoundary <? char_value char_signed c then Some false
          else ascii_bytes char_signed rest todo'
      | [] =>
          match todo' with
          | O => Some true
          | S _ => None
          end
      end
  end.

(** [IsAsciiSTL] (lines 95-123); [None] when the loop over the first
    [BufferSize] bytes behind the leading blanks leaves the buffer. *)
Definition IsAsciiSTL (char_signed : bool) (buffer : list ascii) (fileSize : Z)
    : option bool :=
  if IsBinarySTL buffer fileSize then Some false
  else
    let '(ok, buffer') := SkipSpaces buffer in
    if negb ok then Some false
    else
      let skipped := Z.of_nat (length buffer - length buffer') in
      if fileSize <=? skipped + 5 then Some false
      else
        let isASCII := strncmp_eq buffer' "solid" in
        if isASCII && (BufferSize <=? fileSize) then
          ascii_bytes char_signed buffer' (Z.to_nat BufferSize)
        else Some isASCII.

Record aiMesh : Type := mk_aiMesh {
  mName : string;
  mNumFaces : Z;
  mNumVertices : Z;
  mVertices : list Vec3;
  mNormals : list Vec3;
  mColors : option (list Color);
  mFaces : list (list Z);
  mMaterialIndex : Z
}.

Record aiNode : Type := mk_aiNode {
  nName : string;
  nMeshes : list Z
}.

Record aiScene : Type := mk_aiScene {
  mRootName : string;
  mChildren : list aiNode;
  mMeshes : list aiMesh;
  (** [bMatClr]: the default material takes the colour of the file. *)
  mMatClr : option Color
}.

(** [addFacesToMesh] (lines 151-161). *)
Fixpoint faces_from (mNumFaces : nat) (p : Z) : list (list Z) :=
  match mNumFaces with
  | O => []
  | S n => [p; wrap32 (p + 1); wrap32 (p + 2)] :: faces_from n (wrap32 (p + 3))
  end.

Definition addFacesToMesh (mNumFaces : Z) : list (list Z) :=
  faces_from (Z.to_nat mNumFaces) 0.

(** One pass of the search for [COLOR=] (lines 418-419): the comparisons
    stop at the first mismatch, each of them steps over one byte. *)
Fixpoint match_pattern (pat : list ascii) (buf : list ascii) (pos : nat) : bool * nat :=
  match pat with
  | [] => (true, pos)
  | p :: pat' =>
      if (nth pos buf NUL =? p)%char then match_pattern pat' buf (S pos)
      else (false, S pos)
  end.

Fixpoint find_color (fuel : nat) (buf : list ascii) (pos : nat) : option nat :=
  match fuel with
  | O => None
  | S fuel' =>
      if (80 <=? pos)%nat then None
      else
        let '(found, pos') := match_pattern (list_ascii_of_string "COLOR=") buf pos in
        if found then Some pos' else find_color fuel' buf pos'
  end.

Definition byte_to_unit (buf : list ascii) (i : nat) : B32.t :=
  B32.mul (B32.of_Z (byte_at buf i)) (B32.div B32.one (B32.of_Z 255)).

(** The colour of a facet (lines 512-524). *)
Definition facet_color (bIsMaterialise : bool) (color : Z) : Color :=
  let invVal := B32.div B32.one (B32.of_Z 31) in
  let c0 := B32.mul (B32.of_Z (Z.land color 31)) invVal in
  let c1 := B32.mul (B32.of_Z (Z.shiftr (Z.land color 992) 5)) invVal in
  let c2 := B32.mul (B32.of_Z (Z.shiftr (Z.land color 31744) 10)) invVal in
  if bIsMaterialise then (c0, c1, c2, B32.one) else (c2, c1, c0, B32.one).

(** The loop over the facets (lines 456-529): [i] is the facet, [todo] the
    number of facets left. *)
Fixpoint read_facets (buf : list ascii) (bIsMaterialise : bool) (clrDefault : Color)
    (mNumVertices : Z) (todo : nat) (i : nat)
    (vp vn : list Vec3) (colors : option (list Color))
    : list Vec3 * list Vec3 * option (list Color) :=
  match todo with
  | O => (vp, vn, colors)
  | S todo' =>
      let sz := (84 + 50 * i)%nat in
      let n := read_vec buf sz in
      let vn := vn ++ [n; n; n] in
      let vp := vp ++ [read_vec buf (sz + 12); read_vec buf (sz + 24);
                       read_vec buf (sz + 36)] in
      let color := read_u16 buf (sz + 48) in
      let colors :=
        if Z.testbit color 15 then
          let cs := match colors with
                    | Some cs => cs
                    | None => replicate (Z.to_nat mNumVertices) clrDefault
                    end in
          let clr := facet_color bIsMaterialise color in
          Some (<[(i * 3 + 2)%nat := clr]> (<[(i * 3 + 1)%nat := clr]> (<[(i * 3)%nat := clr]> cs)))
        else colors in
      read_facets buf bIsMaterialise clrDefault mNumVertices todo' (S i) vp vn colors
  end.

(** [STLImporter::LoadBinaryFile] (lines 400-556): the scene and the result
    [bMatClr] with the colour read from the header. *)
Definition LoadBinaryFile (mBuffer : list ascii) (mFileSize : Z) : outcome aiScene :=
  if mFileSize <? 84 then Throw "STL: file is too small for the header"
  else
    let gray := B32.lit 6 10 in
    let '(bIsMaterialise, mClrColorDefault) :=
      match find_color 80 mBuffer 0 with
      | Some p =>
          (true, (byte_to_unit mBuffer p, byte_to_unit mBuffer (p + 1),
                  byte_to_unit mBuffer (p + 2), byte_to_unit mBuffer (p + 3)))
      | None => (false, (gray, gray, gray, gray))
      end in
    let mNumFaces := read_u32 mBuffer 80 in
    if mFileSize <? 84 + mNumFaces * 50
    then Throw "STL: file is too small to hold all facets"
    else if mNumFaces =? 0
    then Throw "STL: file is empty. There are no facets defined"
    else
      let mNumVertices := wrap32 (mNumFaces * 3) in
      let '(vp, vn, colors) :=
        read_facets mBuffer bIsMaterialise mClrColorDefault mNumVertices
          (Z.to_nat mNumFaces) 0 [] [] None in
      let pMesh :=
        mk_aiMesh "" mNumFaces mNumVertices vp vn colors (addFacesToMesh mNumFaces) 0 in
      Ret (mk_aiScene "<STL_BINARY>" [mk_aiNode "" [0]] [pMesh]
             (if bIsMaterialise && negb (bool_decide (is_Some colors))
              then Some mClrColorDefault else None)).

Section Ascii.
(** The reader of real numbers of the ASCII flavour. *)
Context `{FloatParser B32.t}.

(** Modelled from the spec: [AI_MAXLEN] is declared in types.h, which is not
    among the sources; the capacity of an [aiString]. *)
Definition AI_MAXLEN : Z := 1024.

Definition read_vec3 (sz : list ascii) : Vec3 * list ascii :=
  let sz := snd (SkipSpaces sz) in
  let '(x, sz) := fast_atoreal_move sz in
  let sz := snd (SkipSpaces sz) in
  let '(y, sz) := fast_atoreal_move sz in
  let sz := snd (SkipSpaces sz) in
  let '(z, sz) := fast_atoreal_move sz in
  ((x, y, z), sz).

(** The loop over the tokens of one solid (lines 271-337). *)
Fixpoint read_solid (fuel : nat) (sz : list ascii) (faceVertexCounter : Z)
    (positionBuffer normalBuffer : list Vec3)
    : outcome (list ascii * list Vec3 * list Vec3) :=
  match fuel with
  | O => OutOfFuel
  | S fuel' =>
      let '(more, sz) := SkipSpacesAndLineEnd sz in
      if negb more then Ret (sz, positionBuffer, normalBuffer)
      else if strncmp_eq sz "facet" && IsSpaceOrNewLine (peek (drop 5 sz))
              && negb (peek (drop 5 sz) =? NUL)%char then
        let sz := snd (SkipSpaces (drop 6 sz)) in
        if negb (strncmp_eq sz "normal") then
          read_solid fuel' sz 0 positionBuffer normalBuffer
        else if (peek (drop 6 sz) =? NUL)%char
        then Throw "STL: unexpected EOF while parsing facet"
        else
          let '(vn, sz) := read_vec3 (drop 7 sz) in
          read_solid fuel' sz 0 positionBuffer (normalBuffer ++ [vn; vn; vn])
      else if strncmp_eq sz "vertex" && IsSpaceOrNewLine (peek (drop 6 sz)) then
        if 3 <=? faceVertexCounter then
          read_solid fuel' (drop 1 sz) faceVertexCounter positionBuffer normalBuffer
        else if (peek (drop 6 sz) =? NUL)%char
        then Throw "STL: unexpected EOF while parsing facet"
        else
          let '(v, sz) := read_vec3 (drop 7 sz) in
          read_solid fuel' sz (faceVertexCounter + 1) (positionBuffer ++ [v]) normalBuffer
      else if strncmp_eq sz "endsolid" then
        let sz := snd (LWS.take_until IsLineEnd (drop 1 sz)) in
        Ret (snd (SkipSpacesAndLineEnd sz), positionBuffer, normalBuffer)
      else
        read_solid fuel' (snd (LWS.take_until IsSpaceOrNewLine (drop 1 sz)))
          faceVertexCounter positionBuffer normalBuffer
  end.

(** What the loop over the solids (lines 238-382) has built. *)
Record AsciiState : Type := mkAsciiState {
  as_root : string;
  as_meshes : list aiMesh;
  as_nodes : list aiNode;
  as_positions : list Vec3;
  as_normals : list Vec3
}.

(** [STLImporter::LoadASCIIFile] (lines 224-396): the loop over the solids. *)
Fixpoint read_solids (fuel : nat) (char_signed : bool) (sz : list ascii)
    (st : AsciiState) : outcome AsciiState :=
  match fuel with
  | O => OutOfFuel
  | S fuel' =>
      match IsAsciiSTL char_signed sz (wrap32 (Z.of_nat (length sz))) with
      | None => Undefined
      | Some false => Ret st
      | Some true =>
        let sz := snd (SkipSpaces (drop 5 (snd (SkipSpaces sz)))) in
        let '(name, sz) := LWS.take_until IsSpaceOrNewLine sz in
        let temp := Z.of_nat (length name) in
        if negb (temp =? 0) && (AI_MAXLEN <=? temp) then Throw "STL: Node name too long"
        else
          let name := string_of_list_ascii name in
          let root := if temp =? 0 then "<STL_ASCII>" else as_root st in
          match read_solid (S (length sz)) sz 3 (as_positions st) (as_normals st) with
          | Ret (sz, positionBuffer, normalBuffer) =>
              if negb (Z.of_nat (length positionBuffer) mod 3 =? 0)
              then Throw "STL: Invalid number of vertices"
              else if negb (length normalBuffer =? length positionBuffer)%nat
              then Throw "Normal buffer size does not match position buffer size"
              else
                let n := Z.of_nat (length positionBuffer) in
                let pMesh :=
                  mk_aiMesh name (wrap32 (n / 3)) (wrap32 n) positionBuffer normalBuffer
                    None (addFacesToMesh (wrap32 (n / 3))) 0 in
                read_solids fuel' char_signed sz
                  (mkAsciiState root (as_meshes st ++ [pMesh])
                     (as_nodes st ++ [mk_aiNode name [Z.of_nat (length (as_meshes st))]])
                     [] [])
          | Throw m => Throw m
          | Undefined => Undefined
          | OutOfFuel => OutOfFuel
          end
      end
  end.

Definition LoadASCIIFile (char_signed : bool) (mBuffer : list ascii) : outcome aiScene :=
  match read_solids (S (length mBuffer)) char_signed mBuffer
          (mkAsciiState "" [] [] [] []) with
  | Ret st => Ret (mk_aiScene (as_root st) (as_nodes st) (as_meshes st) None)
  | Throw m => Throw m
  | Undefined => Undefined
  | OutOfFuel => OutOfFuel
  end.

(** [STLImporter::InternReadFile] (lines 165-220); [file] is the content of
    the file, [None] when it cannot be opened. *)
Definition InternReadFile (char_signed : bool) (pFile : string)
    (file : option (list ascii)) : outcome aiScene :=
  match file with
  | None => Throw (String.append "Failed to open STL file " (String.append pFile "."))
  | Some mBuffer =>
      let mFileSize := Z.of_nat (length mBuffer) in
      if IsBinarySTL mBuffer mFileSize then LoadBinaryFile mBuffer mFileSize
      else
        match IsAsciiSTL char_signed mBuffer mFileSize with
        | None => Undefined
        | Some true => LoadASCIIFile char_signed mBuffer
        | Some false =>
            Throw (String.append "Failed to determine STL storage representation for "
                     (String.append pFile "."))
        end
  end.

End Ascii.

End STL.

(** ** AC3D: object sections and their conversion *)

Module AC3D.
Import Scanner.

#[local] Open Scope string_scope.
#[local] Open Scope Z_scope.
#[local] Open Scope list_scope.

(** [aiVector3D], [aiVector2D] *)
Definition Vec3 : Type := B32.t * B32.t * B32.t.
Definition Vec2 : Type := B32.t * B32.t.

Definition vadd (a b : Vec3) : Vec3 :=
  let '(ax, ay, az) := a in
  let '(bx, by_, bz) := b in
  (B32.add ax bx, B32.add ay by_, B32.add az bz).

Definition vzero : Vec3 := (B32.zero, B32.zero, B32.zero).

(** [Surface]: its material, flags and entries (vertex index, UV). *)
Record Surface : Type := mkSurface {
  mat : Z;
  flags : Z;
  entries : list (Z * Vec2)
}.

(** Modelled from the spec: the constants of [Surface] and [Surface::GetType]
    are declared in ACLoader.h, which is not among the sources; the type of
    a surface is the low nibble of its flags, unknown types are coerced to
    polygons (lines 515-518). *)
Definition Mask : Z := 15.
Definition Polygon : Z := 0.
Definition ClosedLine : Z := 1.
Definition OpenLine : Z := 2.
Definition TriangleStrip : Z := 4.
Definition GetType (s : Surface) : Z := Z.land (flags s) Mask.

Definition ACDoubleSidedFlag : Z := 32.

Inductive ObjectType : Type := World | Poly | Group | Light.

(** A name: a text, or a prefix with a number printed behind it
    ([ACLight_%i] and the like). *)
Inductive Name : Type :=
| Text (s : string)
| Numbered (prefix : string) (i : Z).

Definition name_is_empty (n : Name) : bool :=
  match n with
  | Text s => String.eqb s ""
  | Numbered _ _ => false
  end.

(** [AC3DImporter::Object] *)
#[local] Unset Elimination Schemes.
Inductive Object : Type :=
| mkObject (type : ObjectType) (name : Name) (children : list Object)
    (textures : list string) (texRepeat texOffset : Vec2)
    (rotation : list B32.t) (translation : Vec3)
    (vertices : list Vec3) (surfaces : list Surface)
    (numRefs subDiv : Z) (crease : B32.t).
#[local] Set Elimination Schemes.

Definition o_type (o : Object) : ObjectType :=
  let '(mkObject t _ _ _ _ _ _ _ _ _ _ _ _) := o in t.
Definition o_name (o : Object) : Name :=
  let '(mkObject _ n _ _ _ _ _ _ _ _ _ _ _) := o in n.
Definition o_children (o : Object) : list Object :=
  let '(mkObject _ _ c _ _ _ _ _ _ _ _ _ _) := o in c.
Definition o_textures (o : Object) : list string :=
  let '(mkObject _ _ _ t _ _ _ _ _ _ _ _ _) := o in t.
Definition o_translation (o : Object) : Vec3 :=
  let '(mkObject _ _ _ _ _ _ _ t _ _ _ _ _) := o in t.
Definition o_vertices (o : Object) : list Vec3 :=
  let '(mkObject _ _ _ _ _ _ _ _ v _ _ _ _) := o in v.
Definition o_surfaces (o : Object) : list Surface :=
  let '(mkObject _ _ _ _ _ _ _ _ _ s _ _ _) := o in s.
Definition o_numRefs (o : Object) : Z :=
  let '(mkObject _ _ _ _ _ _ _ _ _ _ n _ _) := o in n.
Definition o_subDiv (o : Object) : Z :=
  let '(mkObject _ _ _ _ _ _ _ _ _ _ _ d _) := o in d.

(** The default [Object]: a world without a name (ACLoader.h). *)
Definition default_object : Object :=
  mkObject World (Text "") [] [] (B32.one, B32.one) (B32.zero, B32.zero) [] vzero [] [] 0 0
    B32.zero.

(** [aiMesh]: faces and vertices in the order they are written; a face that
    was allocated and never written has no indices. *)
Record aiMesh : Type := mk_aiMesh {
  mNumFaces : Z;
  mNumVertices : Z;
  mFaces : list (list Z);
  mVertices : list Vec3;
  mTextureCoords : option (list Vec2);
  mMaterialIndex : Z
}.

(** [aiNode]: [mMeshes] has [mNumMeshes] slots, [None] is a slot of the
    array that was allocated and never written. *)
#[local] Unset Elimination Schemes.
Inductive aiNode : Type :=
| mk_aiNode (mName : Name) (mMeshes : list (option Z)) (mChildren : list aiNode).
#[local] Set Elimination Schemes.

Definition n_name (n : aiNode) : Name := let '(mk_aiNode a _ _) := n in a.
Definition n_meshes (n : aiNode) : list (option Z) := let '(mk_aiNode _ m _) := n in m.
Definition n_children (n : aiNode) : list aiNode := let '(mk_aiNode _ _ c) := n in c.

(** The pass over the surfaces that validates the vertex references and
    counts faces and vertices per material (lines 471-528). *)
Definition validate_entries (nverts : Z) (es : list (Z * Vec2)) : list (Z * Vec2) :=
  map (fun e => if nverts <=? fst e then (0, snd e) else e) es.

Definition count_surface (nverts : Z) (needMat : list (Z * Z)) (mNumMeshes : Z)
    (s : Surface) : Surface * list (Z * Z) * Z :=
  let idx := if Z.of_nat (length needMat) <=? mat s then 0 else mat s in
  let isDoubleSided := ACDoubleSidedFlag =? Z.land (flags s) ACDoubleSidedFlag in
  let doubleSidedFactor := if isDoubleSided then 2 else 1 in
  let es := validate_entries nverts (entries s) in
  let size := Z.of_nat (length es) in
  let first := match needMat !! Z.to_nat idx with Some p => fst p | None => 0 end in
  let mNumMeshes := if first =? 0 then wrap32 (mNumMeshes + 1) else mNumMeshes in
  let t := GetType s in
  let '(df, dv, fl) :=
    if t =? ClosedLine then (wrap32 size, wrap32 (Z.shiftl size 1), flags s)
    else if t =? OpenLine then (wrap32 (size - 1), wrap32 (Z.shiftl (size - 1) 1), flags s)
    else if t =? TriangleStrip then
      (wrap32 (wrap32 (size - 2) * doubleSidedFactor),
       wrap32 (wrap32 (size - 2) * 3 * doubleSidedFactor), flags s)
    else if t =? Polygon then
      (doubleSidedFactor, wrap32 (wrap32 size * doubleSidedFactor), flags s)
    else
      (doubleSidedFactor, wrap32 (wrap32 size * doubleSidedFactor),
       Z.land (flags s) (Z.lnot Mask)) in
  (mkSurface (mat s) fl es,
   alter (fun p => (wrap32 (fst p + df), wrap32 (snd p + dv))) (Z.to_nat idx) needMat,
   mNumMeshes).

Fixpoint count_surfaces (nverts : Z) (ss : list Surface) (needMat : list (Z * Z))
    (mNumMeshes : Z) : list Surface * list (Z * Z) * Z :=
  match ss with
  | [] => ([], needMat, mNumMeshes)
  | s :: rest =>
      let '(s', needMat, mNumMeshes) := count_surface nverts needMat mNumMeshes s in
      let '(rest', needMat, mNumMeshes) := count_surfaces nverts rest needMat mNumMeshes in
      (s' :: rest', needMat, mNumMeshes)
  end.

(** What the second pass has written into the mesh of one material: the
    faces, the vertices, the UVs and [cur].  A write behind the allocated
    arrays is reported when the mesh is complete. *)
Record Fill : Type := mkFill {
  f_faces : list (list Z);
  f_verts : list Vec3;
  f_uvs : list Vec2;
  f_cur : Z
}.

(** [object.vertices[i]] *)
Definition vertex_at (vs : list Vec3) (i : Z) : option Vec3 := vs !! Z.to_nat i.

(** [buildBacksideOfFace] (lines 143-156) for the face written last. *)
Definition buildBacksideOfFace (origFace : list Z) (f : Fill) : outcome Fill :=
  let newFace := reverse origFace in
  let step (acc : outcome (list Z * Fill)) (ix : Z) : outcome (list Z * Fill) :=
    match acc with
    | Ret (face, f) =>
        match f_verts f !! Z.to_nat ix with
        | None => Undefined
        | Some v =>
            let uvs := match f_uvs f !! Z.to_nat ix with
                       | Some u => f_uvs f ++ [u]
                       | None => f_uvs f
                       end in
            Ret (face ++ [f_cur f],
                 mkFill (f_faces f) (f_verts f ++ [v]) uvs (wrap32 (f_cur f + 1)))
        end
    | other => other
    end in
  match foldl step (Ret ([], f)) newFace with
  | Ret (face, f) => Ret (mkFill (f_faces f ++ [face]) (f_verts f) (f_uvs f) (f_cur f))
  | Throw m => Throw m
  | Undefined => Undefined
  | OutOfFuel => OutOfFuel
  end.

Definition invalid_number : string := "AC3D: Invalid number of vertices".

(** Writing one vertex through [vertices] and [uv]. *)
Definition put_vertex (has_uv : bool) (v : Vec3) (u : Vec2) (f : Fill) : Fill :=
  mkFill (f_faces f) (f_verts f ++ [v]) (if has_uv then f_uvs f ++ [u] else f_uvs f)
    (f_cur f).

(** The polygon branch (lines 580-604). *)
Fixpoint fill_polygon (object_vertices : list Vec3) (translation : Vec3) (has_uv : bool)
    (mNumVertices : Z) (es : list (Z * Vec2)) (face : list Z) (f : Fill)
    : outcome (list Z * Fill) :=
  match es with
  | [] => Ret (face, f)
  | (ix, u) :: rest =>
      let cur := f_cur f in
      if mNumVertices <=? wrap32 (Z.of_nat (length (f_verts f))) then Throw invalid_number
      else
        match vertex_at object_vertices ix with
        | None => Undefined
        | Some v =>
            let f := put_vertex has_uv (vadd v translation) u f in
            fill_polygon object_vertices translation has_uv mNumVertices rest
              (face ++ [cur])
              (mkFill (f_faces f) (f_verts f) (f_uvs f) (wrap32 (cur + 1)))
        end
  end.

(** The triangle strip branch (lines 605-655): [i] is the position of the
    first entry of the triangle. *)
Fixpoint fill_strip (object_vertices : list Vec3) (translation : Vec3) (has_uv : bool)
    (isDoubleSided : bool) (mNumVertices : Z) (es : list (Z * Vec2)) (i : Z) (f : Fill)
    : outcome Fill :=
  match es with
  | e1 :: ((e2 :: e3 :: _) as rest) =>
      let cur := f_cur f in
      let face := [cur; wrap32 (cur + 1); wrap32 (cur + 2)] in
      let f := mkFill (f_faces f) (f_verts f) (f_uvs f) (wrap32 (cur + 3)) in
      let '(a, b) := if Z.testbit i 0 then (e2, e1) else (e1, e2) in
      match vertex_at object_vertices (fst a), vertex_at object_vertices (fst b),
            vertex_at object_vertices (fst e3) with
      | Some va, Some vb, Some v3 =>
          let f := put_vertex has_uv (vadd va translation) (snd a) f in
          let f := put_vertex has_uv (vadd vb translation) (snd b) f in
          if mNumVertices <=? wrap32 (Z.of_nat (length (f_verts f))) then Throw invalid_number
          else
            let f := put_vertex has_uv (vadd v3 translation) (snd e3) f in
            let f := mkFill (f_faces f ++ [face]) (f_verts f) (f_uvs f) (f_cur f) in
            let r := if isDoubleSided then buildBacksideOfFace face f else Ret f in
            match r with
            | Ret f =>
                fill_strip object_vertices translation has_uv isDoubleSided mNumVertices
                  rest (i + 1) f
            | other => other
            end
      | _, _, _ => Undefined
      end
  | _ => Ret f
  end.

(** The line branch (lines 656-700): [m] counts the segments written, [it2]
    is the rest of the entries. *)
Fixpoint fill_lines (object_vertices : list Vec3) (has_uv : bool) (closed : bool)
    (all : list (Z * Vec2)) (tmp : Z) (todo : nat) (m : Z) (it2 : list (Z * Vec2))
    (f : Fill) : outcome Fill :=
  match todo with
  | O => Ret f
  | S todo' =>
      let cur := f_cur f in
      let face := [cur; wrap32 (cur + 1)] in
      let f := mkFill (f_faces f ++ [face]) (f_verts f) (f_uvs f) (wrap32 (cur + 2)) in
      match it2 with
      | [] => Throw "AC3D: Bad line"
      | e :: it2' =>
          match vertex_at object_vertices (fst e) with
          | None => Undefined
          | Some v =>
              let f := put_vertex has_uv v (snd e) f in
              let it2 := if closed && (tmp - 1 =? m) then all else it2' in
              match it2 with
              | [] => Undefined
              | e' :: _ =>
                  match vertex_at object_vertices (fst e') with
                  | None => Undefined
                  | Some v' =>
                      fill_lines object_vertices has_uv closed all tmp todo' (m + 1) it2
                        (put_vertex has_uv v' (snd e') f)
                  end
              end
          end
      end
  end.

(** The second pass over the surfaces for the material [m] (lines 573-702). *)
Fixpoint fill_surfaces (object_vertices : list Vec3) (translation : Vec3) (has_uv : bool)
    (mNumVertices : Z) (m : Z) (ss : list Surface) (f : Fill) : outcome Fill :=
  match ss with
  | [] => Ret f
  | src :: rest =>
      let next := fill_surfaces object_vertices translation has_uv mNumVertices m rest in
      if negb (m =? mat src) then next f
      else
        let isDoubleSided := ACDoubleSidedFlag =? Z.land (flags src) ACDoubleSidedFlag in
        let type := GetType src in
        let size := Z.of_nat (length (entries src)) in
        if type =? Polygon then
          if wrap32 size =? 0 then next (mkFill (f_faces f ++ [[]]) (f_verts f) (f_uvs f) (f_cur f))
          else
            match fill_polygon object_vertices translation has_uv mNumVertices
                    (entries src) [] f with
            | Ret (face, f) =>
                let f := mkFill (f_faces f ++ [face]) (f_verts f) (f_uvs f) (f_cur f) in
                if isDoubleSided then
                  match buildBacksideOfFace face f with
                  | Ret f => next f
                  | other => other
                  end
                else next f
            | Throw msg => Throw msg
            | Undefined => Undefined
            | OutOfFuel => OutOfFuel
            end
        else if type =? TriangleStrip then
          if size <? 2 then Undefined
          else
            match fill_strip object_vertices translation has_uv isDoubleSided mNumVertices
                    (entries src) 0 f with
            | Ret f => next f
            | other => other
            end
        else
          let tmp := if OpenLine =? type then wrap32 (wrap32 size - 1) else wrap32 size in
          let todo := if (size =? 0) && (OpenLine =? type) then 1%nat else Z.to_nat tmp in
          match fill_lines object_vertices has_uv (ClosedLine =? type) (entries src) tmp
                  todo 0 (entries src) f with
          | Ret f => next f
          | other => other
          end
  end.

(** Modelled from the spec: [AI_MAX_ALLOC] is declared in defs.h, which is
    not among the sources; the largest number of faces and of vertices an
    importer allocates (256 MiB of 16 and of 12 bytes each). *)
Definition AI_MAX_ALLOC_aiFace : Z := 16777216.
Definition AI_MAX_ALLOC_aiVector3D : Z := 22369621.

(** Faces that were allocated and not written keep no indices. *)
Definition pad_faces (n : Z) (fs : list (list Z)) : list (list Z) :=
  fs ++ replicate (Z.to_nat n - length fs) [].

Definition pad_verts (n : Z) (vs : list Vec3) : list Vec3 :=
  vs ++ replicate (Z.to_nat n - length vs) vzero.

(** What the conversion threads through the objects: the meshes, the
    materials (the position of the source material of each), and the
    counters of the generated names. *)
Record Conv : Type := mkConv {
  cv_meshes : list aiMesh;
  cv_materials : list Z;
  mGroupsCounter : Z;
  mPolysCounter : Z;
  mLightsCounter : Z;
  mWorldsCounter : Z
}.

Definition with_meshes (c : Conv) (ms : list aiMesh) (mats : list Z) : Conv :=
  mkConv ms mats (mGroupsCounter c) (mPolysCounter c) (mLightsCounter c) (mWorldsCounter c).

(** The loop that builds one mesh per material in use (lines 532-703). *)
Fixpoint build_meshes (o : Object) (ss : list Surface) (needMat : list (Z * Z))
    (matIdx : Z) (slots : list (option Z)) (c : Conv) : outcome (list (option Z) * Conv) :=
  match needMat with
  | [] => Ret (slots, c)
  | (first, second) :: rest =>
      if first =? 0 then build_meshes o ss rest (matIdx + 1) slots c
      else if AI_MAX_ALLOC_aiFace <? first
      then Throw "AC3D: Too many faces, would run out of memory"
      else if second =? 0 then Throw "AC3D: No vertices"
      else if AI_MAX_ALLOC_aiVector3D <? second
      then Throw "AC3D: Too many vertices, would run out of memory"
      else
        let has_uv := negb (bool_decide (o_textures o = [])) in
        match fill_surfaces (o_vertices o) (o_translation o) has_uv second matIdx ss
                (mkFill [] [] [] 0) with
        | Ret f =>
            if (Z.to_nat first <? length (f_faces f))%nat
               || (Z.to_nat second <? length (f_verts f))%nat
            then Undefined
            else
              let mesh :=
                mk_aiMesh first second (pad_faces first (f_faces f))
                  (pad_verts second (f_verts f))
                  (if has_uv then Some (f_uvs f) else None)
                  (Z.of_nat (length (cv_materials c))) in
              build_meshes o ss rest (matIdx + 1)
                (slots ++ [Some (Z.of_nat (length (cv_meshes c)))])
                (with_meshes c (cv_meshes c ++ [mesh]) (cv_materials c ++ [matIdx]))
        | Throw msg => Throw msg
        | Undefined => Undefined
        | OutOfFuel => OutOfFuel
        end
  end.

(** The name of a node (lines 725-745). *)
Definition node_name (o : Object) (c : Conv) : Name * Conv :=
  if negb (name_is_empty (o_name o)) then (o_name o, c)
  else
    match o_type o with
    | Group =>
        (Numbered "ACGroup_" (mGroupsCounter c),
         mkConv (cv_meshes c) (cv_materials c) (mGroupsCounter c + 1)
           (mPolysCounter c) (mLightsCounter c) (mWorldsCounter c))
    | Poly =>
        (Numbered "ACPoly_" (mPolysCounter c),
         mkConv (cv_meshes c) (cv_materials c) (mGroupsCounter c)
           (mPolysCounter c + 1) (mLightsCounter c) (mWorldsCounter c))
    | Light =>
        (Numbered "ACLight_" (mLightsCounter c),
         mkConv (cv_meshes c) (cv_materials c) (mGroupsCounter c)
           (mPolysCounter c) (mLightsCounter c + 1) (mWorldsCounter c))
    | World =>
        (Numbered "ACWorld_" (mWorldsCounter c),
         mkConv (cv_meshes c) (cv_materials c) (mGroupsCounter c)
           (mPolysCounter c) (mLightsCounter c) (mWorldsCounter c + 1))
    end.

Section Convert.
(** [Subdivider::Subdivide] on the meshes of one object, an external
    collaborator; [nmat] is [materials.size()]. *)
Variable Subdivide : list aiMesh -> Z -> list aiMesh.
Variable configEvalSubdivision : bool.
Variable nmat : nat.

(** The meshes of one object (lines 427-723): the slots of [node->mMeshes]
    and the converter's state. *)
Definition convert_meshes (o : Object) (c : Conv) : outcome (list (option Z) * Conv) :=
  if bool_decide (o_vertices o = []) then Ret ([], c)
  else if bool_decide (o_surfaces o = []) || (o_numRefs o =? 0) then
    let n := wrap32 (Z.of_nat (length (o_vertices o))) in
    let mesh :=
      mk_aiMesh n n (map (fun i => [Z.of_nat i]) (seq 0 (Z.to_nat n)))
        (take (Z.to_nat n) (o_vertices o)) None 0 in
    Ret ([], with_meshes c (cv_meshes c ++ [mesh]) (cv_materials c ++ [0]))
  else
    let '(ss, needMat, mNumMeshes) :=
      count_surfaces (Z.of_nat (length (o_vertices o))) (o_surfaces o)
        (replicate nmat (0, 0)) 0 in
    let oldm := length (cv_meshes c) in
    match build_meshes o ss needMat 0 [] c with
    | Ret (slots, c) =>
        if (Z.to_nat mNumMeshes <? length slots)%nat then Undefined
        else
          let slots := slots ++ replicate (Z.to_nat mNumMeshes - length slots) None in
          let c :=
            if negb (o_subDiv o =? 0) && configEvalSubdivision then
              with_meshes c
                (take oldm (cv_meshes c) ++ Subdivide (drop oldm (cv_meshes c)) (o_subDiv o))
                (cv_materials c)
            else c in
          Ret (slots, c)
    | Throw msg => Throw msg
    | Undefined => Undefined
    | OutOfFuel => OutOfFuel
    end.

(** [AC3DImporter::ConvertObjectSection] (lines 420-767); the
    transformation of the node is not modelled. *)
Fixpoint ConvertObjectSection (o : Object) (c : Conv) {struct o}
    : outcome (aiNode * Conv) :=
  match convert_meshes o c with
  | Ret (slots, c) =>
      let '(name, c) := node_name o c in
      let kids :=
        match o with
        | mkObject _ _ children _ _ _ _ _ _ _ _ _ _ =>
            (fix convert_children (os : list Object) (c : Conv)
                 : outcome (list aiNode * Conv) :=
               match os with
               | [] => Ret ([], c)
               | k :: os' =>
                   match ConvertObjectSection k c with
                   | Ret (n, c) =>
                       match convert_children os' c with
                       | Ret (ns, c) => Ret (n :: ns, c)
                       | Throw m => Throw m
                       | Undefined => Undefined
                       | OutOfFuel => OutOfFuel
                       end
                   | Throw m => Throw m
                   | Undefined => Undefined
                   | OutOfFuel => OutOfFuel
                   end
               end) children c
        end in
      match kids with
      | Ret (ns, c) => Ret (mk_aiNode name slots ns, c)
      | Throw m => Throw m
      | Undefined => Undefined
      | OutOfFuel => OutOfFuel
      end
  | Throw m => Throw m
  | Undefined => Undefined
  | OutOfFuel => OutOfFuel
  end.

End Convert.

(** *** Reading the object sections *)

Definition set_o_type (o : Object) (t : ObjectType) : Object :=
  let '(mkObject _ n c tx tr to ro tl v s nr sd cr) := o in
  mkObject t n c tx tr to ro tl v s nr sd cr.
Definition set_o_name (o : Object) (n : Name) : Object :=
  let '(mkObject t _ c tx tr to ro tl v s nr sd cr) := o in
  mkObject t n c tx tr to ro tl v s nr sd cr.
Definition set_o_children (o : Object) (c : list Object) : Object :=
  let '(mkObject t n _ tx tr to ro tl v s nr sd cr) := o in
  mkObject t n c tx tr to ro tl v s nr sd cr.
Definition add_o_texture (o : Object) (x : string) : Object :=
  let '(mkObject t n c tx tr to ro tl v s nr sd cr) := o in
  mkObject t n c (tx ++ [x]) tr to ro tl v s nr sd cr.
Definition set_o_texRepeat (o : Object) (x : Vec2) : Object :=
  let '(mkObject t n c tx _ to ro tl v s nr sd cr) := o in
  mkObject t n c tx x to ro tl v s nr sd cr.
Definition set_o_texOffset (o : Object) (x : Vec2) : Object :=
  let '(mkObject t n c tx tr _ ro tl v s nr sd cr) := o in
  mkObject t n c tx tr x ro tl v s nr sd cr.
Definition set_o_rotation (o : Object) (x : list B32.t) : Object :=
  let '(mkObject t n c tx tr to _ tl v s nr sd cr) := o in
  mkObject t n c tx tr to x tl v s nr sd cr.
Definition set_o_translation (o : Object) (x : Vec3) : Object :=
  let '(mkObject t n c tx tr to ro _ v s nr sd cr) := o in
  mkObject t n c tx tr to ro x v s nr sd cr.
Definition set_o_vertices (o : Object) (x : list Vec3) : Object :=
  let '(mkObject t n c tx tr to ro tl _ s nr sd cr) := o in
  mkObject t n c tx tr to ro tl x s nr sd cr.
Definition set_o_surfaces (o : Object) (x : list Surface) (refs : Z) : Object :=
  let '(mkObject t n c tx tr to ro tl v _ _ sd cr) := o in
  mkObject t n c tx tr to ro tl v x refs sd cr.
Definition set_o_subDiv (o : Object) (x : Z) : Object :=
  let '(mkObject t n c tx tr to ro tl v s nr _ cr) := o in
  mkObject t n c tx tr to ro tl v s nr x cr.
Definition set_o_crease (o : Object) (x : B32.t) : Object :=
  let '(mkObject t n c tx tr to ro tl v s nr sd _) := o in
  mkObject t n c tx tr to ro tl v s nr sd x.

Section Reader.
Context `{FloatParser B32.t}.

(** What the reader keeps besides its result: the cursor [mBuffer.data],
    [mNumMeshes] and the names of the lights in [mLights]. *)
Record Reader : Type := mkReader {
  data : cursor;
  mNumMeshes : Z;
  mLights : list Name
}.

Definition with_data (r : Reader) (c : cursor) : Reader :=
  mkReader c (mNumMeshes r) (mLights r).

(** [AC3DImporter::GetNextLine] (lines 188-191). *)
Definition GetNextLine (c : cursor) : bool * cursor :=
  cSkipSpaces (snd (cSkipLine c)).

(** [fast_atoreal_move] at a cursor. *)
Definition read_real (c : cursor) : B32.t * cursor :=
  let '(x, rest) := fast_atoreal_move (ahead c) in (x, sync c rest).

(** [AcGetString] (lines 91-112): the string stored in [out] and the
    cursor. *)
Definition AcGetString (c : cursor) : outcome (string * cursor) :=
  if (peek (ahead c) =? NUL)%char then Throw "AC3D: Unexpected EOF in string"
  else
    let c1 := step c in
    let c2 := cskip (fun x => negb ((x =? "034")%char || IsLineEnd x)) c1 in
    if IsLineEnd (peek (ahead c2)) then Ret ("ERROR", c2)
    else
      Ret (string_of_list_ascii
             (take (length (ahead c1) - length (ahead c2)) (ahead c1)),
           step c2).

Fixpoint load_floats (num : nat) (c : cursor) : list B32.t * cursor :=
  match num with
  | O => ([], c)
  | S n =>
      let '(x, c) := read_real (snd (cSkipSpaces c)) in
      let '(xs, c) := load_floats n c in
      (x :: xs, c)
  end.

(** [TAcCheckedLoadFloatArray] (lines 116-132): [None] when the identifier
    is not found, which leaves [out] alone. *)
Definition TAcCheckedLoadFloatArray (c : cursor) (name : string) (num : nat)
    : option (list B32.t) * cursor :=
  let c := snd (cSkipSpaces c) in
  let n := String.length name in
  if (n =? 0)%nat then
    let '(xs, c) := load_floats num c in (Some xs, c)
  else if negb (strncmp_eq (ahead c) name) || negb (IsSpace (peek (drop n (ahead c))))
  then (None, c)
  else
    let '(xs, c) := load_floats num (steps (S n) c) in (Some xs, c).

Definition to_vec2 (xs : list B32.t) (d : Vec2) : Vec2 :=
  match xs with
  | [x; y] => (x, y)
  | _ => d
  end.

Definition to_vec3 (xs : list B32.t) (d : Vec3) : Vec3 :=
  match xs with
  | [x; y; z] => (x, y, z)
  | _ => d
  end.

(** The loop over the vertices behind [numvert] (lines 289-301). *)
Fixpoint read_vertices (fuel : nat) (t i : Z) (c : cursor) (vs : list Vec3)
    : outcome (cursor * list Vec3) :=
  match fuel with
  | O => OutOfFuel
  | S fuel' =>
      if t <=? i then Ret (c, vs)
      else
        let '(more, c) := GetNextLine c in
        if negb more then Ret (c, vs)
        else if negb (IsNumeric (peek (ahead c))) then Ret (step_back c, vs)
        else
          let '(xs, c) := TAcCheckedLoadFloatArray c "" 3 in
          read_vertices fuel' t (i + 1) c (vs ++ [to_vec3 (default [] xs) vzero])
  end.

(** The loop over the references behind [refs] (lines 350-361). *)
Fixpoint read_refs (fuel : nat) (m k : Z) (c : cursor) (es : list (Z * Vec2))
    : outcome (cursor * list (Z * Vec2)) :=
  match fuel with
  | O => OutOfFuel
  | S fuel' =>
      if m <=? k then Ret (c, es)
      else
        let '(more, c) := GetNextLine c in
        if negb more then Ret (c, es)
        else
          let '(first, c) := cstrtoul10 c in
          let c := snd (cSkipSpaces c) in
          let '(xs, c) := TAcCheckedLoadFloatArray c "" 2 in
          read_refs fuel' m (k + 1) c
            (es ++ [(first, to_vec2 (default [] xs) (B32.zero, B32.zero))])
  end.

(** The loop over the lines of one surface (lines 328-366). *)
Fixpoint read_surface (fuel : nat) (Q3DWorkAround : bool) (c : cursor)
    (surf : Surface) (numRefs : Z) : outcome (cursor * Surface * Z) :=
  match fuel with
  | O => OutOfFuel
  | S fuel' =>
      let '(more, c) := GetNextLine c in
      if negb more then Throw "AC3D: Unexpected EOF: surface is incomplete"
      else
        match cTokenMatch c "mat" with
        | Some c =>
            let c := snd (cSkipSpaces c) in
            read_surface fuel' Q3DWorkAround c
              (mkSurface (fst (strtoul10 (ahead c))) (flags surf) (entries surf)) numRefs
        | None =>
            match cTokenMatch c "refs" with
            | Some c =>
                if Q3DWorkAround && negb (bool_decide (entries surf = []))
                then Ret (Nat.iter 6 step_back c, surf, numRefs)
                else
                  let c := snd (cSkipSpaces c) in
                  let m := fst (strtoul10 (ahead c)) in
                  match read_refs (S (length (ahead c))) m 0 c (entries surf) with
                  | Ret (c, es) =>
                      read_surface fuel' Q3DWorkAround c
                        (mkSurface (mat surf) (flags surf) es) (wrap32 (numRefs + m))
                  | Throw msg => Throw msg
                  | Undefined => Undefined
                  | OutOfFuel => OutOfFuel
                  end
            | None => Ret (step_back c, surf, numRefs)
            end
        end
  end.

(** The loop over the surfaces behind [numsurf] (lines 309-367). *)
Fixpoint read_surfaces (fuel : nat) (t i : Z) (Q3DWorkAround : bool) (c : cursor)
    (ss : list Surface) (numRefs : Z) : outcome (cursor * list Surface * Z) :=
  match fuel with
  | O => OutOfFuel
  | S fuel' =>
      if t <=? i then Ret (c, ss, numRefs)
      else
        let c := snd (GetNextLine c) in
        let '(c, Q3DWorkAround) :=
          match cTokenMatch c "SURF" with
          | Some c => (c, Q3DWorkAround)
          | None => (step_back c, true)
          end in
        let c := snd (cSkipSpaces c) in
        let surf := mkSurface 0 (strtoul_cppstyle (ahead c)) [] in
        match read_surface (S (length (ahead c))) Q3DWorkAround c surf numRefs with
        | Ret (c, surf, numRefs) =>
            read_surfaces fuel' t (i + 1) Q3DWorkAround c (ss ++ [surf]) numRefs
        | Throw msg => Throw msg
        | Undefined => Undefined
        | OutOfFuel => OutOfFuel
        end
  end.

(** [AC3DImporter::LoadObjectSection] (lines 195-373): the result, the
    reader and [objects].  [object_lines] is the loop over the lines of the
    section (lines 231-369), [load_kids] the loop over the children
    (lines 239-244). *)
Fixpoint LoadObjectSection (fuel : nat) (r : Reader) (objects : list Object)
    {struct fuel} : outcome (bool * Reader * list Object) :=
  match fuel with
  | O => OutOfFuel
  | S fuel' =>
      match cTokenMatch (data r) "OBJECT" with
      | None => Ret (false, r, objects)
      | Some c =>
          let c := snd (cSkipSpaces c) in
          let r := mkReader c (wrap32 (mNumMeshes r + 1)) (mLights r) in
          let '(obj, r) :=
            if strincmp_eq (ahead c) "light" then
              let n := Numbered "ACLight_" (Z.of_nat (length (mLights r))) in
              (set_o_type (set_o_name default_object n) Light,
               mkReader c (mNumMeshes r) (mLights r ++ [n]))
            else if strincmp_eq (ahead c) "group" then (set_o_type default_object Group, r)
            else if strincmp_eq (ahead c) "world" then (set_o_type default_object World, r)
            else (set_o_type default_object Poly, r) in
          object_lines fuel' r obj objects
      end
  end
with object_lines (fuel : nat) (r : Reader) (obj : Object) (objects : list Object)
    {struct fuel} : outcome (bool * Reader * list Object) :=
  match fuel with
  | O => OutOfFuel
  | S fuel' =>
      let '(more, c) := GetNextLine (data r) in
      let r := with_data r c in
      if negb more then Ret (false, r, objects ++ [obj])
      else
        let key (k : string) := cTokenMatch c k in
        match key "kids" with
        | Some c =>
            let '(num, c) := cstrtoul10 (snd (cSkipSpaces c)) in
            let c := snd (GetNextLine c) in
            match load_kids fuel' num 0 (with_data r c) (o_children obj) with
            | Ret (r, kids) => Ret (true, r, objects ++ [set_o_children obj kids])
            | Throw m => Throw m
            | Undefined => Undefined
            | OutOfFuel => OutOfFuel
            end
        | None =>
        match key "name" with
        | Some c =>
            match AcGetString c with
            | Ret (name, c) =>
                let obj := set_o_name obj (Text name) in
                let lights :=
                  match o_type obj with
                  | Light =>
                      alter (fun _ => Text name) (Nat.pred (length (mLights r))) (mLights r)
                  | _ => mLights r
                  end in
                object_lines fuel' (mkReader c (mNumMeshes r) lights) obj objects
            | Throw m => Throw m
            | Undefined => Undefined
            | OutOfFuel => OutOfFuel
            end
        | None =>
        match key "texture" with
        | Some c =>
            match AcGetString (snd (cSkipSpaces c)) with
            | Ret (texture, c) =>
                object_lines fuel' (with_data r c)
                  (add_o_texture obj texture) objects
            | Throw m => Throw m
            | Undefined => Undefined
            | OutOfFuel => OutOfFuel
            end
        | None =>
        match key "texrep" with
        | Some c =>
            let '(xs, c) := TAcCheckedLoadFloatArray (snd (cSkipSpaces c)) "" 2 in
            let '(x, y) := to_vec2 (default [] xs) (B32.one, B32.one) in
            let rep := if negb (B32.truth x) || negb (B32.truth y)
                       then (B32.one, B32.one) else (x, y) in
            object_lines fuel' (with_data r c) (set_o_texRepeat obj rep) objects
        | None =>
        match key "texoff" with
        | Some c =>
            let '(xs, c) := TAcCheckedLoadFloatArray (snd (cSkipSpaces c)) "" 2 in
            object_lines fuel' (with_data r c)
              (set_o_texOffset obj (to_vec2 (default [] xs) (B32.zero, B32.zero))) objects
        | None =>
        match key "rot" with
        | Some c =>
            let '(xs, c) := TAcCheckedLoadFloatArray (snd (cSkipSpaces c)) "" 9 in
            object_lines fuel' (with_data r c) (set_o_rotation obj (default [] xs)) objects
        | None =>
        match key "loc" with
        | Some c =>
            let '(xs, c) := TAcCheckedLoadFloatArray (snd (cSkipSpaces c)) "" 3 in
            object_lines fuel' (with_data r c)
              (set_o_translation obj (to_vec3 (default [] xs) vzero)) objects
        | None =>
        match key "subdiv" with
        | Some c =>
            let '(n, c) := cstrtoul10 (snd (cSkipSpaces c)) in
            object_lines fuel' (with_data r c) (set_o_subDiv obj n) objects
        | None =>
        match key "crease" with
        | Some c =>
            let c := snd (cSkipSpaces c) in
            object_lines fuel' (with_data r c)
              (set_o_crease obj (fst (fast_atoreal_move (ahead c)))) objects
        | None =>
        match key "numvert" with
        | Some c =>
            let '(t, c) := cstrtoul10 (snd (cSkipSpaces c)) in
            if AI_MAX_ALLOC_aiVector3D <=? t
            then Throw "AC3D: Too many vertices, would run out of memory"
            else
              match read_vertices (S (length (ahead c))) t 0 c (o_vertices obj) with
              | Ret (c, vs) =>
                  object_lines fuel' (with_data r c) (set_o_vertices obj vs) objects
              | Throw m => Throw m
              | Undefined => Undefined
              | OutOfFuel => OutOfFuel
              end
        | None =>
        match key "numsurf" with
        | Some c =>
            let '(t, c) := cstrtoul10 (snd (cSkipSpaces c)) in
            match read_surfaces (S (length (ahead c))) t 0 false c (o_surfaces obj)
                    (o_numRefs obj) with
            | Ret (c, ss, refs) =>
                object_lines fuel' (with_data r c) (set_o_surfaces obj ss refs) objects
            | Throw m => Throw m
            | Undefined => Undefined
            | OutOfFuel => OutOfFuel
            end
        | None => object_lines fuel' r obj objects
        end end end end end end end end end end end
  end
with load_kids (fuel : nat) (num i : Z) (r : Reader) (kids : list Object)
    {struct fuel} : outcome (Reader * list Object) :=
  match fuel with
  | O => OutOfFuel
  | S fuel' =>
      if num <=? i then Ret (r, kids)
      else
        match LoadObjectSection fuel' r kids with
        | Ret (true, r, kids) => load_kids fuel' num (i + 1) r kids
        | Ret (false, r, kids) => Ret (r, kids)
        | Throw m => Throw m
        | Undefined => Undefined
        | OutOfFuel => OutOfFuel
        end
  end.

(** The line of a material (lines 817-834): the cursor behind it. *)
Definition read_material (c : cursor) : outcome cursor :=
  let c := snd (cSkipSpaces c) in
  let named :=
    if (peek (ahead c) =? "034")%char then
      match AcGetString c with
      | Ret (_, c) => Ret (snd (cSkipSpaces c))
      | Throw m => Throw m
      | Undefined => Undefined
      | OutOfFuel => OutOfFuel
      end
    else Ret c in
  match named with
  | Ret c =>
      let c := snd (TAcCheckedLoadFloatArray c "rgb" 3) in
      let c := snd (TAcCheckedLoadFloatArray c "amb" 3) in
      let c := snd (TAcCheckedLoadFloatArray c "emis" 3) in
      let c := snd (TAcCheckedLoadFloatArray c "spec" 3) in
      let c := snd (TAcCheckedLoadFloatArray c "shi" 1) in
      Ret (snd (TAcCheckedLoadFloatArray c "trans" 1))
  | other => other
  end.

(** The loop over the top level of the file (lines 815-838); only the number
    of the materials is kept. *)
Fixpoint read_file (fuel : nat) (r : Reader) (materials : nat)
    (rootObjects : list Object) : outcome (Reader * nat * list Object) :=
  match fuel with
  | O => OutOfFuel
  | S fuel' =>
      let '(more, c) := GetNextLine (data r) in
      let r := with_data r c in
      if negb more then Ret (r, materials, rootObjects)
      else
        match cTokenMatch c "MATERIAL" with
        | Some c =>
            match read_material c with
            | Ret c => read_file fuel' (with_data r c) (S materials) rootObjects
            | Throw m => Throw m
            | Undefined => Undefined
            | OutOfFuel => OutOfFuel
            end
        | None =>
            match LoadObjectSection fuel' r rootObjects with
            | Ret (_, r, rootObjects) => read_file fuel' r materials rootObjects
            | Throw m => Throw m
            | Undefined => Undefined
            | OutOfFuel => OutOfFuel
            end
        end
  end.

Record aiScene : Type := mk_aiScene {
  mRootNode : aiNode;
  sc_meshes : list aiMesh;
  sc_materials : list Z;
  sc_lights : list Name
}.

Variable Subdivide : list aiMesh -> Z -> list aiMesh.
Variable configEvalSubdivision : bool.

(** [AC3DImporter::InternReadFile] (lines 777-892); [file] is the content of
    the file, [None] when it cannot be opened. *)
Definition InternReadFile (fuel : nat) (pFile : string) (file : option (list ascii))
    : outcome aiScene :=
  match file with
  | None => Throw (String.append "Failed to open AC3D file " (String.append pFile "."))
  | Some mBuffer2 =>
      if negb (strncmp_eq mBuffer2 "AC3D")
      then Throw "AC3D: No valid AC3D file, magic sequence not found"
      else
        match read_file fuel (mkReader (mkCursor [] mBuffer2) 0 []) 0 [] with
        | Ret (r, materials, rootObjects) =>
            if bool_decide (rootObjects = []) || (mNumMeshes r =? 0)
            then Throw "AC3D: No meshes have been loaded"
            else
              let nmat := Nat.max 1 materials in
              let root := match rootObjects with
                          | [o] => o
                          | _ => default_object
                          end in
              match ConvertObjectSection Subdivide configEvalSubdivision nmat root
                      (mkConv [] [] 0 0 0 0) with
              | Ret (mk_aiNode name slots kids, c) =>
                  let name := match name with
                              | Text t => if strncmp_eq (list_ascii_of_string t) "Node"
                                          then Text "<AC3DWorld>" else name
                              | _ => name
                              end in
                  if bool_decide (cv_meshes c = [])
                  then Throw "An unknown error occurred during converting"
                  else Ret (mk_aiScene (mk_aiNode name slots kids) (cv_meshes c)
                              (cv_materials c) (mLights r))
              | Throw m => Throw m
              | Undefined => Undefined
              | OutOfFuel => OutOfFuel
              end
        | Throw m => Throw m
        | Undefined => Undefined
        | OutOfFuel => OutOfFuel
        end
  end.

End Reader.

End AC3D.

(** ** SMD: reading the file, [SMDImporter::ParseFile], and the bone nodes *)

Module SMDFile.
Import Scanner SMD.

Definition INT_MAX : Z := 2147483647.

Section Reader.
Context {R : Type} `{FloatParser R}.

(** [ASSIMP_stricmp] (StringComparison.h) is not among the sources and is
    taken as a parameter: [stricmp_eq a b] stands for
    [0 == ASSIMP_stricmp(a, b)]. *)
Variable stricmp_eq : string -> string -> bool.

(** [SMD::Bone::Animation::MatrixKey]: [dTime] holds an [int] converted to
    [double]; the matrix of the key is a function of [vPos] and [vRot] and is
    not kept. *)
Record MatrixKey : Type := mkMatrixKey {
  dTime : Z;
  vPos : Vec3 (R:=R);
  vRot : Vec3 (R:=R)
}.

(** [SMD::Bone]; [iParent] is a [uint32_t]. *)
Record Bone : Type := mkBone {
  mName : string;
  iParent : Z;
  asKeys : list MatrixKey
}.

(** The default constructor of [SMD::Bone] (SMDLoader.h) is not among the
    sources: the bone it builds is a parameter. *)
Variable default_bone : Bone.

(** The members of the importer that the reader writes. *)
Record Importer : Type := mkImporter {
  aszTextures : list string;
  asTriangles : list (SFace (R:=R));
  asBones : list Bone;
  iSmallestFrame : Z;
  bHasUVs : bool
}.

Definition with_textures (st : Importer) (t : list string) : Importer :=
  mkImporter t (asTriangles st) (asBones st) (iSmallestFrame st) (bHasUVs st).
Definition with_triangles (st : Importer) (t : list (SFace (R:=R))) : Importer :=
  mkImporter (aszTextures st) t (asBones st) (iSmallestFrame st) (bHasUVs st).
Definition with_bones (st : Importer) (b : list Bone) : Importer :=
  mkImporter (aszTextures st) (asTriangles st) b (iSmallestFrame st) (bHasUVs st).
Definition with_smallest (st : Importer) (t : Z) : Importer :=
  mkImporter (aszTextures st) (asTriangles st) (asBones st) t (bHasUVs st).
Definition without_uvs (st : Importer) : Importer :=
  mkImporter (aszTextures st) (asTriangles st) (asBones st) (iSmallestFrame st) false.

(** The loop of [GetTextureIndex] (lines 713-721); [iIndex] is an
    [unsigned int]. *)
Fixpoint find_texture (filename : string) (l : list string) (iIndex : Z) : option Z :=
  match l with
  | [] => None
  | t :: rest =>
      if stricmp_eq filename t then Some iIndex
      else find_texture filename rest (wrap32 (iIndex + 1))
  end.

(** [SMDImporter::GetTextureIndex] (lines 712-725): the index and the table
    of textures after the call. *)
Definition GetTextureIndex (filename : string) (textures : list string)
    : Z * list string :=
  match find_texture filename textures 0 with
  | Some iIndex => (iIndex, textures)
  | None => (wrap32 (Z.of_nat (length textures)), textures ++ [filename])
  end.

(** [SMDImporter::ParseTriangle] (lines 953-976).  The face is appended
    first; when the line holds nothing the call returns without writing
    [*szCurrentOut], so the caller's cursor stays where it was.  [None]: a
    vertex ran out of fuel. *)
Definition ParseTriangle (cur : list ascii) (st : Importer)
    : option (list ascii * Importer) :=
  let '(ok, c) := SkipSpaces cur in
  if negb ok then Some (cur, with_triangles st (asTriangles st ++ [default_face]))
  else
    let '(name, c') := LWS.take_until IsSpaceOrNewLine (drop 1 c) in
    let '(iIndex, textures) :=
      GetTextureIndex (string_of_list_ascii (take 1 c ++ name)) (aszTextures st) in
    let c := snd (SkipSpacesAndLineEnd c') in
    match ParseVertex (S (length c)) c default_vertex false with
    | None => None
    | Some (c, v0) =>
        match ParseVertex (S (length c)) c default_vertex false with
        | None => None
        | Some (c, v1) =>
            match ParseVertex (S (length c)) c default_vertex false with
            | None => None
            | Some (c, v2) =>
                Some (c, with_textures
                           (with_triangles st
                              (asTriangles st ++ [mkFace iIndex (v0, v1, v2)]))
                           textures)
            end
        end
    end.

(** The loop of [ParseTrianglesSection] (lines 747-757). *)
Fixpoint triangles_loop (fuel : nat) (cur : list ascii) (st : Importer)
    : outcome (list ascii * Importer) :=
  match fuel with
  | O => OutOfFuel
  | S fuel' =>
      let '(more, cur) := SkipSpacesAndLineEnd cur in
      if negb more then Ret (cur, st)
      else
        match TokenMatch cur "end" with
        | Some cur => Ret (cur, st)
        | None =>
            match ParseTriangle cur st with
            | None => OutOfFuel
            | Some (cur, st) => triangles_loop fuel' cur st
            end
        end
  end.

(** [SMDImporter::ParseTrianglesSection] (lines 744-760). *)
Definition ParseTrianglesSection (fuel : nat) (cur : list ascii) (st : Importer)
    : outcome (list ascii * Importer) :=
  match triangles_loop fuel cur st with
  | Ret (cur, st) => Ret (snd (SkipSpacesAndLineEnd cur), st)
  | other => other
  end.

Definition quotation_mark : ascii := "034"%char.

(** The loop over the name of a bone (lines 865-878): the name and the
    cursor behind it, [None] when the text ends inside the name. *)
Fixpoint bone_name (bQuota : bool) (l : list ascii) : option (list ascii * list ascii) :=
  match l with
  | [] => if bQuota then None else Some ([], [])
  | c :: r =>
      if bQuota && (c =? quotation_mark)%char then Some ([], r)
      else if negb bQuota && IsSpaceOrNewLine c then Some ([], l)
      else if (c =? NUL)%char then None
      else
        match bone_name bQuota r with
        | None => None
        | Some (name, szEnd) => Some (c :: name, szEnd)
        end
  end.

Definition set_name (name : string) (b : Bone) : Bone :=
  mkBone name (iParent b) (asKeys b).
Definition set_parent (p : Z) (b : Bone) : Bone :=
  mkBone (mName b) p (asKeys b).
Definition push_key (k : MatrixKey) (b : Bone) : Bone :=
  mkBone (mName b) (iParent b) (asKeys b ++ [k]).

Definition bone_index_error : string :=
  "Unexpected EOF/EOL while parsing bone index".

(** [SMDImporter::ParseNodeInfo] (lines 839-890). *)
Definition ParseNodeInfo (cur : list ascii) (st : Importer)
    : outcome (list ascii * Importer) :=
  let cur := snd (SkipSpacesAndLineEnd cur) in
  match ParseUnsignedInt cur with
  | None => Throw bone_index_error
  | Some (iBone, cur) =>
      let '(ok, cur) := SkipSpaces cur in
      if negb ok then Throw bone_index_error
      else if iBone =? UINT_MAX then Ret (snd (SkipLine cur), st)
      else
        let bones :=
          if Z.of_nat (length (asBones st)) <=? iBone
          then resize (Z.to_nat (iBone + 1)) default_bone (asBones st)
          else asBones st in
        let bQuota := (peek cur =? quotation_mark)%char in
        let cur := if bQuota then drop 1 cur else cur in
        match bone_name bQuota cur with
        | None => Ret (snd (SkipLine cur), with_bones st bones)
        | Some (name, szEnd) =>
            let bones :=
              alter (set_name (string_of_list_ascii name)) (Z.to_nat iBone) bones in
            match ParseSignedInt szEnd with
            | None => Ret (snd (SkipLine szEnd), with_bones st bones)
            | Some (p, cur) =>
                Ret (snd (SkipLine cur),
                     with_bones st (alter (set_parent (wrap32 p)) (Z.to_nat iBone) bones))
            end
        end
  end.

(** The loop of [ParseNodesSection] (lines 730-737). *)
Fixpoint nodes_loop (fuel : nat) (cur : list ascii) (st : Importer)
    : outcome (list ascii * Importer) :=
  match fuel with
  | O => OutOfFuel
  | S fuel' =>
      if strincmp_eq cur "end" && IsSpaceOrNewLine (peek (drop 3 cur))
      then Ret (drop 4 cur, st)
      else
        match ParseNodeInfo cur st with
        | Ret (cur, st) => nodes_loop fuel' cur st
        | other => other
        end
  end.

(** [SMDImporter::ParseNodesSection] (lines 729-740). *)
Definition ParseNodesSection (fuel : nat) (cur : list ascii) (st : Importer)
    : outcome (list ascii * Importer) :=
  match nodes_loop fuel cur st with
  | Ret (cur, st) => Ret (snd (SkipSpacesAndLineEnd cur), st)
  | other => other
  end.

Definition float_then {A} (cur : list ascii) (fail : list ascii -> A)
    (k : R -> list ascii -> A) : A :=
  match ParseFloat cur with
  | None => fail cur
  | Some (x, cur) => k x cur
  end.

(** [SMDImporter::ParseSkeletonElement] (lines 894-949): the key is appended
    with its time before the numbers are read, and keeps the default
    vectors when one of them is missing. *)
Definition ParseSkeletonElement (cur : list ascii) (st : Importer) (iTime : Z)
    : list ascii * Importer :=
  match ParseUnsignedInt cur with
  | None => (snd (SkipLine cur), st)
  | Some (iBone, cur) =>
      if Z.of_nat (length (asBones st)) <=? iBone then (snd (SkipLine cur), st)
      else
        let store key :=
          with_bones st (alter (push_key key) (Z.to_nat iBone) (asBones st)) in
        let fail cur := (snd (SkipLine cur), store (mkMatrixKey iTime vec0 vec0)) in
        float_then cur fail (fun px cur =>
        float_then cur fail (fun py cur =>
        float_then cur fail (fun pz cur =>
        float_then cur fail (fun rx cur =>
        float_then cur fail (fun ry cur =>
        float_then cur fail (fun rz cur =>
          (snd (SkipLine cur),
           store (mkMatrixKey iTime (px, py, pz) (rx, ry, rz)))))))))
  end.

(** [SMDImporter::ParseSkeletonSection] (lines 806-829); [iTime] is the
    local of that name. *)
Fixpoint ParseSkeletonSection (fuel : nat) (cur : list ascii) (st : Importer)
    (iTime : Z) : outcome (list ascii * Importer) :=
  match fuel with
  | O => OutOfFuel
  | S fuel' =>
      let '(more, cur) := SkipSpacesAndLineEnd cur in
      if negb more then Ret (cur, st)
      else
        match TokenMatch cur "end" with
        | Some cur => Ret (cur, st)
        | None =>
            match TokenMatch cur "time" with
            | Some cur =>
                match ParseSignedInt cur with
                | None => Ret (cur, st)
                | Some (iTime, cur) =>
                    ParseSkeletonSection fuel' (snd (SkipLine cur))
                      (with_smallest st (Z.min (iSmallestFrame st) iTime)) iTime
                end
            | None =>
                let '(cur, st) := ParseSkeletonElement cur st iTime in
                ParseSkeletonSection fuel' cur st iTime
            end
        end
  end.

(** [SMDImporter::ParseFile] (lines 632-673); [configFrameID] is the frame
    the importer was configured to load.  The section of vertex animations
    has no result when it runs out of fuel. *)
Fixpoint ParseFile (fuel : nat) (configFrameID : Z) (cur : list ascii)
    (st : Importer) : outcome Importer :=
  match fuel with
  | O => OutOfFuel
  | S fuel' =>
      let '(more, cur) := SkipSpacesAndLineEnd cur in
      if negb more then Ret st
      else
        let section (r : outcome (list ascii * Importer)) :=
          match r with
          | Ret (cur, st) => ParseFile fuel' configFrameID cur st
          | Throw m => Throw m
          | Undefined => Undefined
          | OutOfFuel => OutOfFuel
          end in
        match TokenMatch cur "version" with
        | Some cur =>
            let '(ok, cur) := SkipSpaces cur in
            if negb ok then Ret st
            else ParseFile fuel' configFrameID (snd (strtoul10 cur)) st
        | None =>
        match TokenMatch cur "nodes" with
        | Some cur => section (ParseNodesSection fuel cur st)
        | None =>
        match TokenMatch cur "triangles" with
        | Some cur => section (ParseTrianglesSection fuel cur st)
        | None =>
        match TokenMatch cur "vertexanimation" with
        | Some cur =>
            match ParseVASection fuel configFrameID cur (asTriangles st) with
            | None => OutOfFuel
            | Some (cur, tris) =>
                ParseFile fuel' configFrameID cur (with_triangles (without_uvs st) tris)
            end
        | None =>
        match TokenMatch cur "skeleton" with
        | Some cur => section (ParseSkeletonSection fuel cur st 0)
        | None => ParseFile fuel' configFrameID (snd (SkipLine cur)) st
        end end end end end
  end.

(** The state [ReadSmd] starts the reader in (lines 690-705). *)
Definition fresh : Importer := mkImporter [] [] [] INT_MAX true.

(** [SMDImporter::ReadSmd] (lines 675-709); [file] is the text of the file,
    [None] when it cannot be opened. *)
Definition ReadSmd (fuel : nat) (configFrameID : Z) (pFile : string)
    (file : option (list ascii)) : outcome Importer :=
  match file with
  | None => Throw ("Failed to open SMD/VTA file " ++ pFile ++ ".")
  | Some text => ParseFile fuel configFrameID text fresh
  end.

(** [aiNode]: its name and children; [an_bone] records the position of the
    bone a node was built for (it is not a member of [aiNode]). *)
#[local] Unset Elimination Schemes.
Inductive aiNode : Type :=
| mk_aiNode (an_name : string) (an_bone : option nat) (an_children : list aiNode).
#[local] Set Elimination Schemes.

(** [SMDImporter::AddBoneChildren] (lines 391-437): the children that the
    call gives its node.  The inner function is the loop over the bones,
    [i] its counter; the transformations are not modelled.  [fuel] bounds
    the depth of the recursion. *)
Fixpoint AddBoneChildren (fuel : nat) (bones : list Bone) (parent : Z)
    : outcome (list aiNode) :=
  match fuel with
  | O => OutOfFuel
  | S fuel' =>
      (fix loop (rest : list Bone) (i : Z) : outcome (list aiNode) :=
         match rest with
         | [] => Ret []
         | bone :: rest' =>
             if negb (iParent bone =? parent) then loop rest' (wrap32 (i + 1))
             else
               match AddBoneChildren fuel' bones i with
               | Ret kids =>
                   match loop rest' (wrap32 (i + 1)) with
                   | Ret nodes =>
                       Ret (mk_aiNode (mName bone) (Some (Z.to_nat i)) kids :: nodes)
                   | other => other
                   end
               | other => other
               end
         end) bones 0
  end.

Definition root_name : string := "<SMD_root>".

(** [SMDImporter::CreateOutputNodes] (lines 441-463); [incomplete] is the
    flag [AI_SCENE_FLAGS_INCOMPLETE] of the scene. *)
Definition CreateOutputNodes (fuel : nat) (bones : list Bone) (incomplete : bool)
    : outcome aiNode :=
  match AddBoneChildren fuel bones UINT_MAX with
  | Ret [only] =>
      if incomplete then Ret only
      else Ret (mk_aiNode root_name None [only])
  | Ret kids => Ret (mk_aiNode root_name None kids)
  | Throw m => Throw m
  | Undefined => Undefined
  | OutOfFuel => OutOfFuel
  end.

End Reader.

End SMDFile.

(** * Properties *)

(** A reader of reals for running the importers on files whose numbers are
    decimal integers. *)
#[local] Instance IntegerReals : Scanner.FloatParser B32.t := {
  Scanner.fzero := B32.zero;
  Scanner.fast_atoreal_move := fun l =>
    let '(z, rest) := Scanner.strtol10 l in (B32.of_Z z, rest)
}.

(** ** Machine integers *)

Lemma wrap32_small z : 0 <= z < 4294967296 -> wrap32 z = z.
Proof. intros Hz. unfold wrap32. apply Z.mod_small. lia. Qed.

Lemma wrap32_range z : 0 <= wrap32 z < 4294967296.
Proof. unfold wrap32. apply Z.mod_pos_bound. lia. Qed.

(** ** SMD: the bone tables *)

Section SMD_tables.
Import SMD.
Context {R : Type} `{Weight R} {V : Type}.

Implicit Types (t : Tables R) (l : list (Z * R)) (v : Vertex R V).

(** Appending a list of links to their tables. *)
Definition push_links (iNum : Z) (ls : list (Z * R)) (t : Tables R) : Tables R :=
  foldl (fun t e => emplace_back t (fst e) (iNum, snd e)) t ls.

(** The entries the links [ls] add to the table at position [j]. *)
Definition new_for (iNum : Z) (j : nat) (ls : list (Z * R)) : list (Z * R) :=
  map (fun e => (iNum, snd e)) (List.filter (fun e => (Z.to_nat (fst e) =? j)%nat) ls).

Lemma survives_skip nb parent b (w : R) :
  (nb <=? b) || (b =? parent) = negb (survives nb parent (b, w)).
Proof.
  unfold survives; simpl.
  destruct (Z.leb_spec nb b), (Z.ltb_spec b nb); try lia; simpl; try done.
Qed.

Lemma collect_spec nb parent iNum links t s :
  collect nb parent iNum links t s =
  (push_links iNum (List.filter (survives nb parent) links) t,
   sum_from (map snd (List.filter (survives nb parent) links)) s).
Proof.
  revert t s. induction links as [|[b w] links IH]; intros t s; [done|].
  cbn [collect List.filter]. rewrite (survives_skip nb parent b w).
  destruct (survives nb parent (b, w)); cbn [negb]; rewrite IH; done.
Qed.

Lemma length_emplace_back t b e : length (emplace_back t b e) = length t.
Proof. unfold emplace_back. apply length_alter. Qed.

Lemma length_push_links iNum ls t : length (push_links iNum ls t) = length t.
Proof.
  revert t. induction ls as [|l ls IH]; intros t; simpl; [done|].
  unfold push_links in *. simpl. rewrite IH. apply length_emplace_back.
Qed.

Lemma lookup_emplace_back t b e j :
  emplace_back t b e !! j =
  (fun l => if (Z.to_nat b =? j)%nat then l ++ [e] else l) <$> t !! j.
Proof.
  unfold emplace_back. destruct (Nat.eqb_spec (Z.to_nat b) j) as [<-|Hne].
  - apply list_lookup_alter_eq.
  - etrans; [by apply list_lookup_alter_ne|]. by destruct (t !! j).
Qed.

Lemma lookup_push_links iNum ls t j :
  push_links iNum ls t !! j = (fun l => l ++ new_for iNum j ls) <$> t !! j.
Proof.
  revert t. induction ls as [|[b w] ls IH]; intros t.
  - simpl. destruct (t !! j); simpl; [|done]. by rewrite app_nil_r.
  - unfold push_links in *. simpl. rewrite IH, lookup_emplace_back.
    unfold new_for. simpl.
    destruct (t !! j) as [l|]; simpl; [|done].
    destruct (Z.to_nat b =? j)%nat; simpl; [|done].
    by rewrite <- app_assoc.
Qed.

Lemma scale_last_snoc f l (k : Z) (w : R) :
  scale_last f (l ++ [(k, w)]) = l ++ [(k, rmul w f)].
Proof.
  unfold scale_last. rewrite reverse_snoc. by rewrite reverse_involutive.
Qed.

Lemma scale_last_nil f : scale_last f [] = @nil (Z * R).
Proof. done. Qed.

Lemma scale_last_app f l news :
  news <> [] -> scale_last f (l ++ news) = l ++ scale_last f news.
Proof.
  intros Hne. destruct news as [|x news'] using rev_ind; [done|].
  destruct x as [k w]. rewrite app_assoc, !scale_last_snoc. by rewrite app_assoc.
Qed.

Lemma scale_last_ids f l : map fst (scale_last f l) = map fst l.
Proof.
  destruct l as [|x l'] using rev_ind; [done|].
  destruct x as [k w]. rewrite scale_last_snoc, !map_app. done.
Qed.

Lemma scale_last_not_nil f l : l <> [] -> scale_last f l <> [].
Proof.
  intros Hne Heq. apply Hne. apply (f_equal (map fst)) in Heq.
  rewrite scale_last_ids in Heq. by destruct l.
Qed.

Lemma iter_scale_last_ids f n l : map fst (Nat.iter n (scale_last f) l) = map fst l.
Proof. induction n as [|n IH]; simpl; [done|]. by rewrite scale_last_ids. Qed.

Lemma iter_scale_last_app f n l news :
  news <> [] ->
  Nat.iter n (scale_last f) (l ++ news) = l ++ Nat.iter n (scale_last f) news.
Proof.
  intros Hne. induction n as [|n IH]; simpl; [done|].
  rewrite IH. apply scale_last_app.
  intros Heq. apply (f_equal (map fst)) in Heq.
  rewrite iter_scale_last_ids in Heq. by destruct news.
Qed.

(** How often the renormalisation loop touches the table at position [j]. *)
Definition touched (nb : Z) (j : nat) (links : list (Z * R)) : nat :=
  length (List.filter (fun e => (fst e <? nb) && (Z.to_nat (fst e) =? j)%nat) links).

Lemma lookup_scale_back t b f j :
  scale_back t b f !! j =
  (fun l => if (Z.to_nat b =? j)%nat then scale_last f l else l) <$> t !! j.
Proof.
  unfold scale_back. destruct (Nat.eqb_spec (Z.to_nat b) j) as [<-|Hne].
  - apply list_lookup_alter_eq.
  - etrans; [by apply list_lookup_alter_ne|]. by destruct (t !! j).
Qed.

Lemma lookup_renorm nb f links t j :
  renorm nb f links t !! j =
  (fun l => Nat.iter (touched nb j links) (scale_last f) l) <$> t !! j.
Proof.
  revert t. induction links as [|[b w] links IH]; intros t.
  - simpl. by destruct (t !! j).
  - cbn [renorm]. unfold touched. cbn [List.filter fst].
    destruct (Z.leb_spec nb b) as [Hle|Hlt], (Z.ltb_spec b nb) as [Hlt'|Hle']; try lia.
    + rewrite IH. done.
    + rewrite IH, lookup_scale_back. destruct (t !! j) as [l|]; simpl; [|done].
      f_equal. destruct (Z.to_nat b =? j)%nat; simpl; [|done].
      fold (touched nb j links).
      change (scale_last f (Nat.iter (touched nb j links) (scale_last f) l))
        with (Nat.iter (S (touched nb j links)) (scale_last f) l).
      by rewrite Nat.iter_succ_r.
Qed.

Lemma length_renorm nb f links t : length (renorm nb f links t) = length t.
Proof.
  revert t. induction links as [|[b w] links IH]; intros t; simpl; [done|].
  destruct (nb <=? b); rewrite IH; [done|]. unfold scale_back. apply length_alter.
Qed.

Lemma new_for_ids iNum j ls : Forall (fun e => fst e = iNum) (new_for iNum j ls).
Proof. unfold new_for. apply Forall_forall. intros e Hin. apply in_map_iff in Hin as (x & <- & _). done. Qed.

Lemma length_new_for iNum j ls :
  length (new_for iNum j ls) =
  length (List.filter (fun e => (Z.to_nat (fst e) =? j)%nat) ls).
Proof. unfold new_for. by rewrite length_map. Qed.

(** What one vertex adds to the table at position [j]. *)
Definition added (nb iNum : Z) v (j : nat) : list (Z * R) :=
  let surv := surviving nb v in
  let fSum := fSum_of nb v in
  if rltb fSum limit && negb (iParentNode v =? UINT_MAX) then
    if nb <=? iParentNode v then
      if rtruth fSum
      then Nat.iter (length (new_for iNum j surv)) (scale_last (rdiv r1 fSum))
             (new_for iNum j surv)
      else new_for iNum j surv
    else
      new_for iNum j surv
      ++ (if (Z.to_nat (iParentNode v) =? j)%nat then [(iNum, rsub r1 fSum)] else [])
  else new_for iNum j surv.

Lemma added_ids nb iNum v j : Forall (fun e => fst e = iNum) (added nb iNum v j).
Proof.
  assert (Hn := new_for_ids iNum j (surviving nb v)).
  unfold added. repeat case_match; try done.
  - apply (proj1 (List.Forall_map fst (fun k => k = iNum) _)).
    rewrite iter_scale_last_ids. by apply List.Forall_map.
  - apply Forall_app. split; [done|]. by apply Forall_singleton.
  - by rewrite app_nil_r.
Qed.

Lemma touched_surviving nb parent j links :
  nb <= parent ->
  touched nb j links =
  length (List.filter (fun e => (Z.to_nat (fst e) =? j)%nat)
            (List.filter (survives nb parent) links)).
Proof.
  intros Hp. unfold touched. induction links as [|[b w] links IH]; [done|].
  cbn [List.filter]. unfold survives at 1. cbn [fst].
  destruct (Z.ltb_spec b nb) as [Hlt|Hge]; cbn [andb].
  - destruct (Z.eqb_spec b parent) as [->|Hne]; [lia|]. cbn [negb List.filter fst].
    destruct (Z.to_nat b =? j)%nat; simpl; by rewrite IH.
  - done.
Qed.

Lemma lookup_resolve_vertex nb iNum v t j :
  resolve_vertex nb iNum v t !! j = (fun l => l ++ added nb iNum v j) <$> t !! j.
Proof.
  unfold resolve_vertex, added. rewrite collect_spec.
  fold (surviving nb v). fold (fSum_of nb v).
  destruct (rltb (fSum_of nb v) limit && negb (iParentNode v =? UINT_MAX)).
  2: apply lookup_push_links.
  destruct (Z.leb_spec nb (iParentNode v)) as [Hle|Hlt].
  - destruct (rtruth (fSum_of nb v)); [|apply lookup_push_links].
    rewrite lookup_renorm, lookup_push_links.
    destruct (t !! j) as [l|]; simpl; [|done]. f_equal.
    rewrite (touched_surviving nb (iParentNode v)) by done.
    fold (surviving nb v). rewrite <- (length_new_for iNum).
    destruct (new_for iNum j (surviving nb v)) as [|x news] eqn:Hn.
    + simpl. done.
    + by apply iter_scale_last_app.
  - rewrite lookup_emplace_back, lookup_push_links.
    destruct (t !! j) as [l|]; simpl; [|done]. f_equal.
    destruct (Z.to_nat (iParentNode v) =? j)%nat; [by rewrite app_assoc|by rewrite app_nil_r].
Qed.

Lemma length_resolve_vertex nb iNum v t : length (resolve_vertex nb iNum v t) = length t.
Proof.
  unfold resolve_vertex. rewrite collect_spec.
  repeat case_match; rewrite ?length_renorm, ?length_emplace_back, ?length_push_links; done.
Qed.

(** *** Entries of a vertex id *)

Lemma entries_of_app i l l' : entries_of i (l ++ l') = entries_of i l ++ entries_of i l'.
Proof. unfold entries_of. apply List.filter_app. Qed.

Lemma entries_of_same i l : Forall (fun e => fst e = i) l -> entries_of i l = l.
Proof.
  induction 1 as [|e l He _ IH]; [done|]. unfold entries_of in *. simpl.
  rewrite IH. by destruct (Z.eqb_spec (fst e) i).
Qed.

Lemma entries_of_other i k l :
  Forall (fun e => fst e = k) l -> i <> k -> entries_of i l = [].
Proof.
  intros Hall Hne. induction Hall as [|e l He _ IH]; [done|]. unfold entries_of in *.
  simpl. rewrite IH. destruct (Z.eqb_spec (fst e) i); [congruence|done].
Qed.

Lemma entries_of_below i n l :
  Forall (fun e => fst e < n) l -> n <= i -> entries_of i l = [].
Proof.
  intros Hall Hle. induction Hall as [|e l He _ IH]; [done|]. unfold entries_of in *.
  simpl. rewrite IH. destruct (Z.eqb_spec (fst e) i); [lia|done].
Qed.

(** All the vertex ids in the tables are below [n]. *)
Definition below (n : Z) t : Prop := Forall (Forall (fun e => fst e < n)) t.

Lemma below_resolve_vertex nb iNum v t :
  below iNum t -> below (iNum + 1) (resolve_vertex nb iNum v t).
Proof.
  intros Hb. apply Forall_lookup. intros j l' Hl'.
  rewrite lookup_resolve_vertex in Hl'.
  destruct (t !! j) as [l|] eqn:Hl; simpl in Hl'; [|done]. injection Hl' as <-.
  apply Forall_app. split.
  - unfold below in Hb. rewrite Forall_lookup in Hb. specialize (Hb j l Hl).
    eapply List.Forall_impl; [|exact Hb]. simpl. intros; lia.
  - eapply List.Forall_impl; [|apply added_ids]. simpl. intros; lia.
Qed.

Lemma below_nil n (k : nat) : below n (replicate k ([] : list (Z * R))).
Proof. apply Forall_replicate. constructor. Qed.

Lemma vertex_weights_ext i t t' :
  length t' = length t ->
  (forall j l l', t !! j = Some l -> t' !! j = Some l' -> entries_of i l' = entries_of i l) ->
  vertex_weights t' i = vertex_weights t i.
Proof.
  revert t'. induction t as [|l t IH]; intros [|l' t'] Hlen Hpt; try done.
  unfold vertex_weights in *. simpl. f_equal.
  - f_equal. by apply (Hpt 0%nat).
  - apply IH; [by injection Hlen|]. intros j. apply (Hpt (S j)).
Qed.

Lemma vertex_weights_below i n t : below n t -> n <= i -> vertex_weights t i = [].
Proof.
  intros Hb Hle. unfold vertex_weights. induction Hb as [|l t Hl _ IH]; [done|].
  simpl. rewrite IH. by rewrite (entries_of_below i n l).
Qed.

(** A vertex leaves the entries of the other vertex ids alone. *)
Lemma resolve_vertex_frame nb iNum v t i j l l' :
  i <> iNum ->
  t !! j = Some l -> resolve_vertex nb iNum v t !! j = Some l' ->
  entries_of i l' = entries_of i l.
Proof.
  intros Hne Hl Hl'. rewrite lookup_resolve_vertex, Hl in Hl'. injection Hl' as <-.
  rewrite entries_of_app, (entries_of_other i iNum (added nb iNum v j));
    [by rewrite app_nil_r| |done].
  apply added_ids.
Qed.

Lemma resolve_vertices_app nb iNum (vs1 vs2 : list (Vertex R V)) t :
  resolve_vertices nb iNum (vs1 ++ vs2) t =
  let '(idx1, n1, t1) := resolve_vertices nb iNum vs1 t in
  let '(idx2, n2, t2) := resolve_vertices nb n1 vs2 t1 in
  (idx1 ++ idx2, n2, t2).
Proof.
  revert iNum t. induction vs1 as [|v vs1 IH]; intros iNum t; simpl.
  - by destruct (resolve_vertices nb iNum vs2 t) as [[? ?] ?].
  - rewrite IH.
    destruct (resolve_vertices nb (wrap32 (iNum + 1)) vs1 (resolve_vertex nb iNum v t))
      as [[idx1 n1] t1].
    by destruct (resolve_vertices nb n1 vs2 t1) as [[? ?] ?].
Qed.

Lemma resolve_vertices_length nb iNum (vs : list (Vertex R V)) t :
  length (resolve_vertices nb iNum vs t).2 = length t.
Proof.
  revert iNum t. induction vs as [|v vs IH]; intros iNum t; simpl; [done|].
  specialize (IH (wrap32 (iNum + 1)) (resolve_vertex nb iNum v t)).
  destruct (resolve_vertices nb (wrap32 (iNum + 1)) vs (resolve_vertex nb iNum v t))
    as [[idx n] t']. simpl in *. by rewrite IH, length_resolve_vertex.
Qed.

Lemma resolve_vertices_next nb iNum (vs : list (Vertex R V)) t :
  0 <= iNum -> iNum + Z.of_nat (length vs) < 4294967296 ->
  (resolve_vertices nb iNum vs t).1.2 = iNum + Z.of_nat (length vs).
Proof.
  revert iNum t. induction vs as [|v vs IH]; intros iNum t H0 Hlt; simpl in *; [lia|].
  specialize (IH (wrap32 (iNum + 1)) (resolve_vertex nb iNum v t)).
  destruct (resolve_vertices nb (wrap32 (iNum + 1)) vs (resolve_vertex nb iNum v t))
    as [[idx n] t']. simpl in *.
  rewrite wrap32_small in IH by lia. rewrite IH; lia.
Qed.

(** The vertices behind position [iNum] leave the entries of the ids
    below [iNum] alone. *)
Lemma resolve_vertices_frame nb iNum (vs : list (Vertex R V)) t i j l l' :
  0 <= iNum -> iNum + Z.of_nat (length vs) < 4294967296 -> i < iNum ->
  t !! j = Some l -> (resolve_vertices nb iNum vs t).2 !! j = Some l' ->
  entries_of i l' = entries_of i l.
Proof.
  revert iNum t l. induction vs as [|v vs IH]; intros iNum t l H0 Hlt Hi Hl Hl'.
  - simpl in Hl'. congruence.
  - simpl in Hl', Hlt.
    specialize (IH (wrap32 (iNum + 1)) (resolve_vertex nb iNum v t)).
    destruct (resolve_vertices nb (wrap32 (iNum + 1)) vs (resolve_vertex nb iNum v t))
      as [[idx n] t'] eqn:Hr. simpl in *.
    rewrite wrap32_small in IH by lia.
    destruct (resolve_vertex nb iNum v t !! j) as [l1|] eqn:Hl1.
    + rewrite (IH l1); [|lia|lia|lia|done|done].
      eapply resolve_vertex_frame; [|exact Hl|exact Hl1]. lia.
    + rewrite lookup_resolve_vertex, Hl in Hl1. done.
Qed.

(** The entries of the vertex at position [k] are those it added. *)
Lemma resolve_vertices_entries nb iNum (vs : list (Vertex R V)) t k v j l' :
  0 <= iNum -> iNum + Z.of_nat (length vs) < 4294967296 -> below iNum t ->
  vs !! k = Some v ->
  (resolve_vertices nb iNum vs t).2 !! j = Some l' ->
  entries_of (iNum + Z.of_nat k) l' = added nb (iNum + Z.of_nat k) v j.
Proof.
  revert iNum t k. induction vs as [|v0 vs IH]; intros iNum t k H0 Hlt Hb Hk Hl'; [done|].
  simpl in Hl', Hlt.
  pose proof (resolve_vertices_frame nb (wrap32 (iNum + 1)) vs
                (resolve_vertex nb iNum v0 t)) as Hframe.
  specialize (IH (wrap32 (iNum + 1)) (resolve_vertex nb iNum v0 t)).
  destruct (resolve_vertices nb (wrap32 (iNum + 1)) vs (resolve_vertex nb iNum v0 t))
    as [[idx n] t'] eqn:Hr. simpl in *.
  rewrite wrap32_small in IH, Hframe by lia.
  destruct k as [|k]; simpl in Hk.
  - injection Hk as ->. rewrite Z.add_0_r.
    assert (Hlen : length t' = length t).
    { pose proof (resolve_vertices_length nb (wrap32 (iNum + 1)) vs
                    (resolve_vertex nb iNum v t)) as Hlen.
      rewrite Hr in Hlen. simpl in Hlen. by rewrite Hlen, length_resolve_vertex. }
    destruct (t !! j) as [l|] eqn:Hl.
    2: { apply lookup_ge_None in Hl. apply lookup_lt_Some in Hl'. lia. }
    assert (Hl1 : resolve_vertex nb iNum v t !! j = Some (l ++ added nb iNum v j)).
    { by rewrite lookup_resolve_vertex, Hl. }
    rewrite (Hframe iNum j (l ++ added nb iNum v j) l'); [|lia|lia|lia|exact Hl1|done].
    rewrite entries_of_app, (entries_of_below iNum iNum l), entries_of_same; [done| | |lia].
    + apply added_ids.
    + unfold below in Hb. rewrite Forall_lookup in Hb. by apply (Hb j).
  - replace (iNum + Z.of_nat (S k)) with (iNum + 1 + Z.of_nat k) by lia.
    apply IH; [lia|lia| |done|done]. by apply below_resolve_vertex.
Qed.

(** *** The face loop *)

Lemma length_face_vertices (f : Face R V) : length (face_vertices f) = 3%nat.
Proof. unfold face_vertices. by destruct (avVertices f) as [[? ?] ?]. Qed.

Lemma length_mesh_vertices (tris : list (Face R V)) srcs :
  (length (mesh_vertices tris srcs) <= 3 * length srcs)%nat.
Proof.
  induction srcs as [|i srcs IH]; simpl; [lia|].
  destruct (tris !! Z.to_nat i); simpl; [|lia].
  rewrite length_app, length_face_vertices. lia.
Qed.

Lemma fill_faces_tables nb (tris : list (Face R V)) srcs a a' :
  fill_faces nb tris srcs a = Some a' ->
  acc_bones a' =
  (resolve_vertices nb (acc_iNum a) (mesh_vertices tris srcs) (acc_bones a)).2.
Proof.
  revert a. induction srcs as [|i srcs IH]; intros a Hfill; simpl in *.
  - by injection Hfill as <-.
  - destruct (tris !! Z.to_nat i) as [face|]; [|done].
    rewrite resolve_vertices_app.
    destruct (resolve_vertices nb (acc_iNum a) (face_vertices face) (acc_bones a))
      as [[idx n] t1].
    apply IH in Hfill. simpl in Hfill. rewrite Hfill.
    by destruct (resolve_vertices nb n (mesh_vertices tris srcs) t1) as [[? ?] ?].
Qed.

(** The entries a vertex of a mesh has in a bone table are those it added. *)
Lemma mesh_tables_entries {B} (asBones : list B) (tris : list (Face R V)) srcs a k v j l :
  mesh_tables asBones tris srcs = Some a ->
  3 * Z.of_nat (length srcs) < 4294967296 ->
  mesh_vertices tris srcs !! k = Some v ->
  acc_bones a !! j = Some l ->
  entries_of (Z.of_nat k) l = added (Z.of_nat (length asBones)) (Z.of_nat k) v j.
Proof.
  intros Hm Hlt Hk Hl. unfold mesh_tables in Hm. apply fill_faces_tables in Hm.
  simpl in Hm. rewrite Hm in Hl.
  pose proof (length_mesh_vertices tris srcs) as Hlen.
  pose proof (resolve_vertices_entries (Z.of_nat (length asBones)) 0
                (mesh_vertices tris srcs) (replicate (length asBones) []) k v j l) as He.
  rewrite Z.add_0_l in He. apply He; [lia|lia|apply below_nil|done|done].
Qed.

Lemma length_mesh_tables {B} (asBones : list B) (tris : list (Face R V)) srcs a :
  mesh_tables asBones tris srcs = Some a -> length (acc_bones a) = length asBones.
Proof.
  intros Hm. unfold mesh_tables in Hm. apply fill_faces_tables in Hm. simpl in Hm.
  by rewrite Hm, resolve_vertices_length, length_replicate.
Qed.

(** A vertex whose indices are unsigned. *)
Definition unsigned_vertex v : Prop :=
  0 <= iParentNode v /\ Forall (fun e => 0 <= fst e) (aiBoneLinks v).

Lemma new_for_parent nb iNum v :
  unsigned_vertex v ->
  new_for iNum (Z.to_nat (iParentNode v)) (surviving nb v) = [].
Proof.
  intros [Hp Hall]. unfold surviving, new_for.
  induction Hall as [|e links He _ IH]; [done|]. cbn [List.filter].
  destruct (survives nb (iParentNode v) e) eqn:Hs; [|done].
  cbn [List.filter]. unfold survives in Hs.
  destruct (Z.eqb_spec (fst e) (iParentNode v)) as [Heq|Hne].
  { by rewrite andb_false_r in Hs. }
  destruct (Nat.eqb_spec (Z.to_nat (fst e)) (Z.to_nat (iParentNode v))) as [Heq|_]; [|done].
  apply Z2Nat.inj in Heq; [done|lia|lia].
Qed.

(** C10. In the bone tables of a mesh, a vertex has no entry in the table of
    its own parent bone other than the residual: the links that name the
    parent are left out of the table and of [fSum] (the sum runs over the
    links inside [asBones] that differ from the parent), and the table holds
    for the vertex either nothing or the single entry [1 - fSum], never a
    declared weight. *)
Theorem smd_parent_bone_only_residual {B} (asBones : list B) (tris : list (Face R V))
    srcs a k v tbl :
  mesh_tables asBones tris srcs = Some a ->
  3 * Z.of_nat (length srcs) < 4294967296 ->
  mesh_vertices tris srcs !! k = Some v ->
  unsigned_vertex v ->
  acc_bones a !! Z.to_nat (iParentNode v) = Some tbl ->
  let fSum :=
    sum_from (map snd (List.filter
                         (fun e => (fst e <? Z.of_nat (length asBones))
                                   && negb (fst e =? iParentNode v))
                         (aiBoneLinks v))) r0 in
  entries_of (Z.of_nat k) tbl =
  if rltb fSum limit && negb (iParentNode v =? UINT_MAX)
  then [(Z.of_nat k, rsub r1 fSum)] else [].
Proof.
  intros Hm Hlt Hk Hu Htbl fSum.
  assert (HfS : fSum = fSum_of (Z.of_nat (length asBones)) v) by done.
  rewrite (mesh_tables_entries asBones tris srcs a k v _ tbl Hm Hlt Hk Htbl).
  unfold added. rewrite <- HfS, (new_for_parent _ _ v Hu).
  destruct (rltb fSum limit && negb (iParentNode v =? UINT_MAX)); [|done].
  assert (Hp : iParentNode v < Z.of_nat (length asBones)).
  { apply lookup_lt_Some in Htbl. rewrite (length_mesh_tables asBones tris srcs a Hm) in Htbl.
    destruct Hu as [Hp _]. lia. }
  destruct (Z.leb_spec (Z.of_nat (length asBones)) (iParentNode v)); [lia|].
  by rewrite Nat.eqb_refl.
Qed.

(** *** The weights of a vertex across the tables *)

Lemma concat_map_lookup {A C} (f : A -> list C) (g : nat -> list C) (xs : list A) :
  (forall j x, xs !! j = Some x -> f x = g j) ->
  concat (map f xs) = concat (map g (seq 0 (length xs))).
Proof.
  revert g. induction xs as [|x xs IH]; intros g Hg; simpl; [done|].
  rewrite (Hg 0%nat x) by done. f_equal.
  rewrite <- seq_shift, map_map. apply IH. intros j y Hy. by apply (Hg (S j)).
Qed.

Lemma concat_map_app_perm {C} (a b : nat -> list C) (js : list nat) :
  concat (map (fun j => a j ++ b j) js) ≡ₚ concat (map a js) ++ concat (map b js).
Proof.
  induction js as [|j js IH]; simpl; [done|].
  rewrite IH, <- !app_assoc. apply Permutation_app_head.
  rewrite !app_assoc. apply Permutation_app_tail. apply Permutation_app_comm.
Qed.

Lemma concat_map_indicator_lt {C} (x : C) (p n m : nat) :
  (p < m)%nat ->
  concat (map (fun j => if (p =? j)%nat then [x] else []) (seq m n)) = [].
Proof.
  revert m. induction n as [|n IH]; intros m Hlt; simpl; [done|].
  destruct (Nat.eqb_spec p m); [lia|]. simpl. apply IH. lia.
Qed.

Lemma concat_map_indicator {C} (x : C) (p n m : nat) :
  (m <= p < m + n)%nat ->
  concat (map (fun j => if (p =? j)%nat then [x] else []) (seq m n)) = [x].
Proof.
  revert m. induction n as [|n IH]; intros m Hlt; simpl; [lia|].
  destruct (Nat.eqb_spec p m) as [->|Hne]; simpl.
  - f_equal. apply concat_map_indicator_lt. lia.
  - apply IH. lia.
Qed.

(** Sorting the links into the tables keeps every weight once. *)
Lemma buckets_perm iNum (n : nat) (ls : list (Z * R)) :
  Forall (fun e => (Z.to_nat (fst e) < n)%nat) ls ->
  concat (map (fun j => map snd (new_for iNum j ls)) (seq 0 n)) ≡ₚ map snd ls.
Proof.
  induction 1 as [|e ls He _ IH].
  - unfold new_for. simpl. induction (seq 0 n) as [|j js IHj]; simpl; done.
  - transitivity
      (concat (map (fun j => (if (Z.to_nat (fst e) =? j)%nat then [snd e] else [])
                             ++ map snd (new_for iNum j ls)) (seq 0 n))).
    { apply eq_subrelation; [apply _|]. f_equal. apply map_ext. intros j.
      unfold new_for. cbn [List.filter]. by destruct (Z.to_nat (fst e) =? j)%nat. }
    rewrite concat_map_app_perm, IH, concat_map_indicator by lia. done.
Qed.

(** The weights of a vertex of a mesh whose sum is below the limit and whose
    parent is a bone: the surviving ones and the residual. *)
Lemma mesh_vertex_weights {B} (asBones : list B) (tris : list (Face R V)) srcs a k v :
  mesh_tables asBones tris srcs = Some a ->
  3 * Z.of_nat (length srcs) < 4294967296 ->
  mesh_vertices tris srcs !! k = Some v ->
  unsigned_vertex v ->
  iParentNode v < Z.of_nat (length asBones) ->
  iParentNode v <> UINT_MAX ->
  rltb (fSum_of (Z.of_nat (length asBones)) v) limit = true ->
  vertex_weights (acc_bones a) (Z.of_nat k) ≡ₚ
  map snd (surviving (Z.of_nat (length asBones)) v)
  ++ [rsub r1 (fSum_of (Z.of_nat (length asBones)) v)].
Proof.
  intros Hm Hlt Hk Hu Hp Hmax Hs. set (nb := Z.of_nat (length asBones)) in *.
  unfold vertex_weights.
  rewrite (concat_map_lookup _
             (fun j => map snd (new_for (Z.of_nat k) j (surviving nb v))
                       ++ (if (Z.to_nat (iParentNode v) =? j)%nat
                           then [rsub r1 (fSum_of nb v)] else []))).
  2: { intros j l Hl.
       rewrite (mesh_tables_entries asBones tris srcs a k v j l Hm Hlt Hk Hl).
       unfold added. fold nb. rewrite Hs.
       destruct (Z.eqb_spec (iParentNode v) UINT_MAX); [done|]. cbn [negb andb].
       destruct (Z.leb_spec nb (iParentNode v)); [lia|].
       rewrite map_app. by destruct (Z.to_nat (iParentNode v) =? j)%nat. }
  rewrite (length_mesh_tables asBones tris srcs a Hm).
  rewrite concat_map_app_perm, buckets_perm, concat_map_indicator; [done| |].
  - destruct Hu as [Hp0 _]. lia.
  - unfold surviving. apply List.Forall_forall. intros e He.
    apply filter_In in He as [Hin Hsv].
    destruct Hu as [_ Hall]. rewrite List.Forall_forall in Hall.
    specialize (Hall e Hin).
    unfold survives in Hsv. apply andb_prop in Hsv as [Hsv _].
    apply Z.ltb_lt in Hsv. lia.
Qed.

(** The weights of a vertex of a mesh whose sum is not below the limit: the
    surviving ones, and no residual. *)
Lemma mesh_vertex_weights_kept {B} (asBones : list B) (tris : list (Face R V)) srcs a k v :
  mesh_tables asBones tris srcs = Some a ->
  3 * Z.of_nat (length srcs) < 4294967296 ->
  mesh_vertices tris srcs !! k = Some v ->
  unsigned_vertex v ->
  rltb (fSum_of (Z.of_nat (length asBones)) v) limit = false ->
  vertex_weights (acc_bones a) (Z.of_nat k) ≡ₚ
  map snd (surviving (Z.of_nat (length asBones)) v).
Proof.
  intros Hm Hlt Hk Hu Hs. set (nb := Z.of_nat (length asBones)) in *.
  unfold vertex_weights.
  rewrite (concat_map_lookup _
             (fun j => map snd (new_for (Z.of_nat k) j (surviving nb v)))).
  2: { intros j l Hl.
       rewrite (mesh_tables_entries asBones tris srcs a k v j l Hm Hlt Hk Hl).
       unfold added. fold nb. by rewrite Hs. }
  rewrite (length_mesh_tables asBones tris srcs a Hm).
  apply buckets_perm.
  unfold surviving. apply List.Forall_forall. intros e He.
  apply filter_In in He as [Hin Hsv].
  destruct Hu as [_ Hall]. rewrite List.Forall_forall in Hall.
  specialize (Hall e Hin).
  unfold survives in Hsv. apply andb_prop in Hsv as [Hsv _].
  apply Z.ltb_lt in Hsv. lia.
Qed.

Lemma nodup_filter_single {A} (g : A -> nat) (j : nat) (ls : list A) :
  NoDup (map g ls) ->
  List.filter (fun e => (g e =? j)%nat) ls = []
  \/ exists e, List.filter (fun e => (g e =? j)%nat) ls = [e].
Proof.
  induction ls as [|e ls IH]; intros Hnd; [by left|].
  simpl in Hnd. inversion Hnd as [|x xs Hnot Hnd']; subst. specialize (IH Hnd').
  cbn [List.filter]. destruct (Nat.eqb_spec (g e) j) as [Heq|Hne]; [|done].
  right. exists e. f_equal.
  destruct IH as [Hnil|[e' He']]; [done|]. exfalso. apply Hnot.
  assert (Hin : In e' (List.filter (fun e => (g e =? j)%nat) ls)) by (rewrite He'; by left).
  apply filter_In in Hin as [Hin Hg]. apply Nat.eqb_eq in Hg.
  rewrite Heq, <- Hg. apply list_elem_of_In. by apply in_map.
Qed.

(** C2 (amended). The three outcomes of the resolution of one vertex, with
    [t1] the tables once the surviving links are appended and [fSum] their
    sum: (1) [fSum < 0.975] and the parent is a bone: the residual
    [1 - fSum] is appended to the parent's table; (2) [fSum < 0.975], the
    parent is outside the bones without being [UINT_MAX], [fSum] is not
    zero and the surviving links name different bones: every table ends
    with the surviving weight of the vertex multiplied by [1 / fSum], and
    there is no residual; (3) the parent is [UINT_MAX]: nothing is assigned
    and nothing is renormalised. *)
Theorem smd_resolution_cases nb iNum v t :
  let surv := surviving nb v in
  let fSum := fSum_of nb v in
  let t1 := push_links iNum surv t in
  (rltb fSum limit = true -> iParentNode v < nb -> iParentNode v <> UINT_MAX ->
   resolve_vertex nb iNum v t = emplace_back t1 (iParentNode v) (iNum, rsub r1 fSum))
  /\ (rltb fSum limit = true -> nb <= iParentNode v -> iParentNode v <> UINT_MAX ->
      rtruth fSum = true ->
      NoDup (map (fun e => Z.to_nat (fst e)) surv) ->
      forall j l, t !! j = Some l ->
        resolve_vertex nb iNum v t !! j =
        Some (l ++ map (fun e => (iNum, rmul (snd e) (rdiv r1 fSum)))
                     (List.filter (fun e => (Z.to_nat (fst e) =? j)%nat) surv)))
  /\ (iParentNode v = UINT_MAX -> resolve_vertex nb iNum v t = t1).
Proof.
  intros surv fSum t1. repeat split.
  - intros Hs Hp Hmax. unfold resolve_vertex. rewrite collect_spec.
    fold (surviving nb v) (fSum_of nb v). fold surv fSum. rewrite Hs.
    destruct (Z.eqb_spec (iParentNode v) UINT_MAX); [done|]. cbn [negb andb].
    destruct (Z.leb_spec nb (iParentNode v)); [lia|done].
  - intros Hs Hp Hmax Ht Hnd j l Hl. rewrite lookup_resolve_vertex, Hl. cbn [fmap option_fmap option_map].
    f_equal. f_equal. unfold added. fold surv fSum. rewrite Hs, Ht.
    destruct (Z.eqb_spec (iParentNode v) UINT_MAX); [done|]. cbn [negb andb].
    destruct (Z.leb_spec nb (iParentNode v)); [|lia].
    unfold new_for.
    destruct (nodup_filter_single (fun e : Z * R => Z.to_nat (fst e)) j surv Hnd)
      as [->|[e ->]]; [done|].
    simpl. by rewrite (scale_last_snoc _ [] iNum (snd e)).
  - intros Hmax. unfold resolve_vertex. rewrite collect_spec.
    fold (surviving nb v) (fSum_of nb v). rewrite Hmax. cbn [Z.eqb].
    by rewrite andb_false_r.
Qed.

End SMD_tables.

(** *** Concrete vertices *)

Definition smd_vertex {R} (parent : Z) (links : list (Z * R)) : SMD.Vertex R unit :=
  SMD.mkVertex parent tt tt tt links.

Definition smd_face {R} (a b c : SMD.Vertex R unit) : SMD.Face R unit :=
  SMD.mkFace 0 (a, b, c).

(** One triangle on two bones: the first vertex declares 0.5 on its parent
    (bone 1) and 0.25 on bone 0, the others declare nothing. *)
Definition w_face : SMD.Face B32.t unit :=
  smd_face (smd_vertex 1 [(1, B32.lit 1 2); (0, B32.lit 1 4)])
           (smd_vertex 1 []) (smd_vertex 1 []).

Definition w_acc : SMD.MeshAcc B32.t unit :=
  Eval vm_compute in
    match SMD.mesh_tables [tt; tt] [w_face] [0] with
    | Some a => a
    | None => SMD.mkMeshAcc 0 [] [] [] [] []
    end.

Lemma smd_parent_bone_only_residual_witness :
  SMD.entries_of 0 (SMD.acc_bones w_acc !!! 1%nat) = [(0, B32.lit 3 4)].
Proof.
  refine (smd_parent_bone_only_residual (R:=B32.t) [tt; tt] [w_face] [0] w_acc 0
            (smd_vertex 1 [(1, B32.lit 1 2); (0, B32.lit 1 4)])
            (SMD.acc_bones w_acc !!! 1%nat) _ _ eq_refl _ eq_refl).
  - vm_compute. reflexivity.
  - simpl. lia.
  - split; [simpl; lia|]. repeat constructor; simpl; lia.
Defined.

(** A vertex whose parent is not a bone (index 5 of one bone) and whose only
    weight 0.5 is below the limit: the weight is doubled. *)
Lemma smd_resolution_cases_witness :
  SMD.resolve_vertex 1 7 (smd_vertex 5 [(0, B32.lit 1 2)]) [[]] !! 0%nat
  = Some [(7, B32.one)].
Proof.
  refine (proj1 (proj2 (smd_resolution_cases (R:=B32.t) 1 7
                          (smd_vertex 5 [(0, B32.lit 1 2)]) [[]]))
            _ _ _ _ _ 0%nat [] eq_refl).
  - vm_compute. reflexivity.
  - simpl. lia.
  - unfold UINT_MAX. simpl. lia.
  - vm_compute. reflexivity.
  - vm_compute. repeat constructor. intros Hin. inversion Hin.
Defined.

(** ** The rounding of binary32 in the sum of the weights *)

Section B32_rounding.
#[local] Open Scope Z_scope.

(** A non-negative number of binary32: zero, or a mantissa of at most 24
    bits over an exponent that is not below the least one. *)
Definition nonneg_float (x : B32.t) : Prop :=
  match x with
  | S754_zero _ => True
  | S754_finite false m e => Z.pos m < 2 ^ 24 /\ -149 <= e
  | _ => False
  end.

(** The value of such a number in units of [2 ^ -149]. *)
Definition units (x : B32.t) : Z :=
  match x with
  | S754_finite false m e => Z.pos m * 2 ^ (e + 149)
  | _ => 0
  end.

Lemma pow2_pos k : 0 <= k -> 0 < 2 ^ k.
Proof. intros Hk. by apply Z.pow_pos_nonneg. Qed.

Lemma pow2_split a b : 0 <= a -> 0 <= b -> 2 ^ (a + b) = 2 ^ a * 2 ^ b.
Proof. intros Ha Hb. by apply Z.pow_add_r. Qed.

Lemma pow2_le a b : 0 <= a <= b -> 2 ^ a <= 2 ^ b.
Proof. intros Hab. apply Z.pow_le_mono_r; lia. Qed.

Lemma pow2_lt a b : 0 <= a < b -> 2 ^ a < 2 ^ b.
Proof. intros Hab. apply Z.pow_lt_mono_r; lia. Qed.

Lemma pow2_lt_inv a b : 0 <= b -> 2 ^ a < 2 ^ b -> a < b.
Proof.
  intros Hb Hlt. destruct (Z.lt_ge_cases a b) as [|Hge]; [done|].
  pose proof (pow2_le b a ltac:(lia)). lia.
Qed.

Lemma units_nonneg x : 0 <= units x.
Proof.
  destruct x as [| | |[] m e]; cbn [units]; lia.
Qed.

Lemma digits2_pos_bounds (p : positive) :
  2 ^ (Z.pos (digits2_pos p) - 1) <= Z.pos p < 2 ^ Z.pos (digits2_pos p).
Proof.
  induction p as [p IH|p IH|]; cbn [digits2_pos].
  - rewrite Pos2Z.inj_succ. replace (Z.succ (Z.pos (digits2_pos p)) - 1)
      with (Z.succ (Z.pos (digits2_pos p) - 1)) by lia.
    rewrite !Z.pow_succ_r by lia. lia.
  - rewrite Pos2Z.inj_succ. replace (Z.succ (Z.pos (digits2_pos p)) - 1)
      with (Z.succ (Z.pos (digits2_pos p) - 1)) by lia.
    rewrite !Z.pow_succ_r by lia. lia.
  - cbn. lia.
Qed.

Lemma iter_xO (m d : positive) : Z.pos (Pos.iter xO m d) = Z.pos m * 2 ^ Z.pos d.
Proof.
  induction d as [|d IH] using Pos.peano_ind.
  - cbn. lia.
  - rewrite Pos.iter_succ, Pos2Z.inj_xO, IH, Pos2Z.inj_succ, Z.pow_succ_r by lia. lia.
Qed.

(** What is known of a number [M] once it has been shifted to the right:
    [P] is the power of two that was divided by; the record holds the
    quotient and tells where the remainder stands with respect to the
    half of [P]. *)
Definition shifted (P M : Z) (mrs : shr_record) : Prop :=
  let rem := M - shr_m mrs * P in
  0 <= shr_m mrs /\ 0 <= rem < P
  /\ (if shr_r mrs then P <= 2 * rem else 2 * rem < P)
  /\ (if shr_s mrs then (if shr_r mrs then 2 * rem <> P else rem <> 0)
      else (if shr_r mrs then 2 * rem = P else rem = 0)).

Lemma shr_1_shifted P M mrs : 0 < P -> shifted P M mrs -> shifted (P * 2) M (shr_1 mrs).
Proof.
  intros HP. destruct mrs as [m r s]. intros Hold.
  unfold shifted in Hold. cbn [shr_m shr_r shr_s] in Hold.
  destruct Hold as (Hm & Hrem & Hr & Hs).
  assert (Hcases : (exists q (b : bool), 0 <= q /\ m = 2 * q + (if b then 1 else 0)
                     /\ shr_1 {| shr_m := m; shr_r := r; shr_s := s |}
                        = {| shr_m := q; shr_r := b; shr_s := r || s |})).
  { destruct m as [|[p|p|]|p]; [| | | |lia].
    - exists 0, false. by repeat split.
    - exists (Z.pos p), true. split; [lia|]. split; [lia|done].
    - exists (Z.pos p), false. split; [lia|]. split; [lia|done].
    - exists 0, true. by repeat split. }
  destruct Hcases as (q & b & Hq & -> & ->).
  unfold shifted. cbn [shr_m shr_r shr_s].
  set (x := q * P) in *.
  replace ((2 * q + (if b then 1 else 0)) * P) with (2 * x + (if b then P else 0)) in *
    by (unfold x; destruct b; ring).
  replace (q * (P * 2)) with (2 * x) by (unfold x; ring).
  clearbody x.
  split; [done|].
  destruct b, r, s; cbn [orb]; repeat split; lia.
Qed.

Lemma iter_shr_1_shifted (p : positive) P M mrs :
  0 < P -> shifted P M mrs -> shifted (P * 2 ^ Z.pos p) M (SpecFloat.iter_pos shr_1 p mrs).
Proof.
  revert P mrs. induction p as [p IH|p IH|]; intros P mrs HP Hs; cbn [SpecFloat.iter_pos].
  - apply shr_1_shifted in Hs; [|done].
    apply IH in Hs; [|lia].
    apply IH in Hs; [|pose proof (pow2_pos (Z.pos p)); nia].
    replace (P * 2 ^ Z.pos p~1) with (P * 2 * 2 ^ Z.pos p * 2 ^ Z.pos p); [done|].
    replace (Z.pos p~1) with (Z.pos p + Z.pos p + 1) by lia.
    rewrite !Z.pow_add_r, Z.pow_1_r by lia. ring.
  - apply IH in Hs; [|lia].
    apply IH in Hs; [|pose proof (pow2_pos (Z.pos p)); nia].
    replace (P * 2 ^ Z.pos p~0) with (P * 2 ^ Z.pos p * 2 ^ Z.pos p); [done|].
    replace (Z.pos p~0) with (Z.pos p + Z.pos p) by lia.
    rewrite Z.pow_add_r by lia. ring.
  - apply shr_1_shifted in Hs; [|done]. by rewrite Z.pow_1_r.
Qed.

Lemma round_nearest_even_shifted P M mrs :
  0 < P -> shifted P M mrs ->
  let m2 := round_nearest_even (shr_m mrs) (loc_of_shr_record mrs) in
  shr_m mrs <= m2 <= shr_m mrs + 1
  /\ - P <= 2 * (m2 * P - M) <= P.
Proof.
  intros HP. destruct mrs as [m r s]. unfold shifted.
  cbn [shr_m shr_r shr_s loc_of_shr_record].
  intros (Hm & Hrem & Hr & Hs).
  destruct r, s; cbn [round_nearest_even]; try (split; nia).
  destruct (Z.even m); split; nia.
Qed.

Lemma fexp32 e : fexp 24 128 e = Z.max (e - 24) (-149).
Proof. reflexivity. Qed.

Lemma Zdigits2_small m : 0 <= m < 2 ^ 24 -> Zdigits2 m <= 24.
Proof.
  intros Hm. destruct m as [|p|p]; cbn [Zdigits2]; [lia| |lia].
  pose proof (digits2_pos_bounds p) as [Hlo _].
  assert (Z.pos (digits2_pos p) - 1 < 24); [|lia].
  apply pow2_lt_inv; lia.
Qed.

(** A mantissa of at most 24 bits is not shifted. *)
Lemma shr_fexp_none m e :
  0 <= m < 2 ^ 24 -> -149 <= e ->
  shr_fexp 24 128 m e loc_Exact
  = ({| shr_m := m; shr_r := false; shr_s := false |}, e).
Proof.
  intros Hm He. unfold shr_fexp. rewrite fexp32. cbn [shr_record_of_loc].
  pose proof (Zdigits2_small m Hm).
  unfold shr. destruct (Z.max _ _ - e) eqn:Hn; try done. lia.
Qed.

(** The end of [binary_round_aux]: the mantissa [m2] that was rounded to is
    brought back to 24 bits and the exponent is tested. *)
Definition finish (m2 e1 : Z) : B32.t :=
  let '(mrs, e2) := shr_fexp 24 128 m2 e1 loc_Exact in
  match shr_m mrs with
  | Z0 => S754_zero false
  | Zpos m => if e2 <=? 128 - 24 then S754_finite false m e2 else S754_infinity false
  | _ => S754_nan
  end.

Lemma finish_spec m2 e1 :
  0 <= m2 <= 2 ^ 24 -> -149 <= e1 ->
  (finish m2 e1 = S754_infinity false /\ 104 <= e1)
  \/ (nonneg_float (finish m2 e1) /\ units (finish m2 e1) = m2 * 2 ^ (e1 + 149)).
Proof.
  intros Hm He. unfold finish.
  destruct (Z.eq_dec m2 (2 ^ 24)) as [->|Hne].
  - assert (Hshr : shr_fexp 24 128 (2 ^ 24) e1 loc_Exact
                   = ({| shr_m := 2 ^ 23; shr_r := false; shr_s := false |}, e1 + 1)).
    { unfold shr_fexp. rewrite fexp32. change (Zdigits2 (2 ^ 24)) with 25.
      replace (Z.max (25 + e1 - 24) (-149) - e1) with 1 by lia. reflexivity. }
    rewrite Hshr. cbn [shr_m]. change (2 ^ 23) with (Z.pos 8388608).
    cbv iota. change (128 - 24) with 104.
    destruct (Z.leb_spec (e1 + 1) 104); [right|left; split; [done|lia]].
    cbn [nonneg_float units]. split; [split; [done|lia]|].
    replace (e1 + 1 + 149) with (1 + (e1 + 149)) by lia.
    rewrite pow2_split, Z.pow_1_r by lia. change (2 ^ 24) with 16777216. lia.
  - rewrite shr_fexp_none by lia. cbn [shr_m]. change (128 - 24) with 104.
    destruct m2 as [|p|p]; [|..|lia].
    + right. cbn. split; [done|lia].
    + destruct (Z.leb_spec e1 104); [right|left; split; [done|lia]].
      cbn [nonneg_float units]. split; [split; lia|done].
Qed.

Lemma binary_round_aux_finish mx ex :
  binary_round_aux 24 128 false mx ex loc_Exact
  = let '(mrs, e1) := shr_fexp 24 128 mx ex loc_Exact in
    finish (round_nearest_even (shr_m mrs) (loc_of_shr_record mrs)) e1.
Proof. reflexivity. Qed.

(** Rounding [m * 2 ^ e] to binary32: below 1 the result is off by half a
    unit of the last place at most, which is [2 ^ -25] there; from 1 on the
    result is 1 or more, or infinite. *)
Lemma binary_round_spec (m : positive) (e : Z) :
  -149 <= e ->
  let X := Z.pos m * 2 ^ (e + 149) in
  let r := binary_round 24 128 false m e in
  (X < 2 ^ 149 -> nonneg_float r /\ - 2 ^ 124 <= units r - X <= 2 ^ 124)
  /\ (2 ^ 149 <= X -> r = S754_infinity false \/ (nonneg_float r /\ 2 ^ 149 <= units r)).
Proof.
  intros He X r.
  pose proof (digits2_pos_bounds m) as [HDlo HDhi].
  set (D := Z.pos (digits2_pos m)) in *.
  assert (HD : 1 <= D) by (unfold D; lia).
  set (phi := Z.max (D + e - 24) (-149)).
  set (U := 2 ^ (e + 149)) in *.
  assert (HU : 0 < U) by (apply pow2_pos; lia).
  (* the size of [X] decides the exponent *)
  assert (Hsmall : X < 2 ^ 149 -> D + e <= 0).
  { intros HX. assert (D - 1 + (e + 149) < 149); [|lia].
    apply pow2_lt_inv; [lia|]. rewrite pow2_split by lia. fold U.
    unfold X in HX. nia. }
  assert (Hbig : 2 ^ 149 <= X -> 1 <= D + e).
  { intros HX. assert (149 < D + (e + 149)); [|lia].
    apply pow2_lt_inv; [lia|]. rewrite pow2_split by lia. fold U.
    unfold X in HX. nia. }
  unfold r, binary_round. rewrite fexp32. fold D phi.
  destruct (Z_lt_le_dec e phi) as [Hshift|Hexact].
  - (* the mantissa is too long: it is shifted to the right and rounded *)
    assert (Halign : shl_align m e phi = (m, e)).
    { unfold shl_align. destruct (phi - e) eqn:Hd; try done. lia. }
    rewrite Halign, binary_round_aux_finish.
    unfold shr_fexp. rewrite fexp32. cbn [Zdigits2 shr_record_of_loc]. fold D phi.
    unfold shr. destruct (phi - e) as [|p|p] eqn:Hn; [lia| |lia].
    set (Pn := 2 ^ Z.pos p).
    assert (HPn : 0 < Pn) by (apply pow2_pos; lia).
    pose proof (iter_shr_1_shifted p 1 (Z.pos m)
                  {| shr_m := Z.pos m; shr_r := false; shr_s := false |}) as Hsh.
    rewrite Z.mul_1_l in Hsh. fold Pn in Hsh.
    specialize (Hsh ltac:(lia)).
    assert (H0 : shifted 1 (Z.pos m) {| shr_m := Z.pos m; shr_r := false; shr_s := false |}).
    { unfold shifted. cbn [shr_m shr_r shr_s]. lia. }
    specialize (Hsh H0). clear H0.
    set (mrs := SpecFloat.iter_pos shr_1 p _) in *.
    pose proof (round_nearest_even_shifted Pn (Z.pos m) mrs HPn Hsh) as [Hm2 Herr].
    set (m2 := round_nearest_even (shr_m mrs) (loc_of_shr_record mrs)) in *.
    destruct Hsh as (Hm1 & Hrem & _).
    set (m1 := shr_m mrs) in *.
    assert (Hphi : e + Z.pos p = phi) by lia.
    assert (HPU : 2 ^ (phi + 149) = Pn * U).
    { unfold Pn, U. rewrite <- pow2_split by lia. f_equal. lia. }
    assert (Hm1lt : m1 < 2 ^ 24).
    { assert (D <= 24 + Z.pos p) by lia.
      assert (2 ^ D <= 2 ^ 24 * Pn).
      { unfold Pn. rewrite <- pow2_split by lia. apply pow2_le. lia. }
      nia. }
    rewrite Hphi.
    destruct (finish_spec m2 phi ltac:(lia) ltac:(lia)) as [[Hinf Hge]|[Hok Hunits]].
    + split.
      * intros HX. specialize (Hsmall HX). lia.
      * intros _. by left.
    + rewrite HPU in Hunits. split.
      * intros HX. specialize (Hsmall HX). split; [done|]. rewrite Hunits.
        assert (HPU' : Pn * U <= 2 ^ 125).
        { rewrite <- HPU. apply pow2_le. lia. }
        change (2 ^ 125) with (2 * 2 ^ 124) in HPU'. unfold X. nia.
      * intros HX. specialize (Hbig HX). right. split; [done|]. rewrite Hunits.
        assert (Hpn : Z.pos p = D - 24) by lia.
        assert (HDP : 2 ^ (D - 1) = 2 ^ 23 * Pn).
        { unfold Pn. rewrite <- pow2_split by lia. f_equal. lia. }
        assert (Hm1ge : 2 ^ 23 <= m1) by nia.
        assert (H149 : 2 ^ 149 <= 2 ^ 23 * (Pn * U)).
        { rewrite <- HPU, <- pow2_split by lia. apply pow2_le. lia. }
        nia.
  - (* the mantissa fits: it is aligned to the left, nothing is lost *)
    assert (Halign : exists mz, shl_align m e phi = (mz, phi)
                                /\ Z.pos mz * 2 ^ (phi + 149) = X
                                /\ Z.pos mz < 2 ^ 24).
    { unfold shl_align. destruct (phi - e) as [|d|d] eqn:Hd; [| lia |].
      - assert (Hpe : phi = e) by lia. exists m. rewrite Hpe at 1 2.
        split; [done|]. split; [done|].
        assert (2 ^ D <= 2 ^ 24) by (apply pow2_le; lia). lia.
      - exists (Pos.iter xO m d). split; [done|]. rewrite iter_xO.
        assert (Hd' : e = Z.pos d + phi) by lia.
        assert (HU' : U = 2 ^ Z.pos d * 2 ^ (phi + 149)).
        { unfold U. rewrite <- pow2_split by lia. f_equal. lia. }
        split; [unfold X; rewrite HU'; ring|].
        assert (2 ^ D * 2 ^ Z.pos d <= 2 ^ 24).
        { rewrite <- pow2_split by lia. apply pow2_le. lia. }
        pose proof (pow2_pos (Z.pos d) ltac:(lia)). nia. }
    destruct Halign as (mz & -> & HX & Hmz).
    rewrite binary_round_aux_finish, shr_fexp_none by lia.
    cbn [shr_m loc_of_shr_record round_nearest_even].
    destruct (finish_spec (Z.pos mz) phi ltac:(lia) ltac:(lia)) as [[Hinf Hge]|[Hok Hunits]].
    + split.
      * intros HX'. specialize (Hsmall HX'). lia.
      * intros _. by left.
    + rewrite HX in Hunits. split.
      * intros _. split; [done|]. rewrite Hunits. lia.
      * intros HX'. right. split; [done|]. by rewrite Hunits.
Qed.

Lemma shl_align_units mx ex ez :
  ez <= ex -> -149 <= ez ->
  Z.pos (fst (shl_align mx ex ez)) * 2 ^ (ez + 149) = Z.pos mx * 2 ^ (ex + 149).
Proof.
  intros Hle He. unfold shl_align. destruct (ez - ex) as [|d|d] eqn:Hd; cbn [fst].
  - by replace ez with ex by lia.
  - lia.
  - rewrite iter_xO. replace (ex + 149) with (Z.pos d + (ez + 149)) by lia.
    rewrite (pow2_split (Z.pos d) (ez + 149)) by lia. ring.
Qed.

(** The sum of two non-negative numbers. *)
Lemma add_spec (x y : B32.t) :
  nonneg_float x -> nonneg_float y ->
  let r := B32.add x y in
  (units x + units y < 2 ^ 149 ->
   nonneg_float r /\ - 2 ^ 124 <= units r - (units x + units y) <= 2 ^ 124)
  /\ (2 ^ 149 <= units x + units y ->
      r = S754_infinity false \/ (nonneg_float r /\ 2 ^ 149 <= units r)).
Proof.
  intros Hx Hy r. subst r.
  destruct x as [sx| | |[] mx ex]; try done; destruct y as [sy| | |[] my ey]; try done.
  - cbn [units]. split; [|lia]. intros _. by destruct sx, sy.
  - cbn. split; [intros _; split; [done|lia]|]. intros HX. right. by split.
  - cbn. split; [intros _; split; [done|lia]|]. intros HX. right. split; [done|lia].
  - cbn [nonneg_float] in Hx, Hy. cbn [units].
    unfold B32.add, SFadd. cbn [cond_Zopp]. cbv zeta.
    set (ez := Z.min ex ey).
    pose proof (shl_align_units mx ex ez ltac:(lia) ltac:(lia)) as Ha.
    pose proof (shl_align_units my ey ez ltac:(lia) ltac:(lia)) as Hb.
    set (a := fst (shl_align mx ex ez)) in *. set (b := fst (shl_align my ey ez)) in *.
    change (Z.pos a + Z.pos b) with (Z.pos (a + b)). cbn [binary_normalize].
    pose proof (binary_round_spec (a + b) ez ltac:(lia)) as Hr. cbv zeta in Hr.
    replace (Z.pos (a + b) * 2 ^ (ez + 149))
      with (Z.pos mx * 2 ^ (ex + 149) + Z.pos my * 2 ^ (ey + 149)) in Hr
      by (rewrite Pos2Z.inj_add; lia).
    exact Hr.
Qed.

Lemma one_float : B32.one = S754_finite false 8388608 (-23).
Proof. reflexivity. Qed.

(** The residual [1 - s] for a non-negative [s] below 1. *)
Lemma sub_one_spec (s : B32.t) :
  nonneg_float s -> units s < 2 ^ 149 ->
  let r := B32.sub B32.one s in
  nonneg_float r /\ - 2 ^ 124 <= units r - (2 ^ 149 - units s) <= 2 ^ 124.
Proof.
  intros Hs Hlt r. subst r. rewrite one_float.
  destruct s as [ss| | |[] ms es]; try done.
  cbn [nonneg_float] in Hs. cbn [units] in Hlt |- *.
    unfold B32.sub, SFsub. cbn [cond_Zopp]. cbv zeta.
    set (ez := Z.min (-23) es).
    pose proof (shl_align_units 8388608 (-23) ez ltac:(lia) ltac:(lia)) as Ha.
    pose proof (shl_align_units ms es ez ltac:(lia) ltac:(lia)) as Hb.
    set (a := fst (shl_align 8388608 (-23) ez)) in *.
    set (b := fst (shl_align ms es ez)) in *.
    change (Z.pos 8388608 * 2 ^ (-23 + 149)) with (2 ^ 149) in Ha.
    assert (HU : 0 < 2 ^ (ez + 149)) by (apply pow2_pos; lia).
    assert (Hpos : 0 < Z.pos ms * 2 ^ (es + 149)).
    { pose proof (pow2_pos (es + 149) ltac:(lia)). nia. }
    destruct (Z.pos a - Z.pos b) as [|c|c] eqn:Hc; [nia| |nia].
  cbn [binary_normalize].
  pose proof (binary_round_spec c ez ltac:(lia)) as [Hr _]. cbv zeta in Hr.
  replace (Z.pos c * 2 ^ (ez + 149)) with (2 ^ 149 - Z.pos ms * 2 ^ (es + 149)) in Hr
    by (rewrite <- Hc; nia).
  apply Hr. lia.
Qed.

Lemma limit_float : B32.lit 975 1000 = S754_finite false 16357786 (-24).
Proof. vm_compute. reflexivity. Qed.

(** The test [fSum < 0.975f]. *)
Lemma ltb_limit_units (x : B32.t) :
  nonneg_float x -> B32.ltb x (B32.lit 975 1000) = true -> units x < 2 ^ 149.
Proof.
  intros Hx. rewrite limit_float.
  destruct x as [sx| | |[] m e]; try done.
  cbn [nonneg_float] in Hx. destruct Hx as [Hm He].
  unfold B32.ltb, SFltb. cbn [SFcompare units].
  destruct (Z.compare_spec e (-24)) as [->|Hlt|Hgt]; [| |done].
  - destruct (Pos.compare_cont Eq m 16357786) eqn:Hc; try done. intros _.
    pose proof (Pos.compare_lt_iff m 16357786) as Hiff. unfold Pos.compare in Hiff.
    apply Hiff in Hc. clear Hiff. change (2 ^ (-24 + 149)) with (2 ^ 125).
    change (2 ^ 149) with (16777216 * 2 ^ 125).
    pose proof (pow2_pos 125 ltac:(lia)). nia.
  - intros _. assert (2 ^ (e + 149) <= 2 ^ 124) by (apply pow2_le; lia).
    change (2 ^ 149) with (2 ^ 24 * (2 * 2 ^ 124)).
    pose proof (pow2_pos (e + 149) ltac:(lia)). nia.
Qed.

(** A sum that has reached 1, or is infinite. *)
Definition reached_one (x : B32.t) : Prop :=
  x = S754_infinity false \/ (nonneg_float x /\ 2 ^ 149 <= units x).

Lemma ltb_limit_reached (x : B32.t) :
  reached_one x -> B32.ltb x (B32.lit 975 1000) = false.
Proof.
  intros [->|[Hx Hge]]; [by rewrite limit_float|].
  destruct (B32.ltb x (B32.lit 975 1000)) eqn:Hlt; [|done].
  apply ltb_limit_units in Hlt; [lia|done].
Qed.

(** The weights in units of [2 ^ -149], added without rounding. *)
Definition total_units (ws : list B32.t) : Z := foldr (fun w acc => units w + acc) 0 ws.

Lemma total_units_nonneg ws : 0 <= total_units ws.
Proof.
  induction ws as [|w ws IH]; cbn [total_units foldr]; [lia|].
  fold (total_units ws). pose proof (units_nonneg w). lia.
Qed.

Lemma sum_reached ws s :
  reached_one s -> Forall nonneg_float ws -> reached_one (fold_left B32.add ws s).
Proof.
  intros Hs Hws. revert s Hs. induction Hws as [|w ws Hw _ IH]; intros s Hs; [done|].
  cbn [fold_left]. apply IH. destruct Hs as [->|[Hs Hge]].
  - left. by destruct w as [| | |[]].
  - destruct (add_spec s w Hs Hw) as [_ Hbig]. apply Hbig.
    pose proof (units_nonneg w). lia.
Qed.

(** The sum the code accumulates, when it is found below the limit: every
    addition rounded by [2 ^ -25] at most. *)
Lemma sum_small ws s :
  nonneg_float s -> Forall nonneg_float ws ->
  B32.ltb (fold_left B32.add ws s) (B32.lit 975 1000) = true ->
  nonneg_float (fold_left B32.add ws s)
  /\ units (fold_left B32.add ws s) < 2 ^ 149
  /\ - (Z.of_nat (length ws) * 2 ^ 124)
     <= units (fold_left B32.add ws s) - (units s + total_units ws)
     <= Z.of_nat (length ws) * 2 ^ 124.
Proof.
  intros Hs Hws. revert s Hs. induction Hws as [|w ws Hw Hws IH]; intros s Hs Hlt.
  - cbn [fold_left] in *. split; [done|]. split; [by apply ltb_limit_units|].
    cbn. lia.
  - cbn [fold_left] in *.
    destruct (add_spec s w Hs Hw) as [Hsmall Hbig].
    destruct (Z_lt_le_dec (units s + units w) (2 ^ 149)) as [Hlow|Hhigh].
    + destruct (Hsmall Hlow) as [Hok Herr].
      destruct (IH _ Hok Hlt) as (Hres & Hres1 & Hsum).
      split; [done|]. split; [done|].
      cbn [length total_units foldr]. fold (total_units ws).
      rewrite Nat2Z.inj_succ. lia.
    + pose proof (sum_reached ws _ (Hbig Hhigh) Hws) as Hr.
      apply ltb_limit_reached in Hr. congruence.
Qed.

(** The exact value of a non-negative number, from its units. *)
Definition unit_scale : positive := Z.to_pos (2 ^ 149).

Lemma unit_scale_pow : Z.pos unit_scale = 2 ^ 149.
Proof. unfold unit_scale. by rewrite Z2Pos.id. Qed.

Lemma toQ_units (x : B32.t) : nonneg_float x -> (B32.toQ x == units x # unit_scale)%Q.
Proof.
  destruct x as [s| | |[] m e]; try done; intros Hx.
  cbn [nonneg_float] in Hx. cbn [B32.toQ units]. unfold Qeq.
  destruct (Z.leb_spec 0 e) as [He|He]; cbn [Qnum Qden inject_Z].
  - rewrite unit_scale_pow, (pow2_split e 149) by lia. ring.
  - rewrite unit_scale_pow, Z2Pos.id by (apply pow2_pos; lia).
    replace (2 ^ 149) with (2 ^ (e + 149) * 2 ^ (- e)); [ring|].
    rewrite <- pow2_split by lia. f_equal. lia.
Qed.

(** The total of a list of weights as real numbers. *)
Definition real_total (ws : list B32.t) : Q := foldr (fun w acc => B32.toQ w + acc)%Q 0%Q ws.

Lemma real_total_units ws :
  Forall nonneg_float ws -> (real_total ws == total_units ws # unit_scale)%Q.
Proof.
  induction 1 as [|w ws Hw _ IH]; [reflexivity|].
  cbn [real_total total_units foldr]. fold (real_total ws) (total_units ws).
  by rewrite IH, (toQ_units w Hw), Qinv_plus_distr.
Qed.

Lemma total_units_perm ws ws' : ws ≡ₚ ws' -> total_units ws = total_units ws'.
Proof.
  unfold total_units.
  induction 1 as [|x l l' _ IH|x y l|l l' l'' _ IH1 _ IH2]; cbn [foldr]; lia.
Qed.

Lemma total_units_snoc ws r : total_units (ws ++ [r]) = total_units ws + units r.
Proof.
  unfold total_units. induction ws as [|w ws IH]; cbn [foldr app]; lia.
Qed.

(** The weights of a vertex whose sum the code found below the limit: the
    residual makes their total 1, up to the rounding of each addition and
    of the subtraction. *)
Lemma residual_total (ws final : list B32.t) :
  Forall nonneg_float ws ->
  B32.ltb (fold_left B32.add ws B32.zero) (B32.lit 975 1000) = true ->
  final ≡ₚ ws ++ [B32.sub B32.one (fold_left B32.add ws B32.zero)] ->
  (Qabs (real_total final - 1) <= (Z.of_nat (length ws) + 1) # 33554432)%Q.
Proof.
  intros Hws Hlt Hperm.
  destruct (sum_small ws B32.zero I Hws Hlt) as (Hsum & Hsum1 & Herr).
  set (fSum := fold_left B32.add ws B32.zero) in *.
  destruct (sub_one_spec fSum Hsum Hsum1) as [Hres Hres1].
  set (res := B32.sub B32.one fSum) in *.
  assert (Hall : Forall nonneg_float final).
  { rewrite Hperm. apply Forall_app. split; [done|]. by constructor. }
  rewrite (real_total_units final Hall), (total_units_perm _ _ Hperm), total_units_snoc.
  change (units B32.zero) with 0 in Herr.
  set (T := total_units ws) in *. set (n := Z.of_nat (length ws)) in *.
  apply Qabs_Qle_condition.
  unfold Qle, Qminus, Qplus, Qopp. cbn [Qnum Qden].
  rewrite !Pos2Z.inj_mul, unit_scale_pow.
  change (2 ^ 149) with (33554432 * 2 ^ 124) in *.
  pose proof (pow2_pos 124 ltac:(lia)) as HG.
  set (G := 2 ^ 124) in *. clearbody G.
  split; nia.
Qed.

End B32_rounding.

(** C1, amended.  A vertex of a mesh whose parent index is a bone.  When the
    sum [fSum] of its surviving declared weights, as the code adds them up,
    is below 0.975, the weights the vertex has across all the bone tables of
    the mesh are its surviving declared weights and the residual
    [1 - fSum] on the parent bone; a vertex without a surviving link has the
    single weight 1; and when the surviving weights are non-negative numbers
    of binary32, [n] of them, the total of the final weights is within
    [(n + 1) / 2 ^ 25] of 1, which is within 1e-3 for up to 33553 weights.
    When the sum is not below 0.975, the vertex keeps its surviving declared
    weights and nothing is added. *)
Theorem smd_weights_total {V B : Type} (asBones : list B)
    (tris : list (SMD.Face B32.t V)) (srcs : list Z) (a : SMD.MeshAcc B32.t V)
    (k : nat) (v : SMD.Vertex B32.t V) :
  SMD.mesh_tables asBones tris srcs = Some a ->
  3 * Z.of_nat (length srcs) < 4294967296 ->
  SMD.mesh_vertices tris srcs !! k = Some v ->
  unsigned_vertex v ->
  SMD.iParentNode v < Z.of_nat (length asBones) ->
  SMD.iParentNode v <> UINT_MAX ->
  let nb := Z.of_nat (length asBones) in
  let ws := map snd (SMD.surviving nb v) in
  let fSum := SMD.fSum_of nb v in
  let final := SMD.vertex_weights (SMD.acc_bones a) (Z.of_nat k) in
  (SMD.rltb fSum SMD.limit = true ->
   final ≡ₚ ws ++ [SMD.rsub SMD.r1 fSum]
   /\ (ws = [] -> final = [B32.one])
   /\ (Forall nonneg_float ws ->
       (Qabs (real_total final - 1) <= (Z.of_nat (length ws) + 1) # 33554432)%Q
       /\ (Z.of_nat (length ws) <= 33553 ->
           (Qabs (real_total final - 1) <= 1 # 1000)%Q)))
  /\ (SMD.rltb fSum SMD.limit = false -> final ≡ₚ ws).
Proof.
  intros Hm Hlt Hk Hu Hp Hmax nb ws fSum final. split.
  - intros Hs.
    pose proof (mesh_vertex_weights asBones tris srcs a k v Hm Hlt Hk Hu Hp Hmax Hs)
      as Hperm.
    fold nb ws fSum final in Hperm. fold ws in Hperm.
    split; [exact Hperm|]. split.
    + intros Hnil. unfold fSum, SMD.fSum_of in Hperm. fold nb ws in Hperm.
      rewrite Hnil in Hperm. by apply Permutation_singleton_r in Hperm.
    + intros Hws.
      assert (Hbound : (Qabs (real_total final - 1)
                        <= (Z.of_nat (length ws) + 1) # 33554432)%Q).
      { by apply (residual_total ws final Hws Hs). }
      split; [exact Hbound|]. intros Hn.
      eapply Qle_trans; [exact Hbound|]. unfold Qle. cbn [Qnum Qden]. lia.
  - intros Hs.
    exact (mesh_vertex_weights_kept asBones tris srcs a k v Hm Hlt Hk Hu Hs).
Qed.

(** One triangle on three bones: the first vertex has the bone 1 as its
    parent and declares 0.5 on it, 0.3 on the bone 0 and 0.4 on the bone 2;
    the others declare nothing.  The sum 0.3 + 0.4 is rounded. *)
Definition r_face : SMD.Face B32.t unit :=
  smd_face (smd_vertex 1 [(1, B32.lit 1 2); (0, B32.lit 3 10); (2, B32.lit 4 10)])
           (smd_vertex 1 []) (smd_vertex 1 []).

Definition r_acc : SMD.MeshAcc B32.t unit :=
  Eval vm_compute in
    match SMD.mesh_tables [tt; tt; tt] [r_face] [0] with
    | Some a => a
    | None => SMD.mkMeshAcc 0 [] [] [] [] []
    end.

Lemma smd_weights_total_witness :
  SMD.vertex_weights (SMD.acc_bones r_acc) 0
    ≡ₚ [B32.lit 3 10; B32.lit 4 10;
        B32.sub B32.one (B32.add (B32.add B32.zero (B32.lit 3 10)) (B32.lit 4 10))]
  /\ (Qabs (real_total (SMD.vertex_weights (SMD.acc_bones r_acc) 0) - 1) <= 1 # 1000)%Q
  /\ ~ (real_total (SMD.vertex_weights (SMD.acc_bones r_acc) 0) == 1)%Q.
Proof.
  assert (Hm : SMD.mesh_tables [tt; tt; tt] [r_face] [0] = Some r_acc)
    by (vm_compute; reflexivity).
  assert (Hlt : 3 * Z.of_nat (length [0]) < 4294967296) by (simpl; lia).
  assert (Hu : unsigned_vertex
                 (smd_vertex 1 [(1, B32.lit 1 2); (0, B32.lit 3 10); (2, B32.lit 4 10)])).
  { split; [simpl; lia|]. repeat constructor; simpl; lia. }
  assert (Hp : SMD.iParentNode
                 (smd_vertex 1 [(1, B32.lit 1 2); (0, B32.lit 3 10); (2, B32.lit 4 10)])
               < Z.of_nat (length [tt; tt; tt])) by (simpl; lia).
  assert (Hmax : SMD.iParentNode
                   (smd_vertex 1 [(1, B32.lit 1 2); (0, B32.lit 3 10); (2, B32.lit 4 10)])
                 <> UINT_MAX) by (unfold UINT_MAX; simpl; lia).
  destruct (smd_weights_total [tt; tt; tt] [r_face] [0] r_acc 0 _ Hm Hlt eq_refl Hu Hp Hmax)
    as [Hlow _].
  destruct Hlow as (Hperm & _ & Hbound); [vm_compute; reflexivity|].
  split; [exact Hperm|].
  destruct Hbound as [_ Hthousandth].
  { repeat constructor; vm_compute; done. }
  split; [apply Hthousandth; simpl; lia|].
  vm_compute. discriminate.
Defined.

(** C1, as stated, fails.  On two bones, a vertex with parent 1 that declares
    0.98 on bone 0 keeps that single weight, which is 0.02 away from 1; a
    vertex with parent 0 and no link receives the weight 1 on bone 0. *)
Definition cx_face : SMD.Face B32.t unit :=
  smd_face (smd_vertex 1 [(0, B32.lit 98 100)]) (smd_vertex 0 []) (smd_vertex 0 []).

Definition cx_acc : SMD.MeshAcc B32.t unit :=
  Eval vm_compute in
    match SMD.mesh_tables [tt; tt] [cx_face] [0] with
    | Some a => a
    | None => SMD.mkMeshAcc 0 [] [] [] [] []
    end.

Lemma smd_weights_total_counterexample :
  SMD.mesh_tables [tt; tt] [cx_face] [0] = Some cx_acc
  /\ SMD.surviving 2 (smd_vertex 1 [(0, B32.lit 98 100)]) = [(0, B32.lit 98 100)]
  /\ SMD.vertex_weights (SMD.acc_bones cx_acc) 0 = [B32.lit 98 100]
  /\ Qle_bool (Qabs (B32.toQ (B32.lit 98 100) - 1)) (1 # 1000) = false
  /\ SMD.surviving 2 (smd_vertex 0 ([] : list (Z * B32.t))) = []
  /\ SMD.vertex_weights (SMD.acc_bones cx_acc) 1 = [B32.one].
Proof. vm_compute. repeat split; reflexivity. Qed.

(** C2, as stated, fails.  With one bone, a vertex whose parent is
    [UINT_MAX] (not the index of a bone) and whose only weight is 0.5 keeps
    that weight: it is not multiplied by [1 / 0.5]. *)
Lemma smd_resolution_counterexample :
  (1 <=? UINT_MAX) = true
  /\ SMD.rltb (SMD.fSum_of 1 (smd_vertex UINT_MAX [(0, B32.lit 1 2)])) SMD.limit = true
  /\ SMD.resolve_vertex 1 0 (smd_vertex UINT_MAX [(0, B32.lit 1 2)]) [[]]
     = [[(0, B32.lit 1 2)]]
  /\ B32.mul (B32.lit 1 2) (B32.div B32.one (B32.lit 1 2)) = B32.one
  /\ B32.lit 1 2 <> B32.one.
Proof. vm_compute. repeat split; try reflexivity. discriminate. Qed.

(** ** LWS: the hierarchy resolver *)

Section LWS_hierarchy.
Import LWS.
#[local] Open Scope nat_scope.
Variable matches : NodeDesc -> Z -> bool.

Implicit Types (nodes : list NodeDesc) (d : NodeDesc) (log : list string).
Implicit Types (i j p c n : nat).

(** The resolved parent of the node at a position, and the relation "the
    node at [c] is in the list of children of the node at [p]". *)
Definition parent_of nodes (c : nat) : option nat :=
  nodes !! c ≫= nd_parent_resolved.

Definition is_child nodes (p c : nat) : Prop :=
  exists d, nodes !! p = Some d /\ c ∈ nd_children d.

(** A node in a list of children has that parent resolved, no list of
    children names a node twice, and a resolved parent lists the node. *)
Record linked nodes : Prop := mkLinked {
  linked_child : forall p c, is_child nodes p c -> parent_of nodes c = Some p;
  linked_nodup : forall p d, nodes !! p = Some d -> NoDup (nd_children d);
  linked_parent : forall p c, parent_of nodes c = Some p -> is_child nodes p c
}.

(** The descriptions as the element loop leaves them. *)
Definition unresolved nodes : Prop :=
  Forall (fun d => nd_parent_resolved d = None /\ nd_children d = []) nodes.

Lemma unresolved_linked nodes : unresolved nodes -> linked nodes.
Proof.
  intros Hu. unfold unresolved in Hu. rewrite Forall_lookup in Hu. split.
  - intros p c (d & Hd & Hc). destruct (Hu p d Hd) as [_ Hnil].
    rewrite Hnil in Hc. by apply elem_of_nil in Hc.
  - intros p d Hd. destruct (Hu p d Hd) as [_ ->]. constructor.
  - intros p c Hp. unfold parent_of in Hp.
    destruct (nodes !! c) as [d|] eqn:Hd; [|done].
    destruct (Hu c d Hd) as [Hnone _]. simpl in Hp. congruence.
Qed.

(** The state after an attachment. *)
Definition attach (i j : nat) nodes : list NodeDesc :=
  alter (fun d => set_parent_resolved d (Some i)) j
    (alter (fun d => push_child d j) i nodes).

Lemma length_attach i j nodes : length (attach i j nodes) = length nodes.
Proof. unfold attach. by rewrite !length_alter. Qed.

Lemma parent_of_attach i j nodes c :
  j < length nodes ->
  parent_of (attach i j nodes) c = if decide (c = j) then Some i else parent_of nodes c.
Proof.
  intros Hj. unfold parent_of, attach. case_decide as Hc.
  - subst c. rewrite list_lookup_alter_eq.
    destruct (lookup_lt_is_Some_2 (alter (fun d => push_child d j) i nodes) j) as [d Hd].
    { by rewrite length_alter. }
    by rewrite Hd.
  - rewrite list_lookup_alter_ne by done.
    destruct (decide (c = i)) as [->|Hci].
    + rewrite list_lookup_alter_eq. by destruct (nodes !! i).
    + by rewrite list_lookup_alter_ne.
Qed.

Lemma children_attach i j nodes p d' :
  i <> j ->
  attach i j nodes !! p = Some d' ->
  exists d, nodes !! p = Some d
            /\ nd_children d' = if decide (p = i) then nd_children d ++ [j] else nd_children d.
Proof.
  intros Hij Hd'. unfold attach in Hd'.
  destruct (decide (p = j)) as [->|Hpj].
  - rewrite list_lookup_alter_eq, list_lookup_alter_ne in Hd' by done.
    destruct (nodes !! j) as [d|]; [|done]. injection Hd' as <-.
    exists d. split; [done|]. by rewrite decide_False by done.
  - rewrite list_lookup_alter_ne in Hd' by done.
    destruct (decide (p = i)) as [->|Hpi].
    + rewrite list_lookup_alter_eq in Hd'. destruct (nodes !! i) as [d|]; [|done].
      injection Hd' as <-. by exists d.
    + rewrite list_lookup_alter_ne in Hd' by done. by exists d'.
Qed.

Lemma is_child_attach i j nodes p c :
  i <> j -> is_child (attach i j nodes) p c -> is_child nodes p c \/ (p = i /\ c = j).
Proof.
  intros Hij (d' & Hd' & Hc). destruct (children_attach i j nodes p d' Hij Hd') as (d & Hd & Hch).
  rewrite Hch in Hc. case_decide as Hp.
  - apply elem_of_app in Hc as [Hc|Hc]; [left; by exists d|].
    apply list_elem_of_singleton in Hc. by right.
  - left. by exists d.
Qed.

Lemma is_child_attach_mono i j nodes p c :
  i <> j -> is_child nodes p c -> is_child (attach i j nodes) p c.
Proof.
  intros Hij (d & Hd & Hc). unfold is_child, attach.
  destruct (decide (p = j)) as [->|Hpj].
  - rewrite list_lookup_alter_eq, list_lookup_alter_ne, Hd by done. simpl. eauto.
  - rewrite list_lookup_alter_ne by done.
    destruct (decide (p = i)) as [->|Hpi].
    + rewrite list_lookup_alter_eq, Hd. simpl. eexists. split; [done|].
      simpl. apply elem_of_app. by left.
    + rewrite list_lookup_alter_ne by done. eauto.
Qed.

Lemma is_child_attach_new i j nodes :
  i <> j -> i < length nodes -> is_child (attach i j nodes) i j.
Proof.
  intros Hij Hi. destruct (lookup_lt_is_Some_2 nodes i Hi) as [d Hd].
  unfold is_child, attach. rewrite list_lookup_alter_ne, list_lookup_alter_eq, Hd by done.
  simpl. eexists. split; [done|]. simpl. apply elem_of_app. right. by apply list_elem_of_singleton.
Qed.

Lemma linked_attach i j nodes :
  linked nodes -> i <> j -> i < length nodes -> j < length nodes ->
  parent_of nodes j = None ->
  linked (attach i j nodes).
Proof.
  intros [Hchild Hnd Hpar] Hij Hi Hj Hnone. split.
  - intros p c Hc. rewrite parent_of_attach by done.
    apply is_child_attach in Hc as [Hc|[-> ->]]; [|by rewrite decide_True|done].
    case_decide as Hcj; [|by apply Hchild].
    subst c. apply Hchild in Hc. congruence.
  - intros p d' Hd'. destruct (children_attach i j nodes p d' Hij Hd') as (d & Hd & ->).
    case_decide as Hp; [|by eapply Hnd].
    subst p. apply list.NoDup_app. split; [by eapply Hnd|].
    split; [|apply NoDup_singleton].
    intros x Hx Hxj. apply list_elem_of_singleton in Hxj as ->.
    assert (Hc : is_child nodes i j) by (by exists d).
    apply Hchild in Hc. congruence.
  - intros p c Hp. rewrite parent_of_attach in Hp by done.
    case_decide as Hcj.
    + injection Hp as <-. subst c. by apply is_child_attach_new.
    + apply is_child_attach_mono; [done|]. by apply Hpar.
Qed.

(** What one pass of the inner loop does. *)
Lemma claim_child_cases i j nodes log :
  claim_child matches i j (nodes, log) = (nodes, log)
  \/ (exists ni nj, nodes !! i = Some ni /\ nodes !! j = Some nj /\ i <> j
        /\ matches ni (nd_parent nj) = true
        /\ ((is_Some (nd_parent_resolved nj)
             /\ claim_child matches i j (nodes, log) = (nodes, log ++ [cross_reference]))
            \/ (nd_parent_resolved nj = None
                /\ claim_child matches i j (nodes, log) = (attach i j nodes, log)))).
Proof.
  unfold claim_child.
  destruct (nodes !! i) as [ni|] eqn:Hi; [|by left].
  destruct (nodes !! j) as [nj|] eqn:Hj; [|by left].
  destruct (Nat.eqb_spec j i) as [->|Hne]; simpl; [by left|].
  destruct (matches ni (nd_parent nj)) eqn:Hm; [|by left].
  right. exists ni, nj. do 4 (split; [done|]).
  destruct (nd_parent_resolved nj) as [q|] eqn:Hq; [left|right]; split; eauto.
Qed.

Lemma claim_child_linked i j nodes log :
  linked nodes -> linked (claim_child matches i j (nodes, log)).1.
Proof.
  intros Hl.
  destruct (claim_child_cases i j nodes log)
    as [->|(ni & nj & Hi & Hj & Hij & Hm & [[_ ->]|[Hnone ->]])]; simpl; try done.
  apply linked_attach; try done.
  - by apply lookup_lt_Some in Hi.
  - by apply lookup_lt_Some in Hj.
  - unfold parent_of. by rewrite Hj.
Qed.

Lemma claim_child_length i j nodes log :
  length (claim_child matches i j (nodes, log)).1 = length nodes.
Proof.
  destruct (claim_child_cases i j nodes log)
    as [->|(ni & nj & Hi & Hj & Hij & Hm & [[_ ->]|[Hnone ->]])]; simpl; try done.
  apply length_attach.
Qed.

(** Folding a step that keeps an invariant. *)
Lemma foldl_invariant {A S} (f : S -> A -> S) (P : S -> Prop) (l : list A) (s : S) :
  P s -> (forall s a, P s -> P (f s a)) -> P (foldl f s l).
Proof.
  intros Hs Hstep. revert s Hs. induction l as [|a l IH]; intros s Hs; simpl; [done|].
  apply IH. by apply Hstep.
Qed.

Lemma resolve_node_linked n i st :
  linked st.1 -> linked (resolve_node matches n i st).1.
Proof.
  intros Hl. unfold resolve_node.
  apply (foldl_invariant _ (fun st => linked st.1)); [done|].
  intros [nodes log] j. apply claim_child_linked.
Qed.

Lemma resolve_node_length n i st :
  length (resolve_node matches n i st).1 = length st.1.
Proof.
  unfold resolve_node.
  apply (foldl_invariant _ (fun st' => length st'.1 = length st.1)); [done|].
  intros [nodes log] j <-. apply claim_child_length.
Qed.

Lemma resolve_parenting_linked nodes :
  unresolved nodes -> linked (resolve_parenting matches nodes).1.
Proof.
  intros Hu. unfold resolve_parenting.
  apply (foldl_invariant _ (fun st => linked st.1)); [by apply unresolved_linked|].
  intros st i. apply resolve_node_linked.
Qed.

Lemma resolve_parenting_length nodes :
  length (resolve_parenting matches nodes).1 = length nodes.
Proof.
  unfold resolve_parenting.
  apply (foldl_invariant _ (fun st' => length st'.1 = length nodes)); [done|].
  intros st i <-. apply resolve_node_length.
Qed.

(** *** Every claim is honoured or logged *)

(** The test [matches] reads the declaration of a node, not its links. *)
Hypothesis matches_stable : forall d z,
  (forall q, matches (set_parent_resolved d q) z = matches d z)
  /\ (forall c, matches (push_child d c) z = matches d z).

(** The declarations (parent reference and identity) are those of [nodes0]. *)
Definition same_decl (nodes0 nodes : list NodeDesc) : Prop :=
  length nodes = length nodes0
  /\ forall k d0 d, nodes0 !! k = Some d0 -> nodes !! k = Some d ->
       nd_parent d = nd_parent d0 /\ forall z, matches d z = matches d0 z.

Lemma same_decl_refl nodes : same_decl nodes nodes.
Proof. split; [done|]. intros k d0 d H0 H1. rewrite H0 in H1. by injection H1 as <-. Qed.

Lemma same_decl_attach nodes0 nodes i j :
  same_decl nodes0 nodes -> same_decl nodes0 (attach i j nodes).
Proof using matches_stable.
  intros [Hlen Hsame]. split; [by rewrite length_attach|].
  intros k d0 d' H0 Hd'. unfold attach in Hd'.
  assert (Hcases : exists d, nodes !! k = Some d
            /\ nd_parent d' = nd_parent d /\ forall z, matches d' z = matches d z).
  { destruct (decide (k = j)) as [->|Hkj].
    - rewrite list_lookup_alter_eq in Hd'.
      destruct (decide (j = i)) as [->|Hji].
      + rewrite list_lookup_alter_eq in Hd'. destruct (nodes !! i) as [d|]; [|done].
        injection Hd' as <-. exists d. split; [done|]. split; [done|]. intros z.
        destruct (matches_stable (push_child d i) z) as [-> _].
        by destruct (matches_stable d z) as [_ ->].
      + rewrite list_lookup_alter_ne in Hd' by done. destruct (nodes !! j) as [d|]; [|done].
        injection Hd' as <-. exists d. split; [done|]. split; [done|]. intros z.
        by destruct (matches_stable d z) as [-> _].
    - rewrite list_lookup_alter_ne in Hd' by done.
      destruct (decide (k = i)) as [->|Hki].
      + rewrite list_lookup_alter_eq in Hd'. destruct (nodes !! i) as [d|]; [|done].
        injection Hd' as <-. exists d. split; [done|]. split; [done|]. intros z.
        by destruct (matches_stable d z) as [_ ->].
      + rewrite list_lookup_alter_ne in Hd' by done. by exists d'. }
  destruct Hcases as (d & Hd & Hp & Hm). destruct (Hsame k d0 d H0 Hd) as [Hp0 Hm0].
  split; [congruence|]. intros z. by rewrite Hm.
Qed.

Lemma claim_child_same_decl nodes0 i j nodes log :
  same_decl nodes0 nodes -> same_decl nodes0 (claim_child matches i j (nodes, log)).1.
Proof using matches_stable.
  intros Hs.
  destruct (claim_child_cases i j nodes log)
    as [->|(ni & nj & Hi & Hj & Hij & Hm & [[_ ->]|[Hnone ->]])]; simpl; try done.
  by apply same_decl_attach.
Qed.

Lemma claim_child_hit i j nodes log ni nj :
  nodes !! i = Some ni -> nodes !! j = Some nj -> i <> j ->
  matches ni (nd_parent nj) = true ->
  claim_child matches i j (nodes, log) =
  match nd_parent_resolved nj with
  | Some _ => (nodes, log ++ [cross_reference])
  | None => (attach i j nodes, log)
  end.
Proof.
  intros Hi Hj Hij Hm. unfold claim_child. rewrite Hi, Hj, Hm.
  destruct (Nat.eqb_spec j i) as [->|_]; [done|]. simpl. by destruct (nd_parent_resolved nj).
Qed.

(** The claim of [i] on [c] was honoured or logged. *)
Definition settled (i c : nat) (st : list NodeDesc * list string) : Prop :=
  is_child st.1 i c \/ cross_reference ∈ st.2.

Lemma claim_child_settled_mono i c i' j st :
  settled i c st -> settled i c (claim_child matches i' j st).
Proof.
  destruct st as [nodes log]. intros Hs.
  destruct (claim_child_cases i' j nodes log)
    as [->|(ni & nj & Hi & Hj & Hij & Hm & [[_ ->]|[Hnone ->]])]; [done| |].
  - destruct Hs as [Hs|Hs]; [by left|right]. simpl in *. apply elem_of_app. by left.
  - destruct Hs as [Hs|Hs]; [left|by right]. simpl in *. by apply is_child_attach_mono.
Qed.

Lemma foldl_established {A S} (f : S -> A -> S) (P Q : S -> Prop) (l : list A) (k : A) s :
  k ∈ l -> Q s ->
  (forall s a, Q s -> Q (f s a)) ->
  (forall s, Q s -> P (f s k)) ->
  (forall s a, P s -> P (f s a)) ->
  P (foldl f s l).
Proof.
  intros Hk Hq Hqstep Hest Hmono. revert s Hq.
  induction l as [|a l IH]; intros s Hq; [by apply elem_of_nil in Hk|]. simpl.
  apply elem_of_cons in Hk as [->|Hk].
  - apply foldl_invariant; [by apply Hest|done].
  - apply IH; [done|]. by apply Hqstep.
Qed.

Lemma resolve_node_same_decl nodes0 n i st :
  same_decl nodes0 st.1 -> same_decl nodes0 (resolve_node matches n i st).1.
Proof using matches_stable.
  intros Hs. unfold resolve_node.
  apply (foldl_invariant _ (fun st => same_decl nodes0 st.1)); [done|].
  intros [nodes log] j. apply claim_child_same_decl.
Qed.

Lemma resolve_node_settled_mono i c n i' st :
  settled i c st -> settled i c (resolve_node matches n i' st).
Proof.
  intros Hs. unfold resolve_node. apply foldl_invariant; [done|].
  intros st' j. apply claim_child_settled_mono.
Qed.

Lemma resolve_parenting_settled nodes i c ni nc :
  nodes !! i = Some ni -> nodes !! c = Some nc -> i <> c ->
  matches ni (nd_parent nc) = true ->
  settled i c (resolve_parenting matches nodes).
Proof using matches_stable.
  intros Hi Hc Hic Hm. unfold resolve_parenting.
  apply (foldl_established _ (settled i c) (fun st => same_decl nodes st.1) _ i).
  - apply elem_of_seq. apply lookup_lt_Some in Hi. lia.
  - apply same_decl_refl.
  - intros st a. apply resolve_node_same_decl.
  - intros st Hs. unfold resolve_node.
    apply (foldl_established _ (settled i c) (fun st => same_decl nodes st.1) _ c).
    + apply elem_of_seq. apply lookup_lt_Some in Hc. lia.
    + done.
    + intros [nodes' log] j. apply claim_child_same_decl.
    + intros [nodes' log] [Hlen Hsame]. cbn [fst] in *.
      destruct (lookup_lt_is_Some_2 nodes' i) as [ni' Hi'].
      { rewrite Hlen. by apply lookup_lt_Some in Hi. }
      destruct (lookup_lt_is_Some_2 nodes' c) as [nc' Hc'].
      { rewrite Hlen. by apply lookup_lt_Some in Hc. }
      destruct (Hsame i ni ni' Hi Hi') as [_ Hmi].
      destruct (Hsame c nc nc' Hc Hc') as [Hpc _]. cbv beta.
      rewrite (claim_child_hit i c nodes' log ni' nc' Hi' Hc' Hic).
      2: { by rewrite Hmi, Hpc. }
      destruct (nd_parent_resolved nc'); [right|left]; cbn [fst snd].
      * apply elem_of_app. right. by apply list_elem_of_singleton.
      * apply is_child_attach_new; [done|]. by apply lookup_lt_Some in Hi'.
    + intros st' j. apply claim_child_settled_mono.
  - intros st a. apply resolve_node_settled_mono.
Qed.

(** *** Building the graph terminates *)

Section chains.
Variable nodes : list NodeDesc.

(** The ancestor [k] steps up. *)
Fixpoint up (k : nat) (x : nat) : option nat :=
  match k with
  | O => if decide (x < length nodes) then Some x else None
  | S k' => parent_of nodes x ≫= up k'
  end.

(** [x] is [m] steps below a node without parent. *)
Definition rooted (m x : nat) : Prop :=
  exists r, up m x = Some r /\ parent_of nodes r = None.

Lemma up_add a b x : up (a + b) x = up a x ≫= up b.
Proof.
  revert x. induction a as [|a IH]; intros x; simpl.
  - case_decide as Hx; simpl; [done|].
    destruct b; simpl; [by rewrite decide_False|].
    unfold parent_of. rewrite lookup_ge_None_2 by lia. done.
  - destruct (parent_of nodes x) as [y|]; simpl; [apply IH|done].
Qed.

Lemma up_lt k x y : up k x = Some y -> x < length nodes /\ y < length nodes.
Proof.
  revert x. induction k as [|k IH]; intros x; simpl.
  - case_decide; [|done]. intros [= <-]. done.
  - unfold parent_of at 1. destruct (nodes !! x) as [d|] eqn:Hd; simpl; [|done].
    destruct (nd_parent_resolved d) as [q|]; simpl; [|done].
    intros Hu. apply IH in Hu as [_ Hy]. split; [|done]. by apply lookup_lt_Some in Hd.
Qed.

Lemma up_root_stuck k r : parent_of nodes r = None -> up (S k) r = None.
Proof. intros Hr. simpl. by rewrite Hr. Qed.

Lemma rooted_unique m m' x : rooted m x -> rooted m' x -> m = m'.
Proof.
  assert (Hlt : forall a b, a < b -> rooted a x -> rooted b x -> False).
  { intros a b Hab (r & Hr & Hroot) (r' & Hr' & _).
    replace b with (a + S (b - a - 1)) in Hr' by lia.
    rewrite up_add, Hr in Hr'. simpl in Hr'. by rewrite Hroot in Hr'. }
  intros H1 H2. destruct (Nat.lt_trichotomy m m') as [Hc|[Hc|Hc]]; [|done|].
  - destruct (Hlt m m' Hc H1 H2).
  - destruct (Hlt m' m Hc H2 H1).
Qed.

Lemma rooted_up m x a y : rooted m x -> a <= m -> up a x = Some y -> rooted (m - a) y.
Proof.
  intros (r & Hr & Hroot) Ha Hy. exists r. split; [|done].
  replace m with (a + (m - a)) in Hr by lia. by rewrite up_add, Hy in Hr.
Qed.

Lemma rooted_up_some m x a : rooted m x -> a <= m -> exists y, up a x = Some y.
Proof.
  intros (r & Hr & _) Ha. replace m with (a + (m - a)) in Hr by lia.
  rewrite up_add in Hr. destruct (up a x) as [y|]; [by exists y|done].
Qed.

Lemma rooted_bound m x : rooted m x -> m < length nodes.
Proof.
  intros Hr.
  assert (Hnd : NoDup ((fun a => up a x) <$> seq 0 (S m))).
  { apply NoDup_fmap_2_strong; [|apply NoDup_seq].
    intros a b Ha Hb Hab. apply elem_of_seq in Ha, Hb.
    destruct (rooted_up_some m x a Hr) as [y Hy]; [lia|].
    pose proof (rooted_up m x a y Hr ltac:(lia) Hy) as H1.
    rewrite Hab in Hy.
    pose proof (rooted_up m x b y Hr ltac:(lia) Hy) as H2.
    pose proof (rooted_unique _ _ _ H1 H2). lia. }
  assert (Hsub : (fun a => up a x) <$> seq 0 (S m) ⊆+ Some <$> seq 0 (length nodes)).
  { apply NoDup_submseteq; [done|]. intros o Ho.
    apply list_elem_of_fmap in Ho as (a & -> & Ha). apply elem_of_seq in Ha.
    destruct (rooted_up_some m x a Hr) as [y Hy]; [lia|]. rewrite Hy.
    apply list_elem_of_fmap. exists y. split; [done|].
    apply elem_of_seq. apply up_lt in Hy. lia. }
  apply submseteq_length in Hsub. rewrite !length_fmap, !length_seq in Hsub. lia.
Qed.

Lemma rooted_child m p c :
  linked nodes -> rooted m p -> is_child nodes p c -> rooted (S m) c.
Proof.
  intros [Hchild _ _] (r & Hr & Hroot) Hc. exists r. split; [|done].
  simpl. by rewrite (Hchild p c Hc).
Qed.

Lemma rooted_root r d : nodes !! r = Some d -> is_root d = true -> rooted 0 r.
Proof.
  intros Hd Hroot. exists r. split.
  - simpl. rewrite decide_True; [done|]. by apply lookup_lt_Some in Hd.
  - unfold parent_of. rewrite Hd. simpl. unfold is_root in Hroot.
    by destruct (nd_parent_resolved d).
Qed.

End chains.

Lemma root_positions_spec k nodes r :
  r ∈ root_positions k nodes ->
  exists d, nodes !! (r - k) = Some d /\ is_root d = true /\ k <= r.
Proof.
  revert k. induction nodes as [|d nodes IH]; intros k Hr; simpl in Hr.
  { by apply elem_of_nil in Hr. }
  destruct (is_root d) eqn:Hd.
  - apply elem_of_cons in Hr as [->|Hr].
    + exists d. rewrite Nat.sub_diag. done.
    + apply IH in Hr as (d' & Hd' & Hroot & Hle). exists d'.
      replace (r - k) with (S (r - S k)) by lia. split; [done|]. split; [done|lia].
  - apply IH in Hr as (d' & Hd' & Hroot & Hle). exists d'.
    replace (r - k) with (S (r - S k)) by lia. split; [done|]. split; [done|lia].
Qed.

Section graph.
Context {Sub : Type} (importer : string -> option Z -> option Sub).
Context (single_child_root : Sub -> bool) (drop_root : Sub -> Sub)
    (root_translation : Sub -> LWS.Vec3).

Abbreviation BuildGraph :=
  (LWS.BuildGraph Sub importer single_child_root drop_root root_translation).
Abbreviation build_all := (LWS.build_all Sub).

Lemma build_all_total (build : nat -> GraphState Sub -> outcome (aiNode * GraphState Sub))
    (cs : list nat) :
  (forall c, c ∈ cs -> forall st, exists r, build c st = Ret r) ->
  forall st, exists r, build_all build cs st = Ret r.
Proof.
  induction cs as [|c cs IH]; intros Hall st; simpl; [eauto|].
  destruct (Hall c ltac:(left) st) as [[n st'] ->].
  destruct (IH (fun c' Hc' => Hall c' ltac:(by right)) st') as [[ns st''] ->]. eauto.
Qed.

(** Enough fuel: the number of the nodes, less the depth. *)
Lemma BuildGraph_total nodes reqs fuel m i st :
  linked nodes -> rooted nodes m i -> length nodes < fuel + m ->
  exists r, BuildGraph fuel nodes reqs i st = Ret r.
Proof.
  intros Hl. revert m i st. induction fuel as [|fuel IH]; intros m i st Hr Hfuel.
  { apply rooted_bound in Hr. lia. }
  simpl. destruct Hr as (r & Hup & Hroot).
  destruct (up_lt nodes m i r Hup) as [Hi _].
  destruct (lookup_lt_is_Some_2 nodes i Hi) as [src Hsrc]. rewrite Hsrc.
  destruct (build_all_total (BuildGraph fuel nodes reqs) (nd_children src))
    with (st := LWS.visit_node Sub importer single_child_root drop_root reqs src st)
    as [[ns st2] ->].
  - intros c Hc st'. apply (IH (S m)); [|lia].
    apply (rooted_child nodes m i c Hl); [by exists r|]. by exists src.
  - destruct (nd_type src); eauto.
Qed.

End graph.

End LWS_hierarchy.

(** *** The master graph *)



Section LWS_master.
Import LWS.
#[local] Open Scope nat_scope.
Context {Sub : Type} (single_child_root : Sub -> bool) (drop_root : Sub -> Sub)
    (root_translation : Sub -> LWS.Vec3).

Abbreviation BuildGraph imp :=
  (LWS.BuildGraph Sub imp single_child_root drop_root root_translation).
Abbreviation build_master imp :=
  (LWS.build_master Sub imp single_child_root drop_root root_translation).
Abbreviation visit_node imp := (LWS.visit_node Sub imp single_child_root drop_root).

Lemma node_matches_stable d z :
  (forall q, node_matches (set_parent_resolved d q) z = node_matches d z)
  /\ (forall c, node_matches (push_child d c) z = node_matches d z).
Proof. by destruct d. Qed.

Lemma root_positions_none k nodes :
  root_positions k nodes = [] <-> Forall (fun d => is_root d = false) nodes.
Proof.
  revert k. induction nodes as [|d nodes IH]; intros k; simpl.
  - split; [constructor|done].
  - destruct (is_root d) eqn:Hd.
    + split; [done|]. intros Hall. inversion Hall; congruence.
    + rewrite IH. split; [by constructor|]. intros Hall. by inversion Hall.
Qed.

Lemma no_parent_zero nodes :
  no_parent nodes = 0 <-> Forall (fun d => is_root d = false) nodes.
Proof.
  unfold no_parent. rewrite <- (root_positions_none 0).
  destruct (root_positions 0 nodes); simpl; split; intros; done.
Qed.

Lemma build_master_total imp fuel nodes reqs :
  unresolved nodes -> length nodes < fuel ->
  build_master imp fuel nodes reqs = Throw no_root
  \/ exists m, build_master imp fuel nodes reqs = Ret m.
Proof.
  intros Hu Hfuel. unfold LWS.build_master.
  pose proof (resolve_parenting_linked node_matches nodes Hu) as Hl.
  pose proof (resolve_parenting_length node_matches nodes) as Hlen.
  destruct (resolve_parenting node_matches nodes) as [nodes' log]. simpl in Hl, Hlen.
  destruct (no_parent nodes' =? 0); [by left|right].
  unfold build_roots.
  destruct (build_all_total (BuildGraph imp fuel nodes' reqs) (root_positions 0 nodes'))
    with (st := mkGraphState Sub [] [] [] log) as [[ns st'] ->]; [|eauto].
  intros r Hr st. apply root_positions_spec in Hr as (d & Hd & Hroot & _).
  rewrite Nat.sub_0_r in Hd.
  apply (BuildGraph_total _ _ _ _ _ _ _ 0); [done| |lia].
  by apply (rooted_root nodes' r d).
Qed.




End LWS_master.

(** *** The nodes of the graph *)

(** The descriptions the nodes of a graph were built for, in prefix order. *)
Fixpoint descs (n : LWS.aiNode) : list nat :=
  match n with
  | LWS.mk_aiNode _ d _ c =>
      match d with Some i => [i] | None => [] end ++ concat (map descs c)
  end.

Section LWS_tree.
Import LWS.
#[local] Open Scope nat_scope.
Context {Sub : Type} (importer : string -> option Z -> option Sub).
Context (single_child_root : Sub -> bool) (drop_root : Sub -> Sub)
    (root_translation : Sub -> LWS.Vec3).

Abbreviation BuildGraph' :=
  (LWS.BuildGraph Sub importer single_child_root drop_root root_translation).

Lemma rooted_down nodes k x y m :
  up nodes k x = Some y -> rooted nodes m y -> rooted nodes (k + m) x.
Proof.
  intros Hy (r & Hr & Hroot). exists r. split; [|done]. by rewrite up_add, Hy.
Qed.

Lemma up_step nodes k x c p :
  linked nodes -> up nodes k x = Some c -> parent_of nodes c = Some p ->
  up nodes (S k) x = Some p.
Proof.
  intros Hl Hc Hp. replace (S k) with (k + 1) by lia. rewrite up_add, Hc. simpl.
  rewrite Hp. simpl. rewrite decide_True; [done|].
  apply (linked_parent _ Hl) in Hp as (d & Hd & _). by apply lookup_lt_Some in Hd.
Qed.

Lemma up_last nodes k x p :
  up nodes (S k) x = Some p ->
  exists c, up nodes k x = Some c /\ parent_of nodes c = Some p.
Proof.
  replace (S k) with (k + 1) by lia. rewrite up_add.
  destruct (up nodes k x) as [c|]; simpl; [|done].
  destruct (parent_of nodes c) as [q|] eqn:Hq; simpl; [|done].
  case_decide; [|done]. intros [= <-]. by exists c.
Qed.

Lemma build_all_Forall2 (P : nat -> aiNode -> Prop)
    (build : nat -> GraphState Sub -> outcome (aiNode * GraphState Sub)) cs :
  (forall c, c ∈ cs -> forall st n st', build c st = Ret (n, st') -> P c n) ->
  forall st ns st', build_all Sub build cs st = Ret (ns, st') -> Forall2 P cs ns.
Proof.
  induction cs as [|c cs IH]; intros Hb st ns st'; simpl.
  - intros [= <- <-]. constructor.
  - destruct (build c st) as [[n s]| | |] eqn:Hc; try done.
    destruct (build_all Sub build cs s) as [[ns' t]| | |] eqn:Hcs; try done.
    intros [= <- <-]. constructor.
    + apply (Hb c ltac:(left) st n s Hc).
    + apply (IH (fun c' Hc' => Hb c' ltac:(by right)) s ns' t Hcs).
Qed.

Lemma descs_concat (D : nat -> nat -> Prop) cs ns :
  Forall2 (fun c n => NoDup (descs n) /\ forall x, x ∈ descs n <-> D c x) cs ns ->
  NoDup cs ->
  (forall c c' x, c ∈ cs -> c' ∈ cs -> D c x -> D c' x -> c = c') ->
  NoDup (concat (map descs ns))
  /\ forall x, x ∈ concat (map descs ns) <-> exists c, c ∈ cs /\ D c x.
Proof.
  induction 1 as [|c n cs ns [Hn HD] Hrest IH]; intros Hnd Hdis; simpl.
  - split; [constructor|]. intros x. split; [by intros ?%elem_of_nil|].
    by intros (c & ?%elem_of_nil & _).
  - inversion Hnd as [|? ? Hc Hnd']; subst.
    destruct IH as [IHn IHx]; [done| |].
    { intros a b x Ha Hb. apply Hdis; by right. }
    split.
    + apply list.NoDup_app. split; [done|]. split; [|done].
      intros x Hx Hx'. apply HD in Hx. apply IHx in Hx' as (c' & Hc' & Hx').
      assert (c = c') as <- by (apply (Hdis c c' x); [left|by right|done|done]).
      done.
    + intros x. rewrite elem_of_app, HD, IHx. split.
      * intros [Hx|(c' & Hc' & Hx)]; [exists c; split; [left|done]|].
        exists c'. split; [by right|done].
      * intros (c' & Hc' & Hx). apply elem_of_cons in Hc' as [->|Hc']; [by left|].
        right. by exists c'.
Qed.

(** The graph below a node holds the node and what descends from it, each
    description once. *)
Lemma BuildGraph_descs nodes reqs fuel m i st n st' :
  linked nodes -> rooted nodes m i ->
  BuildGraph' fuel nodes reqs i st = Ret (n, st') ->
  NoDup (descs n) /\ forall x, x ∈ descs n <-> exists k, up nodes k x = Some i.
Proof.
  intros Hl. revert m i st n st'.
  induction fuel as [|fuel IH]; intros m i st n st' Hr; simpl; [done|].
  destruct (nodes !! i) as [src|] eqn:Hsrc; [|done].
  destruct (build_all Sub _ _ _) as [[ns st2]| | |] eqn:Hall; try done.
  assert (Hkids : forall c, c ∈ nd_children src -> rooted nodes (S m) c).
  { intros c Hc. apply (rooted_child nodes m i c Hl Hr). by exists src. }
  apply (build_all_Forall2
           (fun c n => NoDup (descs n) /\ forall x, x ∈ descs n <->
                         exists k, up nodes k x = Some c)) in Hall.
  2:{ intros c Hc s n' s' Hn'. by apply (IH (S m) c s n' s' (Hkids c Hc)). }
  apply descs_concat in Hall as [Hnd Hx].
  2:{ by apply (linked_nodup _ Hl i). }
  2:{ intros c c' x Hc Hc' [k Hk] [k' Hk'].
      pose proof (rooted_down _ _ _ _ _ Hk (Hkids c Hc)) as H1.
      pose proof (rooted_down _ _ _ _ _ Hk' (Hkids c' Hc')) as H2.
      pose proof (rooted_unique _ _ _ _ H1 H2) as Hkk.
      assert (k = k') as -> by lia. congruence. }
  assert (Hgoal : NoDup (i :: concat (map descs ns))
                  /\ forall x, x ∈ i :: concat (map descs ns)
                       <-> exists k, up nodes k x = Some i).
  { split.
    - constructor; [|done]. intros Hi. apply Hx in Hi as (c & Hc & k & Hk).
      pose proof (rooted_down _ _ _ _ _ Hk (Hkids c Hc)) as H1.
      pose proof (rooted_unique _ _ _ _ Hr H1). lia.
    - intros x. rewrite elem_of_cons, Hx. split.
      + intros [->|(c & Hc & k & Hk)].
        * exists 0. simpl. rewrite decide_True; [done|]. by apply lookup_lt_Some in Hsrc.
        * exists (S k). apply (up_step _ _ _ c); [done|done|].
          apply (linked_child _ Hl). by exists src.
      + intros [[|k] Hk].
        * left. simpl in Hk. case_decide; [|done]. by injection Hk.
        * right. apply up_last in Hk as (c & Hc & Hp). exists c. split; [|by exists k].
          apply (linked_parent _ Hl) in Hp as (d & Hd & Hin). congruence. }
  destruct (nd_type src); intros [= <- <-]; simpl; rewrite ?app_nil_r; exact Hgoal.
Qed.

Lemma root_positions_elem k nodes r :
  r ∈ root_positions k nodes
  <-> k <= r /\ exists d, nodes !! (r - k) = Some d /\ is_root d = true.
Proof.
  split.
  { intros Hr. apply root_positions_spec in Hr as (d & Hd & Hroot & Hle). eauto. }
  revert k. induction nodes as [|d nodes IH]; intros k (Hle & d' & Hd' & Hroot); simpl.
  { done. }
  destruct (decide (r = k)) as [->|Hne].
  - rewrite Nat.sub_diag in Hd'. injection Hd' as ->. rewrite Hroot. left.
  - assert (Hin : r ∈ root_positions (S k) nodes).
    { apply IH. split; [lia|]. exists d'. split; [|done].
      replace (r - k) with (S (r - S k)) in Hd' by lia. done. }
    destruct (is_root d); [by right|done].
Qed.

Lemma root_positions_NoDup k nodes : NoDup (root_positions k nodes).
Proof.
  revert k. induction nodes as [|d nodes IH]; intros k; simpl; [constructor|].
  destruct (is_root d); [|apply IH]. constructor; [|apply IH].
  intros Hk. apply root_positions_elem in Hk as [Hle _]. lia.
Qed.

(** The master graph holds the nodes that descend from a node without
    parent, each once. *)
Lemma build_master_descs fuel nodes reqs m :
  unresolved nodes ->
  LWS.build_master Sub importer single_child_root drop_root root_translation
    fuel nodes reqs = Ret m ->
  NoDup (descs (ms_root Sub m))
  /\ forall x, x ∈ descs (ms_root Sub m)
       <-> exists k, rooted (resolve_parenting node_matches nodes).1 k x.
Proof.
  intros Hu. unfold LWS.build_master.
  pose proof (resolve_parenting_linked node_matches nodes Hu) as Hl.
  destruct (resolve_parenting node_matches nodes) as [nodes' log]. simpl in Hl |- *.
  destruct (no_parent nodes' =? 0); [done|]. unfold build_roots.
  destruct (build_all Sub _ _ _) as [[ns st2]| | |] eqn:Hall; try done.
  intros [= <-]. simpl.
  assert (Hroots : forall r, r ∈ root_positions 0 nodes' -> rooted nodes' 0 r).
  { intros r Hr. apply root_positions_elem in Hr as (_ & d & Hd & Hroot).
    rewrite Nat.sub_0_r in Hd. by apply (rooted_root nodes' r d). }
  apply (build_all_Forall2
           (fun c n => NoDup (descs n) /\ forall x, x ∈ descs n <->
                         exists k, up nodes' k x = Some c)) in Hall.
  2:{ intros r Hr s n' s' Hn'. by apply (BuildGraph_descs _ _ _ 0 _ _ _ _ Hl (Hroots r Hr) Hn'). }
  apply descs_concat in Hall as [Hnd Hx].
  2:{ apply root_positions_NoDup. }
  2:{ intros c c' x Hc Hc' [k Hk] [k' Hk'].
      pose proof (rooted_down _ _ _ _ _ Hk (Hroots c Hc)) as H1.
      pose proof (rooted_down _ _ _ _ _ Hk' (Hroots c' Hc')) as H2.
      pose proof (rooted_unique _ _ _ _ H1 H2) as Hkk.
      assert (k = k') as -> by lia. congruence. }
  split; [done|]. intros x. rewrite Hx. split.
  - intros (r & Hr & k & Hk). exists k.
    replace k with (k + 0) by lia. by apply (rooted_down _ _ _ r); [|apply Hroots].
  - intros (k & r & Hk & Hroot). exists r. split; [|by exists k].
    apply root_positions_elem. split; [lia|]. rewrite Nat.sub_0_r.
    apply up_lt in Hk as [_ Hlt]. destruct (lookup_lt_is_Some_2 _ _ Hlt) as [d Hd].
    exists d. split; [done|]. unfold parent_of in Hroot. rewrite Hd in Hroot. simpl in Hroot.
    unfold is_root. by rewrite Hroot.
Qed.

End LWS_tree.

(** *** The claims on the hierarchy *)

(** C5.  When every node has been claimed as a child by the resolution of
    the parents, so that no node is left as a root, the import fails with
    [LWS: Unable to find scene root node], whatever the batch delivers; a
    scene without any node is such a case. *)
Theorem lws_no_root_is_fatal {Sub : Type} (importer : string -> option Z -> option Sub)
    (single_child_root : Sub -> bool) (drop_root : Sub -> Sub)
    (root_translation : Sub -> LWS.Vec3)
    (fuel : nat) (nodes : list LWS.NodeDesc) (reqs : list LWS.LoadRequest) :
  unresolved nodes ->
  (forall c, (c < length nodes)%nat ->
     exists p, is_child (LWS.resolve_parenting LWS.node_matches nodes).1 p c) ->
  LWS.no_parent (LWS.resolve_parenting LWS.node_matches nodes).1 = 0%nat
  /\ LWS.build_master Sub importer single_child_root drop_root root_translation fuel nodes reqs
     = Throw LWS.no_root.
Proof.
  intros Hu Hall.
  pose proof (resolve_parenting_linked LWS.node_matches nodes Hu) as Hl.
  pose proof (resolve_parenting_length LWS.node_matches nodes) as Hlen.
  assert (Hzero : LWS.no_parent (LWS.resolve_parenting LWS.node_matches nodes).1 = 0%nat).
  { apply no_parent_zero. apply Forall_lookup. intros c d Hd.
    destruct (Hall c) as [p Hp].
    { rewrite <- Hlen. by apply lookup_lt_Some in Hd. }
    apply (linked_child _ Hl) in Hp. unfold parent_of in Hp. rewrite Hd in Hp.
    simpl in Hp. unfold LWS.is_root. by rewrite Hp. }
  split; [done|]. unfold LWS.build_master.
  destruct (LWS.resolve_parenting LWS.node_matches nodes) as [nodes' log].
  simpl in Hzero. by rewrite Hzero.
Qed.

(** Two objects that name each other as parent, and a third one without
    parent.  The id of an object is its number under the type 1 in the top
    four bits. *)
Definition object_id (number : Z) : Z := Z.lor (Z.shiftl 1 28) number.

Definition null_object (number parent : Z) (name : string) : LWS.NodeDesc :=
  LWS.mkNodeDesc LWS.OBJECT 0 number parent name "" None [] false LWS.no_pivot.

Definition two_cycle : list LWS.NodeDesc :=
  [null_object 0 (object_id 1) "A"; null_object 1 (object_id 0) "B"].

Definition cycle_and_root : list LWS.NodeDesc :=
  two_cycle ++ [null_object 2 0 "C"].

Lemma lws_no_root_is_fatal_witness :
  LWS.no_parent (LWS.resolve_parenting LWS.node_matches two_cycle).1 = 0%nat
  /\ LWS.build_master unit (fun _ _ => None) (fun _ => false) (fun s => s) (fun _ => LWS.no_pivot) 5 two_cycle []
     = Throw LWS.no_root.
Proof.
  apply lws_no_root_is_fatal.
  - repeat constructor.
  - intros c Hc. simpl in Hc.
    destruct c as [|[|c]]; [exists 1%nat|exists 0%nat|lia];
      (eexists; split; [vm_compute; reflexivity|]); simpl; left.
Defined.

(** The same three objects as a scene file. *)
Definition cycle_scene : string :=
"LWSC
3
AddNullObject A
ParentItem 10000001
AddNullObject B
ParentItem 10000000
AddNullObject C
".

(** C4, as stated, fails on a cycle.  The objects A and B name each other
    as parent: both attachments are made, A is the parent of its parent,
    and nothing is logged; neither is dropped.  The import of the scene
    file returns a graph with the object C alone and an empty log. *)
Lemma lws_cycle_counterexample :
  let st := LWS.resolve_parenting LWS.node_matches cycle_and_root in
  LWS.nd_parent_resolved <$> st.1 = [Some 1%nat; Some 0%nat; None]
  /\ LWS.nd_children <$> st.1 = [[1%nat]; [0%nat]; []]
  /\ up st.1 2 0 = Some 0%nat
  /\ st.2 = []
  /\ match LWS.build_master unit (fun _ _ => None) (fun _ => false) (fun s => s) (fun _ => LWS.no_pivot)
             4 cycle_and_root [] with
     | Ret m => descs (LWS.ms_root unit m) = [2%nat]
     | _ => False
     end
  /\ match LWS.InternReadFile unit (fun _ _ => None) (fun _ => false) (fun s => s) (fun _ => LWS.no_pivot)
             (fun _ => true) "/"%char 100 "cycle.lws"
             (Some (list_ascii_of_string cycle_scene)) with
     | Ret (Some m) =>
         descs (LWS.ms_root unit m) = [2%nat]
         /\ LWS.gs_log unit (LWS.ms_state unit m) = []
     | _ => False
     end.
Proof. vm_compute. repeat split; reflexivity. Qed.








(** ** SMD: the vertex animation section *)

(** Three groups of one triangle each, recorded at the times 0, 5 and 10. *)
Definition va_times_0_5_10 : string :=
"time 0
0 1.0 2.0 3.0 0 0 1
1 1.5 2.0 3.0 0 0 1
2 1.7 2.0 3.0 0 0 1
time 5
0 5.0 2.0 3.0 0 0 1
1 5.5 2.0 3.0 0 0 1
2 5.7 2.0 3.0 0 0 1
time 10
0 10.0 2.0 3.0 0 0 1
1 10.5 2.0 3.0 0 0 1
2 10.7 2.0 3.0 0 0 1
end
".

(** The same section without the group at the time 0. *)
Definition va_times_5_10 : string :=
"time 5
0 5.0 2.0 3.0 0 0 1
1 5.5 2.0 3.0 0 0 1
2 5.7 2.0 3.0 0 0 1
time 10
0 10.0 2.0 3.0 0 0 1
1 10.5 2.0 3.0 0 0 1
2 10.7 2.0 3.0 0 0 1
end
".

Definition triangles_of (configFrameID : Z) (section : string)
    : option (list (SMD.SFace (R:=list ascii))) :=
  match SMD.ParseVASection (S (String.length section)) configFrameID
          (list_ascii_of_string section) [] with
  | Some (_, asTriangles) => Some asTriangles
  | None => None
  end.

(** C9.  The code does not keep the group at the configured time.  With the
    frame id 5 and groups at the times 0, 5 and 10 the loop is left at
    [time 0], before any vertex is read, and no triangle is kept; and when
    the group at the time 5 comes first, its three vertices are read into
    one triangle, the loop is left at [time 10] with [iCurIndex] back at 0,
    and that triangle is popped as if it were incomplete. *)
Theorem smd_va_time_filter_keeps_nothing :
  triangles_of 5 va_times_0_5_10 = Some []
  /\ triangles_of 5 va_times_5_10 = Some []
  /\ (exists cur tris,
        SMD.VA_loop (S (String.length va_times_5_10)) 5
          (list_ascii_of_string va_times_5_10) [] 0
        = Some (cur, tris, 0) /\ length tris = 1%nat).
Proof.
  split; [vm_compute; reflexivity|]. split; [vm_compute; reflexivity|].
  eexists _, _. split; [vm_compute; reflexivity|reflexivity].
Qed.

(** ** STL: the binary flavour *)

Section STL_binary.
Import STL.
#[local] Open Scope nat_scope.

(** The normal and the corners of the facet [k] of a binary buffer. *)
Definition facet_normal (buf : list ascii) (k : nat) : Vec3 :=
  read_vec buf (84 + 50 * k).

Definition facet_corners (buf : list ascii) (k : nat) : list Vec3 :=
  [read_vec buf (84 + 50 * k + 12); read_vec buf (84 + 50 * k + 24);
   read_vec buf (84 + 50 * k + 36)].

Lemma read_facets_geometry buf bIsMaterialise clrDefault mNumVertices todo i vp vn colors :
  (read_facets buf bIsMaterialise clrDefault mNumVertices todo i vp vn colors).1
  = (vp ++ flat_map (facet_corners buf) (seq i todo),
     vn ++ flat_map (fun k => replicate 3 (facet_normal buf k)) (seq i todo)).
Proof.
  revert i vp vn colors. induction todo as [|todo IH]; intros i vp vn colors.
  - simpl. f_equal; symmetry; apply app_nil_r.
  - cbn [read_facets]. cbv zeta. rewrite IH. cbn [seq flat_map]. by rewrite <- !app_assoc.
Qed.

Lemma faces_from_two : addFacesToMesh 2 = [[0; 1; 2]; [3; 4; 5]]%Z.
Proof. reflexivity. Qed.

Lemma byte_at_range buf i : (0 <= byte_at buf i < 256)%Z.
Proof.
  unfold byte_at. pose proof (nat_ascii_bounded (nth i buf Scanner.NUL)). lia.
Qed.

Lemma read_u32_range buf i : (0 <= read_u32 buf i < 4294967296)%Z.
Proof.
  unfold read_u32.
  pose proof (byte_at_range buf i). pose proof (byte_at_range buf (i + 1)).
  pose proof (byte_at_range buf (i + 2)). pose proof (byte_at_range buf (i + 3)). lia.
Qed.

(** The bit pattern of a [float]: the sign in the bit 31, the biased
    exponent in the bits 23 to 30 and the fraction below them.  A NaN has
    more than one pattern. *)
Definition sign_bit (s : bool) : Z := if s then 2147483648%Z else 0%Z.

Definition bits_of_float (x : B32.t) : option Z :=
  match x with
  | S754_zero s => Some (sign_bit s)
  | S754_infinity s => Some (sign_bit s + 2139095040)%Z
  | S754_nan => None
  | S754_finite s m e =>
      Some (sign_bit s
            + (if (Z.pos m <? 8388608)%Z then Z.pos m
               else (e + 150) * 8388608 + (Z.pos m - 8388608)))%Z
  end.

(** The float [x] is the one the 32 bit word [w] stands for. *)
Definition has_bits (x : B32.t) (w : Z) : Prop :=
  match bits_of_float x with
  | Some b => b = w
  | None => ((w / 8388608) mod 256 = 255 /\ w mod 8388608 <> 0)%Z
  end.

(** The three coordinates of a vector. *)
Definition coords (v : Vec3) : list B32.t := let '(x, y, z) := v in [x; y; z].

Lemma float_of_bits_has_bits (w : Z) :
  (0 <= w < 4294967296)%Z -> has_bits (float_of_bits w) w.
Proof.
  intros Hw. unfold has_bits, float_of_bits.
  replace (Z.land (Z.shiftr w 23) 255) with ((w / 8388608) mod 256)%Z
    by (rewrite (Z.land_ones _ 8), Z.shiftr_div_pow2 by lia; reflexivity).
  replace (Z.land w 8388607) with (w mod 8388608)%Z
    by (rewrite (Z.land_ones _ 23) by lia; reflexivity).
  assert (Hs : sign_bit (Z.testbit w 31) = (w / 2147483648 * 2147483648)%Z).
  { destruct (Z.testbit w 31) eqn:Hb; cbn [sign_bit].
    - apply Z.testbit_true in Hb; [|lia]. change (2 ^ 31)%Z with 2147483648%Z in Hb.
      assert (w / 2147483648 = 1)%Z by (Z.div_mod_to_equations; lia). lia.
    - apply Z.testbit_false in Hb; [|lia]. change (2 ^ 31)%Z with 2147483648%Z in Hb.
      assert (w / 2147483648 = 0)%Z by (Z.div_mod_to_equations; lia). lia. }
  set (e := ((w / 8388608) mod 256)%Z). set (m := (w mod 8388608)%Z).
  assert (Hsplit : w = (w / 2147483648 * 2147483648 + e * 8388608 + m)%Z)
    by (unfold e, m; Z.div_mod_to_equations; lia).
  assert (He : (0 <= e < 256)%Z) by (unfold e; Z.div_mod_to_equations; lia).
  assert (Hm : (0 <= m < 8388608)%Z) by (unfold m; Z.div_mod_to_equations; lia).
  destruct (Z.eqb_spec e 0) as [He0|He0].
  { destruct m as [|q|q] eqn:Hq; cbn [bits_of_float].
    - lia.
    - destruct (Z.ltb_spec (Z.pos q) 8388608); lia.
    - lia. }
  destruct (Z.eqb_spec e 255) as [He1|He1].
  { destruct (Z.eqb_spec m 0) as [Hm0|Hm0]; cbn [bits_of_float]; [rewrite Hs; lia|done]. }
  cbn [bits_of_float]. rewrite Z2Pos.id by lia.
  destruct (Z.ltb_spec (m + 8388608) 8388608); lia.
Qed.

Lemma flat_map_flat_map {A B C} (f : A -> list B) (g : B -> list C) (l : list A) :
  flat_map g (flat_map f l) = flat_map (fun a => flat_map g (f a)) l.
Proof.
  induction l as [|a l IH]; [done|]. cbn [flat_map]. by rewrite flat_map_app, IH.
Qed.

Lemma flat_map_seq_lookup {A} (f : nat -> list A) (c a n k i : nat) :
  (forall j, length (f j) = c) -> k < n -> i < c ->
  flat_map f (seq a n) !! (c * k + i) = f (a + k) !! i.
Proof.
  intros Hlen. revert a k. induction n as [|n IH]; intros a k Hk Hi; [lia|].
  cbn [seq flat_map]. destruct k as [|k].
  - rewrite Nat.mul_0_r, Nat.add_0_r. cbn [Nat.add]. apply lookup_app_l. by rewrite Hlen.
  - rewrite lookup_app_r by (rewrite Hlen; lia). rewrite Hlen.
    replace (c * S k + i - c) with (c * k + i) by lia.
    rewrite IH by lia. f_equal. f_equal. lia.
Qed.

(** The coordinates of the corners and of the normals, facet by facet: the
    floats at their places in the buffer. *)
Lemma corners_coords buf n k i :
  k < n -> i < 9 ->
  flat_map coords (flat_map (facet_corners buf) (seq 0 n)) !! (9 * k + i)
  = Some (read_float buf (96 + 50 * k + 4 * i)).
Proof.
  intros Hk Hi. rewrite flat_map_flat_map.
  rewrite (flat_map_seq_lookup _ 9) by done. cbn [Nat.add].
  do 9 (destruct i as [|i]; [cbn; do 2 f_equal; lia|]). lia.
Qed.

Lemma normals_coords buf n k c i :
  k < n -> c < 3 -> i < 3 ->
  flat_map coords (flat_map (fun k => replicate 3 (facet_normal buf k)) (seq 0 n))
    !! (9 * k + (3 * c + i))
  = Some (read_float buf (84 + 50 * k + 4 * i)).
Proof.
  intros Hk Hc Hi. rewrite flat_map_flat_map.
  rewrite (flat_map_seq_lookup _ 9) by (done || lia). cbn [Nat.add].
  do 3 (destruct c as [|c]; [do 3 (destruct i as [|i]; [cbn; do 2 f_equal; lia|]); lia|]).
  lia.
Qed.

Lemma read_float_has_bits buf i : has_bits (read_float buf i) (read_u32 buf i).
Proof. apply float_of_bits_has_bits, read_u32_range. Qed.

End STL_binary.

(** C8.  A buffer of 84 + 2 * 50 bytes whose count at the offset 80 is 2 is
    taken for binary and not for ASCII, the importer reads it with
    [LoadBinaryFile], and the scene has one mesh of 2 faces and 6 vertices
    in which the normal of each facet stands at its three corners.  The
    coordinates are the floats stored in the buffer: the coordinate [i] of
    the nine of the facet [k] has the bit pattern of the four bytes at
    [96 + 50 k + 4 i], and the coordinate [i] of each of its three normals
    that of the four bytes at [84 + 50 k + 4 i]. *)
Theorem stl_two_facets `{Scanner.FloatParser B32.t}
    (char_signed : bool) (pFile : string) (buf : list ascii) :
  length buf = 184%nat ->
  STL.read_u32 buf 80 = 2 ->
  STL.IsBinarySTL buf 184 = true
  /\ STL.IsAsciiSTL char_signed buf 184 = Some false
  /\ STL.InternReadFile char_signed pFile (Some buf) = STL.LoadBinaryFile buf 184
  /\ exists scene mesh,
       STL.LoadBinaryFile buf 184 = Ret scene
       /\ STL.mMeshes scene = [mesh]
       /\ STL.mNumFaces mesh = 2
       /\ STL.mNumVertices mesh = 6
       /\ STL.mFaces mesh = [[0; 1; 2]; [3; 4; 5]]
       /\ STL.mVertices mesh = facet_corners buf 0 ++ facet_corners buf 1
       /\ STL.mNormals mesh
          = replicate 3 (facet_normal buf 0) ++ replicate 3 (facet_normal buf 1)
       /\ (forall k i, (k < 2)%nat -> (i < 9)%nat ->
             exists x, flat_map coords (STL.mVertices mesh) !! (9 * k + i)%nat = Some x
                       /\ has_bits x (STL.read_u32 buf (96 + 50 * k + 4 * i)))
       /\ (forall k c i, (k < 2)%nat -> (c < 3)%nat -> (i < 3)%nat ->
             exists x, flat_map coords (STL.mNormals mesh) !! (9 * k + (3 * c + i))%nat
                       = Some x
                       /\ has_bits x (STL.read_u32 buf (84 + 50 * k + 4 * i))).
Proof.
  intros Hlen Hcount.
  assert (Hbin : STL.IsBinarySTL buf 184 = true).
  { unfold STL.IsBinarySTL. rewrite Hcount. reflexivity. }
  split; [done|]. split.
  { unfold STL.IsAsciiSTL. by rewrite Hbin. }
  split.
  { unfold STL.InternReadFile. rewrite Hlen.
    change (Z.of_nat 184) with 184. by rewrite Hbin. }
  assert (Hcoords :
    (forall k i, (k < 2)%nat -> (i < 9)%nat ->
       exists x, flat_map coords ([] ++ flat_map (facet_corners buf) (seq 0 2))
                   !! (9 * k + i)%nat = Some x
                 /\ has_bits x (STL.read_u32 buf (96 + 50 * k + 4 * i)))
    /\ (forall k c i, (k < 2)%nat -> (c < 3)%nat -> (i < 3)%nat ->
          exists x, flat_map coords
                      ([] ++ flat_map (fun k => replicate 3 (facet_normal buf k)) (seq 0 2))
                      !! (9 * k + (3 * c + i))%nat = Some x
                    /\ has_bits x (STL.read_u32 buf (84 + 50 * k + 4 * i)))).
  { split.
    - intros k i Hk Hi. eexists. split; [by apply corners_coords|].
      apply read_float_has_bits.
    - intros k c i Hk Hc Hi. eexists. split; [by apply normals_coords|].
      apply read_float_has_bits. }
  destruct Hcoords as [Hv Hn].
  unfold STL.LoadBinaryFile. rewrite Hcount.
  change (184 <? 84) with false. cbv iota.
  destruct (STL.find_color 80 buf 0) as [p|];
    change (184 <? 84 + 2 * 50) with false; change (2 =? 0) with false; cbv iota;
    change (Z.to_nat 2) with 2%nat; change (wrap32 (2 * 3)) with 6.
  - pose proof (read_facets_geometry buf true
                  (STL.byte_to_unit buf p, STL.byte_to_unit buf (p + 1),
                   STL.byte_to_unit buf (p + 2), STL.byte_to_unit buf (p + 3))
                  6 2 0 [] [] None) as Hgeo.
    destruct (STL.read_facets _ _ _ _ _ _ _ _ _) as [[vp vn] colors].
    injection Hgeo as -> ->. eexists _, _. split; [reflexivity|].
    cbn [STL.mMeshes STL.mNumFaces STL.mNumVertices STL.mFaces STL.mVertices STL.mNormals].
    repeat split; try reflexivity; assumption.
  - pose proof (read_facets_geometry buf false
                  (B32.lit 6 10, B32.lit 6 10, B32.lit 6 10, B32.lit 6 10)
                  6 2 0 [] [] None) as Hgeo.
    destruct (STL.read_facets _ _ _ _ _ _ _ _ _) as [[vp vn] colors].
    injection Hgeo as -> ->. eexists _, _. split; [reflexivity|].
    cbn [STL.mMeshes STL.mNumFaces STL.mNumVertices STL.mFaces STL.mVertices STL.mNormals].
    repeat split; try reflexivity; assumption.
Qed.

(** A binary buffer: a header of 80 blanks, the count 2 and two facets of
    50 bytes; the numbers are the bit patterns of the floats. *)
Definition le32 (w : Z) : list ascii :=
  map (fun k => ascii_of_nat (Z.to_nat (Z.land (Z.shiftr w (8 * k)) 255))) [0; 1; 2; 3].

Definition bits_one : Z := 1065353216.

Definition stl_vec (x y z : Z) : list ascii := le32 x ++ le32 y ++ le32 z.

Definition stl_facet (n a b c : list ascii) : list ascii :=
  n ++ a ++ b ++ c ++ [Scanner.NUL; Scanner.NUL].

Definition two_facets : list ascii :=
  replicate 80 " "%char ++ le32 2
  ++ stl_facet (stl_vec 0 0 bits_one)
       (stl_vec 0 0 0) (stl_vec bits_one 0 0) (stl_vec 0 bits_one 0)
  ++ stl_facet (stl_vec bits_one 0 0)
       (stl_vec 0 0 0) (stl_vec 0 bits_one 0) (stl_vec 0 0 bits_one).

(** The floats 0 and 1 and the two facets of the buffer: the normal of each
    and its three corners. *)
Definition f0 : B32.t := S754_zero false.
Definition f1 : B32.t := S754_finite false 8388608 (-23).

Definition two_facets_vertices : list STL.Vec3 :=
  [(f0, f0, f0); (f1, f0, f0); (f0, f1, f0);
   (f0, f0, f0); (f0, f1, f0); (f0, f0, f1)].

Definition two_facets_normals : list STL.Vec3 :=
  replicate 3 (f0, f0, f1) ++ replicate 3 (f1, f0, f0).

Lemma stl_two_facets_witness :
  STL.IsBinarySTL two_facets 184 = true
  /\ STL.IsAsciiSTL true two_facets 184 = Some false
  /\ STL.InternReadFile true "two.stl" (Some two_facets) = STL.LoadBinaryFile two_facets 184
  /\ exists scene mesh,
       STL.LoadBinaryFile two_facets 184 = Ret scene
       /\ STL.mMeshes scene = [mesh]
       /\ STL.mFaces mesh = [[0; 1; 2]; [3; 4; 5]]
       /\ STL.mVertices mesh = two_facets_vertices
       /\ STL.mNormals mesh = two_facets_normals
       /\ B32.toQ f1 == 1.
Proof.
  pose proof (stl_two_facets true "two.stl" two_facets eq_refl eq_refl)
    as (H1 & H2 & H3 & scene & mesh & Hr & Hm & _ & _ & Hf & Hv & Hn & _).
  split; [exact H1|]. split; [exact H2|]. split; [exact H3|].
  exists scene, mesh. split; [exact Hr|]. split; [exact Hm|]. split; [exact Hf|].
  split; [rewrite Hv; vm_compute; reflexivity|].
  split; [rewrite Hn; vm_compute; reflexivity|].
  vm_compute. reflexivity.
Defined.

(** ** The depth of the recursive readers *)

Section LWS_depth.
Import LWS.

Definition depth_error : string :=
  "Maximum recursion depth exceeded in LWS::Element::Parse".

(** [k] blocks that open in each other, none of them closed, in front of
    the text [r]. *)
Fixpoint blocks (k : nat) (r : list ascii) : list ascii :=
  match k with
  | O => r
  | S k' => "{"%char :: " "%char :: "a"%char :: "010"%char :: blocks k' r
  end.

Lemma Parse_blocks_throws k : forall depth fuel kids r,
  MAX_DEPTH < depth + Z.of_nat k -> (2 * k + 1 <= fuel)%nat ->
  Parse fuel ("010"%char :: blocks k r) depth kids = Throw depth_error.
Proof.
  induction k as [|k IH]; intros depth fuel kids r Hd Hf.
  - destruct fuel as [|fuel]; [lia|]. cbn [Parse].
    rewrite (proj2 (Z.ltb_lt _ _)) by lia. reflexivity.
  - destruct fuel as [|[|fuel]]; [lia|lia|].
    cbn [Parse]. destruct (MAX_DEPTH <? depth) eqn:E; [reflexivity|].
    cbn [blocks].
    change (Parse_loop (S fuel) _ depth kids)
      with (match Parse fuel ("010"%char :: blocks k r) (depth + 1) [] with
            | Ret (cur, sub_kids) =>
                Parse_loop fuel (snd (Scanner.SkipLine cur)) depth
                  (kids ++ [mkElement "a" "" sub_kids])
            | Throw m => Throw m
            | Undefined => Undefined
            | OutOfFuel => OutOfFuel
            end).
    rewrite IH by lia. reflexivity.
Qed.

End LWS_depth.

Lemma blocks_add a b r : blocks (a + b) r = blocks a (blocks b r).
Proof. induction a as [|a IH]; simpl; [done|]. by rewrite IH. Qed.

(** An AC3D file of [n] groups with one child each, around one triangle. *)
Definition ac_group : list ascii := list_ascii_of_string
"OBJECT group
kids 1
".

Definition ac_triangle : list ascii := list_ascii_of_string
"OBJECT poly
numvert 3
0 0 0
1 0 0
0 1 0
numsurf 1
SURF 0x20
mat 0
refs 3
0 0 0
1 1 0
2 0 1
kids 0
".

Definition nested_groups (n : nat) : list ascii :=
  list_ascii_of_string "AC3Db
" ++ concat (replicate n ac_group) ++ ac_triangle.

(** The height of the graph of nodes. *)
Fixpoint node_depth (n : AC3D.aiNode) : nat :=
  match n with
  | AC3D.mk_aiNode _ _ kids => S (foldr Nat.max 0%nat (map node_depth kids))
  end.

(** The height of the scene an import returns. *)
Definition scene_height (r : outcome AC3D.aiScene) : option nat :=
  match r with
  | Ret scene => Some (node_depth (AC3D.mRootNode scene))
  | _ => None
  end.

(** C7.  [LWS::Element::Parse] counts the depth: a text in which more than
    1000 blocks open in each other makes it throw, whatever follows and well
    before the text is read to its end.  [AC3DImporter::LoadObjectSection]
    carries no counter: a file of 10,000 groups in each other is read, by
    as many calls in each other, into a graph of that height. *)
Theorem recursion_depth_guards :
  (forall (n fuel : nat) (r : list ascii),
     (1000 < n)%nat -> (2003 <= fuel)%nat ->
     LWS.Parse fuel ("010"%char :: blocks n r) 0 [] = Throw depth_error)
  /\ scene_height
       (AC3D.InternReadFile (fun meshes _ => meshes) false (4 * (100 * 100) + 100)
          "deep.ac" (Some (nested_groups (100 * 100))))
     = Some (S (100 * 100)).
Proof.
  split.
  - intros n fuel r Hn Hfuel.
    replace n with (1001 + (n - 1001))%nat by lia. rewrite blocks_add.
    apply Parse_blocks_throws; [reflexivity|lia].
  - vm_compute. reflexivity.
Qed.

Lemma recursion_depth_guards_witness :
  LWS.Parse 2003 ("010"%char :: blocks 1001 []) 0 [] = Throw depth_error.
Proof.
  assert (H1 : (1000 < 1001)%nat) by apply le_n.
  assert (H2 : (2003 <= 2003)%nat) by apply le_n.
  destruct recursion_depth_guards as [Hthrow _].
  exact (Hthrow 1001%nat 2003%nat [] H1 H2).
Defined.

(** ** AC3D: the mesh indices of the nodes *)

(** A world of two objects: an open line of a single reference, and a
    triangle. *)
Definition ac_open_line : string :=
"AC3Db
OBJECT world
kids 2
OBJECT poly
numvert 1
0 0 0
numsurf 1
SURF 0x02
mat 0
refs 1
0 0 0
kids 0
OBJECT poly
numvert 3
0 0 0
1 0 0
0 1 0
numsurf 1
SURF 0x20
mat 0
refs 3
0 0 0
1 1 0
2 0 1
kids 0
".

(** What an import returns, if it returns. *)
Definition returned {A : Type} (r : outcome A) : option A :=
  match r with
  | Ret a => Some a
  | _ => None
  end.

(** The entries of [mMeshes] of the nodes of a graph, in prefix order;
    [None] is an entry that was allocated and never written. *)
Fixpoint mesh_slots (n : AC3D.aiNode) : list (option Z) :=
  match n with
  | AC3D.mk_aiNode _ slots kids => slots ++ concat (map mesh_slots kids)
  end.

(** Every entry of [mMeshes] is written and is the index of a mesh of the
    scene. *)
Definition mesh_slots_valid (scene : AC3D.aiScene) : bool :=
  forallb (fun slot =>
             match slot with
             | Some i => (0 <=? i) && (i <? Z.of_nat (length (AC3D.sc_meshes scene)))
             | None => false
             end)
    (mesh_slots (AC3D.mRootNode scene)).

(** C3.  The import of [ac_open_line] succeeds with one mesh, that of the
    triangle.  The node of the line counts one mesh ([mNumMeshes] is
    incremented at line 494, the open line of one reference then adds
    [entries.size() - 1 = 0] faces), so the loop over the materials skips
    it and the single entry of its [mMeshes] is never written: the scene
    holds a mesh index that is no index of a mesh. *)
Theorem ac_mesh_index_left_unwritten :
  (fun scene => (mesh_slots (AC3D.mRootNode scene), length (AC3D.sc_meshes scene),
                 mesh_slots_valid scene))
    <$> returned (AC3D.InternReadFile (fun meshes _ => meshes) false
                    (S (String.length ac_open_line)) "line.ac"
                    (Some (list_ascii_of_string ac_open_line)))
  = Some ([None; Some 0], 1%nat, false).
Proof. vm_compute. reflexivity. Qed.

Section LWS_elements.
Import LWS.
Context (Exists : string -> bool) (os_separator : ascii).

Lemma unresolved_snoc nodes d :
  unresolved nodes -> nd_parent_resolved d = None -> nd_children d = [] ->
  unresolved (nodes ++ [d]).
Proof.
  intros Hu Hp Hc. apply Forall_app. split; [done|]. by repeat constructor.
Qed.

Lemma unresolved_alter_back f nodes :
  (forall d, nd_parent_resolved (f d) = nd_parent_resolved d
             /\ nd_children (f d) = nd_children d) ->
  unresolved nodes -> unresolved (alter_back f nodes).
Proof.
  intros Hf Hu. unfold alter_back, unresolved. apply Forall_alter; [done|].
  intros d _ [Hp Hc]. destruct (Hf d) as [-> ->]. done.
Qed.

Lemma read_element_unresolved version motion_file pFile e rest st st' rest' :
  unresolved (ls_nodes st) ->
  read_element Exists os_separator version motion_file pFile e rest st = Ret (st', rest') ->
  unresolved (ls_nodes st').
Proof.
  intros Hu Hr. unfold read_element in Hr.
  repeat (case_match; simplify_eq/=; try done);
    first [ by apply unresolved_snoc
          | by apply unresolved_alter_back; [intros []|]
          | by repeat constructor
          | by match goal with Hn : ls_nodes _ = _ |- _ => rewrite Hn end ].
Qed.

Lemma read_elements_unresolved fuel version motion_file pFile els st st' :
  unresolved (ls_nodes st) ->
  read_elements Exists os_separator fuel version motion_file pFile els st = Ret st' ->
  unresolved (ls_nodes st').
Proof.
  revert els st. induction fuel as [|fuel IH]; intros els st Hu; simpl; [done|].
  destruct els as [|e rest]; [by intros [= <-]|].
  destruct (read_element _ _ _ _ _ e rest st) as [[st1 rest1]| | |] eqn:He; try done.
  apply IH. by apply (read_element_unresolved _ _ _ _ _ _ _ _ Hu He).
Qed.

(** What [InternReadFile] returns is the master graph of nodes the element
    loop left without resolved parent and without children. *)
Lemma InternReadFile_master {Sub : Type} (importer : string -> option Z -> option Sub)
    (single_child_root : Sub -> bool) (drop_root : Sub -> Sub)
    (root_translation : Sub -> LWS.Vec3) fuel pFile file m :
  InternReadFile Sub importer single_child_root drop_root root_translation Exists os_separator
    fuel pFile file = Ret (Some m) ->
  exists nodes reqs,
    unresolved nodes
    /\ build_master Sub importer single_child_root drop_root root_translation fuel nodes reqs = Ret m.
Proof.
  unfold InternReadFile. intros Hr.
  repeat (case_match; simplify_eq; try done).
  eexists _, _. split; [|done].
  eapply read_elements_unresolved; [|done]. constructor.
Qed.

End LWS_elements.

(** * Further properties of the importers *)

(** ** STL: the faces and the binary reader *)

Section STL_faces.
Import STL.

Lemma concat_faces_from n p :
  0 <= p -> p + 3 * Z.of_nat n <= 4294967296 ->
  concat (faces_from n p) = (fun k => p + Z.of_nat k) <$> seq 0 (3 * n).
Proof.
  revert p. induction n as [|n IH]; intros p Hp Hn; [reflexivity|].
  cbn [faces_from concat].
  rewrite !wrap32_small by lia.
  replace (3 * S n)%nat with (S (S (S (3 * n)))) by lia.
  cbn [seq fmap list_fmap app]. rewrite Z.add_0_r.
  do 3 f_equal.
  destruct n as [|n']; [reflexivity|].
  rewrite IH, wrap32_small by (rewrite ?wrap32_small; lia).
  rewrite <- (fmap_add_seq 3 0), <- list_fmap_compose.
  apply list_fmap_ext. intros _ k _. simpl. lia.
Qed.

Lemma length_faces_from n p : length (faces_from n p) = n.
Proof. revert p. induction n as [|n IH]; intros p; simpl; [done|]. by rewrite IH. Qed.

Lemma faces_from_triangles n p : Forall (fun f => length f = 3%nat) (faces_from n p).
Proof. revert p. induction n as [|n IH]; intros p; simpl; constructor; [done|apply IH]. Qed.

End STL_faces.

(** X1.  [addFacesToMesh] for a mesh of [n] faces whose [3 n] corners fit an
    [unsigned int]: there are [n] faces of three indices each, and read in
    order the indices are 0, 1, ..., 3 n - 1, so every vertex of the mesh is
    the corner of exactly one face and every index is below the number of
    vertices. *)
Theorem stl_faces_cover_vertices (n : Z) :
  0 <= n -> 3 * n <= 4294967296 ->
  length (STL.addFacesToMesh n) = Z.to_nat n
  /\ Forall (fun f => length f = 3%nat) (STL.addFacesToMesh n)
  /\ concat (STL.addFacesToMesh n) = Z.of_nat <$> seq 0 (3 * Z.to_nat n)
  /\ Forall (Forall (fun i => 0 <= i < 3 * n)) (STL.addFacesToMesh n).
Proof.
  intros Hn Hmax. unfold STL.addFacesToMesh.
  assert (Hcat : concat (STL.faces_from (Z.to_nat n) 0)
                 = Z.of_nat <$> seq 0 (3 * Z.to_nat n)).
  { rewrite concat_faces_from by lia. apply list_fmap_ext. intros _ k _. lia. }
  split; [apply length_faces_from|]. split; [apply faces_from_triangles|].
  split; [exact Hcat|].
  apply Forall_forall. intros f Hf. apply Forall_forall. intros i Hi.
  assert (Hin : i ∈ concat (STL.faces_from (Z.to_nat n) 0)).
  { apply list_elem_of_In, in_concat. by exists f. }
  rewrite Hcat in Hin. apply list_elem_of_fmap in Hin as (k & -> & Hk).
  apply elem_of_seq in Hk. lia.
Qed.

Lemma stl_faces_cover_vertices_witness :
  concat (STL.addFacesToMesh 4) = Z.of_nat <$> seq 0 (3 * Z.to_nat 4).
Proof.
  assert (H0 : 0 <= 4) by (intros Hc; discriminate Hc).
  assert (H1 : 3 * 4 <= 4294967296) by (intros Hc; discriminate Hc).
  exact (proj1 (proj2 (proj2 (stl_faces_cover_vertices 4 H0 H1)))).
Defined.

Section STL_binary_reader.
Import STL.













End STL_binary_reader.

(** X2.  [LoadBinaryFile] returns a scene exactly when the count of facets
    at the offset 80 is not zero and the file holds the header and 50 bytes
    for every facet counted; in particular never for a file that is shorter
    than its count says. *)
Theorem stl_binary_accepts (buf : list ascii) (size : Z) :
  (exists scene, STL.LoadBinaryFile buf size = Ret scene)
  <-> 0 < STL.read_u32 buf 80 /\ 84 + 50 * STL.read_u32 buf 80 <= size.
Proof.
  pose proof (read_u32_range buf 80) as Hn.
  unfold STL.LoadBinaryFile.
  destruct (Z.ltb_spec size 84) as [Hs|Hs].
  { split; [by intros [scene ?]|lia]. }
  destruct (STL.find_color 80 buf 0);
    (destruct (Z.ltb_spec size (84 + STL.read_u32 buf 80 * 50)) as [Hf|Hf];
     [split; [by intros [scene ?]|lia]|]);
    (destruct (Z.eqb_spec (STL.read_u32 buf 80) 0) as [Hz|Hz];
     [split; [by intros [scene ?]|lia]|]);
    destruct (STL.read_facets _ _ _ _ _ _ _ _ _) as [[vp vn] colors];
    (split; [lia|intros _; by eexists]).
Qed.

Lemma length_flat_map_3 {A B : Type} (f : A -> list B) (l : list A) :
  (forall x, length (f x) = 3%nat) -> length (flat_map f l) = (3 * length l)%nat.
Proof.
  intros Hf. induction l as [|x l IH]; simpl; [done|].
  rewrite length_app, Hf, IH. lia.
Qed.

(** What [LoadBinaryFile] returns, in terms of its buffer. *)
Lemma LoadBinaryFile_returns buf size scene :
  STL.LoadBinaryFile buf size = Ret scene ->
  exists bIsMaterialise clrDefault vp vn colors,
    (bIsMaterialise, clrDefault)
    = match STL.find_color 80 buf 0 with
      | Some p =>
          (true, (STL.byte_to_unit buf p, STL.byte_to_unit buf (p + 1),
                  STL.byte_to_unit buf (p + 2), STL.byte_to_unit buf (p + 3)))
      | None => (false, (B32.lit 6 10, B32.lit 6 10, B32.lit 6 10, B32.lit 6 10))
      end
    /\ STL.read_facets buf bIsMaterialise clrDefault (wrap32 (STL.read_u32 buf 80 * 3))
         (Z.to_nat (STL.read_u32 buf 80)) 0 [] [] None = (vp, vn, colors)
    /\ scene
       = STL.mk_aiScene "<STL_BINARY>" [STL.mk_aiNode "" [0]]
           [STL.mk_aiMesh "" (STL.read_u32 buf 80) (wrap32 (STL.read_u32 buf 80 * 3))
              vp vn colors (STL.addFacesToMesh (STL.read_u32 buf 80)) 0]
           (if bIsMaterialise && negb (bool_decide (is_Some colors))
            then Some clrDefault else None).
Proof.
  unfold STL.LoadBinaryFile.
  destruct (size <? 84); [done|].
  destruct (STL.find_color 80 buf 0) as [p|];
    (destruct (size <? 84 + STL.read_u32 buf 80 * 50); [done|]);
    (destruct (STL.read_u32 buf 80 =? 0); [done|]);
    destruct (STL.read_facets _ _ _ _ _ _ _ _ _) as [[vp vn] colors] eqn:Hr;
    intros [= <-]; eexists _, _, vp, vn, colors; (split; [reflexivity|]);
    (split; [exact Hr|reflexivity]).
Qed.

(** X3.  The mesh [LoadBinaryFile] returns: one mesh under one node, as many
    faces as the count says, three vertices for each facet in the order of
    the file, and the normal of every facet at each of its three vertices.
    The coordinates are the floats stored in the buffer: the coordinate [i]
    of the nine of the facet [k] has the bit pattern of the four bytes at
    [96 + 50 k + 4 i], and the coordinate [i] of each of its three normals
    that of the four bytes at [84 + 50 k + 4 i]. *)
Theorem stl_binary_geometry (buf : list ascii) (size : Z) (scene : STL.aiScene) :
  STL.LoadBinaryFile buf size = Ret scene ->
  exists mesh,
    STL.mMeshes scene = [mesh]
    /\ STL.mChildren scene = [STL.mk_aiNode "" [0]]
    /\ STL.mNumFaces mesh = STL.read_u32 buf 80
    /\ STL.mNumVertices mesh = wrap32 (STL.read_u32 buf 80 * 3)
    /\ STL.mFaces mesh = STL.addFacesToMesh (STL.read_u32 buf 80)
    /\ STL.mVertices mesh
       = flat_map (facet_corners buf) (seq 0 (Z.to_nat (STL.read_u32 buf 80)))
    /\ STL.mNormals mesh
       = flat_map (fun k => replicate 3 (facet_normal buf k))
           (seq 0 (Z.to_nat (STL.read_u32 buf 80)))
    /\ length (STL.mVertices mesh) = (3 * Z.to_nat (STL.read_u32 buf 80))%nat
    /\ length (STL.mNormals mesh) = (3 * Z.to_nat (STL.read_u32 buf 80))%nat
    /\ (forall k i, (k < Z.to_nat (STL.read_u32 buf 80))%nat -> (i < 9)%nat ->
          exists x, flat_map coords (STL.mVertices mesh) !! (9 * k + i)%nat = Some x
                    /\ has_bits x (STL.read_u32 buf (96 + 50 * k + 4 * i)))
    /\ (forall k c i,
          (k < Z.to_nat (STL.read_u32 buf 80))%nat -> (c < 3)%nat -> (i < 3)%nat ->
          exists x, flat_map coords (STL.mNormals mesh) !! (9 * k + (3 * c + i))%nat
                    = Some x
                    /\ has_bits x (STL.read_u32 buf (84 + 50 * k + 4 * i))).
Proof.
  intros Hr. apply LoadBinaryFile_returns in Hr
    as (b & clr & vp & vn & colors & _ & Hfacets & ->).
  pose proof (read_facets_geometry buf b clr (wrap32 (STL.read_u32 buf 80 * 3))
                (Z.to_nat (STL.read_u32 buf 80)) 0 [] [] None) as Hgeo.
  rewrite Hfacets in Hgeo. injection Hgeo as -> ->.
  eexists. split; [reflexivity|].
  cbn [STL.mChildren STL.mNumFaces STL.mNumVertices STL.mFaces STL.mVertices
       STL.mNormals app].
  do 6 (split; [reflexivity|]).
  split; [rewrite length_flat_map_3, length_seq; done|].
  split; [rewrite length_flat_map_3, length_seq; done|].
  split.
  - intros k i Hk Hi. eexists. split; [by apply corners_coords|].
    apply read_float_has_bits.
  - intros k c i Hk Hc Hi. eexists. split; [by apply normals_coords|].
    apply read_float_has_bits.
Qed.





(** Binary buffers of two facets: with a coloured first facet, and with the
    tag [COLOR=] and four bytes of colour at the head of the header. *)
Definition le16 (w : Z) : list ascii :=
  map (fun k => ascii_of_nat (Z.to_nat (Z.land (Z.shiftr w (8 * k)) 255))) [0; 1].

Definition stl_facet_with (attribute : Z) (n a b c : list ascii) : list ascii :=
  n ++ a ++ b ++ c ++ le16 attribute.

Definition colored_facets : list ascii :=
  replicate 80 " "%char ++ le32 2
  ++ stl_facet_with 33791 (stl_vec 0 0 bits_one)
       (stl_vec 0 0 0) (stl_vec bits_one 0 0) (stl_vec 0 bits_one 0)
  ++ stl_facet_with 0 (stl_vec bits_one 0 0)
       (stl_vec 0 0 0) (stl_vec 0 bits_one 0) (stl_vec 0 0 bits_one).


Definition scene_or_empty (r : outcome STL.aiScene) : STL.aiScene :=
  match r with
  | Ret scene => scene
  | _ => STL.mk_aiScene "" [] [] None
  end.

Definition colored_scene : STL.aiScene :=
  Eval vm_compute in scene_or_empty (STL.LoadBinaryFile colored_facets 184).


Lemma stl_binary_geometry_witness :
  exists mesh,
    STL.mMeshes colored_scene = [mesh]
    /\ STL.mFaces mesh = [[0; 1; 2]; [3; 4; 5]]
    /\ STL.mVertices mesh = two_facets_vertices
    /\ STL.mNormals mesh = two_facets_normals.
Proof.
  assert (Hr : STL.LoadBinaryFile colored_facets 184 = Ret colored_scene)
    by (vm_compute; reflexivity).
  destruct (stl_binary_geometry colored_facets 184 colored_scene Hr)
    as (mesh & Hm & _ & _ & _ & Hf & Hv & Hn & _).
  exists mesh. split; [exact Hm|].
  split; [rewrite Hf; vm_compute; reflexivity|].
  split; [rewrite Hv; vm_compute; reflexivity|].
  rewrite Hn. vm_compute. reflexivity.
Defined.




(** ** STL: the ASCII reader *)

Section STL_ascii.
Import STL.
Context `{Scanner.FloatParser B32.t}.

(** A mesh as the loop over the solids builds it. *)
Definition ascii_mesh_ok (mesh : aiMesh) : Prop :=
  length (mNormals mesh) = length (mVertices mesh)
  /\ Z.of_nat (length (mVertices mesh)) mod 3 = 0
  /\ mNumVertices mesh = wrap32 (Z.of_nat (length (mVertices mesh)))
  /\ mNumFaces mesh = wrap32 (Z.of_nat (length (mVertices mesh)) / 3)
  /\ mFaces mesh = addFacesToMesh (mNumFaces mesh)
  /\ mColors mesh = None.

Definition ascii_state_ok (st : AsciiState) : Prop :=
  length (as_nodes st) = length (as_meshes st)
  /\ (forall i node, as_nodes st !! i = Some node -> nMeshes node = [Z.of_nat i])
  /\ Forall ascii_mesh_ok (as_meshes st).

Lemma read_solids_ok fuel char_signed sz st st' :
  ascii_state_ok st ->
  read_solids fuel char_signed sz st = Ret st' ->
  ascii_state_ok st'.
Proof.
  revert sz st. induction fuel as [|fuel IH]; intros sz st Hst; cbn [read_solids]; [done|].
  destruct (IsAsciiSTL _ _ _) as [[]|]; [|by intros [= <-]|done].
  destruct (LWS.take_until _ _) as [name sz1].
  destruct (_ && _); [done|].
  destruct (read_solid _ _ _ _ _) as [[[sz2 positionBuffer] normalBuffer]| | |]; try done.
  destruct (Z.eqb_spec (Z.of_nat (length positionBuffer) mod 3) 0) as [Hmod|]; [|done].
  destruct (Nat.eqb_spec (length normalBuffer) (length positionBuffer)) as [Hlen|]; [|done].
  cbn [negb]. apply IH.
  destruct Hst as (Hnodes & Hidx & Hmeshes). unfold ascii_state_ok.
  cbn [as_nodes as_meshes]. split; [by rewrite !length_app, Hnodes|]. split.
  - intros i node Hi. apply lookup_app_Some in Hi as [Hi|[Hge Hi]]; [by apply Hidx|].
    apply list_lookup_singleton_Some in Hi as [Hi0 <-]. cbn [nMeshes].
    do 2 f_equal. lia.
  - apply Forall_app. split; [done|]. repeat constructor; done.
Qed.

Lemma ascii_state_ok_init : ascii_state_ok (mkAsciiState "" [] [] [] []).
Proof.
  split; [done|]. split; [|constructor]. intros i node Hi. cbn in Hi. by destruct i.
Qed.

End STL_ascii.

(** X7.  The scene [LoadASCIIFile] returns, for any text and any reader of
    the real numbers: there is one node for every mesh, the node at the
    position [i] names the mesh [i] and no other, and every mesh has as many
    normals as vertices, a number of vertices that is a multiple of three,
    a third of it as the number of its faces, and the faces of
    [addFacesToMesh]. *)
Theorem stl_ascii_scene `{Scanner.FloatParser B32.t}
    (char_signed : bool) (buf : list ascii) (scene : STL.aiScene) :
  STL.LoadASCIIFile char_signed buf = Ret scene ->
  length (STL.mChildren scene) = length (STL.mMeshes scene)
  /\ (forall i node, STL.mChildren scene !! i = Some node ->
        STL.nMeshes node = [Z.of_nat i])
  /\ Forall ascii_mesh_ok (STL.mMeshes scene).
Proof.
  unfold STL.LoadASCIIFile.
  destruct (STL.read_solids _ _ _ _) as [st| | |] eqn:Hr; try done.
  intros [= <-]. cbn [STL.mChildren STL.mMeshes].
  apply (read_solids_ok _ _ _ _ _ ascii_state_ok_init Hr).
Qed.

(** A solid of one facet. *)
Definition ascii_solid : list ascii := list_ascii_of_string
"solid a
facet normal 0 0 1
outer loop
vertex 0 0 0
vertex 1 0 0
vertex 0 1 0
endloop
endfacet
endsolid a
".

Definition ascii_scene : STL.aiScene :=
  Eval vm_compute in scene_or_empty (STL.LoadASCIIFile true ascii_solid).

Lemma stl_ascii_scene_witness :
  length (STL.mMeshes ascii_scene) = 1%nat
  /\ Forall ascii_mesh_ok (STL.mMeshes ascii_scene).
Proof.
  assert (Hr : STL.LoadASCIIFile true ascii_solid = Ret ascii_scene)
    by (vm_compute; reflexivity).
  split; [reflexivity|].
  exact (proj2 (proj2 (stl_ascii_scene true ascii_solid ascii_scene Hr))).
Defined.

(** ** LWS: what the resolution of the parents attaches *)

Section LWS_exact.
Import LWS.
#[local] Open Scope nat_scope.

Implicit Types (nodes orig : list NodeDesc) (st : list NodeDesc * list string).

(** The node at [p] is what the node at [c] names as its parent. *)
Definition declared orig (p c : nat) : Prop :=
  p <> c
  /\ exists dp dc, orig !! p = Some dp /\ orig !! c = Some dc
                   /\ node_matches dp (nd_parent dc) = true.

(** Every resolved parent is a declared one. *)
Definition honest orig nodes : Prop :=
  forall c p, parent_of nodes c = Some p -> declared orig p c.

(** No two nodes answer to the same reference. *)
Definition unique_ids orig : Prop :=
  forall i j di dj z,
    orig !! i = Some di -> orig !! j = Some dj ->
    node_matches di z = true -> node_matches dj z = true -> i = j.

(** The parents resolved so far were resolved by a pair of the loops before
    the pair [(i, j)]. *)
Definition before (i j : nat) nodes : Prop :=
  forall c q, parent_of nodes c = Some q -> q < i \/ (q = i /\ c < j).

Lemma foldl_seq_indexed {S : Type} (f : S -> nat -> S) (P : nat -> S -> Prop) a n s :
  P a s ->
  (forall k s, a <= k < a + n -> P k s -> P (Datatypes.S k) (f s k)) ->
  P (a + n) (foldl f s (seq a n)).
Proof.
  revert a s. induction n as [|n IH]; intros a s Hs Hstep; simpl.
  - by rewrite Nat.add_0_r.
  - replace (a + Datatypes.S n) with (Datatypes.S a + n) by lia. apply IH.
    + apply Hstep; [lia|done].
    + intros k s' Hk. apply Hstep. lia.
Qed.

Lemma same_decl_lookup orig nodes k d :
  same_decl node_matches orig nodes -> nodes !! k = Some d ->
  exists d0, orig !! k = Some d0 /\ nd_parent d = nd_parent d0
             /\ forall z, node_matches d z = node_matches d0 z.
Proof.
  intros [Hlen Hsame] Hd.
  destruct (lookup_lt_is_Some_2 orig k) as [d0 Hd0].
  { rewrite <- Hlen. by apply lookup_lt_Some in Hd. }
  exists d0. split; [done|]. by apply (Hsame k).
Qed.

Lemma claim_child_exact orig i j st :
  unique_ids orig ->
  same_decl node_matches orig st.1 /\ honest orig st.1 /\ st.2 = [] /\ before i j st.1 ->
  let st' := claim_child node_matches i j st in
  same_decl node_matches orig st'.1 /\ honest orig st'.1 /\ st'.2 = []
  /\ before i (S j) st'.1.
Proof.
  destruct st as [nodes log]. cbn [fst snd]. intros Huniq (Hsame & Hhon & -> & Hbef).
  cbv zeta.
  split; [by apply claim_child_same_decl; [apply node_matches_stable|]|].
  destruct (claim_child_cases node_matches i j nodes [])
    as [->|(ni & nj & Hi & Hj & Hij & Hm & [[[q Hq] _]|[Hnone ->]])]; cbn [fst snd].
  - split; [done|]. split; [done|]. intros c q Hc. destruct (Hbef c q Hc); lia.
  - exfalso.
    assert (Hpj : parent_of nodes j = Some q) by (unfold parent_of; by rewrite Hj).
    destruct (Hhon j q Hpj) as (_ & dq & dj & Hdq & Hdj & Hmq).
    destruct (same_decl_lookup orig nodes i ni Hsame Hi) as (di0 & Hdi0 & _ & Hmi).
    destruct (same_decl_lookup orig nodes j nj Hsame Hj) as (dj0 & Hdj0 & Hpar & _).
    rewrite Hdj0 in Hdj. injection Hdj as <-.
    rewrite Hpar, Hmi in Hm.
    pose proof (Huniq q i dq di0 _ Hdq Hdi0 Hmq Hm) as ->.
    destruct (Hbef j i Hpj); lia.
  - assert (Hjlt : j < length nodes) by (by apply lookup_lt_Some in Hj).
    split; [|split; [done|]].
    + intros c p Hc. rewrite parent_of_attach in Hc by done.
      case_decide as Hcj; [|by apply Hhon].
      injection Hc as <-. subst c. split; [done|].
      destruct (same_decl_lookup orig nodes i ni Hsame Hi) as (di0 & Hdi0 & _ & Hmi).
      destruct (same_decl_lookup orig nodes j nj Hsame Hj) as (dj0 & Hdj0 & Hpar & _).
      exists di0, dj0. split; [done|]. split; [done|]. by rewrite <- Hpar, <- Hmi.
    + intros c p Hc. rewrite parent_of_attach in Hc by done.
      case_decide as Hcj.
      * injection Hc as <-. subst c. right. lia.
      * destruct (Hbef c p Hc); lia.
Qed.

Lemma resolve_parenting_exact nodes :
  unresolved nodes -> unique_ids nodes ->
  honest nodes (resolve_parenting node_matches nodes).1
  /\ (resolve_parenting node_matches nodes).2 = [].
Proof.
  intros Hu Huniq. unfold resolve_parenting.
  set (n := length nodes).
  pose (P := fun (i : nat) (st : list NodeDesc * list string) =>
               same_decl node_matches nodes st.1 /\ honest nodes st.1 /\ st.2 = []
               /\ forall c q, parent_of st.1 c = Some q -> q < i).
  assert (HP : P (0 + n) (foldl (fun st i => resolve_node node_matches n i st)
                            (nodes, []) (seq 0 n))).
  { apply (foldl_seq_indexed _ P).
    - unfold P. split; [apply same_decl_refl|].
      assert (Hnone : forall c q, parent_of nodes c = Some q -> False).
      { intros c q Hc. unfold parent_of in Hc.
        destruct (nodes !! c) as [d|] eqn:Hd; [|done].
        unfold unresolved in Hu. rewrite Forall_lookup in Hu.
        destruct (Hu c d Hd) as [Hp _]. simpl in Hc. congruence. }
      split; [intros c q Hc; destruct (Hnone c q Hc)|]. split; [done|].
      intros c q Hc. destruct (Hnone c q Hc).
    - intros i st _ (Hsame & Hhon & Hlog & Hlt). unfold resolve_node.
      pose (Q := fun (j : nat) (st : list NodeDesc * list string) =>
                   same_decl node_matches nodes st.1 /\ honest nodes st.1 /\ st.2 = []
                   /\ before i j st.1).
      assert (HQ : Q (0 + n) (foldl (fun st j => claim_child node_matches i j st)
                                st (seq 0 n))).
      { apply (foldl_seq_indexed _ Q).
        - unfold Q. split; [done|]. split; [done|]. split; [done|].
          intros c q Hc. left. by apply (Hlt c q).
        - intros j st' _ HQ. by apply claim_child_exact. }
      destruct HQ as (Hsame' & Hhon' & Hlog' & Hbef').
      unfold P. split; [done|]. split; [done|]. split; [done|].
      intros c q Hc. destruct (Hbef' c q Hc); lia. }
  destruct HP as (_ & Hhon & Hlog & _). done.
Qed.

Lemma claim_child_honest orig i j st :
  same_decl node_matches orig st.1 /\ honest orig st.1 ->
  same_decl node_matches orig (claim_child node_matches i j st).1
  /\ honest orig (claim_child node_matches i j st).1.
Proof.
  destruct st as [nodes log]. cbn [fst]. intros (Hsame & Hhon).
  split; [by apply claim_child_same_decl; [apply node_matches_stable|]|].
  destruct (claim_child_cases node_matches i j nodes log)
    as [->|(ni & nj & Hi & Hj & Hij & Hm & [[_ ->]|[Hnone ->]])]; cbn [fst]; try done.
  assert (Hjlt : j < length nodes) by (by apply lookup_lt_Some in Hj).
  intros c p Hc. rewrite parent_of_attach in Hc by done.
  case_decide as Hcj; [|by apply Hhon].
  injection Hc as <-. subst c. split; [done|].
  destruct (same_decl_lookup orig nodes i ni Hsame Hi) as (di0 & Hdi0 & _ & Hmi).
  destruct (same_decl_lookup orig nodes j nj Hsame Hj) as (dj0 & Hdj0 & Hpar & _).
  exists di0, dj0. split; [done|]. split; [done|]. by rewrite <- Hpar, <- Hmi.
Qed.

Lemma unresolved_honest nodes : unresolved nodes -> honest nodes nodes.
Proof.
  intros Hu c q Hc. unfold parent_of in Hc.
  destruct (nodes !! c) as [d|] eqn:Hd; [|done].
  unfold unresolved in Hu. rewrite Forall_lookup in Hu.
  destruct (Hu c d Hd) as [Hp _]. simpl in Hc. congruence.
Qed.

Lemma resolve_parenting_honest nodes :
  unresolved nodes -> honest nodes (resolve_parenting node_matches nodes).1.
Proof.
  intros Hu. unfold resolve_parenting.
  apply (foldl_invariant _ (fun st => same_decl node_matches nodes st.1
                                      /\ honest nodes st.1)).
  - split; [apply same_decl_refl|by apply unresolved_honest].
  - intros st i Hst. unfold resolve_node.
    apply (foldl_invariant _ (fun st => same_decl node_matches nodes st.1
                                        /\ honest nodes st.1)); [done|].
    intros st' j. apply claim_child_honest.
Qed.

(** The nodes all descend from a node without parent when the declared
    parents fall in rank. *)
Lemma ranked_rooted orig nodes (rank : nat -> nat) :
  linked nodes -> honest orig nodes ->
  (forall p c, declared orig p c -> rank p < rank c) ->
  forall c, c < length nodes -> exists k, rooted nodes k c.
Proof.
  intros Hl Hhon Hrank c. remember (rank c) as r eqn:Hr. revert c Hr.
  induction r as [r IH] using lt_wf_ind. intros c -> Hc.
  destruct (parent_of nodes c) as [p|] eqn:Hp.
  - pose proof (Hrank p c (Hhon c p Hp)) as Hlt.
    apply (linked_parent _ Hl) in Hp as Hchild.
    destruct Hchild as (dp & Hdp & Hin).
    destruct (IH (rank p) Hlt p eq_refl) as [k Hk]; [by apply lookup_lt_Some in Hdp|].
    exists (S k). apply (rooted_child nodes k p c Hl Hk). by exists dp.
  - exists 0. exists c. split; [|done]. simpl. by rewrite decide_True.
Qed.

End LWS_exact.

Lemma build_master_returns {Sub : Type} (single_child_root : Sub -> bool)
    (drop_root : Sub -> Sub)
    (root_translation : Sub -> LWS.Vec3) (imp : string -> option Z -> option Sub) fuel nodes reqs :
  unresolved nodes -> (length nodes < fuel)%nat ->
  LWS.no_parent (LWS.resolve_parenting LWS.node_matches nodes).1 <> 0%nat ->
  exists m, LWS.build_master Sub imp single_child_root drop_root root_translation fuel nodes reqs = Ret m.
Proof.
  intros Hu Hfuel Hroots. unfold LWS.build_master.
  pose proof (resolve_parenting_linked LWS.node_matches nodes Hu) as Hl.
  pose proof (resolve_parenting_length LWS.node_matches nodes) as Hlen.
  destruct (LWS.resolve_parenting LWS.node_matches nodes) as [nodes' log].
  cbn [fst] in Hl, Hlen, Hroots.
  destruct (Nat.eqb_spec (LWS.no_parent nodes') 0) as [|_]; [done|].
  unfold LWS.build_roots.
  destruct (build_all_total
              (LWS.BuildGraph Sub imp single_child_root drop_root root_translation fuel nodes' reqs)
              (LWS.root_positions 0 nodes'))
    with (st := LWS.mkGraphState Sub [] [] [] log) as [[ns st'] ->]; [|eauto].
  intros r Hr st. apply root_positions_spec in Hr as (d & Hd & Hroot & _).
  rewrite Nat.sub_0_r in Hd.
  apply (BuildGraph_total _ _ _ _ _ _ _ 0); [done| |lia].
  by apply (rooted_root nodes' r d).
Qed.

(** *** The first claimant is the parent *)

Section LWS_first_claim.
Import LWS.
#[local] Open Scope nat_scope.

Implicit Types (orig nodes : list NodeDesc) (st : list NodeDesc * list string).

(** The node at [i] answers to the parent reference of the node at [c]:
    the test of line 1743 on the nodes as the element loop left them. *)
Definition claims orig (i c : nat) : bool :=
  negb (c =? i)
  && match orig !! i, orig !! c with
     | Some di, Some dc => node_matches di (nd_parent dc)
     | _, _ => false
     end.

(** The claimants of [c] among the first [k] nodes, in the order of the
    list, and the first of them all. *)
Definition claimants orig (k c : nat) : list nat :=
  List.filter (fun i => claims orig i c) (seq 0 k).

Definition first_claimant orig (c : nat) : option nat :=
  head (claimants orig (length orig) c).

(** A claim comes late when a node before the claimant makes it too. *)
Definition late orig (i c : nat) : bool :=
  claims orig i c && negb (bool_decide (claimants orig i c = [])).

Definition late_cells orig (i j : nat) : list (nat * nat) :=
  (fun c => (i, c)) <$> List.filter (late orig i) (seq 0 j).

Definition late_rows orig (i : nat) : list (nat * nat) :=
  flat_map (fun i' => late_cells orig i' (length orig)) (seq 0 i).

(** The late claims, in the order in which the two loops meet them. *)
Definition late_claims orig : list (nat * nat) := late_rows orig (length orig).

(** What the two loops have done when the outer one is at [i] and the inner
    one at [j]. *)
Definition pending orig (i j c : nat) : list nat :=
  if (c <? j) && claims orig i c then [i] else [].

Definition resolved_to orig (i j : nat) st : Prop :=
  same_decl node_matches orig st.1
  /\ (forall c, parent_of st.1 c = head (claimants orig i c ++ pending orig i j c))
  /\ st.2 = (fun _ => cross_reference) <$> (late_rows orig i ++ late_cells orig i j).

Lemma claims_inside orig i c : claims orig i c = true -> c < length orig.
Proof.
  unfold claims. intros Hc. apply andb_prop in Hc as [_ Hc].
  destruct (orig !! i); [|done].
  destruct (orig !! c) eqn:Hd; [|done]. by apply lookup_lt_Some in Hd.
Qed.

Lemma claimants_S orig k c :
  claimants orig (S k) c = claimants orig k c ++ (if claims orig k c then [k] else []).
Proof.
  unfold claimants. rewrite seq_S, List.filter_app. cbn [List.filter Nat.add].
  by destruct (claims orig k c).
Qed.

Lemma late_cells_S orig i j :
  late_cells orig i (S j)
  = late_cells orig i j ++ (if late orig i j then [(i, j)] else []).
Proof.
  unfold late_cells. rewrite seq_S, List.filter_app, fmap_app. cbn [List.filter Nat.add].
  by destruct (late orig i j).
Qed.

Lemma late_rows_S orig i :
  late_rows orig (S i) = late_rows orig i ++ late_cells orig i (length orig).
Proof.
  unfold late_rows. rewrite seq_S, flat_map_app. cbn [flat_map Nat.add].
  by rewrite app_nil_r.
Qed.

Lemma head_app_nonempty {A} (l l' : list A) : l <> [] -> head (l ++ l') = head l.
Proof. by destruct l. Qed.

Lemma pending_0 orig i c : pending orig i 0 c = [].
Proof. unfold pending. by replace (c <? 0) with false by (symmetry; apply Nat.ltb_ge; lia). Qed.

Lemma late_cells_0 orig i : late_cells orig i 0 = [].
Proof. done. Qed.

(** One pass of the inner loop. *)
Lemma claim_child_resolved orig i j st :
  i < length orig -> j < length orig ->
  resolved_to orig i j st ->
  resolved_to orig i (S j) (claim_child node_matches i j st).
Proof.
  destruct st as [nodes log]. intros Hi Hj (Hsame & Hpar & Hlog). cbn [fst snd] in *.
  assert (Hlen : length nodes = length orig) by apply Hsame.
  destruct (lookup_lt_is_Some_2 nodes i) as [ni Hni]; [lia|].
  destruct (lookup_lt_is_Some_2 nodes j) as [nj Hnj]; [lia|].
  destruct (same_decl_lookup orig nodes i ni Hsame Hni) as (di & Hdi & _ & Hmi).
  destruct (same_decl_lookup orig nodes j nj Hsame Hnj) as (dj & Hdj & Hpj & _).
  assert (Hclaim : negb (j =? i) && node_matches ni (nd_parent nj) = claims orig i j).
  { unfold claims. by rewrite Hdi, Hdj, Hpj, Hmi. }
  assert (Hother : forall c, c <> j -> pending orig i (S j) c = pending orig i j c).
  { intros c Hc. unfold pending.
    destruct (Nat.ltb_spec c (S j)), (Nat.ltb_spec c j); try lia; done. }
  assert (Hold : pending orig i j j = []).
  { unfold pending. by rewrite Nat.ltb_irrefl. }
  assert (Hnew : pending orig i (S j) j = if claims orig i j then [i] else []).
  { unfold pending. by replace (j <? S j) with true by (symmetry; apply Nat.ltb_lt; lia). }
  pose proof (Hpar j) as Hparj. rewrite Hold, app_nil_r in Hparj.
  unfold parent_of in Hparj. rewrite Hnj in Hparj. cbn in Hparj.
  unfold claim_child. rewrite Hni, Hnj, Hclaim.
  destruct (claims orig i j) eqn:Hc.
  2:{ split; [done|]. cbn [fst snd]. split.
      - intros c. rewrite Hpar. destruct (decide (c = j)) as [->|Hcj].
        + by rewrite Hold, Hnew.
        + by rewrite Hother.
      - rewrite Hlog, late_cells_S. unfold late. rewrite Hc. cbn [andb].
        by rewrite app_nil_r. }
  destruct (nd_parent_resolved nj) as [q|] eqn:Hq.
  - assert (Hne : claimants orig i j <> []).
    { intros Hnil. by rewrite Hnil in Hparj. }
    split; [done|]. cbn [fst snd]. split.
    + intros c. rewrite Hpar. destruct (decide (c = j)) as [->|Hcj].
      * by rewrite Hold, Hnew, app_nil_r, head_app_nonempty.
      * by rewrite Hother.
    + rewrite Hlog, late_cells_S. unfold late. rewrite Hc, bool_decide_eq_false_2 by done.
      cbn [andb negb]. by rewrite !fmap_app, <- app_assoc.
  - assert (Hnil : claimants orig i j = []).
    { destruct (claimants orig i j); [done|discriminate Hparj]. }
    split; [by apply same_decl_attach; [apply node_matches_stable|]|].
    cbn [fst snd]. split.
    + intros c. fold (attach i j nodes). rewrite parent_of_attach by lia.
      case_decide as Hcj.
      * subst c. by rewrite Hnew, Hnil.
      * by rewrite Hpar, Hother.
    + rewrite Hlog, late_cells_S. unfold late. rewrite Hc, Hnil, bool_decide_eq_true_2 by done.
      cbn [andb negb]. by rewrite app_nil_r.
Qed.

(** One pass of the outer loop. *)
Lemma resolve_node_resolved orig i st :
  i < length orig ->
  resolved_to orig i 0 st ->
  resolved_to orig (S i) 0 (resolve_node node_matches (length orig) i st).
Proof.
  intros Hi Hst. unfold resolve_node.
  pose proof (foldl_seq_indexed (fun st j => claim_child node_matches i j st)
                (fun j st => resolved_to orig i j st) 0 (length orig) st Hst) as Hend.
  cbn [Nat.add] in Hend.
  destruct Hend as (Hsame & Hpar & Hlog).
  { intros j st' Hj Hst'. apply claim_child_resolved; [done|lia|done]. }
  split; [done|]. split.
  - intros c. rewrite Hpar, claimants_S, pending_0, app_nil_r. unfold pending.
    destruct (claims orig i c) eqn:Hc.
    + apply claims_inside in Hc as Hlt. apply Nat.ltb_lt in Hlt. by rewrite Hlt.
    + by rewrite andb_false_r.
  - by rewrite Hlog, late_rows_S, late_cells_0, app_nil_r.
Qed.

Lemma resolve_parenting_first orig :
  unresolved orig ->
  (forall c, parent_of (resolve_parenting node_matches orig).1 c = first_claimant orig c)
  /\ (resolve_parenting node_matches orig).2
     = (fun _ => cross_reference) <$> late_claims orig.
Proof.
  intros Hu. unfold resolve_parenting.
  pose proof (foldl_seq_indexed
                (fun st i => resolve_node node_matches (length orig) i st)
                (fun i st => resolved_to orig i 0 st) 0 (length orig) (orig, [])) as Hend.
  cbn [Nat.add] in Hend.
  destruct Hend as (_ & Hpar & Hlog).
  - split; [apply same_decl_refl|]. cbn [fst snd]. split; [|done].
    intros c. rewrite pending_0. unfold claimants. cbn [seq List.filter app head].
    unfold parent_of. destruct (orig !! c) as [d|] eqn:Hd; [|done].
    unfold unresolved in Hu. rewrite Forall_lookup in Hu.
    destruct (Hu c d Hd) as [Hp _]. by rewrite <- Hp.
  - intros i st Hi Hst. apply resolve_node_resolved; [lia|done].
  - split.
    + intros c. by rewrite Hpar, pending_0, app_nil_r.
    + by rewrite Hlog, late_cells_0, app_nil_r.
Qed.

(** No claim comes late when no two nodes claim the same node. *)
Lemma late_claims_none orig :
  (forall i i' c, claims orig i c = true -> claims orig i' c = true -> i = i') ->
  late_claims orig = [].
Proof.
  intros Huniq.
  assert (Hlate : forall i c, late orig i c = false).
  { intros i c. destruct (late orig i c) eqn:Hl; [exfalso|done].
    unfold late in Hl. apply andb_prop in Hl as [Hc Hne].
    apply negb_true_iff, bool_decide_eq_false in Hne.
    destruct (claimants orig i c) as [|i' rest] eqn:Hcl; [done|].
    assert (Hin : In i' (claimants orig i c)) by (rewrite Hcl; by left).
    unfold claimants in Hin. apply filter_In in Hin as [Hlt Hc'].
    apply in_seq in Hlt. pose proof (Huniq i i' c Hc Hc'). lia. }
  assert (Hcells : forall i j, late_cells orig i j = []).
  { intros i j. unfold late_cells.
    induction (seq 0 j) as [|c cs IH]; [done|].
    cbn [List.filter]. by rewrite Hlate. }
  unfold late_claims, late_rows.
  induction (seq 0 (length orig)) as [|i l IH]; [done|].
  cbn [flat_map]. by rewrite IH, Hcells.
Qed.

End LWS_first_claim.

(** C4, amended.  The resolution of the parents of the nodes the element
    loop produced attaches every node to the first node of the list that
    answers to its parent reference, and to no other: the parent resolved
    for a node is its first claimant, the lists of children hold exactly
    the nodes whose first claimant the node is, each once, and the log
    holds one error [LWS: Found cross reference in scene-graph] for every
    claim that comes late, and nothing else.  Parent references that form a
    cycle are not detected: when no two nodes claim the same node, nothing
    is logged, whether or not the claims form a cycle.  With more fuel than
    nodes the master graph is built or the import fails for want of a root,
    so the recursion over the children is bounded; and the graph that is
    built holds exactly the nodes that descend from a node without parent,
    each of them once. *)
Theorem lws_flat_hierarchy {Sub : Type} (importer : string -> option Z -> option Sub)
    (single_child_root : Sub -> bool) (drop_root : Sub -> Sub)
    (root_translation : Sub -> LWS.Vec3)
    (fuel : nat) (nodes : list LWS.NodeDesc) (reqs : list LWS.LoadRequest) :
  unresolved nodes ->
  (length nodes < fuel)%nat ->
  let st := LWS.resolve_parenting LWS.node_matches nodes in
  (forall c, parent_of st.1 c = first_claimant nodes c)
  /\ (forall p c, is_child st.1 p c <-> first_claimant nodes c = Some p)
  /\ (forall p d, st.1 !! p = Some d -> NoDup (LWS.nd_children d))
  /\ st.2 = (fun _ => LWS.cross_reference) <$> late_claims nodes
  /\ ((forall i i' c, claims nodes i c = true -> claims nodes i' c = true -> i = i') ->
      st.2 = [])
  /\ (LWS.build_master Sub importer single_child_root drop_root root_translation
        fuel nodes reqs = Throw LWS.no_root
      \/ exists m,
           LWS.build_master Sub importer single_child_root drop_root root_translation
             fuel nodes reqs = Ret m
           /\ NoDup (descs (LWS.ms_root Sub m))
           /\ forall x, x ∈ descs (LWS.ms_root Sub m) <-> exists k, rooted st.1 k x).
Proof.
  intros Hu Hfuel st.
  pose proof (resolve_parenting_linked LWS.node_matches nodes Hu) as Hl.
  destruct (resolve_parenting_first nodes Hu) as [Hpar Hlog]. fold st in Hpar, Hlog.
  split; [exact Hpar|]. split.
  { intros p c. rewrite <- Hpar. split.
    - apply (linked_child _ Hl).
    - apply (linked_parent _ Hl). }
  split; [apply (linked_nodup _ Hl)|]. split; [exact Hlog|]. split.
  { intros Huniq. by rewrite Hlog, (late_claims_none nodes Huniq). }
  destruct (build_master_total (Sub:=Sub) single_child_root drop_root root_translation
              importer fuel nodes reqs Hu Hfuel) as [Hthrow|[m Hm]]; [by left|right].
  exists m. split; [done|].
  apply (build_master_descs importer single_child_root drop_root root_translation
           fuel nodes reqs m Hu Hm).
Qed.

(** Two objects that answer to the same reference and a third one that names
    it as its parent: the first of the two gets the child, the claim of the
    second is logged. *)
Definition double_claim : list LWS.NodeDesc :=
  [null_object 0 0 "A"; null_object 0 0 "A2"; null_object 1 (object_id 0) "C"].

Lemma lws_flat_hierarchy_witness :
  let st := LWS.resolve_parenting LWS.node_matches double_claim in
  parent_of st.1 2 = Some 0%nat
  /\ (is_child st.1 0 2 /\ ~ is_child st.1 1 2)
  /\ st.2 = [LWS.cross_reference]
  /\ (LWS.build_master unit (fun _ _ => None) (fun _ => false) (fun s => s)
        (fun _ => LWS.no_pivot) 4 double_claim [] = Throw LWS.no_root
      \/ exists m,
           LWS.build_master unit (fun _ _ => None) (fun _ => false) (fun s => s)
             (fun _ => LWS.no_pivot) 4 double_claim [] = Ret m
           /\ NoDup (descs (LWS.ms_root unit m))
           /\ forall x, x ∈ descs (LWS.ms_root unit m) <-> exists k, rooted st.1 k x).
Proof.
  assert (Hu : unresolved double_claim) by repeat constructor.
  assert (Hlt : (length double_claim < 4)%nat) by (simpl; lia).
  pose proof (lws_flat_hierarchy (Sub:=unit) (fun _ _ => None) (fun _ => false) (fun s => s)
                (fun _ => LWS.no_pivot) 4 double_claim [] Hu Hlt)
    as (Hpar & Hchild & _ & Hlog & _ & Hbuild).
  intros st. subst st. split; [rewrite Hpar; vm_compute; reflexivity|]. split.
  { split; [apply Hchild; vm_compute; reflexivity|].
    intros Hc. apply Hchild in Hc. vm_compute in Hc. discriminate Hc. }
  split; [rewrite Hlog; vm_compute; reflexivity|]. exact Hbuild.
Defined.

(** X8.  Every attachment the resolution of the parents makes is one the
    file declares: a node in the list of children of another one names that
    node as its parent, and no node is its own child. *)
Theorem lws_attachments_declared (nodes : list LWS.NodeDesc) (p c : nat) :
  unresolved nodes ->
  is_child (LWS.resolve_parenting LWS.node_matches nodes).1 p c ->
  p <> c
  /\ exists dp dc, nodes !! p = Some dp /\ nodes !! c = Some dc
                   /\ LWS.node_matches dp (LWS.nd_parent dc) = true.
Proof.
  intros Hu Hc.
  pose proof (resolve_parenting_linked LWS.node_matches nodes Hu) as Hl.
  apply (linked_child _ Hl) in Hc.
  exact (resolve_parenting_honest nodes Hu c p Hc).
Qed.

Lemma lws_attachments_declared_witness :
  0%nat <> 1%nat
  /\ exists dp dc, cycle_and_root !! 0%nat = Some dp /\ cycle_and_root !! 1%nat = Some dc
                   /\ LWS.node_matches dp (LWS.nd_parent dc) = true.
Proof.
  apply lws_attachments_declared.
  - repeat constructor.
  - eexists. split; [vm_compute; reflexivity|]. simpl. left.
Defined.

(** X9.  A list of nodes in which no two nodes answer to the same reference
    and the declared parents fall in some rank (so that they form no cycle):
    the resolution logs no error, the lists of children hold exactly the
    declared children, and the master graph is built and holds every node of
    the list exactly once. *)
Theorem lws_well_formed_tree {Sub : Type} (importer : string -> option Z -> option Sub)
    (single_child_root : Sub -> bool) (drop_root : Sub -> Sub)
    (root_translation : Sub -> LWS.Vec3)
    (fuel : nat) (nodes : list LWS.NodeDesc) (reqs : list LWS.LoadRequest)
    (rank : nat -> nat) :
  unresolved nodes -> unique_ids nodes ->
  (forall p c, declared nodes p c -> (rank p < rank c)%nat) ->
  nodes <> [] -> (length nodes < fuel)%nat ->
  (LWS.resolve_parenting LWS.node_matches nodes).2 = []
  /\ (forall p c, is_child (LWS.resolve_parenting LWS.node_matches nodes).1 p c
                  <-> declared nodes p c)
  /\ exists m,
       LWS.build_master Sub importer single_child_root drop_root root_translation fuel nodes reqs = Ret m
       /\ descs (LWS.ms_root Sub m) ≡ₚ seq 0 (length nodes).
Proof.
  intros Hu Huniq Hrank Hne Hfuel.
  pose proof (resolve_parenting_linked LWS.node_matches nodes Hu) as Hl.
  pose proof (resolve_parenting_length LWS.node_matches nodes) as Hlen.
  destruct (resolve_parenting_exact nodes Hu Huniq) as [Hhon Hlog].
  split; [done|]. split.
  { intros p c. split.
    - intros Hc. apply (linked_child _ Hl) in Hc. by apply Hhon.
    - intros (Hpc & dp & dc & Hdp & Hdc & Hm).
      destruct (resolve_parenting_settled LWS.node_matches node_matches_stable
                  nodes p c dp dc Hdp Hdc Hpc Hm) as [Hc|Hc]; [done|].
      rewrite Hlog in Hc. by apply elem_of_nil in Hc. }
  pose proof (ranked_rooted nodes _ rank Hl Hhon Hrank) as Hall.
  destruct (build_master_returns single_child_root drop_root root_translation importer
              fuel nodes reqs Hu Hfuel) as [m Hm].
  { intros Hz. apply no_parent_zero in Hz. rewrite Forall_lookup in Hz.
    destruct nodes as [|d nodes]; [done|].
    destruct (Hall 0%nat) as (k & r & Hup & Hroot); [simpl in Hlen; lia|].
    apply up_lt in Hup as [_ Hr].
    destruct (lookup_lt_is_Some_2 _ r Hr) as [dr Hdr].
    pose proof (Hz r dr Hdr) as Hnot. unfold parent_of in Hroot.
    rewrite Hdr in Hroot. simpl in Hroot. unfold LWS.is_root in Hnot.
    by rewrite Hroot in Hnot. }
  exists m. split; [done|].
  destruct (build_master_descs importer single_child_root drop_root root_translation fuel nodes reqs m Hu Hm)
    as [Hnd Hin].
  apply NoDup_Permutation; [done|apply NoDup_seq|].
  intros x. rewrite Hin, elem_of_seq. split.
  - intros (k & r & Hup & _). apply up_lt in Hup as [Hx _]. lia.
  - intros Hx. apply Hall. lia.
Qed.

(** Three objects in a chain: C is the parent of A, A the parent of B. *)
Definition object_chain : list LWS.NodeDesc :=
  [null_object 0 0 "C"; null_object 1 (object_id 0) "A"; null_object 2 (object_id 1) "B"].

Lemma object_chain_unique : unique_ids object_chain.
Proof.
  intros i j di dj z Hi Hj Hmi Hmj.
  unfold LWS.node_matches in Hmi, Hmj.
  apply andb_prop in Hmi as [_ Hni]. apply andb_prop in Hmj as [_ Hnj].
  apply Z.eqb_eq in Hni, Hnj.
  destruct i as [|[|[|i]]]; [| | |done]; destruct j as [|[|[|j]]]; try done;
    simpl in Hi, Hj; injection Hi as <-; injection Hj as <-; simpl in Hni, Hnj; lia.
Qed.

Lemma object_chain_ranked p c : declared object_chain p c -> (p < c)%nat.
Proof.
  intros (Hpc & dp & dc & Hp & Hc & Hm).
  destruct p as [|[|[|p]]]; [| | |done]; destruct c as [|[|[|c]]]; try done; try lia;
    simpl in Hp, Hc; injection Hp as <-; injection Hc as <-;
    vm_compute in Hm; discriminate Hm.
Qed.

Lemma lws_well_formed_tree_witness :
  exists m,
    LWS.build_master unit (fun _ _ => None) (fun _ => false) (fun s => s) (fun _ => LWS.no_pivot) 4 object_chain []
      = Ret m
    /\ descs (LWS.ms_root unit m) ≡ₚ seq 0 (length object_chain).
Proof.
  assert (Hu : unresolved object_chain) by repeat constructor.
  assert (Hne : object_chain <> []) by discriminate.
  assert (Hlt : (length object_chain < 4)%nat) by (simpl; lia).
  exact (proj2 (proj2 (lws_well_formed_tree (fun _ _ => None) (fun _ => false) (fun s => s) (fun _ => LWS.no_pivot)
                         4 object_chain [] (fun i => i) Hu object_chain_unique
                         object_chain_ranked Hne Hlt))).
Defined.

(** ** LWS: [Element::Parse] comes to an end *)

Section LWS_parse_ends.
Import Scanner LWS.
#[local] Open Scope nat_scope.

Implicit Types (l cur : list ascii).

(** One cursor is at or behind another one. *)
Definition advanced (l' l : list ascii) : Prop := l' = l \/ length l' < length l.

Lemma advanced_length l' l : advanced l' l -> length l' <= length l.
Proof. intros [->|?]; lia. Qed.

Lemma advanced_refl l : advanced l l.
Proof. by left. Qed.

Lemma advanced_trans l1 l2 l3 : advanced l1 l2 -> advanced l2 l3 -> advanced l1 l3.
Proof. intros [->|?] [->|?]; unfold advanced; auto; right; lia. Qed.

Lemma advanced_cons c l' l : advanced l' l -> length l' < length (c :: l).
Proof. intros Ha. apply advanced_length in Ha. simpl. lia. Qed.

Lemma skip_spaces_advanced l : advanced (skip_spaces l) l.
Proof.
  induction l as [|c r IH]; simpl; [by left|].
  destruct (IsSpace c); [|by left]. right. by apply advanced_cons.
Qed.

Lemma skip_spaces_and_eols_advanced l : advanced (skip_spaces_and_eols l) l.
Proof.
  induction l as [|c r IH]; simpl; [by left|].
  destruct (_ || _); [|by left]. right. by apply advanced_cons.
Qed.

Lemma take_until_advanced stop l : advanced (take_until stop l).2 l.
Proof.
  induction l as [|c r IH]; simpl; [by left|].
  destruct (stop c); [by left|].
  destruct (take_until stop r) as [a b]. simpl in *. right. by apply advanced_cons.
Qed.

Lemma skip_eols_advanced l : advanced (skip_eols l) l.
Proof.
  induction l as [|c r IH]; simpl; [by left|].
  destruct (_ || _); [|by left]. right. by apply advanced_cons.
Qed.

Lemma skip_to_eol_advanced l : advanced (skip_to_eol l) l.
Proof.
  induction l as [|c r IH]; simpl; [by left|].
  destruct (_ || _); [by left|]. right. by apply advanced_cons.
Qed.

Lemma SkipLine_advanced l : advanced (SkipLine l).2 l.
Proof.
  unfold SkipLine. cbn [snd].
  eapply advanced_trans; [apply skip_eols_advanced|apply skip_to_eol_advanced].
Qed.

(** [SkipLine] moves the cursor when it stands on a character of a line. *)
Lemma SkipLine_moves c r :
  ((c =? "013") || (c =? "010") || (c =? "000"))%char = false ->
  length (SkipLine (c :: r)).2 < length (c :: r).
Proof.
  intros Hc. unfold SkipLine. cbn [snd skip_to_eol]. rewrite Hc.
  apply advanced_cons.
  eapply advanced_trans; [apply skip_eols_advanced|apply skip_to_eol_advanced].
Qed.

(** Where [SkipSpacesAndLineEnd] reports content, the cursor stands on a
    character of a line. *)
Lemma SkipSpacesAndLineEnd_more l l' :
  SkipSpacesAndLineEnd l = (true, l') ->
  advanced l' l
  /\ exists c r, l' = c :: r
                 /\ ((c =? "013") || (c =? "010") || (c =? "000"))%char = false.
Proof.
  unfold SkipSpacesAndLineEnd. intros [= Hmore <-].
  split; [apply skip_spaces_and_eols_advanced|].
  induction l as [|c r IH]; simpl in *; [done|].
  destruct ((c =? " ") || (c =? "009") || (c =? "013") || (c =? "010"))%char eqn:Hc.
  - by apply IH.
  - exists c, r. split; [done|]. simpl in Hmore. unfold NUL in Hmore.
    apply orb_false_elim in Hc as [Hc H10]. apply orb_false_elim in Hc as [_ H13].
    apply negb_true_iff in Hmore. by rewrite H13, H10, Hmore.
Qed.

Lemma SkipSpacesAndLineEnd_advanced l : advanced (SkipSpacesAndLineEnd l).2 l.
Proof. apply skip_spaces_and_eols_advanced. Qed.

Lemma plugin_loop_ends fuel cur :
  length cur < fuel ->
  exists cur', plugin_loop fuel cur = Some cur' /\ advanced cur' cur.
Proof.
  revert cur. induction fuel as [|fuel IH]; intros cur Hfuel; [lia|].
  cbn [plugin_loop].
  destruct (SkipSpacesAndLineEnd cur) as [[] cur1] eqn:Hs; cbn [negb].
  - apply SkipSpacesAndLineEnd_more in Hs as (Ha & c & r & -> & Hc).
    destruct (strncmp_eq (c :: r) "EndPlugin"); [by eexists|].
    pose proof (SkipLine_moves c r Hc) as Hmove.
    pose proof (advanced_length _ _ Ha) as Hlen.
    destruct (IH (SkipLine (c :: r)).2) as (cur' & -> & Ha'); [lia|].
    exists cur'. split; [done|].
    eapply advanced_trans; [exact Ha'|].
    eapply advanced_trans; [|exact Ha]. right. exact Hmove.
  - exists cur1. split; [done|].
    pose proof (SkipSpacesAndLineEnd_advanced cur) as Ha. by rewrite Hs in Ha.
Qed.

(** One round of the loop of [Parse]. *)
Lemma Parse_loop_step fuel cur depth kids :
  Parse_loop (S fuel) cur depth kids
  = let '(more, cur) := SkipSpacesAndLineEnd cur in
    if negb more then Ret (cur, kids)
    else
      let sub := (peek cur =? "{")%char in
      if negb sub && (peek cur =? "}")%char then Ret (cur, kids)
      else
        let cur := if sub then snd (SkipSpaces (drop 1 cur)) else cur in
        let '(t0, cur) := take_until IsSpaceOrNewLine cur in
        let cur := snd (SkipSpaces cur) in
        if String.eqb (string_of_list_ascii t0) "Plugin" then
          match plugin_loop (S (length cur)) cur with
          | None => OutOfFuel
          | Some cur =>
              Parse_loop fuel (snd (SkipLine cur)) depth
                (kids ++ [mkElement (string_of_list_ascii t0) "" []])
          end
        else
          let '(t1, cur) := take_until IsLineEnd cur in
          if sub then
            match Parse fuel cur (depth + 1) [] with
            | Ret (cur, sub_kids) =>
                Parse_loop fuel (snd (SkipLine cur)) depth
                  (kids ++ [mkElement (string_of_list_ascii t0)
                              (string_of_list_ascii t1) sub_kids])
            | Throw m => Throw m
            | Undefined => Undefined
            | OutOfFuel => OutOfFuel
            end
          else
            Parse_loop fuel (snd (SkipLine cur)) depth
              (kids ++ [mkElement (string_of_list_ascii t0)
                          (string_of_list_ascii t1) []]).
Proof. reflexivity. Qed.

Lemma Parse_step fuel cur depth kids :
  Parse (S fuel) cur depth kids
  = if (MAX_DEPTH <? depth)%Z
    then Throw "Maximum recursion depth exceeded in LWS::Element::Parse"
    else Parse_loop fuel cur depth kids.
Proof. reflexivity. Qed.

(** The call returns with the cursor at or behind where it was, or throws
    the error of the depth. *)
Definition ends (cur : list ascii) (r : outcome (list ascii * list Element)) : Prop :=
  match r with
  | Ret (cur', _) => length cur' <= length cur
  | Throw m => m = depth_error
  | _ => False
  end.

Lemma ends_mono cur cur' r : ends cur r -> length cur <= length cur' -> ends cur' r.
Proof. destruct r as [[c k]| | |]; simpl; try done. lia. Qed.

Lemma SkipLine_after l c r :
  advanced l (c :: r) ->
  ((c =? "013") || (c =? "010") || (c =? "000"))%char = false ->
  length (SkipLine l).2 < length (c :: r).
Proof.
  intros [->|Hlt] Hc; [by apply SkipLine_moves|].
  pose proof (advanced_length _ _ (SkipLine_advanced l)). lia.
Qed.

Lemma Parse_ends_both fuel :
  (forall cur depth kids,
     2 * length cur + 2 <= fuel -> ends cur (Parse fuel cur depth kids))
  /\ (forall cur depth kids,
        2 * length cur + 1 <= fuel -> ends cur (Parse_loop fuel cur depth kids)).
Proof.
  induction fuel as [|fuel [IHP IHL]]; [split; intros; lia|]. split.
  { intros cur depth kids Hfuel. rewrite Parse_step.
    destruct (MAX_DEPTH <? depth)%Z; [reflexivity|]. apply IHL. lia. }
  intros cur depth kids Hfuel. rewrite Parse_loop_step.
  destruct (SkipSpacesAndLineEnd cur) as [[] cur1] eqn:Hs; cbn [negb].
  2:{ simpl. pose proof (SkipSpacesAndLineEnd_advanced cur) as Ha. rewrite Hs in Ha.
      by apply advanced_length. }
  apply SkipSpacesAndLineEnd_more in Hs as (Ha & c & r & -> & Hc).
  apply advanced_length in Ha. cbn [peek length] in *. cbv zeta.
  destruct (c =? "{")%char eqn:Hsub; cbn [negb andb].
  - (* a block opens *)
    change (drop 1 (c :: r)) with r. unfold SkipSpaces. cbn [snd].
    pose proof (skip_spaces_advanced r) as H2.
    pose proof (take_until_advanced IsSpaceOrNewLine (skip_spaces r)) as H3.
    destruct (take_until IsSpaceOrNewLine (skip_spaces r)) as [t0 cur3]. cbn [snd] in H3.
    pose proof (skip_spaces_advanced cur3) as H4.
    apply advanced_length in H2, H3, H4.
    destruct (String.eqb _ "Plugin"%string).
    + destruct (plugin_loop_ends (S (length (skip_spaces cur3))) (skip_spaces cur3))
        as (cur5 & -> & H5); [lia|].
      apply advanced_length in H5.
      pose proof (advanced_length _ _ (SkipLine_advanced cur5)) as H6.
      eapply ends_mono; [apply IHL|]; lia.
    + pose proof (take_until_advanced IsLineEnd (skip_spaces cur3)) as H5.
      destruct (take_until IsLineEnd (skip_spaces cur3)) as [t1 cur5]. cbn [snd] in H5.
      apply advanced_length in H5.
      pose proof (IHP cur5 (depth + 1)%Z [] ltac:(lia)) as Hsubcall.
      destruct (Parse fuel cur5 (depth + 1) []) as [[cur6 sub_kids]|m| |];
        simpl in Hsubcall; try done.
      pose proof (advanced_length _ _ (SkipLine_advanced cur6)) as H6.
      eapply ends_mono; [apply IHL|]; lia.
  - destruct (c =? "}")%char; [simpl; lia|].
    pose proof (take_until_advanced IsSpaceOrNewLine (c :: r)) as H3.
    destruct (take_until IsSpaceOrNewLine (c :: r)) as [t0 cur3]. cbn [snd] in H3.
    unfold SkipSpaces. cbn [snd].
    pose proof (advanced_trans _ _ _ (skip_spaces_advanced cur3) H3) as H4.
    destruct (String.eqb _ "Plugin"%string).
    + destruct (plugin_loop_ends (S (length (skip_spaces cur3))) (skip_spaces cur3))
        as (cur5 & -> & H5); [lia|].
      pose proof (SkipLine_after cur5 c r (advanced_trans _ _ _ H5 H4) Hc) as H6.
      cbn [length] in H6. eapply ends_mono; [apply IHL|]; lia.
    + pose proof (take_until_advanced IsLineEnd (skip_spaces cur3)) as H5.
      destruct (take_until IsLineEnd (skip_spaces cur3)) as [t1 cur5]. cbn [snd] in H5.
      pose proof (SkipLine_after cur5 c r (advanced_trans _ _ _ H5 H4) Hc) as H6.
      cbn [length] in H6. eapply ends_mono; [apply IHL|]; lia.
Qed.

End LWS_parse_ends.

(** X10.  [LWS::Element::Parse] comes to an end on every buffer: every
    round of its loop moves the cursor, so with fuel for two rounds a
    character the model returns the elements, with the cursor at or behind
    where it started, or throws the error of the depth; it does not run
    out of fuel. *)
Theorem lws_parse_ends (fuel : nat) (cur : list ascii) (depth : Z)
    (kids : list LWS.Element) :
  (2 * length cur + 2 <= fuel)%nat ->
  (exists cur' els,
     LWS.Parse fuel cur depth kids = Ret (cur', els)
     /\ (length cur' <= length cur)%nat)
  \/ LWS.Parse fuel cur depth kids = Throw depth_error.
Proof.
  intros Hfuel. pose proof (proj1 (Parse_ends_both fuel) cur depth kids Hfuel) as He.
  destruct (LWS.Parse fuel cur depth kids) as [[cur' els]|m| |]; simpl in He; try done.
  - left. by exists cur', els.
  - right. by rewrite He.
Qed.

Lemma lws_parse_ends_witness :
  (exists cur' els,
     LWS.Parse 200 (list_ascii_of_string cycle_scene) 0 [] = Ret (cur', els)
     /\ (length cur' <= length (list_ascii_of_string cycle_scene))%nat)
  \/ LWS.Parse 200 (list_ascii_of_string cycle_scene) 0 [] = Throw depth_error.
Proof.
  apply lws_parse_ends. vm_compute. lia.
Defined.

(** ** AC3D: strings, vertex references and back sides *)

Section AC3D_strings.
Import Scanner AC3D.

Definition quote : ascii := "034"%char.

(** A character of the inside of a string. *)
Definition plain (x : ascii) : Prop := x <> quote /\ IsLineEnd x = false.

Lemma skip_while_app (p : ascii -> bool) b s x rest :
  Forall (fun y => p y = true) s -> p x = false ->
  skip_while p b (s ++ x :: rest) = mkCursor (reverse s ++ b) (x :: rest).
Proof.
  revert b. induction s as [|y s IH]; intros b Hs Hx; simpl.
  - by rewrite Hx.
  - inversion Hs as [|? ? Hy Hs']; subst. rewrite Hy, IH by done.
    by rewrite reverse_cons, <- app_assoc.
Qed.

Lemma plain_inside s :
  Forall plain s ->
  Forall (fun y => negb ((y =? quote)%char || IsLineEnd y) = true) s.
Proof.
  intros Hs. eapply List.Forall_impl; [|exact Hs]. intros y [Hq He].
  rewrite He, orb_false_r. by destruct (Ascii.eqb_spec y quote).
Qed.

End AC3D_strings.

(** X11.  [AcGetString] on a string: the character under the cursor is
    stepped over whatever it is (unless it is the terminator of the buffer),
    the characters up to the closing quotation mark are the string, and the
    cursor stops behind the mark; when a line end comes before a quotation
    mark the string is [ERROR] and the cursor stops on the line end. *)
Theorem ac_get_string (b s : list ascii) (q : ascii) :
  q <> Scanner.NUL -> Forall plain s ->
  (forall rest,
     AC3D.AcGetString (Scanner.mkCursor b (q :: s ++ quote :: rest))
     = Ret (string_of_list_ascii s,
            Scanner.mkCursor (quote :: reverse s ++ q :: b) rest))
  /\ (forall e rest,
        Scanner.IsLineEnd e = true ->
        AC3D.AcGetString (Scanner.mkCursor b (q :: s ++ e :: rest))
        = Ret ("ERROR"%string, Scanner.mkCursor (reverse s ++ q :: b) (e :: rest))).
Proof.
  intros Hq Hs. pose proof (plain_inside s Hs) as Hin.
  assert (Hnul : (q =? Scanner.NUL)%char = false) by (by apply Ascii.eqb_neq).
  split.
  - intros rest. unfold AC3D.AcGetString. cbn [Scanner.ahead Scanner.peek]. rewrite Hnul.
    cbn [Scanner.step Scanner.ahead Scanner.behind]. unfold Scanner.cskip.
    cbn [Scanner.ahead Scanner.behind].
    rewrite (skip_while_app _ _ s quote rest Hin)
      by (unfold quote; by rewrite Ascii.eqb_refl).
    cbn [Scanner.ahead Scanner.peek Scanner.step Scanner.behind].
    change (Scanner.IsLineEnd quote) with false. cbv iota.
    do 2 f_equal.
    rewrite length_app. cbn [length].
    replace (length s + S (length rest) - S (length rest))%nat with (length s) by lia.
    by rewrite take_app_length.
  - intros e rest He. unfold AC3D.AcGetString. cbn [Scanner.ahead Scanner.peek].
    rewrite Hnul. cbn [Scanner.step Scanner.ahead Scanner.behind]. unfold Scanner.cskip.
    cbn [Scanner.ahead Scanner.behind].
    rewrite (skip_while_app _ _ s e rest Hin) by (by rewrite He, orb_true_r).
    cbn [Scanner.ahead Scanner.peek]. by rewrite He.
Qed.

Lemma ac_get_string_witness :
  AC3D.AcGetString
    (Scanner.mkCursor [] (quote :: list_ascii_of_string "line" ++ quote
                            :: list_ascii_of_string " rest"))
  = Ret ("line"%string,
         Scanner.mkCursor (quote :: reverse (list_ascii_of_string "line") ++ [quote])
           (list_ascii_of_string " rest")).
Proof.
  apply (proj1 (ac_get_string [] (list_ascii_of_string "line") quote
                  ltac:(discriminate)
                  ltac:(repeat constructor; discriminate))).
Defined.

Section AC3D_surfaces.
Import AC3D.

(** A reference is kept when it is an index of a vertex, and is 0 otherwise. *)
Definition reference_checked (nverts : Z) (e e' : Z * Vec2) : Prop :=
  snd e' = snd e
  /\ fst e' = (if nverts <=? fst e then 0 else fst e).

Lemma validate_entries_checked nverts es :
  Forall2 (reference_checked nverts) es (validate_entries nverts es).
Proof.
  induction es as [|e es IH]; simpl; constructor; [|done].
  unfold reference_checked. by destruct (nverts <=? e.1).
Qed.

Lemma validate_entries_range nverts es :
  0 < nverts -> Forall (fun e => 0 <= fst e) es ->
  Forall (fun e => 0 <= fst e < nverts) (validate_entries nverts es).
Proof.
  intros Hn Hes. induction Hes as [|e es He Hes IH]; simpl; constructor; [|done].
  destruct (Z.leb_spec nverts e.1); simpl; lia.
Qed.

Lemma count_surface_entries nverts needMat m s s' needMat' m' :
  count_surface nverts needMat m s = (s', needMat', m') ->
  mat s' = mat s /\ entries s' = validate_entries nverts (entries s)
  /\ length needMat' = length needMat.
Proof.
  unfold count_surface. intros Hc.
  repeat (case_match; simplify_eq/=); by rewrite length_alter.
Qed.

End AC3D_surfaces.

(** X12.  The first pass of [ConvertObjectSection] over the surfaces of an
    object that has vertices: afterwards every vertex reference of every
    surface is an index of a vertex of the object; a reference that was one
    is kept, any other one has become 0; the texture coordinates, the
    materials and the number of the surfaces are as they were. *)
Theorem ac_references_valid (nverts : Z) (ss ss' : list AC3D.Surface)
    (needMat needMat' : list (Z * Z)) (m m' : Z) :
  AC3D.count_surfaces nverts ss needMat m = (ss', needMat', m') ->
  0 < nverts ->
  Forall (fun s => Forall (fun e => 0 <= fst e) (AC3D.entries s)) ss ->
  Forall (fun s => Forall (fun e => 0 <= fst e < nverts) (AC3D.entries s)) ss'
  /\ Forall2 (fun s s' =>
                AC3D.mat s' = AC3D.mat s
                /\ Forall2 (reference_checked nverts) (AC3D.entries s) (AC3D.entries s'))
       ss ss'
  /\ length needMat' = length needMat.
Proof.
  intros Hc Hn Hss. revert ss' needMat needMat' m m' Hc.
  induction Hss as [|s ss Hs Hss IH]; intros ss' needMat needMat' m m'; simpl.
  - intros [= <- <- <-]. repeat constructor.
  - destruct (AC3D.count_surface nverts needMat m s) as [[s1 needMat1] m1] eqn:H1.
    destruct (AC3D.count_surfaces nverts ss needMat1 m1) as [[rest needMat2] m2] eqn:H2.
    intros [= <- <- <-].
    apply count_surface_entries in H1 as (Hmat & Hent & Hlen).
    destruct (IH _ _ _ _ _ H2) as (Hr & Hf & Hl).
    split; [|split].
    + constructor; [|done]. rewrite Hent. by apply validate_entries_range.
    + constructor; [|done]. split; [done|]. rewrite Hent. apply validate_entries_checked.
    + congruence.
Qed.

(** A triangle whose second reference is no vertex of an object of three
    vertices. *)
Definition stray_surface : AC3D.Surface :=
  AC3D.mkSurface 0 0 [(0, (B32.zero, B32.zero)); (9, (B32.one, B32.zero));
                      (2, (B32.zero, B32.one))].

Lemma ac_references_valid_witness :
  Forall (fun s => Forall (fun e => 0 <= fst e < 3) (AC3D.entries s))
    (AC3D.count_surfaces 3 [stray_surface] [(0, 0)] 0).1.1.
Proof.
  destruct (AC3D.count_surfaces 3 [stray_surface] [(0, 0)] 0) as [[ss' nm] m'] eqn:Hc.
  refine (proj1 (ac_references_valid 3 [stray_surface] ss' _ nm 0 m' Hc _ _)).
  - reflexivity.
  - repeat constructor; discriminate.
Defined.

Section AC3D_backside.
Import AC3D.

(** One round of the loop of [buildBacksideOfFace]. *)
Definition backside_step (acc : outcome (list Z * Fill)) (ix : Z)
    : outcome (list Z * Fill) :=
  match acc with
  | Ret (face, f) =>
      match f_verts f !! Z.to_nat ix with
      | None => Undefined
      | Some v =>
          let uvs := match f_uvs f !! Z.to_nat ix with
                     | Some u => f_uvs f ++ [u]
                     | None => f_uvs f
                     end in
          Ret (face ++ [f_cur f],
               mkFill (f_faces f) (f_verts f ++ [v]) uvs (wrap32 (f_cur f + 1)))
      end
  | other => other
  end.

Lemma buildBacksideOfFace_unfold origFace f :
  buildBacksideOfFace origFace f
  = match foldl backside_step (Ret ([], f)) (reverse origFace) with
    | Ret (face, f) => Ret (mkFill (f_faces f ++ [face]) (f_verts f) (f_uvs f) (f_cur f))
    | Throw m => Throw m
    | Undefined => Undefined
    | OutOfFuel => OutOfFuel
    end.
Proof. reflexivity. Qed.

(** The vertex a reference stands for. *)
Definition vertex_of (verts : list Vec3) (ix : Z) : Vec3 :=
  default vzero (verts !! Z.to_nat ix).

Lemma backside_loop verts l : forall face f,
  Forall (fun ix => 0 <= ix < Z.of_nat (length verts)) l ->
  (exists more, f_verts f = verts ++ more) ->
  0 <= f_cur f -> f_cur f + Z.of_nat (length l) <= 4294967296 ->
  exists uvs,
    foldl backside_step (Ret (face, f)) l
    = Ret (face ++ ((fun k => f_cur f + Z.of_nat k) <$> seq 0 (length l)),
           mkFill (f_faces f) (f_verts f ++ (vertex_of verts <$> l)) uvs
             (if decide (l = []) then f_cur f
              else wrap32 (f_cur f + Z.of_nat (length l)))).
Proof.
  induction l as [|ix l IH]; intros face f Hl [more Hmore] Hcur Hmax.
  - exists (f_uvs f). simpl. rewrite !app_nil_r. by destruct f.
  - inversion Hl as [|? ? Hix Hl']; subst. cbn [foldl backside_step].
    assert (Hv : f_verts f !! Z.to_nat ix = Some (vertex_of verts ix)).
    { unfold vertex_of. destruct (lookup_lt_is_Some_2 verts (Z.to_nat ix)) as [v Hv]; [lia|].
      rewrite Hv. simpl. rewrite Hmore. by apply lookup_app_l_Some. }
    rewrite Hv. cbv zeta. cbn [length] in Hmax.
    set (f1 := mkFill _ _ _ _).
    destruct (IH (face ++ [f_cur f]) f1) as [uvs ->]; [done| | | |].
    + exists (more ++ [vertex_of verts ix]). unfold f1. cbn [f_verts]. by rewrite Hmore, <- app_assoc.
    + unfold f1. cbn [f_cur]. pose proof (wrap32_range (f_cur f + 1)). lia.
    + unfold f1. cbn [f_cur].
      destruct l as [|ix' l]; [simpl; pose proof (wrap32_range (f_cur f + 1)); lia|].
      rewrite wrap32_small by (cbn [length] in Hmax; lia). cbn [length] in *. lia.
    + exists uvs. unfold f1. cbn [f_cur f_faces f_verts]. f_equal. f_equal.
      * rewrite <- app_assoc. f_equal. cbn [length seq fmap list_fmap app].
        rewrite Z.add_0_r. f_equal.
        rewrite <- fmap_S_seq, <- list_fmap_compose.
        destruct l as [|ix' l]; [reflexivity|].
        rewrite wrap32_small by (cbn [length] in Hmax; lia).
        apply list_fmap_ext. intros _ k _. simpl. lia.
      * destruct (decide (ix :: l = [])) as [|_]; [done|].
        f_equal; [by rewrite <- app_assoc|].
        destruct l as [|ix' l]; [reflexivity|].
        destruct (decide (ix' :: l = [])) as [|_]; [done|].
        rewrite (wrap32_small (f_cur f + 1)) by (cbn [length] in Hmax; lia).
        f_equal. cbn [length]. lia.
Qed.

End AC3D_backside.

(** X13.  [buildBacksideOfFace] for a face whose indices are indices of
    vertices written so far: it adds one face of as many fresh consecutive
    indices, beginning at [curIdx], and appends for them copies of the
    vertices of the face in reverse order; what was written before is left
    as it was. *)
Theorem ac_backside_of_face (origFace : list Z) (f : AC3D.Fill) :
  origFace <> [] ->
  Forall (fun ix => 0 <= ix < Z.of_nat (length (AC3D.f_verts f))) origFace ->
  0 <= AC3D.f_cur f ->
  AC3D.f_cur f + Z.of_nat (length origFace) < 4294967296 ->
  exists uvs,
    AC3D.buildBacksideOfFace origFace f
    = Ret (AC3D.mkFill
             (AC3D.f_faces f
              ++ [(fun k => AC3D.f_cur f + Z.of_nat k) <$> seq 0 (length origFace)])
             (AC3D.f_verts f ++ (vertex_of (AC3D.f_verts f) <$> reverse origFace))
             uvs (AC3D.f_cur f + Z.of_nat (length origFace))).
Proof.
  intros Hne Hix Hcur Hmax. rewrite buildBacksideOfFace_unfold.
  destruct (backside_loop (AC3D.f_verts f) (reverse origFace) [] f) as [uvs Hloop].
  - by apply Forall_reverse.
  - exists []. by rewrite app_nil_r.
  - done.
  - rewrite length_reverse. lia.
  - rewrite Hloop, length_reverse. exists uvs. cbn [AC3D.f_faces AC3D.f_verts AC3D.f_uvs AC3D.f_cur app].
    rewrite decide_False by (intros Hr; apply Hne; by rewrite <- (reverse_involutive origFace), Hr).
    by rewrite wrap32_small by lia.
Qed.

(** A triangle that has been written. *)
Definition written_triangle : AC3D.Fill :=
  AC3D.mkFill [[0; 1; 2]]
    [(B32.zero, B32.zero, B32.zero); (B32.one, B32.zero, B32.zero);
     (B32.zero, B32.one, B32.zero)] [] 3.

Lemma ac_backside_of_face_witness :
  exists uvs,
    AC3D.buildBacksideOfFace [0; 1; 2] written_triangle
    = Ret (AC3D.mkFill
             (AC3D.f_faces written_triangle
              ++ [(fun k => AC3D.f_cur written_triangle + Z.of_nat k) <$> seq 0 3])
             (AC3D.f_verts written_triangle
              ++ (vertex_of (AC3D.f_verts written_triangle) <$> reverse [0; 1; 2]))
             uvs (AC3D.f_cur written_triangle + Z.of_nat 3)).
Proof.
  apply (ac_backside_of_face [0; 1; 2] written_triangle).
  - discriminate.
  - repeat constructor; simpl; lia.
  - simpl. lia.
  - simpl. lia.
Defined.

(** ** SMD: the meshes of [CreateOutputMeshes] *)

Section SMD_meshes.
Import SMD.
Context {R : Type} `{Weight R} {V B : Type}.

Implicit Types (tris pre : list (Face R V)) (f : Face R V) (a : MeshAcc R V).

(** The triangles of material [i], in the order of the file, and the
    positions at which they stand there, counted from [k]. *)
Definition faces_of (i : Z) tris : list (Face R V) :=
  List.filter (fun f => iTexture f =? i) tris.

Fixpoint positions_of (i : Z) tris (k : Z) : list Z :=
  match tris with
  | [] => []
  | f :: rest =>
      if iTexture f =? i then k :: positions_of i rest (k + 1)
      else positions_of i rest (k + 1)
  end.

(** The index triples of [n] consecutive triangles numbered from [k]. *)
Definition triples (k : Z) (n : nat) : list (list Z) :=
  map (fun j => [k + 3 * Z.of_nat j; k + 3 * Z.of_nat j + 1; k + 3 * Z.of_nat j + 2])
      (seq 0 n).

Lemma length_positions_of i tris k :
  length (positions_of i tris k) = length (faces_of i tris).
Proof.
  revert k. induction tris as [|f rest IH]; intros k; [done|].
  cbn [positions_of faces_of List.filter]. destruct (iTexture f =? i); cbn [length].
  - f_equal. apply IH.
  - apply IH.
Qed.

Lemma length_faces_of i tris : (length (faces_of i tris) <= length tris)%nat.
Proof.
  induction tris as [|f rest IH]; [done|].
  cbn [faces_of List.filter]. destruct (iTexture f =? i); cbn [length].
  - apply le_n_S, IH.
  - fold (faces_of i rest). lia.
Qed.

Lemma positions_of_inside i tris pre :
  Forall (fun s => 0 <= s /\ is_Some ((pre ++ tris) !! Z.to_nat s))
         (positions_of i tris (Z.of_nat (length pre))).
Proof.
  revert pre. induction tris as [|f rest IH]; intros pre; [constructor|].
  assert (Hnext : Forall (fun s => 0 <= s /\ is_Some ((pre ++ f :: rest) !! Z.to_nat s))
                    (positions_of i rest (Z.of_nat (length pre) + 1))).
  { specialize (IH (pre ++ [f])). rewrite <- app_assoc in IH. cbn [app] in IH.
    rewrite length_app in IH. cbn [length] in IH.
    by replace (Z.of_nat (length pre + 1)) with (Z.of_nat (length pre) + 1) in IH by lia. }
  cbn [positions_of]. destruct (iTexture f =? i); [|done].
  constructor; [|done]. split; [lia|].
  rewrite Nat2Z.id. exists f. by rewrite list_lookup_middle.
Qed.

Lemma mesh_vertices_positions i tris pre :
  mesh_vertices (pre ++ tris) (positions_of i tris (Z.of_nat (length pre))) =
  concat (map face_vertices (faces_of i tris)).
Proof.
  revert pre. induction tris as [|f rest IH]; intros pre; [done|].
  assert (Hnext : mesh_vertices (pre ++ f :: rest)
                    (positions_of i rest (Z.of_nat (length pre) + 1)) =
                  concat (map face_vertices (faces_of i rest))).
  { specialize (IH (pre ++ [f])). rewrite <- app_assoc in IH. cbn [app] in IH.
    rewrite length_app in IH. cbn [length] in IH.
    by replace (Z.of_nat (length pre + 1)) with (Z.of_nat (length pre) + 1) in IH by lia. }
  cbn [positions_of faces_of List.filter]. destruct (iTexture f =? i); [|done].
  cbn [mesh_vertices map concat]. rewrite Nat2Z.id, list_lookup_middle by done.
  f_equal. exact Hnext.
Qed.

(** The sorting loop appends to the list of each material the positions of
    its triangles. *)
Lemma collect_faces_spec ntex tris k (aa : list (list Z)) :
  0 <= k -> k + Z.of_nat (length tris) < 4294967296 ->
  Forall (fun f => 0 <= iTexture f < ntex) tris ->
  collect_faces ntex tris k aa =
  Some (imap (fun j l => l ++ positions_of (Z.of_nat j) tris k) aa).
Proof.
  revert k aa. induction tris as [|f rest IH]; intros k aa Hk Hfit Htex.
  - cbn [collect_faces positions_of]. f_equal. apply list_eq. intros j.
    rewrite list_lookup_imap. destruct (aa !! j); [|done]. cbn. by rewrite app_nil_r.
  - inversion Htex as [|? ? Hf Hrest]; subst. cbn [length] in Hfit.
    cbn [collect_faces]. destruct (Z.leb_spec ntex (iTexture f)); [lia|].
    rewrite wrap32_small by lia. rewrite IH by (try done; lia).
    f_equal. apply list_eq. intros j. rewrite !list_lookup_imap.
    destruct (decide (j = Z.to_nat (iTexture f))) as [->|Hne].
    + rewrite list_lookup_alter. case_decide; [|done].
      destruct (aa !! _); [|done].

      cbn [fmap option_fmap option_map positions_of].
      rewrite Z2Nat.id by lia. rewrite Z.eqb_refl. by rewrite <- app_assoc.
    + rewrite list_lookup_alter. case_decide; [done|]. destruct (aa !! j); [|done].
      cbn [fmap option_fmap option_map positions_of].
      destruct (Z.eqb_spec (iTexture f) (Z.of_nat j)); [lia|done].
Qed.

Lemma triples_S k n : triples k (S n) = [k; k + 1; k + 2] :: triples (k + 3) n.
Proof.
  unfold triples. cbn [seq map]. rewrite <- seq_shift, map_map. f_equal.
  - repeat (f_equal; try lia).
  - apply map_ext. intros j. repeat (f_equal; try lia).
Qed.

Lemma concat_triples k n :
  concat (triples k n) = map (fun j => k + Z.of_nat j) (seq 0 (3 * n)).
Proof.
  revert k. induction n as [|n IH]; intros k; [done|].
  rewrite triples_S. cbn [concat app]. rewrite IH.
  replace (3 * S n)%nat with (S (S (S (3 * n)))) by lia. cbn [seq map].
  f_equal; try lia. f_equal; try lia. f_equal; try lia.
  rewrite <- !seq_shift, !map_map. apply map_ext. intros j. lia.
Qed.

Lemma resolve_vertices_indices nb iNum (vs : list (Vertex R V)) (t : Tables R) :
  0 <= iNum -> iNum + Z.of_nat (length vs) < 4294967296 ->
  (resolve_vertices nb iNum vs t).1.1 =
  map (fun j => iNum + Z.of_nat j) (seq 0 (length vs)).
Proof.
  revert iNum t. induction vs as [|v rest IH]; intros iNum t Hn Hfit; [done|].
  cbn [length] in Hfit. cbn [resolve_vertices length seq map].
  rewrite wrap32_small by lia.
  specialize (IH (iNum + 1) (resolve_vertex nb iNum v t)).
  destruct (resolve_vertices nb (iNum + 1) rest _) as [[idx n] t']. cbn [fst snd] in *.
  f_equal; [lia|]. rewrite IH by lia.
  rewrite <- seq_shift, map_map. apply map_ext. intros j. lia.
Qed.

(** The face loop of one mesh in closed form. *)
Lemma fill_faces_spec nb tris (srcs : list Z) a :
  0 <= acc_iNum a ->
  acc_iNum a + 3 * Z.of_nat (length srcs) < 4294967296 ->
  Forall (fun s => 0 <= s /\ is_Some (tris !! Z.to_nat s)) srcs ->
  exists a',
    fill_faces nb tris srcs a = Some a'
    /\ acc_iNum a' = acc_iNum a + 3 * Z.of_nat (length srcs)
    /\ acc_verts a' = acc_verts a ++ map pos (mesh_vertices tris srcs)
    /\ acc_nors a' = acc_nors a ++ map nor (mesh_vertices tris srcs)
    /\ acc_uvs a' = acc_uvs a ++ map uv (mesh_vertices tris srcs)
    /\ acc_faces a' = acc_faces a ++ triples (acc_iNum a) (length srcs).
Proof.
  revert a. induction srcs as [|s rest IH]; intros a Hn Hfit Hin.
  - exists a. cbn [fill_faces mesh_vertices map length triples seq].
    rewrite !app_nil_r. repeat split; try done. lia.
  - inversion Hin as [|? ? [_ [face Hface]] Hrest]; subst. cbn [length] in Hfit.
    cbn [fill_faces mesh_vertices]. rewrite Hface.
    pose proof (resolve_vertices_next nb (acc_iNum a) (face_vertices face) (acc_bones a)) as Hnext.
    pose proof (resolve_vertices_indices nb (acc_iNum a) (face_vertices face) (acc_bones a)) as Hidx.
    rewrite length_face_vertices in Hnext, Hidx.
    destruct (resolve_vertices nb (acc_iNum a) (face_vertices face) (acc_bones a))
      as [[idx n] t]. cbn [fst snd] in Hnext, Hidx.
    rewrite Hnext, Hidx by lia.
    destruct (IH (mkMeshAcc (acc_iNum a + Z.of_nat 3)
                    (acc_verts a ++ map pos (face_vertices face))
                    (acc_nors a ++ map nor (face_vertices face))
                    (acc_uvs a ++ map uv (face_vertices face))
                    (acc_faces a ++ [map (fun j => acc_iNum a + Z.of_nat j) (seq 0 3)]) t))
      as (a' & Hrun & Hnum & Hverts & Hnors & Huvs & Hfaces);
      [cbn [acc_iNum]; lia | cbn [acc_iNum]; lia | done |].
    cbn [acc_iNum acc_verts acc_nors acc_uvs acc_faces] in *.
    exists a'. split; [done|]. split; [cbn [length]; lia|].
    cbn [length]. rewrite Hverts, Hnors, Huvs, Hfaces, !map_app, <- !app_assoc, triples_S.
    repeat split. cbn [seq map app].
    replace (acc_iNum a + Z.of_nat 0) with (acc_iNum a) by lia.
    by replace (acc_iNum a + Z.of_nat 3) with (acc_iNum a + 3) by lia.
Qed.

Definition readable tris (srcs : list Z) : Prop :=
  3 * Z.of_nat (length srcs) < 4294967296
  /\ Forall (fun s => 0 <= s /\ is_Some (tris !! Z.to_nat s)) srcs.

Lemma build_mesh_spec bHasUVs (asBones : list B) tris i srcs :
  readable tris srcs ->
  exists m,
    build_mesh bHasUVs asBones tris i srcs = Some m
    /\ mMaterialIndex m = i
    /\ mNumFaces m = Z.of_nat (length srcs)
    /\ mNumVertices m = 3 * Z.of_nat (length srcs)
    /\ mVertices m = map pos (mesh_vertices tris srcs)
    /\ mNormals m = map nor (mesh_vertices tris srcs)
    /\ mTextureCoords m =
       (if bHasUVs then Some (map uv (mesh_vertices tris srcs)) else None)
    /\ mFaces m = triples 0 (length srcs).
Proof.
  intros [Hfit Hin]. unfold build_mesh, mesh_tables.
  destruct (fill_faces_spec (Z.of_nat (length asBones)) tris srcs
              (mkMeshAcc 0 [] [] [] [] (replicate (length asBones) [])))
    as (a & -> & _ & Hverts & Hnors & Huvs & Hfaces); [done|cbn [acc_iNum]; lia|done|].
  cbn [acc_iNum acc_verts acc_nors acc_uvs acc_faces app] in *.
  eexists. split; [done|]. cbn [mMaterialIndex mNumFaces mNumVertices mVertices
    mNormals mTextureCoords mFaces].
  rewrite !wrap32_small by lia. rewrite Hverts, Hnors, Huvs, Hfaces.
  repeat split. lia.
Qed.

Lemma build_meshes_spec bHasUVs (asBones : list B) tris i (aa : list (list Z)) :
  Forall (readable tris) aa ->
  exists ms,
    build_meshes bHasUVs asBones tris i aa = Some ms
    /\ length ms = length aa
    /\ forall j m, ms !! j = Some m ->
         exists srcs, aa !! j = Some srcs
           /\ build_mesh bHasUVs asBones tris (i + Z.of_nat j) srcs = Some m.
Proof.
  revert i. induction aa as [|srcs rest IH]; intros i Hall.
  - exists []. by repeat split.
  - inversion Hall as [|? ? Hsrcs Hrest]; subst.
    destruct (build_mesh_spec bHasUVs asBones tris i srcs Hsrcs) as (m & Hm & _).
    destruct (IH (i + 1) Hrest) as (ms & Hms & Hlen & Hlook).
    exists (m :: ms). cbn [build_meshes]. rewrite Hm, Hms.
    split; [done|]. split; [cbn [length]; by rewrite Hlen|].
    intros [|j] m' Hj.
    + injection Hj as <-. exists srcs. split; [done|]. by rewrite Z.add_0_r.
    + destruct (Hlook j m' Hj) as (srcs' & Hsrcs' & Hbuild). exists srcs'.
      split; [done|]. by replace (i + Z.of_nat (S j)) with (i + 1 + Z.of_nat j) by lia.
Qed.

(** The conversion returns, and builds the mesh of every material from the
    positions of its triangles. *)
Lemma CreateOutputMeshes_built bHasUVs aszTextures (asBones : list B) tris :
  Forall (fun f => 0 <= iTexture f < Z.of_nat (Nat.max 1 (length aszTextures))) tris ->
  3 * Z.of_nat (length tris) < 4294967296 ->
  exists ms,
    CreateOutputMeshes bHasUVs aszTextures asBones tris = Some ms
    /\ length ms = Nat.max 1 (length aszTextures)
    /\ forall i m, ms !! i = Some m ->
         readable tris (positions_of (Z.of_nat i) tris 0)
         /\ build_mesh bHasUVs asBones tris (Z.of_nat i)
              (positions_of (Z.of_nat i) tris 0) = Some m.
Proof.
  intros Htex Hfit. unfold CreateOutputMeshes.
  set (ntex := Nat.max 1 (length aszTextures)) in *.
  rewrite collect_faces_spec by (try done; lia).
  set (aa := imap _ _).
  assert (Haa : forall j srcs, aa !! j = Some srcs ->
            srcs = positions_of (Z.of_nat j) tris 0).
  { intros j srcs. unfold aa. rewrite list_lookup_imap.
    destruct (replicate ntex [] !! j) as [l|] eqn:Hl; [|done].
    apply lookup_replicate in Hl as [-> _]. cbn. by intros [= <-]. }
  assert (Hread : Forall (readable tris) aa).
  { apply Forall_lookup_2. intros j srcs Hj. rewrite (Haa j srcs Hj). split.
    - rewrite length_positions_of. pose proof (length_faces_of (Z.of_nat j) tris). lia.
    - exact (positions_of_inside (Z.of_nat j) tris []). }
  destruct (build_meshes_spec bHasUVs asBones tris 0 aa Hread) as (ms & -> & Hlen & Hlook).
  exists ms. split; [done|]. split.
  { rewrite Hlen. unfold aa. by rewrite length_imap, length_replicate. }
  intros i m Hi. destruct (Hlook i m Hi) as (srcs & Hsrcs & Hbuild).
  pose proof (proj1 (Forall_lookup _ _) Hread i srcs Hsrcs) as Hsrcs_ok.
  apply Haa in Hsrcs. subst srcs. by rewrite Z.add_0_l in Hbuild.
Qed.

(** X14 (SMDLoader.cpp, [SMDImporter::CreateOutputMeshes]).  When every
    triangle carries a material index below the number of materials (one
    when the file names no texture) and the triangles have fewer than 2^32
    corners, the conversion returns one mesh per material.  Mesh [i] has
    material index [i] and holds exactly the triangles of material [i] in
    the order of the file: their positions, normals and (when the file has
    them) texture coordinates, corner by corner, three vertices per face,
    and face [j] has the indices [3j], [3j+1], [3j+2]. *)
Theorem smd_meshes_by_material bHasUVs aszTextures (asBones : list B) tris :
  Forall (fun f => 0 <= iTexture f < Z.of_nat (Nat.max 1 (length aszTextures))) tris ->
  3 * Z.of_nat (length tris) < 4294967296 ->
  exists ms,
    CreateOutputMeshes bHasUVs aszTextures asBones tris = Some ms
    /\ length ms = Nat.max 1 (length aszTextures)
    /\ forall i m, ms !! i = Some m ->
         let fs := faces_of (Z.of_nat i) tris in
         let vs := concat (map face_vertices fs) in
         mMaterialIndex m = Z.of_nat i
         /\ mNumFaces m = Z.of_nat (length fs)
         /\ mNumVertices m = 3 * Z.of_nat (length fs)
         /\ mVertices m = map pos vs
         /\ mNormals m = map nor vs
         /\ mTextureCoords m = (if bHasUVs then Some (map uv vs) else None)
         /\ mFaces m = triples 0 (length fs).
Proof.
  intros Htex Hfit.
  destruct (CreateOutputMeshes_built bHasUVs aszTextures asBones tris Htex Hfit)
    as (ms & Hms & Hlen & Hbuilt).
  exists ms. split; [done|]. split; [done|].
  intros i m Hi. destruct (Hbuilt i m Hi) as [Hread Hbuild].
  destruct (build_mesh_spec bHasUVs asBones tris (Z.of_nat i)
              (positions_of (Z.of_nat i) tris 0) Hread) as (m' & Hm' & Hfields).
  rewrite Hbuild in Hm'. injection Hm' as <-.
  rewrite length_positions_of in Hfields.
  pose proof (mesh_vertices_positions (Z.of_nat i) tris []) as Hvs.
  cbn [app length] in Hvs. change (Z.of_nat 0) with 0 in Hvs.
  by rewrite Hvs in Hfields.
Qed.

End SMD_meshes.

(** Three triangles of two materials, with numbers for positions. *)
Definition plain_corner (p : Z) : SMD.Vertex Qc Z := SMD.mkVertex 0 p p p [].

Definition plain_face (texture p : Z) : SMD.Face Qc Z :=
  SMD.mkFace texture (plain_corner p, plain_corner (p + 1), plain_corner (p + 2)).

Definition two_materials : list (SMD.Face Qc Z) :=
  [plain_face 1 10; plain_face 0 20; plain_face 1 30].

Lemma smd_meshes_by_material_witness :
  exists ms,
    SMD.CreateOutputMeshes true ["a"%string; "b"%string] [tt] two_materials = Some ms
    /\ length ms = 2%nat
    /\ forall i m, ms !! i = Some m ->
         let fs := faces_of (Z.of_nat i) two_materials in
         let vs := concat (map SMD.face_vertices fs) in
         SMD.mMaterialIndex m = Z.of_nat i
         /\ SMD.mNumFaces m = Z.of_nat (length fs)
         /\ SMD.mNumVertices m = 3 * Z.of_nat (length fs)
         /\ SMD.mVertices m = map SMD.pos vs
         /\ SMD.mNormals m = map SMD.nor vs
         /\ SMD.mTextureCoords m = Some (map SMD.uv vs)
         /\ SMD.mFaces m = triples 0 (length fs).
Proof.
  apply (smd_meshes_by_material true ["a"%string; "b"%string] [tt] two_materials).
  - repeat constructor; vm_compute; congruence.
  - vm_compute. reflexivity.
Defined.

(** ** SMD: the table of textures and the material indices *)

Section SMD_textures.
Import Scanner SMD SMDFile.
Variable stricmp_eq : string -> string -> bool.

Abbreviation find_texture := (SMDFile.find_texture stricmp_eq).
Abbreviation GetTextureIndex := (SMDFile.GetTextureIndex stricmp_eq).

Implicit Types (textures : list string) (filename : string).

Lemma wrap32_le z : 0 <= z -> 0 <= wrap32 z <= z.
Proof.
  intros Hz. unfold wrap32. split; [apply Z.mod_pos_bound; lia|].
  apply Z.mod_le; lia.
Qed.

(** An index that the search returns lies inside the table, whatever the
    comparison of names is. *)
Lemma find_texture_inside filename textures k j :
  find_texture filename textures k = Some j -> 0 <= k ->
  0 <= j < k + Z.of_nat (length textures).
Proof.
  revert k. induction textures as [|t rest IH]; intros k Hfind Hk; [done|].
  cbn [SMDFile.find_texture length] in *. destruct (stricmp_eq filename t).
  - injection Hfind as <-. lia.
  - pose proof (wrap32_le (k + 1) ltac:(lia)). apply IH in Hfind; lia.
Qed.

Lemma GetTextureIndex_inside filename textures :
  0 <= (GetTextureIndex filename textures).1
       < Z.of_nat (length (GetTextureIndex filename textures).2)
  /\ (length textures <= length (GetTextureIndex filename textures).2)%nat.
Proof.
  unfold SMDFile.GetTextureIndex.
  destruct (find_texture filename textures 0) as [j|] eqn:Hfind; cbn [fst snd].
  - apply find_texture_inside in Hfind; [|done]. lia.
  - rewrite length_app. cbn [length].
    pose proof (wrap32_le (Z.of_nat (length textures)) ltac:(lia)). lia.
Qed.

(** The search in a table that fits the counter: the first name that
    compares equal. *)
Lemma find_texture_first filename textures k :
  0 <= k -> k + Z.of_nat (length textures) <= 4294967296 ->
  match find_texture filename textures k with
  | Some j =>
      exists n t, j = k + Z.of_nat n /\ textures !! n = Some t
        /\ stricmp_eq filename t = true
        /\ forall m t', (m < n)%nat -> textures !! m = Some t' ->
             stricmp_eq filename t' = false
  | None => Forall (fun t => stricmp_eq filename t = false) textures
  end.
Proof.
  revert k. induction textures as [|t rest IH]; intros k Hk Hfit; [constructor|].
  cbn [SMDFile.find_texture length] in *.
  destruct (stricmp_eq filename t) eqn:Ht.
  - exists 0%nat, t. split; [lia|]. split; [done|]. split; [done|]. intros m t' Hm.
    exfalso. lia.
  - destruct rest as [|t0 rest]; [by repeat constructor|].
    cbn [length] in Hfit.
    rewrite wrap32_small by lia. specialize (IH (k + 1) ltac:(lia)).
    cbn [length] in IH. specialize (IH ltac:(lia)).
    destruct (find_texture filename (t0 :: rest) (k + 1)) as [j|].
    + destruct IH as (n & t' & -> & Hn & Ht' & Hfirst). exists (S n), t'.
      split; [lia|]. split; [done|]. split; [done|]. intros [|m] t'' Hm Hlook.
      * by injection Hlook as <-.
      * apply (Hfirst m); [lia|done].
    + by constructor.
Qed.

(** X15 (SMDLoader.cpp, [SMDImporter::GetTextureIndex]).  For a comparison
    of names that holds of equal names and a table of fewer than 2^32
    textures: the index returned names an entry of the table after the call
    that compares equal to the file name, and no earlier entry does; the
    table is left as it was or has the file name appended, the latter only
    when no entry compared equal; and asking for the same name again returns
    the same index and leaves the table alone. *)
Theorem smd_texture_index filename textures :
  (forall a, stricmp_eq a a = true) ->
  Z.of_nat (length textures) < 4294967296 ->
  let i := (GetTextureIndex filename textures).1 in
  let textures' := (GetTextureIndex filename textures).2 in
  0 <= i
  /\ (exists t, textures' !! Z.to_nat i = Some t /\ stricmp_eq filename t = true)
  /\ (forall j t, (j < Z.to_nat i)%nat -> textures' !! j = Some t ->
        stricmp_eq filename t = false)
  /\ (textures' = textures
      \/ textures' = textures ++ [filename]
         /\ Forall (fun t => stricmp_eq filename t = false) textures)
  /\ GetTextureIndex filename textures' = (i, textures').
Proof.
  intros Hrefl Hfit. cbv zeta.
  pose proof (find_texture_first filename textures 0 ltac:(done) ltac:(lia)) as Hfirst.
  destruct (find_texture filename textures 0) as [j|] eqn:Hfind.
  - assert (Hget : GetTextureIndex filename textures = (j, textures))
      by (unfold SMDFile.GetTextureIndex; by rewrite Hfind).
    rewrite !Hget. cbn [fst snd].
    destruct Hfirst as (n & t & -> & Hn & Ht & Hbefore).
    rewrite Z.add_0_l, Nat2Z.id. split; [lia|]. split; [by exists t|].
    split; [done|]. split; [by left|done].
  - assert (Hget : GetTextureIndex filename textures =
                   (Z.of_nat (length textures), textures ++ [filename])).
    { unfold SMDFile.GetTextureIndex. rewrite Hfind. by rewrite wrap32_small by lia. }
    rewrite !Hget. cbn [fst snd]. rewrite Nat2Z.id. split; [lia|].
    split; [exists filename; split; [|done]; by rewrite list_lookup_middle|].
    split.
    { intros j t Hj Hlook. rewrite lookup_app_l in Hlook by done.
      by apply (proj1 (Forall_lookup _ _) Hfirst j t). }
    split; [right; done|].
    pose proof (find_texture_first filename (textures ++ [filename]) 0
                  ltac:(done) ltac:(rewrite length_app; cbn [length]; lia)) as Hagain.
    unfold SMDFile.GetTextureIndex.
    destruct (find_texture filename (textures ++ [filename]) 0) as [j|].
    + destruct Hagain as (n & t & -> & Hn & Ht & Hbefore). f_equal.
      destruct (Nat.lt_trichotomy n (length textures)) as [Hlt|[->|Hgt]]; [| lia |].
      * rewrite lookup_app_l in Hn by done.
        rewrite (proj1 (Forall_lookup _ _) Hfirst n t Hn) in Ht. done.
      * apply lookup_lt_Some in Hn. rewrite length_app in Hn. cbn [length] in Hn. lia.
    + apply Forall_app in Hagain as [_ Hlast].
      inversion Hlast as [|? ? Hself _]; subst. by rewrite Hrefl in Hself.
Qed.

End SMD_textures.

(** A comparison of names without regard to case, for running the reader. *)
Definition lower_name (a : string) : string :=
  string_of_list_ascii (map Scanner.lower (list_ascii_of_string a)).

Definition same_name (a b : string) : bool :=
  String.eqb (lower_name a) (lower_name b).

Lemma smd_texture_index_witness :
  let tex := ["skin.bmp"; "EYE.bmp"]%string in
  SMDFile.GetTextureIndex same_name "eye.bmp" tex = (1, tex)
  /\ SMDFile.GetTextureIndex same_name "hair.bmp" tex = (2, tex ++ ["hair.bmp"%string])
  /\ SMDFile.GetTextureIndex same_name "hair.bmp" (tex ++ ["hair.bmp"%string])
     = (2, tex ++ ["hair.bmp"%string]).
Proof.
  assert (Hrefl : forall a, same_name a a = true)
    by (intros a; apply String.eqb_refl).
  pose proof (smd_texture_index same_name "hair.bmp" ["skin.bmp"; "EYE.bmp"]%string
                Hrefl ltac:(vm_compute; reflexivity)) as (_ & _ & _ & _ & Hagain).
  split; [reflexivity|]. split; [reflexivity|exact Hagain].
Defined.

(** ** SMD: the material indices that the reader hands to the converter *)

Section SMD_material_indices.
Import Scanner SMD SMDFile.
Context {R : Type} `{FloatParser R} `{Weight R}.
Variable stricmp_eq : string -> string -> bool.
Variable default_bone : Bone (R:=R).

Abbreviation ParseTriangle := (SMDFile.ParseTriangle stricmp_eq).
Abbreviation triangles_loop := (SMDFile.triangles_loop stricmp_eq).
Abbreviation ParseTrianglesSection := (SMDFile.ParseTrianglesSection stricmp_eq).
Abbreviation ParseNodeInfo := (SMDFile.ParseNodeInfo default_bone).
Abbreviation nodes_loop := (SMDFile.nodes_loop default_bone).
Abbreviation ParseNodesSection := (SMDFile.ParseNodesSection default_bone).
Abbreviation ParseFile := (SMDFile.ParseFile stricmp_eq default_bone).
Abbreviation ReadSmd := (SMDFile.ReadSmd stricmp_eq default_bone).

Implicit Types (st : Importer (R:=R)) (tris : list (SFace (R:=R))) (cur : list ascii).

(** Every triangle names a material below the number of meshes that
    [CreateOutputMeshes] makes for [n] textures. *)
Definition indexed (n : nat) tris : Prop :=
  Forall (fun f => 0 <= iTexture f < Z.of_nat (Nat.max 1 n)) tris.

Definition textures_ok st : Prop :=
  indexed (length (aszTextures st)) (asTriangles st).

(** The call leaves the textures and the triangles alone. *)
Definition same_faces st st' : Prop :=
  aszTextures st' = aszTextures st /\ asTriangles st' = asTriangles st.

Lemma indexed_mono n n' tris : (n <= n')%nat -> indexed n tris -> indexed n' tris.
Proof.
  intros Hn. unfold indexed. apply Forall_impl. intros f Hf. lia.
Qed.

Lemma indexed_snoc n tris f :
  indexed n tris -> 0 <= iTexture f < Z.of_nat (Nat.max 1 n) -> indexed n (tris ++ [f]).
Proof. intros Htris Hf. apply Forall_app. split; [done|]. by constructor. Qed.

Lemma indexed_set_back_vertex n tris i v :
  indexed n tris -> indexed n (set_back_vertex tris i v).
Proof.
  intros Htris. unfold set_back_vertex.
  assert (Hrev : indexed n (reverse tris)) by by apply Forall_reverse.
  destruct (reverse tris) as [|f tl]; [constructor|].
  inversion Hrev as [|? ? Hf Htl]; subst. destruct (avVertices f) as [[a b] c].
  apply indexed_snoc; [by apply Forall_reverse|done].
Qed.

Lemma indexed_removelast n tris : indexed n tris -> indexed n (removelast tris).
Proof.
  induction tris as [|f [|g rest] IH]; intros Htris; cbn [removelast]; try constructor.
  - by inversion Htris.
  - apply IH. by inversion Htris.
Qed.

Lemma VA_loop_indexed n fuel configFrameID cur tris i cur' tris' i' :
  indexed n tris ->
  VA_loop fuel configFrameID cur tris i = Some (cur', tris', i') ->
  indexed n tris'.
Proof.
  revert cur tris i. induction fuel as [|fuel IH]; intros cur tris i Htris; [done|].
  cbn [VA_loop]. destruct (SkipSpacesAndLineEnd cur) as [more c].
  destruct more; cbn [negb]; [|by intros [= _ <- _]].
  destruct (TokenMatch c "end"); [by intros [= _ <- _]|].
  destruct (TokenMatch c "time") as [c1|].
  - destruct (ParseSignedInt c1) as [[iTime c2]|]; [|by intros [= _ <- _]].
    destruct (negb _); [by intros [= _ <- _]|]. by apply IH.
  - set (tris1 := if i =? 0 then tris ++ [default_face] else tris).
    assert (Htris1 : indexed n tris1).
    { unfold tris1. destruct (i =? 0); [|done]. apply indexed_snoc; [done|].
      cbn [default_face iTexture]. lia. }
    destruct (get_back_vertex tris1 _) as [v|]; [|done].
    destruct (ParseVertex _ c v true) as [[c1 v']|]; [|done].
    apply IH. by apply indexed_set_back_vertex.
Qed.

Lemma ParseVASection_indexed n fuel configFrameID cur tris cur' tris' :
  indexed n tris ->
  ParseVASection fuel configFrameID cur tris = Some (cur', tris') ->
  indexed n tris'.
Proof.
  intros Htris. unfold ParseVASection.
  destruct (VA_loop fuel configFrameID cur tris 0) as [[[c t] i]|] eqn:Hloop; [|done].
  apply VA_loop_indexed with (n := n) in Hloop; [|done].
  intros [= _ <-]. destruct (_ && _); [by apply indexed_removelast|done].
Qed.

(** A triangle of the triangles section gets an index of the table. *)
Lemma ParseTriangle_ok cur st cur' st' :
  textures_ok st -> ParseTriangle cur st = Some (cur', st') -> textures_ok st'.
Proof.
  intros Hok. unfold SMDFile.ParseTriangle.
  destruct (SkipSpaces cur) as [ok c]. destruct ok; cbn [negb].
  - destruct (LWS.take_until _ _) as [name c'].
    pose proof (GetTextureIndex_inside stricmp_eq
                  (string_of_list_ascii (take 1 c ++ name)) (aszTextures st)) as [Hin Hgrow].
    destruct (SMDFile.GetTextureIndex _ _ _) as [iIndex textures]. cbn [fst snd] in *.
    destruct (ParseVertex _ _ _ _) as [[c0 v0]|]; [|done].
    destruct (ParseVertex _ _ _ _) as [[c1 v1]|]; [|done].
    destruct (ParseVertex _ _ _ _) as [[c2 v2]|]; [|done].
    intros [= _ <-]. unfold textures_ok. cbn [aszTextures asTriangles with_textures with_triangles].
    apply indexed_snoc; [by apply (indexed_mono (length (aszTextures st)))|].
    cbn [iTexture]. lia.
  - intros [= _ <-]. unfold textures_ok. cbn [aszTextures asTriangles with_triangles].
    apply indexed_snoc; [done|]. cbn [default_face iTexture]. lia.
Qed.

Lemma triangles_loop_ok fuel cur st cur' st' :
  textures_ok st -> triangles_loop fuel cur st = Ret (cur', st') -> textures_ok st'.
Proof.
  revert cur st. induction fuel as [|fuel IH]; intros cur st Hok; [done|].
  cbn [SMDFile.triangles_loop]. destruct (SkipSpacesAndLineEnd cur) as [more c].
  destruct more; cbn [negb]; [|by intros [= _ <-]].
  destruct (TokenMatch c "end"); [by intros [= _ <-]|].
  destruct (ParseTriangle c st) as [[c1 st1]|] eqn:Htri; [|done].
  apply IH. by apply (ParseTriangle_ok c st c1).
Qed.

Lemma ParseTrianglesSection_ok fuel cur st cur' st' :
  textures_ok st -> ParseTrianglesSection fuel cur st = Ret (cur', st') ->
  textures_ok st'.
Proof.
  intros Hok. unfold SMDFile.ParseTrianglesSection.
  destruct (triangles_loop fuel cur st) as [[c st1]| | |] eqn:Hloop; try done.
  intros [= _ <-]. by apply (triangles_loop_ok fuel cur st c).
Qed.

Lemma same_faces_ok st st' : same_faces st st' -> textures_ok st -> textures_ok st'.
Proof. intros [Htex Htris]. unfold textures_ok. by rewrite Htex, Htris. Qed.

Lemma same_faces_trans st st1 st2 :
  same_faces st st1 -> same_faces st1 st2 -> same_faces st st2.
Proof. intros [H1 H2] [H3 H4]. split; congruence. Qed.

Lemma ParseNodeInfo_same cur st cur' st' :
  ParseNodeInfo cur st = Ret (cur', st') -> same_faces st st'.
Proof.
  unfold SMDFile.ParseNodeInfo.
  destruct (ParseUnsignedInt _) as [[iBone c]|]; [|done].
  destruct (SkipSpaces c) as [ok c1]. destruct ok; cbn [negb]; [|done].
  destruct (iBone =? UINT_MAX); [by intros [= _ <-]|].
  destruct (bone_name _ _) as [[name szEnd]|]; [|by intros [= _ <-]].
  destruct (ParseSignedInt szEnd) as [[p c2]|]; by intros [= _ <-].
Qed.

Lemma nodes_loop_same fuel cur st cur' st' :
  nodes_loop fuel cur st = Ret (cur', st') -> same_faces st st'.
Proof.
  revert cur st. induction fuel as [|fuel IH]; intros cur st; [done|].
  cbn [SMDFile.nodes_loop]. destruct (_ && _); [by intros [= _ <-]|].
  destruct (ParseNodeInfo cur st) as [[c st1]| | |] eqn:Hinfo; try done.
  intros Hloop. apply ParseNodeInfo_same in Hinfo. apply IH in Hloop.
  by apply (same_faces_trans st st1).
Qed.

Lemma ParseSkeletonElement_same cur st iTime :
  same_faces st (ParseSkeletonElement cur st iTime).2.
Proof.
  unfold SMDFile.ParseSkeletonElement.
  destruct (ParseUnsignedInt cur) as [[iBone c]|]; [|done].
  destruct (_ <=? iBone); [done|].
  repeat (unfold float_then at 1; destruct (ParseFloat _) as [[? ?]|]; [|done]).
  done.
Qed.

Lemma ParseSkeletonSection_same fuel cur st iTime cur' st' :
  ParseSkeletonSection fuel cur st iTime = Ret (cur', st') -> same_faces st st'.
Proof.
  revert cur st iTime. induction fuel as [|fuel IH]; intros cur st iTime; [done|].
  cbn [SMDFile.ParseSkeletonSection]. destruct (SkipSpacesAndLineEnd cur) as [more c].
  destruct more; cbn [negb]; [|by intros [= _ <-]].
  destruct (TokenMatch c "end"); [by intros [= _ <-]|].
  destruct (TokenMatch c "time") as [c1|].
  - destruct (ParseSignedInt c1) as [[t c2]|]; [|by intros [= _ <-]].
    intros Hloop. apply IH in Hloop. by apply (same_faces_trans st _ st' (conj eq_refl eq_refl)).
  - pose proof (ParseSkeletonElement_same c st iTime) as Hsame.
    destruct (ParseSkeletonElement c st iTime) as [c1 st1]. cbn [snd] in *.
    intros Hloop. apply IH in Hloop. by apply (same_faces_trans st st1).
Qed.

Lemma ParseFile_ok fuel configFrameID cur st st' :
  textures_ok st -> ParseFile fuel configFrameID cur st = Ret st' -> textures_ok st'.
Proof.
  revert cur st. induction fuel as [|fuel IH]; intros cur st Hok; [done|].
  cbn [SMDFile.ParseFile]. destruct (SkipSpacesAndLineEnd cur) as [more c].
  destruct more; cbn [negb]; [|by intros [= <-]].
  destruct (TokenMatch c "version") as [c1|].
  { destruct (SkipSpaces c1) as [ok c2]. destruct ok; cbn [negb]; [|by intros [= <-]].
    by apply IH. }
  destruct (TokenMatch c "nodes") as [c1|].
  { unfold SMDFile.ParseNodesSection.
    destruct (nodes_loop (S fuel) c1 st) as [[c2 st1]| | |] eqn:Hloop; try done.
    apply IH. apply nodes_loop_same in Hloop. by apply (same_faces_ok st). }
  destruct (TokenMatch c "triangles") as [c1|].
  { destruct (ParseTrianglesSection (S fuel) c1 st) as [[c2 st1]| | |] eqn:Hsec; try done.
    apply IH. by apply (ParseTrianglesSection_ok (S fuel) c1 st c2). }
  destruct (TokenMatch c "vertexanimation") as [c1|].
  { destruct (ParseVASection (S fuel) configFrameID c1 (asTriangles st))
      as [[c2 tris]|] eqn:Hsec; [|done].
    apply IH. unfold textures_ok. cbn [aszTextures asTriangles with_triangles without_uvs].
    by apply (ParseVASection_indexed _ (S fuel) configFrameID c1 (asTriangles st) c2). }
  destruct (TokenMatch c "skeleton") as [c1|].
  { destruct (ParseSkeletonSection (S fuel) c1 st 0) as [[c2 st1]| | |] eqn:Hsec; try done.
    apply IH. apply ParseSkeletonSection_same in Hsec. by apply (same_faces_ok st). }
  by apply IH.
Qed.

(** X16 (SMDLoader.cpp, [SMDImporter::ParseFile], [ParseTriangle],
    [ParseVASection] and [CreateOutputMeshes]).  Whatever the file holds,
    every triangle that the reader leaves behind names a material below the
    number of meshes (the number of textures, one when there is none): the
    branch of the converter for an index outside the table, which indexes
    the lists of faces with it, is never taken.  With fewer than 2^32
    corners the conversion returns one mesh per material, numbered in
    order. *)
Theorem smd_material_indices_inside fuel configFrameID pFile file st :
  ReadSmd fuel configFrameID pFile file = Ret st ->
  Forall (fun f => 0 <= iTexture f < Z.of_nat (Nat.max 1 (length (aszTextures st))))
         (asTriangles st)
  /\ (3 * Z.of_nat (length (asTriangles st)) < 4294967296 ->
      exists ms,
        CreateOutputMeshes (bHasUVs st) (aszTextures st) (asBones st) (asTriangles st)
          = Some ms
        /\ length ms = Nat.max 1 (length (aszTextures st))
        /\ forall i m, ms !! i = Some m -> mMaterialIndex m = Z.of_nat i).
Proof.
  unfold SMDFile.ReadSmd. destruct file as [text|]; [|done]. intros Hparse.
  assert (Hok : textures_ok st).
  { apply (ParseFile_ok fuel configFrameID text fresh); [constructor|done]. }
  split; [exact Hok|]. intros Hfit.
  destruct (CreateOutputMeshes_built (bHasUVs st) (aszTextures st) (asBones st)
              (asTriangles st) Hok Hfit) as (ms & Hms & Hlen & Hbuilt).
  exists ms. split; [done|]. split; [done|]. intros i m Hi.
  destruct (Hbuilt i m Hi) as [Hread Hbuild].
  destruct (build_mesh_spec (bHasUVs st) (asBones st) (asTriangles st) (Z.of_nat i)
              _ Hread) as (m' & Hm' & Hindex & _).
  rewrite Hbuild in Hm'. by injection Hm' as <-.
Qed.

End SMD_material_indices.

(** A file with a bone and two triangles of one texture, written with
    different case, and the importer after reading it. *)
Definition smd_text : list ascii := list_ascii_of_string
"version 1
nodes
0 root -1
end
skeleton
time 0
0 0 0 0 0 0 0
end
triangles
skin.bmp
0 0 0 0 0 0 1 0 0
0 1 0 0 0 0 1 1 0
0 0 1 0 0 0 1 0 1
SKIN.BMP
0 0 0 0 0 0 1 0 0
0 0 1 0 0 0 1 0 1
0 1 1 0 0 0 1 1 1
end
".

Definition unnamed_bone : SMDFile.Bone (R:=B32.t) := SMDFile.mkBone "-" UINT_MAX [].

Definition smd_importer : SMDFile.Importer (R:=B32.t) :=
  Eval vm_compute in
    match SMDFile.ReadSmd same_name unnamed_bone 100 0 "a.smd" (Some smd_text) with
    | Ret st => st
    | _ => SMDFile.fresh
    end.

Lemma smd_material_indices_inside_witness :
  SMDFile.aszTextures smd_importer = ["skin.bmp"%string]
  /\ length (SMDFile.asTriangles smd_importer) = 2%nat
  /\ Forall (fun f => 0 <= SMD.iTexture f < 1) (SMDFile.asTriangles smd_importer)
  /\ exists ms,
       SMD.CreateOutputMeshes (SMDFile.bHasUVs smd_importer)
         (SMDFile.aszTextures smd_importer) (SMDFile.asBones smd_importer)
         (SMDFile.asTriangles smd_importer) = Some ms
       /\ length ms = 1%nat.
Proof.
  assert (Hr : SMDFile.ReadSmd same_name unnamed_bone 100 0 "a.smd" (Some smd_text)
               = Ret smd_importer) by (vm_compute; reflexivity).
  assert (Hfit : 3 * Z.of_nat (length (SMDFile.asTriangles smd_importer)) < 4294967296)
    by (vm_compute; reflexivity).
  destruct (smd_material_indices_inside same_name unnamed_bone 100 0 "a.smd"
              (Some smd_text) smd_importer Hr) as [Hinside Hmeshes].
  destruct (Hmeshes Hfit) as (ms & Hms & Hlen & _).
  split; [reflexivity|]. split; [reflexivity|]. split; [exact Hinside|].
  exists ms. split; [exact Hms|exact Hlen].
Defined.

(** ** SMD: a line of the triangles section that starts with a form feed *)

Section SMD_form_feed.
Import Scanner SMD SMDFile.
Context {R : Type} `{FloatParser R}.
Variable stricmp_eq : string -> string -> bool.

Definition form_feed : ascii := "012"%char.

Lemma triangles_loop_stuck fuel rest (st : Importer (R:=R)) :
  SMDFile.triangles_loop stricmp_eq fuel (form_feed :: rest) st = OutOfFuel.
Proof.
  revert st. induction fuel as [|fuel IH]; intros st; [done|].
  cbn [SMDFile.triangles_loop].
  change (SkipSpacesAndLineEnd (form_feed :: rest)) with (true, form_feed :: rest).
  cbn [negb]. change (TokenMatch (form_feed :: rest) "end") with (@None (list ascii)).
  unfold SMDFile.ParseTriangle.
  change (SkipSpaces (form_feed :: rest)) with (false, form_feed :: rest).
  cbn [negb]. apply IH.
Qed.

Lemma ParseTrianglesSection_stuck fuel cur rest (st : Importer (R:=R)) :
  skip_spaces_and_eols cur = form_feed :: rest ->
  SMDFile.ParseTrianglesSection stricmp_eq fuel cur st = OutOfFuel.
Proof.
  intros Hcur. unfold SMDFile.ParseTrianglesSection.
  destruct fuel as [|fuel]; [done|]. cbn [SMDFile.triangles_loop].
  unfold SkipSpacesAndLineEnd. rewrite Hcur. cbn [peek].
  change (negb (negb (form_feed =? NUL)%char)) with false. cbv iota.
  change (TokenMatch (form_feed :: rest) "end") with (@None (list ascii)).
  unfold SMDFile.ParseTriangle.
  change (SkipSpaces (form_feed :: rest)) with (false, form_feed :: rest).
  cbn [negb]. by rewrite triangles_loop_stuck.
Qed.

(** X17 (SMDLoader.cpp, [SMDImporter::ParseTrianglesSection] and
    [ParseTriangle]).  When the next line of the triangles section starts
    with a form feed, which ends a line for [SkipSpaces] but is not passed
    by [SkipSpacesAndLineEnd], [ParseTriangle] appends a triangle and
    returns without moving the cursor: the loop of the section starts every
    round again at the same place and the section never returns, whatever
    fuel it is given; neither does the reader of a file that opens such a
    section. *)
Theorem smd_triangles_form_feed (default_bone : Bone (R:=R)) cur rest :
  skip_spaces_and_eols cur = form_feed :: rest ->
  (forall fuel st, SMDFile.ParseTrianglesSection stricmp_eq fuel cur st = OutOfFuel)
  /\ (forall fuel configFrameID st,
        SMDFile.ParseFile stricmp_eq default_bone fuel configFrameID
          (list_ascii_of_string "triangles" ++ "010"%char :: cur) st = OutOfFuel).
Proof.
  intros Hcur. split.
  - intros fuel st. by apply (ParseTrianglesSection_stuck fuel cur rest).
  - intros [|fuel] configFrameID st; [done|]. cbn [SMDFile.ParseFile].
    cbn [list_ascii_of_string app].
    set (text := "t"%char :: _).
    change (SkipSpacesAndLineEnd text) with (true, text). cbn [negb].
    change (TokenMatch text "version") with (@None (list ascii)).
    change (TokenMatch text "nodes") with (@None (list ascii)).
    change (TokenMatch text "triangles") with (Some cur).
    cbv iota. by rewrite (ParseTrianglesSection_stuck (S fuel) cur rest).
Qed.

End SMD_form_feed.

Definition form_feed_line : list ascii :=
  "010"%char :: " "%char :: form_feed :: list_ascii_of_string "skin.bmp".

Lemma smd_triangles_form_feed_witness :
  SMDFile.ReadSmd same_name unnamed_bone 1000 0 "a.smd"
    (Some (list_ascii_of_string "triangles" ++ "010"%char :: form_feed_line))
  = OutOfFuel.
Proof.
  destruct (smd_triangles_form_feed same_name unnamed_bone form_feed_line
              (list_ascii_of_string "skin.bmp") ltac:(reflexivity)) as [_ Hfile].
  apply Hfile.
Defined.

(** ** SMD: the nodes of the bones *)

(** The bones the nodes of a graph were built for, in prefix order. *)
Fixpoint bones_of (n : SMDFile.aiNode) : list nat :=
  match n with
  | SMDFile.mk_aiNode _ b c =>
      match b with Some i => [i] | None => [] end ++ concat (map bones_of c)
  end.

Section SMD_bone_tree.
Import SMDFile.
#[local] Open Scope nat_scope.
Context {R : Type}.
Variable bones : list (Bone (R:=R)).
Hypothesis bones_fit : (Z.of_nat (length bones) <= UINT_MAX)%Z.

Implicit Types (x y c p r k m : nat) (parent : Z).

(** The bone that a bone names as its parent, when there is such a bone. *)
Definition parent_bone x : option nat :=
  match bones !! x with
  | Some b =>
      if decide (0 <= iParent b < Z.of_nat (length bones))%Z
      then Some (Z.to_nat (iParent b)) else None
  | None => None
  end.

(** The ancestor [k] levels up. *)
Fixpoint climb k x : option nat :=
  match k with
  | O => Some x
  | S k' => parent_bone x ≫= climb k'
  end.

(** A bone whose parent is [-1]. *)
Definition top r : Prop := exists b, bones !! r = Some b /\ iParent b = UINT_MAX.

(** [x] lies [m] levels below a bone whose parent is [-1]. *)
Definition anchored m x : Prop := exists r, climb m x = Some r /\ top r.

Lemma parent_bone_inside x y : parent_bone x = Some y -> x < length bones /\ y < length bones.
Proof.
  unfold parent_bone. destruct (bones !! x) as [b|] eqn:Hb; [|done].
  case_decide; [|done]. intros [= <-]. apply lookup_lt_Some in Hb. lia.
Qed.

Lemma parent_bone_child x p :
  parent_bone x = Some p <->
  p < length bones /\ exists b, bones !! x = Some b /\ iParent b = Z.of_nat p.
Proof.
  unfold parent_bone. split.
  - destruct (bones !! x) as [b|]; [|done]. case_decide; [|done]. intros [= <-].
    split; [lia|]. exists b. split; [done|lia].
  - intros (Hp & b & -> & Hb). rewrite decide_True by lia. f_equal. lia.
Qed.

Lemma top_stuck r : top r -> parent_bone r = None.
Proof.
  intros (b & Hb & Hp). unfold parent_bone. rewrite Hb.
  rewrite decide_False; [done|]. unfold UINT_MAX in *. lia.
Qed.

Lemma climb_add a b x : climb (a + b) x = climb a x ≫= climb b.
Proof.
  revert x. induction a as [|a IH]; intros x; [done|]. cbn [Nat.add climb].
  destruct (parent_bone x) as [y|]; [apply IH|done].
Qed.

Lemma climb_inside k x y : climb k x = Some y -> x < length bones -> y < length bones.
Proof.
  revert x. induction k as [|k IH]; intros x; cbn [climb].
  - by intros [= <-].
  - destruct (parent_bone x) as [q|] eqn:Hq; [|done]. cbn. intros Hy _.
    apply (IH q); [done|]. by apply parent_bone_inside in Hq as [_ ?].
Qed.

Lemma anchored_unique m m' x : anchored m x -> anchored m' x -> m = m'.
Proof.
  assert (Hlt : forall a b, a < b -> anchored a x -> anchored b x -> False).
  { intros a b Hab (r & Hr & Htop) (r' & Hr' & _).
    replace b with (a + S (b - a - 1)) in Hr' by lia.
    rewrite climb_add, Hr in Hr'. cbn in Hr'. by rewrite (top_stuck r Htop) in Hr'. }
  intros H1 H2. destruct (Nat.lt_trichotomy m m') as [Hc|[Hc|Hc]]; [|done|].
  - destruct (Hlt m m' Hc H1 H2).
  - destruct (Hlt m' m Hc H2 H1).
Qed.

Lemma anchored_climb m x a y :
  anchored m x -> a <= m -> climb a x = Some y -> anchored (m - a) y.
Proof.
  intros (r & Hr & Htop) Ha Hy. exists r. split; [|done].
  replace m with (a + (m - a)) in Hr by lia. by rewrite climb_add, Hy in Hr.
Qed.

Lemma anchored_climb_some m x a : anchored m x -> a <= m -> exists y, climb a x = Some y.
Proof.
  intros (r & Hr & _) Ha. replace m with (a + (m - a)) in Hr by lia.
  rewrite climb_add in Hr. destruct (climb a x) as [y|]; [by exists y|done].
Qed.

Lemma anchored_down k x y m : climb k x = Some y -> anchored m y -> anchored (k + m) x.
Proof.
  intros Hy (r & Hr & Htop). exists r. split; [|done]. by rewrite climb_add, Hy.
Qed.

(** A chain of parents that ends at a bone without parent passes every bone
    once: it is shorter than the table. *)
Lemma anchored_bound m x : x < length bones -> anchored m x -> m < length bones.
Proof.
  intros Hx Hr.
  assert (Hnd : NoDup ((fun a => climb a x) <$> seq 0 (S m))).
  { apply NoDup_fmap_2_strong; [|apply NoDup_seq].
    intros a b Ha Hb Hab. apply elem_of_seq in Ha, Hb.
    destruct (anchored_climb_some m x a Hr) as [y Hy]; [lia|].
    pose proof (anchored_climb m x a y Hr ltac:(lia) Hy) as H1.
    rewrite Hab in Hy.
    pose proof (anchored_climb m x b y Hr ltac:(lia) Hy) as H2.
    pose proof (anchored_unique _ _ _ H1 H2). lia. }
  assert (Hsub : (fun a => climb a x) <$> seq 0 (S m) ⊆+ Some <$> seq 0 (length bones)).
  { apply NoDup_submseteq; [done|]. intros o Ho.
    apply list_elem_of_fmap in Ho as (a & -> & Ha). apply elem_of_seq in Ha.
    destruct (anchored_climb_some m x a Hr) as [y Hy]; [lia|]. rewrite Hy.
    apply list_elem_of_fmap. exists y. split; [done|].
    apply elem_of_seq. apply climb_inside in Hy; lia. }
  apply submseteq_length in Hsub. rewrite !length_fmap, !length_seq in Hsub. lia.
Qed.

(** The loop over the bones inside [AddBoneChildren], and the positions of
    the bones it makes nodes for. *)
Definition children_loop (build : Z -> outcome (list aiNode)) parent
    : list (Bone (R:=R)) -> Z -> outcome (list aiNode) :=
  fix loop (rest : list (Bone (R:=R))) (i : Z) : outcome (list aiNode) :=
    match rest with
    | [] => Ret []
    | bone :: rest' =>
        if negb (iParent bone =? parent)%Z then loop rest' (wrap32 (i + 1))
        else
          match build i with
          | Ret kids =>
              match loop rest' (wrap32 (i + 1)) with
              | Ret nodes => Ret (mk_aiNode (mName bone) (Some (Z.to_nat i)) kids :: nodes)
              | other => other
              end
          | other => other
          end
    end.

Lemma children_loop_cons build parent bone rest i :
  children_loop build parent (bone :: rest) i =
  if negb (iParent bone =? parent)%Z then children_loop build parent rest (wrap32 (i + 1))
  else
    match build i with
    | Ret kids =>
        match children_loop build parent rest (wrap32 (i + 1)) with
        | Ret nodes => Ret (mk_aiNode (mName bone) (Some (Z.to_nat i)) kids :: nodes)
        | other => other
        end
    | other => other
    end.
Proof. reflexivity. Qed.

Lemma AddBoneChildren_step fuel parent :
  AddBoneChildren (S fuel) bones parent =
  children_loop (AddBoneChildren fuel bones) parent bones 0.
Proof. reflexivity. Qed.

Fixpoint children_from parent (rest : list (Bone (R:=R))) k : list nat :=
  match rest with
  | [] => []
  | b :: rest' =>
      if (iParent b =? parent)%Z then k :: children_from parent rest' (S k)
      else children_from parent rest' (S k)
  end.

Lemma children_from_elem parent rest k c :
  c ∈ children_from parent rest k
  <-> k <= c /\ exists b, rest !! (c - k) = Some b /\ iParent b = parent.
Proof.
  revert k. induction rest as [|b rest IH]; intros k; cbn [children_from].
  { split; [by intros ?%elem_of_nil|]. by intros (_ & b & ? & _). }
  assert (Hrest : c ∈ children_from parent rest (S k)
                  <-> S k <= c /\ exists b', (b :: rest) !! (c - k) = Some b'
                                             /\ iParent b' = parent).
  { rewrite IH. split.
    - intros (Hle & b' & Hb' & Hp). split; [done|]. exists b'. split; [|done].
      by replace (c - k) with (S (c - S k)) by lia.
    - intros (Hle & b' & Hb' & Hp). split; [done|]. exists b'. split; [|done].
      by replace (c - k) with (S (c - S k)) in Hb' by lia. }
  destruct (Z.eqb_spec (iParent b) parent) as [Hb|Hb].
  - rewrite elem_of_cons, Hrest. split.
    + intros [->|(Hle & Hc)]; [|split; [lia|done]].
      split; [done|]. exists b. by rewrite Nat.sub_diag.
    + intros (Hle & b' & Hb' & Hp). destruct (decide (c = k)) as [->|Hne]; [by left|].
      right. split; [lia|]. by exists b'.
  - rewrite Hrest. split.
    + intros (Hle & Hc). split; [lia|done].
    + intros (Hle & b' & Hb' & Hp). destruct (decide (c = k)) as [->|Hne].
      * rewrite Nat.sub_diag in Hb'. injection Hb' as <-. done.
      * split; [lia|]. by exists b'.
Qed.

Lemma children_from_NoDup parent rest k : NoDup (children_from parent rest k).
Proof.
  revert k. induction rest as [|b rest IH]; intros k; cbn [children_from]; [constructor|].
  destruct (iParent b =? parent)%Z; [|apply IH]. constructor; [|apply IH].
  intros Hk. apply children_from_elem in Hk as [Hle _]. lia.
Qed.

(** The loop returns when the calls for the children do, with one node for
    each child, in the order of the table. *)
Lemma children_loop_spec (P : nat -> list aiNode -> Prop)
    (build : Z -> outcome (list aiNode)) parent pre rest :
  bones = pre ++ rest ->
  (forall c, c ∈ children_from parent rest (length pre) ->
     exists kids, build (Z.of_nat c) = Ret kids /\ P c kids) ->
  exists nodes,
    children_loop build parent rest (Z.of_nat (length pre)) = Ret nodes
    /\ Forall2 (fun c nd => exists b kids,
                  bones !! c = Some b /\ nd = mk_aiNode (mName b) (Some c) kids
                  /\ P c kids)
         (children_from parent rest (length pre)) nodes.
Proof.
  revert pre. induction rest as [|b rest IH]; intros pre Hbones Hbuild.
  { exists []. split; [done|constructor]. }
  assert (Hnext : wrap32 (Z.of_nat (length pre) + 1) = Z.of_nat (length (pre ++ [b]))).
  { rewrite length_app. cbn [length]. rewrite wrap32_small; [lia|].
    rewrite Hbones, length_app in bones_fit. cbn [length] in bones_fit.
    unfold UINT_MAX in bones_fit. lia. }
  assert (Hlen : S (length pre) = length (pre ++ [b]))
    by (rewrite length_app; cbn [length]; lia).
  rewrite children_loop_cons. cbn [children_from] in *. rewrite Hnext, Hlen in *.
  specialize (IH (pre ++ [b]) ltac:(by rewrite <- app_assoc)).
  destruct (iParent b =? parent)%Z; cbn [negb].
  - destruct (Hbuild (length pre) ltac:(left)) as (kids & Hkids & HP).
    rewrite Hkids.
    destruct IH as (nodes & -> & Hall).
    { intros c Hc. apply Hbuild. by right. }
    eexists. split; [done|]. constructor; [|done]. exists b, kids.
    rewrite Nat2Z.id. split; [|done]. rewrite Hbones. by apply list_lookup_middle.
  - by apply IH.
Qed.

Definition forest_bones (forest : list aiNode) : list nat := concat (map bones_of forest).

Lemma forest_bones_concat (D : nat -> nat -> Prop) cs ns :
  Forall2 (fun c n => NoDup (bones_of n) /\ forall x, x ∈ bones_of n <-> D c x) cs ns ->
  NoDup cs ->
  (forall c c' x, c ∈ cs -> c' ∈ cs -> D c x -> D c' x -> c = c') ->
  NoDup (forest_bones ns)
  /\ forall x, x ∈ forest_bones ns <-> exists c, c ∈ cs /\ D c x.
Proof.
  unfold forest_bones.
  induction 1 as [|c n cs ns [Hn HD] Hrest IH]; intros Hnd Hdis; cbn [map concat].
  - split; [constructor|]. intros x. split; [by intros ?%elem_of_nil|].
    by intros (c & ?%elem_of_nil & _).
  - inversion Hnd as [|? ? Hc Hnd']; subst.
    destruct IH as [IHn IHx]; [done| |].
    { intros a b x Ha Hb. apply Hdis; by right. }
    split.
    + apply list.NoDup_app. split; [done|]. split; [|done].
      intros x Hx Hx'. apply HD in Hx. apply IHx in Hx' as (c' & Hc' & Hx').
      assert (c = c') as <- by (apply (Hdis c c' x); [left|by right|done|done]).
      done.
    + intros x. rewrite elem_of_app, HD, IHx. split.
      * intros [Hx|(c' & Hc' & Hx)]; [exists c; split; [left|done]|].
        exists c'. split; [by right|done].
      * intros (c' & Hc' & Hx). apply elem_of_cons in Hc' as [->|Hc']; [by left|].
        right. by exists c'.
Qed.

(** What a bone and the bones below it give: the bone itself and the bones
    that have it among their ancestors, each once. *)
Definition subtree c (kids : list aiNode) : Prop :=
  NoDup (c :: forest_bones kids)
  /\ forall x, x ∈ c :: forest_bones kids <-> exists k, climb k x = Some c.

Lemma subtree_nodes parent cs nodes :
  Forall2 (fun c nd => exists b kids,
             bones !! c = Some b /\ nd = mk_aiNode (mName b) (Some c) kids
             /\ subtree c kids) cs nodes ->
  Forall2 (fun c n => NoDup (bones_of n)
                      /\ forall x, x ∈ bones_of n <-> exists k, climb k x = Some c)
          cs nodes.
Proof.
  apply Forall2_impl. intros c nd (b & kids & _ & -> & Hnd & Hx). done.
Qed.

Lemma climb_last k x p :
  climb (S k) x = Some p -> exists c, climb k x = Some c /\ parent_bone c = Some p.
Proof.
  replace (S k) with (k + 1) by lia. rewrite climb_add.
  destruct (climb k x) as [c|]; cbn; [|done].
  destruct (parent_bone c) as [q|] eqn:Hq; cbn; [|done]. intros [= <-]. by exists c.
Qed.

Lemma climb_step k x c p :
  climb k x = Some c -> parent_bone c = Some p -> climb (S k) x = Some p.
Proof.
  intros Hc Hp. replace (S k) with (k + 1) by lia. rewrite climb_add, Hc. cbn.
  by rewrite Hp.
Qed.

(** Children of one parent that is anchored have disjoint descendants. *)
Lemma siblings_apart m (cs : list nat) x c c' k k' :
  (forall c, c ∈ cs -> anchored m c) ->
  c ∈ cs -> c' ∈ cs -> climb k x = Some c -> climb k' x = Some c' -> c = c'.
Proof.
  intros Hcs Hc Hc' Hk Hk'.
  pose proof (anchored_down _ _ _ _ Hk (Hcs c Hc)) as H1.
  pose proof (anchored_down _ _ _ _ Hk' (Hcs c' Hc')) as H2.
  pose proof (anchored_unique _ _ _ H1 H2). assert (k = k') as -> by lia. congruence.
Qed.

(** The call for an anchored bone returns the graph of the bones below it. *)
Lemma AddBoneChildren_below fuel m p :
  anchored m p -> p < length bones -> length bones <= m + fuel ->
  exists kids, AddBoneChildren fuel bones (Z.of_nat p) = Ret kids /\ subtree p kids.
Proof.
  revert m p. induction fuel as [|fuel IH]; intros m p Hp Hlt Hfuel.
  { pose proof (anchored_bound m p Hlt Hp). lia. }
  rewrite AddBoneChildren_step.
  set (cs := children_from (Z.of_nat p) bones 0).
  assert (Hchild : forall c, c ∈ cs -> parent_bone c = Some p).
  { intros c Hc. apply children_from_elem in Hc as (_ & b & Hb & Hpar).
    rewrite Nat.sub_0_r in Hb. apply parent_bone_child. split; [done|]. by exists b. }
  assert (Hkids : forall c, c ∈ cs -> anchored (S m) c).
  { intros c Hc. destruct Hp as (r & Hr & Htop). exists r. split; [|done].
    cbn [climb]. by rewrite (Hchild c Hc). }
  destruct (children_loop_spec subtree (AddBoneChildren fuel bones) (Z.of_nat p) [] bones)
    as (nodes & Hnodes & Hall); [done| |].
  { intros c Hc. apply (IH (S m) c); [by apply Hkids| |lia].
    by apply Hchild, parent_bone_inside in Hc as [? _]. }
  cbn [length] in Hnodes, Hall. change (Z.of_nat 0) with 0%Z in Hnodes. fold cs in Hall.
  exists nodes. split; [done|].
  apply (subtree_nodes (Z.of_nat p)) in Hall.
  apply forest_bones_concat in Hall as [Hnd Hx].
  2:{ apply children_from_NoDup. }
  2:{ intros c c' x Hc Hc' [k Hk] [k' Hk']. by apply (siblings_apart (S m) cs x c c' k k'). }
  split.
  - constructor; [|done]. intros Hin. apply Hx in Hin as (c & Hc & k & Hk).
    pose proof (anchored_down _ _ _ _ Hk (Hkids c Hc)) as H1.
    pose proof (anchored_unique _ _ _ Hp H1). lia.
  - intros x. rewrite elem_of_cons, Hx. split.
    + intros [->|(c & Hc & k & Hk)]; [by exists 0|].
      exists (S k). by apply (climb_step k x c), Hchild.
    + intros [[|k] Hk]; [left; by injection Hk|].
      right. apply climb_last in Hk as (c & Hc & Hpar). exists c. split; [|by exists k].
      unfold cs. rewrite children_from_elem, Nat.sub_0_r. split; [lia|].
      by apply parent_bone_child in Hpar as [_ ?].
Qed.

(** The bones below the root of the scene. *)
Lemma AddBoneChildren_top :
  exists forest,
    AddBoneChildren (S (length bones)) bones UINT_MAX = Ret forest
    /\ NoDup (forest_bones forest)
    /\ forall x, x ∈ forest_bones forest <-> exists m, anchored m x.
Proof.
  rewrite AddBoneChildren_step.
  set (cs := children_from UINT_MAX bones 0).
  assert (Htop : forall c, c ∈ cs <-> top c).
  { intros c. unfold cs. rewrite children_from_elem, Nat.sub_0_r. unfold top.
    split; [by intros [_ ?]|]. intros ?. split; [lia|done]. }
  assert (Hkids : forall c, c ∈ cs -> anchored 0 c).
  { intros c Hc. exists c. split; [done|]. by apply Htop. }
  destruct (children_loop_spec subtree (AddBoneChildren (length bones) bones) UINT_MAX
              [] bones) as (nodes & Hnodes & Hall); [done| |].
  { intros c Hc. apply (AddBoneChildren_below (length bones) 0 c); [by apply Hkids| |lia].
    apply Htop in Hc as (b & Hb & _). by apply lookup_lt_Some in Hb. }
  cbn [length] in Hnodes, Hall. change (Z.of_nat 0) with 0%Z in Hnodes. fold cs in Hall.
  exists nodes. split; [done|].
  apply (subtree_nodes UINT_MAX) in Hall.
  apply forest_bones_concat in Hall as [Hnd Hx].
  2:{ apply children_from_NoDup. }
  2:{ intros c c' x Hc Hc' [k Hk] [k' Hk']. by apply (siblings_apart 0 cs x c c' k k'). }
  split; [done|]. intros x. rewrite Hx. split.
  - intros (c & Hc & k & Hk). exists k, c. split; [done|]. by apply Htop.
  - intros (m & r & Hr & Hroot). exists r. split; [by apply Htop|]. by exists m.
Qed.

(** The root that [CreateOutputNodes] makes of the nodes below it. *)
Lemma CreateOutputNodes_forest fuel incomplete forest :
  AddBoneChildren fuel bones UINT_MAX = Ret forest ->
  exists root,
    CreateOutputNodes fuel bones incomplete = Ret root
    /\ bones_of root = forest_bones forest.
Proof.
  intros Hforest. unfold CreateOutputNodes. rewrite Hforest.
  destruct forest as [|only [|second forest]]; try (by eexists).
  destruct incomplete; [|by eexists].
  exists only. split; [done|]. unfold forest_bones. cbn [map concat].
  by rewrite app_nil_r.
Qed.

(** X18 (SMDLoader.cpp, [SMDImporter::AddBoneChildren] and
    [CreateOutputNodes]).  For a table of at most 2^32 - 1 bones, and
    whatever parents the bones name, the construction of the nodes returns
    when the depth of its recursion is bounded by the number of bones plus
    one.  The graph holds no bone twice, and holds exactly the bones whose
    chain of parents ends at a bone with the parent [-1]: a bone that names
    itself, lies on a cycle of parents or under a parent outside the table
    gets no node. *)
Theorem smd_bone_nodes incomplete :
  exists root,
    CreateOutputNodes (S (length bones)) bones incomplete = Ret root
    /\ NoDup (bones_of root)
    /\ forall x, x ∈ bones_of root <-> exists m, anchored m x.
Proof.
  destruct AddBoneChildren_top as (forest & Hforest & Hnd & Hx).
  destruct (CreateOutputNodes_forest (S (length bones)) incomplete forest Hforest)
    as (root & Hroot & Hbones).
  exists root. split; [done|]. rewrite Hbones. by split.
Qed.

End SMD_bone_tree.

(** A bone without parent and its child, two bones that name each other, a
    bone under a parent outside the table and a bone that names itself. *)
Definition bone_under (p : Z) : SMDFile.Bone (R:=B32.t) := SMDFile.mkBone "b" p [].

Definition tangled_bones : list (SMDFile.Bone (R:=B32.t)) :=
  [bone_under UINT_MAX; bone_under 0; bone_under 3; bone_under 2;
   bone_under 9; bone_under 5].

Lemma smd_bone_nodes_witness :
  exists root,
    SMDFile.CreateOutputNodes 7 tangled_bones false = Ret root
    /\ NoDup (bones_of root)
    /\ forall x, x ∈ bones_of root <-> exists m, anchored tangled_bones m x.
Proof.
  apply (smd_bone_nodes tangled_bones). vm_compute. discriminate.
Defined.

(** ** SMD: the bones that the reader hands to the construction of nodes *)

Section SMD_bones_of_file.
Import Scanner SMD SMDFile.
Context {R : Type} `{FloatParser R}.
Variable stricmp_eq : string -> string -> bool.
Variable default_bone : Bone (R:=R).

Implicit Types (st : Importer (R:=R)) (cur : list ascii).

Definition bones_fit st : Prop := Z.of_nat (length (asBones st)) <= UINT_MAX.

Definition same_bones st st' : Prop := asBones st' = asBones st.

Lemma strtoul10_from_range v l :
  0 <= v < 4294967296 -> 0 <= (strtoul10_from v l).1 < 4294967296.
Proof.
  revert v. induction l as [|c r IH]; intros v Hv; cbn [strtoul10_from]; [done|].
  destruct (digit_val c); [|done]. apply IH, wrap32_range.
Qed.

Lemma ParseUnsignedInt_range cur v c :
  ParseUnsignedInt cur = Some (v, c) -> 0 <= v < 4294967296.
Proof.
  unfold ParseUnsignedInt. destruct (SkipSpaces cur) as [ok c0].
  destruct ok; [|done]. intros [= Hv].
  pose proof (strtoul10_from_range 0 c0 ltac:(lia)) as Hr.
  unfold strtoul10 in Hv. by rewrite Hv in Hr.
Qed.

Lemma length_resize {A} n (val : A) l : length (resize n val l) = n.
Proof. unfold resize. rewrite length_app, length_take, length_replicate. lia. Qed.

Lemma ParseNodeInfo_bones cur st cur' st' :
  bones_fit st -> SMDFile.ParseNodeInfo default_bone cur st = Ret (cur', st') ->
  bones_fit st'.
Proof.
  intros Hfit. unfold SMDFile.ParseNodeInfo.
  destruct (ParseUnsignedInt _) as [[iBone c]|] eqn:Hbone; [|done].
  apply ParseUnsignedInt_range in Hbone.
  destruct (SkipSpaces c) as [ok c1]. destruct ok; cbn [negb]; [|done].
  destruct (Z.eqb_spec iBone UINT_MAX) as [|Hne]; [by intros [= _ <-]|].
  set (bones := if _ <=? iBone then _ else _).
  assert (Hbones : Z.of_nat (length bones) <= UINT_MAX).
  { unfold bones. destruct (_ <=? iBone); [|done]. rewrite length_resize.
    unfold UINT_MAX in *. lia. }
  destruct (bone_name _ _) as [[name szEnd]|]; [|by intros [= _ <-]].
  destruct (ParseSignedInt szEnd) as [[p c2]|]; intros [= _ <-];
    unfold bones_fit; cbn [asBones with_bones]; by rewrite ?length_alter.
Qed.

Lemma nodes_loop_bones fuel cur st cur' st' :
  bones_fit st -> SMDFile.nodes_loop default_bone fuel cur st = Ret (cur', st') ->
  bones_fit st'.
Proof.
  revert cur st. induction fuel as [|fuel IH]; intros cur st Hfit; [done|].
  cbn [SMDFile.nodes_loop]. destruct (_ && _); [by intros [= _ <-]|].
  destruct (SMDFile.ParseNodeInfo default_bone cur st) as [[c st1]| | |] eqn:Hinfo;
    try done.
  apply IH. by apply (ParseNodeInfo_bones cur st c).
Qed.

Lemma ParseSkeletonElement_bones cur st iTime :
  bones_fit st -> bones_fit (ParseSkeletonElement cur st iTime).2.
Proof.
  intros Hfit. unfold SMDFile.ParseSkeletonElement.
  destruct (ParseUnsignedInt cur) as [[iBone c]|]; [|done].
  destruct (_ <=? iBone); [done|].
  repeat (unfold float_then at 1; destruct (ParseFloat _) as [[? ?]|];
          [|unfold bones_fit; cbn [snd asBones with_bones]; by rewrite length_alter]).
  unfold bones_fit. cbn [snd asBones with_bones]. by rewrite length_alter.
Qed.

Lemma ParseSkeletonSection_bones fuel cur st iTime cur' st' :
  bones_fit st -> ParseSkeletonSection fuel cur st iTime = Ret (cur', st') ->
  bones_fit st'.
Proof.
  revert cur st iTime. induction fuel as [|fuel IH]; intros cur st iTime Hfit; [done|].
  cbn [SMDFile.ParseSkeletonSection]. destruct (SkipSpacesAndLineEnd cur) as [more c].
  destruct more; cbn [negb]; [|by intros [= _ <-]].
  destruct (TokenMatch c "end"); [by intros [= _ <-]|].
  destruct (TokenMatch c "time") as [c1|].
  - destruct (ParseSignedInt c1) as [[t c2]|]; [|by intros [= _ <-]]. by apply IH.
  - pose proof (ParseSkeletonElement_bones c st iTime Hfit) as Hfit1.
    destruct (ParseSkeletonElement c st iTime) as [c1 st1]. by apply IH.
Qed.

Lemma ParseTriangle_bones cur st cur' st' :
  SMDFile.ParseTriangle stricmp_eq cur st = Some (cur', st') -> same_bones st st'.
Proof.
  unfold SMDFile.ParseTriangle.
  destruct (SkipSpaces cur) as [ok c]. destruct ok; cbn [negb]; [|by intros [= _ <-]].
  destruct (LWS.take_until _ _) as [name c'].
  destruct (SMDFile.GetTextureIndex _ _ _) as [iIndex textures].
  destruct (ParseVertex _ _ _ _) as [[c0 v0]|]; [|done].
  destruct (ParseVertex _ _ _ _) as [[c1 v1]|]; [|done].
  destruct (ParseVertex _ _ _ _) as [[c2 v2]|]; [|done].
  by intros [= _ <-].
Qed.

Lemma triangles_loop_bones fuel cur st cur' st' :
  SMDFile.triangles_loop stricmp_eq fuel cur st = Ret (cur', st') -> same_bones st st'.
Proof.
  revert cur st. induction fuel as [|fuel IH]; intros cur st; [done|].
  cbn [SMDFile.triangles_loop]. destruct (SkipSpacesAndLineEnd cur) as [more c].
  destruct more; cbn [negb]; [|by intros [= _ <-]].
  destruct (TokenMatch c "end"); [by intros [= _ <-]|].
  destruct (SMDFile.ParseTriangle stricmp_eq c st) as [[c1 st1]|] eqn:Htri; [|done].
  intros Hloop. apply ParseTriangle_bones in Htri. apply IH in Hloop.
  unfold same_bones in *. congruence.
Qed.

Lemma ParseFile_bones fuel configFrameID cur st st' :
  bones_fit st ->
  SMDFile.ParseFile stricmp_eq default_bone fuel configFrameID cur st = Ret st' ->
  bones_fit st'.
Proof.
  revert cur st. induction fuel as [|fuel IH]; intros cur st Hfit; [done|].
  cbn [SMDFile.ParseFile]. destruct (SkipSpacesAndLineEnd cur) as [more c].
  destruct more; cbn [negb]; [|by intros [= <-]].
  destruct (TokenMatch c "version") as [c1|].
  { destruct (SkipSpaces c1) as [ok c2]. destruct ok; cbn [negb]; [|by intros [= <-]].
    by apply IH. }
  destruct (TokenMatch c "nodes") as [c1|].
  { unfold SMDFile.ParseNodesSection.
    destruct (SMDFile.nodes_loop default_bone (S fuel) c1 st) as [[c2 st1]| | |] eqn:Hloop;
      try done.
    apply IH. by apply (nodes_loop_bones (S fuel) c1 st c2). }
  destruct (TokenMatch c "triangles") as [c1|].
  { unfold SMDFile.ParseTrianglesSection.
    destruct (SMDFile.triangles_loop stricmp_eq (S fuel) c1 st) as [[c2 st1]| | |] eqn:Hloop;
      try done.
    apply IH. apply triangles_loop_bones in Hloop. unfold bones_fit. by rewrite Hloop. }
  destruct (TokenMatch c "vertexanimation") as [c1|].
  { destruct (ParseVASection (S fuel) configFrameID c1 (asTriangles st))
      as [[c2 tris]|]; [|done].
    by apply IH. }
  destruct (TokenMatch c "skeleton") as [c1|].
  { destruct (ParseSkeletonSection (S fuel) c1 st 0) as [[c2 st1]| | |] eqn:Hsec; try done.
    apply IH. by apply (ParseSkeletonSection_bones (S fuel) c1 st 0 c2). }
  by apply IH.
Qed.

(** X19 (SMDLoader.cpp, [SMDImporter::ParseNodeInfo], [ParseFile] and
    [CreateOutputNodes]).  Whatever the file holds, the reader leaves a
    table of at most 2^32 - 1 bones (the bone number [UINT_MAX] is
    refused), and the construction of the nodes returns on it with a
    recursion no deeper than the number of bones plus one; no bone has two
    nodes. *)
Theorem smd_nodes_of_file fuel configFrameID pFile file st incomplete :
  SMDFile.ReadSmd stricmp_eq default_bone fuel configFrameID pFile file = Ret st ->
  Z.of_nat (length (asBones st)) <= UINT_MAX
  /\ exists root,
       CreateOutputNodes (S (length (asBones st))) (asBones st) incomplete = Ret root
       /\ NoDup (bones_of root).
Proof.
  unfold SMDFile.ReadSmd. destruct file as [text|]; [|done]. intros Hparse.
  assert (Hfit : bones_fit st).
  { apply (ParseFile_bones fuel configFrameID text fresh); [|done].
    unfold bones_fit, UINT_MAX. cbn. lia. }
  split; [exact Hfit|].
  destruct (AddBoneChildren_top (asBones st) Hfit) as (forest & Hforest & Hnd & _).
  destruct (CreateOutputNodes_forest (asBones st) (S (length (asBones st))) incomplete
              forest Hforest) as (root & Hroot & Hbones).
  exists root. split; [done|]. by rewrite Hbones.
Qed.

End SMD_bones_of_file.

Lemma smd_nodes_of_file_witness :
  Z.of_nat (length (SMDFile.asBones smd_importer)) <= UINT_MAX
  /\ exists root,
       SMDFile.CreateOutputNodes 2 (SMDFile.asBones smd_importer) false = Ret root
       /\ NoDup (bones_of root).
Proof.
  assert (Hr : SMDFile.ReadSmd same_name unnamed_bone 100 0 "a.smd" (Some smd_text)
               = Ret smd_importer) by (vm_compute; reflexivity).
  exact (smd_nodes_of_file same_name unnamed_bone 100 0 "a.smd" (Some smd_text)
           smd_importer false Hr).
Defined.

(** ** AC3D: the indices of the meshes *)

Section AC3D_fill.
Import AC3D.

Implicit Types (f : Fill) (face : list Z) (es : list (Z * Vec2)).

(** The number of vertices written so far. *)
Definition written f : Z := Z.of_nat (length (f_verts f)).

(** The indices of a face are indices of vertices written so far. *)
Definition face_ok f face : Prop := Forall (fun i => 0 <= i < written f) face.

(** [cur] counts the vertices written and every face written so far names
    vertices written so far. *)
Definition fill_ok f : Prop := f_cur f = written f /\ Forall (face_ok f) (f_faces f).

Definition grows f f' : Prop := written f <= written f'.

Lemma face_ok_grows f f' face : grows f f' -> face_ok f face -> face_ok f' face.
Proof.
  unfold grows, face_ok. intros Hg. apply Forall_impl. intros i Hi. lia.
Qed.

Lemma faces_ok_grows f f' (faces : list (list Z)) :
  grows f f' -> Forall (face_ok f) faces -> Forall (face_ok f') faces.
Proof.
  intros Hg. apply Forall_impl. intros face. by apply face_ok_grows.
Qed.

Lemma written_nonneg f : 0 <= written f.
Proof. unfold written. lia. Qed.

Lemma written_put_vertex has_uv v u f : written (put_vertex has_uv v u f) = written f + 1.
Proof. unfold written, put_vertex. cbn [f_verts]. rewrite length_app. cbn [length]. lia. Qed.

(** *** The back side of a face *)

Lemma backside_stuck (l : list Z) (r : outcome (list Z * Fill)) :
  (forall x, r <> Ret x) -> forall x, foldl backside_step r l <> Ret x.
Proof.
  revert r. induction l as [|ix l IH]; intros r Hr; [done|]. cbn [foldl].
  apply IH. intros x. destruct r as [[face f]| | |]; [by destruct (Hr (face, f))|done..].
Qed.

Lemma backside_loop_ok (l : list Z) : forall face f face' f',
  foldl backside_step (Ret (face, f)) l = Ret (face', f') ->
  grows f f' /\ f_faces f' = f_faces f
  /\ (f_cur f = written f -> written f' < 4294967296 -> face_ok f face ->
      f_cur f' = written f' /\ face_ok f' face').
Proof.
  induction l as [|ix l IH]; intros face f face' f'.
  { cbn [foldl]. intros [= <- <-]. unfold grows. split; [lia|]. by split. }
  cbn [foldl backside_step]. destruct (f_verts f !! Z.to_nat ix) as [v|]; cbv zeta.
  2:{ intros Hloop. by apply backside_stuck in Hloop. }
  set (f1 := mkFill _ _ _ _). intros Hloop. apply IH in Hloop as (Hg & Hfaces & Hok).
  assert (Hw1 : written f1 = written f + 1).
  { unfold written, f1. cbn [f_verts]. rewrite length_app. cbn [length]. lia. }
  assert (Hg1 : grows f f1) by (unfold grows; lia).
  split; [unfold grows in *; lia|]. split; [done|].
  intros Hcur Hfit Hface. apply Hok; [|done|].
  - unfold f1 at 1. cbn [f_cur]. rewrite wrap32_small; [lia|].
    unfold grows, written in *. lia.
  - apply Forall_app. split; [by apply (face_ok_grows f)|].
    constructor; [|constructor]. unfold written in *. lia.
Qed.

Lemma buildBacksideOfFace_ok origFace f f' :
  buildBacksideOfFace origFace f = Ret f' ->
  grows f f'
  /\ (fill_ok f -> written f' < 4294967296 -> fill_ok f').
Proof.
  rewrite buildBacksideOfFace_unfold.
  destruct (foldl backside_step (Ret ([], f)) (reverse origFace))
    as [[face f1]| | |] eqn:Hloop; try done.
  intros [= <-]. apply backside_loop_ok in Hloop as (Hg & Hfaces & Hok).
  split; [done|]. intros [Hcur Hall] Hfit.
  destruct (Hok Hcur Hfit ltac:(constructor)) as [Hcur1 Hface].
  split; [done|]. cbn [f_faces]. rewrite Hfaces. apply Forall_app. split.
  - by apply (faces_ok_grows f).
  - by constructor.
Qed.

(** *** Polygons, strips and lines *)

Lemma fill_polygon_ok vs tr has_uv n es : forall face f face' f',
  fill_polygon vs tr has_uv n es face f = Ret (face', f') ->
  grows f f' /\ f_faces f' = f_faces f
  /\ (f_cur f = written f -> written f' < 4294967296 -> face_ok f face ->
      f_cur f' = written f' /\ face_ok f' face').
Proof.
  induction es as [|[ix u] es IH]; intros face f face' f'.
  { cbn [fill_polygon]. intros [= <- <-]. unfold grows. split; [lia|]. by split. }
  cbn [fill_polygon]. destruct (n <=? _); [done|].
  destruct (vertex_at vs ix) as [v|]; [|done]. cbv zeta.
  set (f1 := mkFill _ _ _ _). intros Hloop. apply IH in Hloop as (Hg & Hfaces & Hok).
  pose proof (written_nonneg f) as Hnn.
  assert (Hw1 : written f1 = written f + 1).
  { unfold f1, written. cbn [f_verts put_vertex]. rewrite length_app. cbn [length]. lia. }
  split; [unfold grows in *; lia|]. split; [done|].
  intros Hcur Hfit Hface. apply Hok; [|done|].
  - change (f_cur f1) with (wrap32 (f_cur f + 1)). rewrite wrap32_small; [lia|].
    unfold grows in *. lia.
  - apply Forall_app. split; [apply (face_ok_grows f); [unfold grows in *; lia|done]|].
    constructor; [|constructor]. lia.
Qed.

Lemma fill_strip_ok vs tr has_uv ds n es : forall i f f',
  fill_strip vs tr has_uv ds n es i f = Ret f' ->
  grows f f' /\ (fill_ok f -> written f' < 4294967296 -> fill_ok f').
Proof.
  induction es as [|e1 es IH]; intros i f f'.
  { cbn [fill_strip]. intros [= <-]. unfold grows. split; [lia|done]. }
  cbn [fill_strip]. destruct es as [|e2 [|e3 rest]].
  1,2: intros [= <-]; unfold grows; split; [lia|done].
  cbv zeta. destruct (if Z.testbit i 0 then (e2, e1) else (e1, e2)) as [a b].
  destruct (vertex_at vs a.1) as [va|]; [|done].
  destruct (vertex_at vs b.1) as [vb|]; [|done].
  destruct (vertex_at vs e3.1) as [v3|]; [|done].
  destruct (n <=? _); [done|].
  set (f3 := mkFill (_ ++ [_]) _ _ _).
  pose proof (written_nonneg f) as Hnn.
  assert (Hw3 : written f3 = written f + 3).
  { unfold f3, written. cbn [f_verts put_vertex]. rewrite !length_app. cbn [length]. lia. }
  assert (Hstep : fill_ok f -> written f3 < 4294967296 -> fill_ok f3).
  { intros [Hcur Hall] Hfit. split.
    - change (f_cur f3) with (wrap32 (f_cur f + 3)). rewrite wrap32_small; lia.
    - unfold fill_ok. change (f_faces f3) with (f_faces f ++ [[f_cur f; wrap32 (f_cur f + 1); wrap32 (f_cur f + 2)]]).
      apply Forall_app. split.
      + apply (faces_ok_grows f); [unfold grows in *; lia|done].
      + constructor; [|constructor]. rewrite !wrap32_small by lia.
        repeat constructor; lia. }
  destruct ds.
  - destruct (buildBacksideOfFace _ f3) as [f4| | |] eqn:Hback; try done.
    intros Hloop. apply IH in Hloop as [Hg Hok].
    apply buildBacksideOfFace_ok in Hback as [Hg4 Hok4].
    split; [unfold grows in *; lia|]. intros Hf Hfit.
    apply Hok; [|done]. apply Hok4; [|unfold grows in *; lia].
    apply Hstep; [done|]. unfold grows in *. lia.
  - intros Hloop. apply IH in Hloop as [Hg Hok].
    split; [unfold grows in *; lia|]. intros Hf Hfit.
    apply Hok; [|done]. apply Hstep; [done|]. unfold grows in *. lia.
Qed.

Lemma fill_lines_ok vs has_uv closed all tmp todo : forall m it2 f f',
  fill_lines vs has_uv closed all tmp todo m it2 f = Ret f' ->
  grows f f' /\ (fill_ok f -> written f' < 4294967296 -> fill_ok f').
Proof.
  induction todo as [|todo IH]; intros m it2 f f'.
  { cbn [fill_lines]. intros [= <-]. unfold grows. split; [lia|done]. }
  cbn [fill_lines]. destruct it2 as [|e it2']; [done|].
  destruct (vertex_at vs e.1) as [v|]; [|done]. cbv zeta.
  destruct (if closed && (tmp - 1 =? m) then all else it2') as [|e' it3]; [done|].
  destruct (vertex_at vs e'.1) as [v'|]; [|done].
  set (f2 := put_vertex has_uv v' _ _). intros Hloop. apply IH in Hloop as [Hg Hok].
  pose proof (written_nonneg f) as Hnn.
  assert (Hw2 : written f2 = written f + 2).
  { unfold f2. rewrite !written_put_vertex. unfold written. cbn [f_verts]. lia. }
  split; [unfold grows in *; lia|]. intros [Hcur Hall] Hfit.
  apply Hok; [|done]. split.
  - change (f_cur f2) with (wrap32 (f_cur f + 2)).
    rewrite wrap32_small; unfold grows in *; lia.
  - change (f_faces f2) with (f_faces f ++ [[f_cur f; wrap32 (f_cur f + 1)]]).
    apply Forall_app. split.
    + apply (faces_ok_grows f); [unfold grows in *; lia|done].
    + constructor; [|constructor]. rewrite wrap32_small by (unfold grows in *; lia).
      repeat constructor; lia.
Qed.

Lemma fill_surfaces_ok vs tr has_uv n m ss : forall f f',
  fill_surfaces vs tr has_uv n m ss f = Ret f' ->
  grows f f' /\ (fill_ok f -> written f' < 4294967296 -> fill_ok f').
Proof.
  induction ss as [|src ss IH]; intros f f'.
  { cbn [fill_surfaces]. intros [= <-]. unfold grows. split; [lia|done]. }
  cbn [fill_surfaces]. cbv zeta. destruct (negb (m =? mat src)); [apply IH|].
  destruct (GetType src =? Polygon).
  { destruct (wrap32 _ =? 0).
    - intros Hrest. apply IH in Hrest as [Hg Hok]. split; [done|].
      intros [Hcur Hall] Hfit. apply Hok; [|done]. split; [done|].
      cbn [f_faces]. apply Forall_app. split; [done|]. by repeat constructor.
    - destruct (fill_polygon vs tr has_uv n (entries src) [] f)
        as [[face f1]| | |] eqn:Hpoly; try done.
      apply fill_polygon_ok in Hpoly as (Hg1 & Hfaces1 & Hok1).
      set (f2 := mkFill (_ ++ [face]) _ _ _).
      assert (Hstep : fill_ok f -> written f2 < 4294967296 -> fill_ok f2).
      { intros [Hcur Hall] Hfit. destruct (Hok1 Hcur Hfit ltac:(constructor)) as [Hc1 Hf1].
        split; [done|]. change (f_faces f2) with (f_faces f1 ++ [face]).
        rewrite Hfaces1. apply Forall_app. split; [by apply (faces_ok_grows f)|].
        by constructor. }
      destruct (_ =? Z.land _ _).
      + destruct (buildBacksideOfFace face f2) as [f3| | |] eqn:Hback; try done.
        apply buildBacksideOfFace_ok in Hback as [Hg3 Hok3].
        intros Hrest. apply IH in Hrest as [Hg Hok].
        split; [unfold grows in *; change (written f2) with (written f1) in *; lia|].
        intros Hf Hfit. apply Hok; [|done]. apply Hok3; [|unfold grows in *; lia].
        apply Hstep; [done|]. unfold grows in *. lia.
      + intros Hrest. apply IH in Hrest as [Hg Hok].
        split; [unfold grows in *; change (written f2) with (written f1) in *; lia|].
        intros Hf Hfit. apply Hok; [|done]. apply Hstep; [done|]. unfold grows in *. lia. }
  destruct (GetType src =? TriangleStrip).
  { destruct (_ <? 2); [done|].
    destruct (fill_strip _ _ _ _ _ _ _ f) as [f1| | |] eqn:Hstrip; try done.
    apply fill_strip_ok in Hstrip as [Hg1 Hok1].
    intros Hrest. apply IH in Hrest as [Hg Hok].
    split; [unfold grows in *; lia|]. intros Hf Hfit. apply Hok; [|done].
    apply Hok1; [done|]. unfold grows in *. lia. }
  destruct (fill_lines _ _ _ _ _ _ _ _ f) as [f1| | |] eqn:Hlines; try done.
  apply fill_lines_ok in Hlines as [Hg1 Hok1].
  intros Hrest. apply IH in Hrest as [Hg Hok].
  split; [unfold grows in *; lia|]. intros Hf Hfit. apply Hok; [|done].
  apply Hok1; [done|]. unfold grows in *. lia.
Qed.

(** *** The meshes *)

(** A mesh holds as many faces and vertices as it says, the indices of its
    faces are indices of its vertices and its material is one of the [nm]
    materials. *)
Definition mesh_ok (nm : nat) (m : aiMesh) : Prop :=
  length (mFaces m) = Z.to_nat (mNumFaces m)
  /\ length (mVertices m) = Z.to_nat (mNumVertices m)
  /\ Forall (Forall (fun i => 0 <= i < Z.of_nat (length (mVertices m)))) (mFaces m)
  /\ 0 <= mMaterialIndex m < Z.of_nat nm.

Definition conv_ok (c : Conv) : Prop :=
  Forall (mesh_ok (length (cv_materials c))) (cv_meshes c).

Lemma mesh_ok_more nm nm' m : (nm <= nm')%nat -> mesh_ok nm m -> mesh_ok nm' m.
Proof. intros Hle (H1 & H2 & H3 & H4). repeat split; try done; lia. Qed.

Lemma conv_ok_push c mesh mat :
  conv_ok c -> mesh_ok (S (length (cv_materials c))) mesh ->
  conv_ok (with_meshes c (cv_meshes c ++ [mesh]) (cv_materials c ++ [mat])).
Proof.
  intros Hc Hm. unfold conv_ok. cbn [cv_meshes cv_materials with_meshes].
  rewrite length_app. cbn [length]. rewrite Nat.add_1_r. apply Forall_app. split.
  - revert Hc. apply Forall_impl. intros m. apply mesh_ok_more. lia.
  - by constructor.
Qed.

Lemma build_meshes_ok o ss needMat : forall matIdx slots c slots' c',
  build_meshes o ss needMat matIdx slots c = Ret (slots', c') ->
  conv_ok c -> conv_ok c'.
Proof.
  induction needMat as [|[first second] rest IH]; intros matIdx slots c slots' c'.
  { cbn [build_meshes]. by intros [= _ <-]. }
  cbn [build_meshes]. destruct (first =? 0); [apply IH|].
  destruct (AI_MAX_ALLOC_aiFace <? first); [done|].
  destruct (second =? 0); [done|].
  destruct (Z.ltb_spec AI_MAX_ALLOC_aiVector3D second) as [|Hmax]; [done|].
  cbv zeta. destruct (fill_surfaces _ _ _ _ _ _ _) as [f| | |] eqn:Hfill; try done.
  destruct (Nat.ltb_spec (Z.to_nat first) (length (f_faces f))) as [|Hfaces]; [done|].
  destruct (Nat.ltb_spec (Z.to_nat second) (length (f_verts f))) as [|Hverts]; [done|].
  cbn [orb]. intros Hrest Hc. apply IH in Hrest; [done|]. apply conv_ok_push; [done|].
  apply fill_surfaces_ok in Hfill as [_ Hok].
  destruct Hok as [_ Hall].
  { split; [done|constructor]. }
  { unfold written, AI_MAX_ALLOC_aiVector3D in *. lia. }
  unfold mesh_ok. cbn [mFaces mVertices mNumFaces mNumVertices mMaterialIndex].
  unfold pad_faces, pad_verts. rewrite !length_app, !length_replicate.
  split; [lia|]. split; [lia|]. split; [|lia].
  apply Forall_app. split.
  - revert Hall. apply Forall_impl. intros face. apply Forall_impl. intros i.
    unfold written. lia.
  - apply Forall_replicate. constructor.
Qed.

Section conversion.
Variable Subdivide : list aiMesh -> Z -> list aiMesh.
Variable configEvalSubdivision : bool.
Variable nmat : nat.

(** The subdivision keeps meshes as described above. *)
Hypothesis Subdivide_ok : forall nm ms k,
  Forall (mesh_ok nm) ms -> Forall (mesh_ok nm) (Subdivide ms k).

Abbreviation convert_meshes := (AC3D.convert_meshes Subdivide configEvalSubdivision nmat).
Abbreviation ConvertObjectSection :=
  (AC3D.ConvertObjectSection Subdivide configEvalSubdivision nmat).

Lemma convert_meshes_ok o c slots c' :
  convert_meshes o c = Ret (slots, c') -> conv_ok c -> conv_ok c'.
Proof.
  unfold AC3D.convert_meshes. case_bool_decide; [by intros [= _ <-]|].
  destruct (_ || _).
  { cbv zeta. intros [= _ <-] Hc. apply conv_ok_push; [done|].
    pose proof (wrap32_le (Z.of_nat (length (o_vertices o))) ltac:(lia)) as Hn.
    unfold mesh_ok. cbn [mFaces mVertices mNumFaces mNumVertices mMaterialIndex].
    rewrite length_map, length_seq, length_take.
    split; [done|]. split; [lia|]. split; [|lia].
    apply Forall_forall. intros face Hin. apply in_map_iff in Hin as (i & <- & Hi).
    apply in_seq in Hi. constructor; [lia|constructor]. }
  destruct (count_surfaces _ _ _ _) as [[ss needMat] mNumMeshes].
  destruct (build_meshes o ss needMat 0 [] c) as [[slots1 c1]| | |] eqn:Hbuild; try done.
  destruct (_ <? _)%nat; [done|]. intros [= _ <-] Hc.
  apply build_meshes_ok in Hbuild; [|done].
  destruct (_ && _); [|done]. unfold conv_ok in *.
  cbn [cv_meshes cv_materials with_meshes]. apply Forall_app. split.
  - by apply Forall_take.
  - apply Subdivide_ok. by apply Forall_drop.
Qed.

(** The loop over the children inside [ConvertObjectSection]. *)
Definition convert_children (conv : Object -> Conv -> outcome (aiNode * Conv))
    : list Object -> Conv -> outcome (list aiNode * Conv) :=
  fix convert_children (os : list Object) (c : Conv) : outcome (list aiNode * Conv) :=
    match os with
    | [] => Ret ([], c)
    | k :: os' =>
        match conv k c with
        | Ret (n, c) =>
            match convert_children os' c with
            | Ret (ns, c) => Ret (n :: ns, c)
            | Throw m => Throw m
            | Undefined => Undefined
            | OutOfFuel => OutOfFuel
            end
        | Throw m => Throw m
        | Undefined => Undefined
        | OutOfFuel => OutOfFuel
        end
    end.

Lemma ConvertObjectSection_unfold o c :
  ConvertObjectSection o c =
  match convert_meshes o c with
  | Ret (slots, c) =>
      let '(name, c) := node_name o c in
      match convert_children ConvertObjectSection (o_children o) c with
      | Ret (ns, c) => Ret (mk_aiNode name slots ns, c)
      | Throw m => Throw m
      | Undefined => Undefined
      | OutOfFuel => OutOfFuel
      end
  | Throw m => Throw m
  | Undefined => Undefined
  | OutOfFuel => OutOfFuel
  end.
Proof. destruct o. reflexivity. Qed.

(** The height of an object. *)
Fixpoint object_height (o : Object) : nat :=
  match o with
  | mkObject _ _ children _ _ _ _ _ _ _ _ _ _ =>
      S (foldr Nat.max 0%nat (map object_height children))
  end.

Lemma object_height_child o k :
  k ∈ o_children o -> (object_height k < object_height o)%nat.
Proof.
  destruct o as [t nm children tex r1 r2 rot tr vs ss nr sd cr].
  cbn [o_children object_height]. intros Hk.
  induction children as [|k' children IH]; [by apply elem_of_nil in Hk|].
  cbn [map foldr]. apply elem_of_cons in Hk as [->|Hk]; [lia|].
  specialize (IH Hk). lia.
Qed.

Lemma node_name_ok o c : conv_ok c -> conv_ok (node_name o c).2.
Proof.
  intros Hc. unfold node_name. destruct (negb _); [done|]. by destruct (o_type o).
Qed.

Lemma ConvertObjectSection_ok o : forall c n c',
  ConvertObjectSection o c = Ret (n, c') -> conv_ok c -> conv_ok c'.
Proof.
  remember (object_height o) as h eqn:Hh. revert o Hh.
  induction (lt_wf h) as [h _ IH]. intros o -> c n c'.
  rewrite ConvertObjectSection_unfold.
  destruct (convert_meshes o c) as [[slots c1]| | |] eqn:Hmeshes; try done.
  pose proof (node_name_ok o c1) as Hname.
  destruct (node_name o c1) as [name c2]. cbn [snd] in Hname.
  destruct (convert_children _ _ c2) as [[ns c3]| | |] eqn:Hkids; try done.
  intros [= _ <-] Hc. apply convert_meshes_ok in Hmeshes; [|done].
  specialize (Hname Hmeshes).
  assert (Hall : forall os c ns c',
            (forall k, k ∈ os -> k ∈ o_children o) ->
            convert_children ConvertObjectSection os c = Ret (ns, c') ->
            conv_ok c -> conv_ok c').
  { clear -IH. induction os as [|k os IHos]; intros c ns c' Hsub.
    - cbn [convert_children]. by intros [= _ <-].
    - cbn [convert_children].
      destruct (ConvertObjectSection k c) as [[n1 c1]| | |] eqn:Hk; try done.
      destruct (convert_children _ os c1) as [[ns1 c2]| | |] eqn:Hos; try done.
      intros [= _ <-] Hc.
      apply (IHos c1 ns1 c2); [intros k' Hk'; apply Hsub; by right|done|].
      apply (IH (object_height k) (object_height_child o k (Hsub k ltac:(left)))
               k eq_refl c n1 c1 Hk Hc). }
  by apply (Hall (o_children o) c2 ns c3).
Qed.

End conversion.

End AC3D_fill.

(** X20 (ACLoader.cpp, [AC3DImporter::ConvertObjectSection] and
    [InternReadFile]).  When the subdivision keeps meshes well formed, every
    mesh of a scene that the import returns holds as many faces and
    vertices as [mNumFaces] and [mNumVertices] say, every index of its faces
    is an index of its vertices, and its material index is an index of the
    materials of the scene. *)
Theorem ac_meshes_valid `{Scanner.FloatParser B32.t}
    (Subdivide : list AC3D.aiMesh -> Z -> list AC3D.aiMesh) configEvalSubdivision
    fuel pFile file scene :
  (forall nm ms k, Forall (mesh_ok nm) ms -> Forall (mesh_ok nm) (Subdivide ms k)) ->
  AC3D.InternReadFile Subdivide configEvalSubdivision fuel pFile file = Ret scene ->
  Forall (mesh_ok (length (AC3D.sc_materials scene))) (AC3D.sc_meshes scene).
Proof.
  intros Hsub. unfold AC3D.InternReadFile. destruct file as [text|]; [|done].
  destruct (negb _); [done|].
  destruct (AC3D.read_file _ _ _ _) as [[[r materials] rootObjects]| | |]; try done.
  destruct (_ || _); [done|].
  destruct (AC3D.ConvertObjectSection _ _ _ _ _) as [[[name slots kids] c]| | |] eqn:Hconv;
    try done.
  case_bool_decide; [done|]. intros [= <-]. cbn [AC3D.sc_meshes AC3D.sc_materials].
  apply (ConvertObjectSection_ok Subdivide configEvalSubdivision _ Hsub) in Hconv; [done|].
  constructor.
Qed.

Definition ac_scene_or_empty (r : outcome AC3D.aiScene) : AC3D.aiScene :=
  match r with
  | Ret scene => scene
  | _ => AC3D.mk_aiScene (AC3D.mk_aiNode (AC3D.Text "-") [] []) [] [] []
  end.

(** The scene of a double-sided triangle and an open line. *)
Definition open_line_scene : AC3D.aiScene :=
  Eval vm_compute in
    ac_scene_or_empty
      (AC3D.InternReadFile (fun meshes _ => meshes) false
         (S (String.length ac_open_line)) "line.ac"
         (Some (list_ascii_of_string ac_open_line))).

Lemma ac_meshes_valid_witness :
  length (AC3D.sc_meshes open_line_scene) = 1%nat
  /\ Forall (mesh_ok 1) (AC3D.sc_meshes open_line_scene).
Proof.
  assert (Hr : AC3D.InternReadFile (fun meshes _ => meshes) false
                 (S (String.length ac_open_line)) "line.ac"
                 (Some (list_ascii_of_string ac_open_line)) = Ret open_line_scene)
    by (vm_compute; reflexivity).
  split; [reflexivity|].
  exact (ac_meshes_valid (fun meshes _ => meshes) false _ _ _ open_line_scene
           (fun nm ms k Hms => Hms) Hr).
Defined.

(** ** SMD: the reader ends *)

Section SMD_reader_ends.
Import Scanner SMD SMDFile.
#[local] Open Scope nat_scope.
Context {R : Type} `{FloatParser R}.

Implicit Types (l cur : list ascii).

(** The reader of reals leaves the cursor at or behind the place it was
    given. *)
Hypothesis reals_move_on : forall l, (fast_atoreal_move l).2 `suffix_of` l.

Lemma suffix_advanced l' l : l' `suffix_of` l -> advanced l' l.
Proof.
  intros [k ->]. destruct k as [|c k]; [by left|]. right.
  rewrite length_app. cbn [length]. lia.
Qed.

Lemma skip_spaces_suffix l : skip_spaces l `suffix_of` l.
Proof.
  induction l as [|c r IH]; cbn [skip_spaces]; [done|].
  destruct (IsSpace c); [by apply suffix_cons_r|done].
Qed.

Lemma skip_spaces_and_eols_suffix l : skip_spaces_and_eols l `suffix_of` l.
Proof.
  induction l as [|c r IH]; cbn [skip_spaces_and_eols]; [done|].
  destruct (_ || _); [by apply suffix_cons_r|done].
Qed.

Lemma skip_eols_suffix l : skip_eols l `suffix_of` l.
Proof.
  induction l as [|c r IH]; cbn [skip_eols]; [done|].
  destruct (_ || _); [by apply suffix_cons_r|done].
Qed.

Lemma skip_to_eol_suffix l : skip_to_eol l `suffix_of` l.
Proof.
  induction l as [|c r IH]; cbn [skip_to_eol]; [done|].
  destruct (_ || _); [done|by apply suffix_cons_r].
Qed.

Lemma SkipLine_suffix l : (SkipLine l).2 `suffix_of` l.
Proof.
  unfold SkipLine. cbn [snd]. etrans; [apply skip_eols_suffix|apply skip_to_eol_suffix].
Qed.

Lemma SkipSpaces_suffix l : (SkipSpaces l).2 `suffix_of` l.
Proof. apply skip_spaces_suffix. Qed.

Lemma SkipSpacesAndLineEnd_suffix l : (SkipSpacesAndLineEnd l).2 `suffix_of` l.
Proof. apply skip_spaces_and_eols_suffix. Qed.

Lemma take_until_suffix stop l : (LWS.take_until stop l).2 `suffix_of` l.
Proof.
  induction l as [|c r IH]; cbn [LWS.take_until]; [done|].
  destruct (stop c); [done|]. destruct (LWS.take_until stop r) as [a b].
  by apply suffix_cons_r.
Qed.

Lemma strtoul10_from_suffix v l : (strtoul10_from v l).2 `suffix_of` l.
Proof.
  revert v. induction l as [|c r IH]; intros v; cbn [strtoul10_from]; [done|].
  destruct (digit_val c); [|done]. by apply suffix_cons_r.
Qed.

Lemma strtoul10_suffix l : (strtoul10 l).2 `suffix_of` l.
Proof. apply strtoul10_from_suffix. Qed.

Lemma strtol10_suffix l : (strtol10 l).2 `suffix_of` l.
Proof.
  unfold strtol10. cbv zeta.
  set (l1 := if (_ || _ : bool) then drop 1 l else l).
  assert (Hl1 : l1 `suffix_of` l) by (unfold l1; destruct (_ || _); [apply suffix_drop|done]).
  pose proof (strtoul10_suffix l1) as Hl2. destruct (strtoul10 l1) as [u l2].
  cbn [snd] in *. by etrans.
Qed.

Lemma starts_with_length tok l : starts_with tok l = true -> length tok <= length l.
Proof.
  revert l. induction tok as [|t tok IH]; intros l; cbn [starts_with length]; [lia|].
  destruct l as [|c l]; [done|]. intros [_ Hrest]%andb_prop. apply IH in Hrest.
  cbn [length]. lia.
Qed.

(** A token that is matched is passed. *)
Lemma TokenMatch_suffix l tok l' :
  TokenMatch l tok = Some l' ->
  l' `suffix_of` l /\ (0 < String.length tok -> length l' < length l).
Proof.
  unfold TokenMatch. cbv zeta.
  destruct (strncmp_eq l tok) eqn:Hmatch; cbn [andb]; [|done].
  destruct (IsSpaceOrNewLine _); [|done].
  apply starts_with_length in Hmatch.
  assert (Hlen : length (list_ascii_of_string tok) = String.length tok).
  { clear. induction tok as [|c tok IH]; [done|]. cbn. by rewrite IH. }
  rewrite Hlen in Hmatch.
  destruct (_ =? _)%char; intros [= <-]; (split; [apply suffix_drop|]);
    rewrite length_drop; lia.
Qed.

(** The character under the cursor belongs to a line. *)
Definition on_line (c : ascii) : Prop :=
  ((c =? "013") || (c =? "010") || (c =? "000"))%char = false.

Lemma SkipLine_behind l c r :
  l `suffix_of` c :: r -> on_line c -> length (SkipLine l).2 < length (c :: r).
Proof. intros Hl Hc. apply SkipLine_after; [by apply suffix_advanced|done]. Qed.

Lemma ParseFloat_suffix cur x cur' : ParseFloat cur = Some (x, cur') -> cur' `suffix_of` cur.
Proof.
  unfold ParseFloat. pose proof (SkipSpaces_suffix cur) as Hs.
  destruct (SkipSpaces cur) as [ok c]. destruct ok; [|done].
  pose proof (reals_move_on c) as Hr. destruct (fast_atoreal_move c) as [y c'].
  intros [= _ <-]. cbn [snd] in *. by etrans.
Qed.

Lemma ParseUnsignedInt_suffix cur x cur' :
  ParseUnsignedInt cur = Some (x, cur') -> cur' `suffix_of` cur.
Proof.
  unfold ParseUnsignedInt. pose proof (SkipSpaces_suffix cur) as Hs.
  destruct (SkipSpaces cur) as [ok c]. destruct ok; [|done].
  pose proof (strtoul10_suffix c) as Hr. destruct (strtoul10 c) as [y c'].
  intros [= _ <-]. cbn [snd] in *. by etrans.
Qed.

Lemma ParseSignedInt_suffix cur x cur' :
  ParseSignedInt cur = Some (x, cur') -> cur' `suffix_of` cur.
Proof.
  unfold ParseSignedInt. pose proof (SkipSpaces_suffix cur) as Hs.
  destruct (SkipSpaces cur) as [ok c]. destruct ok; [|done].
  pose proof (strtol10_suffix c) as Hr. destruct (strtol10 c) as [y c'].
  intros [= _ <-]. cbn [snd] in *. by etrans.
Qed.

(** What [ParseVertex] returns: the cursor behind the line of some place at
    or behind the one it was given. *)
Definition line_behind (base : list ascii) (res : list ascii * SVertex (R:=R)) : Prop :=
  exists ck, ck `suffix_of` base /\ res.1 = (SkipLine ck).2.

Lemma parse_return_behind base cur v :
  cur `suffix_of` base -> line_behind base (parse_return cur v).
Proof. intros Hcur. by exists cur. Qed.

Lemma float_into_behind base set k cur v :
  cur `suffix_of` base ->
  (forall c v', c `suffix_of` base -> line_behind base (k c v')) ->
  line_behind base (float_into set k cur v).
Proof.
  intros Hcur Hk. unfold float_into.
  destruct (ParseFloat cur) as [[x c]|] eqn:Hx; [|by apply parse_return_behind].
  apply Hk. etrans; [by apply ParseFloat_suffix in Hx|done].
Qed.

Lemma parse_links_suffix cur acc todo : (parse_links cur acc todo).1 `suffix_of` cur.
Proof.
  revert cur acc. induction todo as [|[b w] rest IH]; intros cur acc;
    cbn [parse_links]; [done|].
  destruct (ParseUnsignedInt cur) as [[b' c1]|] eqn:Hb; [|done].
  apply ParseUnsignedInt_suffix in Hb.
  destruct (ParseFloat c1) as [[w' c2]|] eqn:Hw; [|done].
  apply ParseFloat_suffix in Hw. etrans; [apply IH|]. by etrans.
Qed.

Lemma links_tail_behind base cur (v : SVertex (R:=R)) :
  cur `suffix_of` base ->
  line_behind base
    match ParseUnsignedInt cur with
    | None => parse_return cur v
    | Some (iSize, cur) =>
        let todo := resize (Z.to_nat iSize) (0%Z, fzero) (aiBoneLinks v) in
        let '(cur, links) := parse_links cur [] todo in
        parse_return cur (with_links v links)
    end.
Proof.
  intros Hcur.
  destruct (ParseUnsignedInt cur) as [[iSize cz]|] eqn:Hsize; [|by apply parse_return_behind].
  apply ParseUnsignedInt_suffix in Hsize. cbv zeta.
  pose proof (parse_links_suffix cz []
                (resize (Z.to_nat iSize) (0%Z, fzero) (aiBoneLinks v))) as Hlinks.
  destruct (parse_links _ _ _) as [cy links]. cbn [fst] in Hlinks.
  apply parse_return_behind. etrans; [done|]. by etrans.
Qed.

Lemma ParseVertex_ends fuel cur v bVASection :
  exists res, ParseVertex (S fuel) cur v bVASection = Some res /\ line_behind cur res.
Proof.
  cbn [ParseVertex]. pose proof (SkipSpaces_suffix cur) as Hs.
  unfold SkipSpaces in *. cbv zeta in *. cbn [snd] in Hs.
  set (c0 := skip_spaces cur) in *.
  assert (Hdead : negb (IsLineEnd (peek c0)) && IsLineEnd (peek c0) = false)
    by by destruct (IsLineEnd (peek c0)).
  rewrite Hdead. eexists. split; [done|].
  destruct (ParseSignedInt c0) as [[p c1]|] eqn:Hp; [|by apply parse_return_behind].
  apply ParseSignedInt_suffix in Hp.
  do 6 (apply float_into_behind; [by repeat (etrans; [eassumption|])|intros ? ? ?]).
  destruct bVASection; [by apply parse_return_behind|].
  do 2 (apply float_into_behind; [done|intros ? ? ?]).
  by apply links_tail_behind.
Qed.

(** Where [SkipSpacesAndLineEnd] reports content the cursor stands on a
    character that is no blank and ends no line, the form feed apart. *)
Definition at_token (c : ascii) : Prop :=
  ((c =? " ") || (c =? "009") || (c =? "013") || (c =? "010") || (c =? "000"))%char = false.

Lemma SkipSpacesAndLineEnd_token l l' :
  SkipSpacesAndLineEnd l = (true, l') ->
  l' `suffix_of` l /\ exists c r, l' = c :: r /\ at_token c.
Proof.
  unfold SkipSpacesAndLineEnd. intros [= Hmore <-].
  split; [apply skip_spaces_and_eols_suffix|].
  induction l as [|c r IH]; cbn [skip_spaces_and_eols peek] in *; [done|].
  destruct ((c =? " ") || (c =? "009") || (c =? "013") || (c =? "010"))%char eqn:Hc.
  - by apply IH.
  - exists c, r. split; [done|]. cbn [peek] in Hmore. unfold NUL in Hmore.
    apply negb_true_iff in Hmore. unfold at_token. by rewrite Hc, Hmore.
Qed.

Lemma at_token_on_line c : at_token c -> on_line c.
Proof.
  unfold at_token, on_line. intros Hc.
  repeat (apply orb_false_elim in Hc as [Hc ?]). by repeat (apply orb_false_intro).
Qed.

Lemma at_token_no_space c : at_token c -> IsSpace c = false.
Proof.
  unfold at_token, IsSpace. intros Hc.
  repeat (apply orb_false_elim in Hc as [Hc ?]). by repeat (apply orb_false_intro).
Qed.

Lemma at_token_in_line c : at_token c -> c <> form_feed -> IsLineEnd c = false.
Proof.
  unfold at_token, IsLineEnd. intros Hc Hff.
  repeat (apply orb_false_elim in Hc as [Hc ?]).
  repeat (apply orb_false_intro); try done. by apply Ascii.eqb_neq.
Qed.

Lemma line_behind_shorter base (res : list ascii * SVertex (R:=R)) :
  line_behind base res -> res.1 `suffix_of` base.
Proof. intros (ck & Hck & ->). etrans; [apply SkipLine_suffix|done]. Qed.

Section with_names.
Variable stricmp_eq : string -> string -> bool.

Lemma ParseTriangle_ends c r (st : Importer (R:=R)) :
  at_token c -> c <> form_feed ->
  exists cur' st',
    SMDFile.ParseTriangle stricmp_eq (c :: r) st = Some (cur', st')
    /\ cur' `suffix_of` r.
Proof.
  intros Hc Hff. unfold SMDFile.ParseTriangle, SkipSpaces. cbn [skip_spaces].
  rewrite (at_token_no_space c Hc). cbn [peek]. rewrite (at_token_in_line c Hc Hff).
  cbn [negb drop]. change (drop 0 r) with r.
  pose proof (take_until_suffix IsSpaceOrNewLine r) as Hname.
  destruct (LWS.take_until IsSpaceOrNewLine r) as [name c1]. cbn [snd] in Hname.
  destruct (SMDFile.GetTextureIndex _ _ _) as [iIndex textures].
  pose proof (SkipSpacesAndLineEnd_suffix c1) as H2.
  set (c2 := (SkipSpacesAndLineEnd c1).2) in *.
  destruct (ParseVertex_ends (length c2) c2 default_vertex false) as ([c3 v0] & -> & H3).
  apply line_behind_shorter in H3. cbn [fst] in H3.
  destruct (ParseVertex_ends (length c3) c3 default_vertex false) as ([c4 v1] & -> & H4).
  apply line_behind_shorter in H4. cbn [fst] in H4.
  destruct (ParseVertex_ends (length c4) c4 default_vertex false) as ([c5 v2] & -> & H5).
  apply line_behind_shorter in H5. cbn [fst] in H5.
  eexists _, _. split; [done|]. by repeat (etrans; [eassumption|]).
Qed.

Lemma triangles_loop_ends text fuel cur (st : Importer (R:=R)) :
  form_feed ∉ text -> cur `suffix_of` text -> length cur < fuel ->
  exists cur' st',
    SMDFile.triangles_loop stricmp_eq fuel cur st = Ret (cur', st')
    /\ cur' `suffix_of` cur.
Proof.
  intros Hff. revert cur st. induction fuel as [|fuel IH]; intros cur st Hcur Hfuel; [lia|].
  cbn [SMDFile.triangles_loop].
  destruct (SkipSpacesAndLineEnd cur) as [[] c1] eqn:Hs; cbn [negb].
  2:{ eexists _, _. split; [done|].
      pose proof (SkipSpacesAndLineEnd_suffix cur) as Hc1. by rewrite Hs in Hc1. }
  apply SkipSpacesAndLineEnd_token in Hs as (Hc1 & c & r & -> & Hc).
  destruct (TokenMatch (c :: r) "end") as [c2|] eqn:Hend.
  { apply TokenMatch_suffix in Hend as [Hc2 _]. eexists _, _. split; [done|]. by etrans. }
  destruct (ParseTriangle_ends c r st Hc) as (c2 & st2 & -> & Hc2).
  { intros ->. apply Hff. apply (elem_of_suffix (form_feed :: r)); [left|by etrans]. }
  pose proof (suffix_length _ _ Hc1) as Hl1. pose proof (suffix_length _ _ Hc2) as Hl2.
  cbn [length] in Hl1.
  destruct (IH c2 st2) as (c3 & st3 & -> & Hc3); [|lia|].
  { etrans; [done|]. etrans; [by apply suffix_cons_r|]. by etrans. }
  eexists _, _. split; [done|].
  etrans; [done|]. etrans; [done|]. etrans; [by apply suffix_cons_r|done].
Qed.

Variable default_bone : Bone (R:=R).

Lemma bone_name_suffix bQuota l name szEnd :
  bone_name bQuota l = Some (name, szEnd) -> szEnd `suffix_of` l.
Proof.
  revert name szEnd. induction l as [|c r IH]; intros name szEnd; cbn [bone_name].
  { destruct bQuota; [done|]. by intros [= _ <-]. }
  destruct (bQuota && _); [intros [= _ <-]; by apply suffix_cons_r|].
  destruct (negb bQuota && _); [by intros [= _ <-]|].
  destruct (_ =? _)%char; [done|].
  destruct (bone_name bQuota r) as [[n e]|]; [|done].
  intros [= _ <-]. apply suffix_cons_r. by apply (IH n).
Qed.

(** A line of the nodes section is passed or refused. *)
Lemma ParseNodeInfo_ends cur (st : Importer (R:=R)) :
  (exists cur' st',
     SMDFile.ParseNodeInfo default_bone cur st = Ret (cur', st')
     /\ cur' `suffix_of` cur /\ length cur' < length cur)
  \/ SMDFile.ParseNodeInfo default_bone cur st = Throw bone_index_error.
Proof.
  unfold SMDFile.ParseNodeInfo. cbv zeta.
  pose proof (SkipSpacesAndLineEnd_suffix cur) as H1.
  set (c1 := (SkipSpacesAndLineEnd cur).2) in *.
  unfold ParseUnsignedInt, SkipSpaces.
  pose proof (skip_spaces_suffix c1) as H2. set (c2 := skip_spaces c1) in *.
  destruct (IsLineEnd (peek c2)) eqn:Hline; cbn [negb]; [by right|].
  destruct c2 as [|c0 r0] eqn:Hc2; [done|]. cbn [peek] in Hline.
  assert (Hc0 : on_line c0).
  { unfold on_line. unfold IsLineEnd in Hline.
    repeat (apply orb_false_elim in Hline as [Hline ?]).
    by repeat (apply orb_false_intro). }
  pose proof (strtoul10_suffix (c0 :: r0)) as H3.
  destruct (strtoul10 (c0 :: r0)) as [iBone c3]. cbn [snd] in H3.
  pose proof (skip_spaces_suffix c3) as H4. set (c4 := skip_spaces c3) in *.
  destruct (IsLineEnd (peek c4)); cbn [negb]; [by right|]. left.
  assert (Hbase : c0 :: r0 `suffix_of` cur) by by etrans.
  assert (Hret : forall ck, ck `suffix_of` c0 :: r0 ->
            (SkipLine ck).2 `suffix_of` cur /\ length (SkipLine ck).2 < length cur).
  { intros ck Hck. split.
    - etrans; [apply SkipLine_suffix|]. by etrans.
    - pose proof (SkipLine_behind ck c0 r0 Hck Hc0).
      pose proof (suffix_length _ _ Hbase). lia. }
  assert (H5 : c4 `suffix_of` c0 :: r0) by by etrans.
  destruct (iBone =? UINT_MAX)%Z; [eexists _, _; split; [done|]; by apply Hret|].
  set (c5 := if (peek c4 =? quotation_mark)%char then drop 1 c4 else c4).
  assert (H6 : c5 `suffix_of` c0 :: r0).
  { unfold c5. destruct (_ =? _)%char; [|done]. etrans; [apply suffix_drop|done]. }
  destruct (bone_name _ c5) as [[name szEnd]|] eqn:Hname.
  2:{ eexists _, _. split; [done|]. by apply Hret. }
  apply bone_name_suffix in Hname.
  destruct (ParseSignedInt szEnd) as [[p c6]|] eqn:Hp.
  - apply ParseSignedInt_suffix in Hp. eexists _, _. split; [done|].
    apply Hret. etrans; [done|]. by etrans.
  - eexists _, _. split; [done|]. apply Hret. by etrans.
Qed.

Lemma nodes_loop_ends fuel cur (st : Importer (R:=R)) :
  length cur < fuel ->
  (exists cur' st',
     SMDFile.nodes_loop default_bone fuel cur st = Ret (cur', st')
     /\ cur' `suffix_of` cur)
  \/ SMDFile.nodes_loop default_bone fuel cur st = Throw bone_index_error.
Proof.
  revert cur st. induction fuel as [|fuel IH]; intros cur st Hfuel; [lia|].
  cbn [SMDFile.nodes_loop]. destruct (_ && _).
  { left. eexists _, _. split; [done|]. apply suffix_drop. }
  destruct (ParseNodeInfo_ends cur st) as [(c1 & st1 & -> & Hc1 & Hlt)| ->]; [|by right].
  destruct (IH c1 st1) as [(c2 & st2 & -> & Hc2)| ->]; [lia| |by right].
  left. eexists _, _. split; [done|]. by etrans.
Qed.

(** A line of the skeleton section is passed. *)
Lemma ParseSkeletonElement_ends c r (st : Importer (R:=R)) iTime :
  on_line c ->
  (ParseSkeletonElement (c :: r) st iTime).1 `suffix_of` c :: r
  /\ length (ParseSkeletonElement (c :: r) st iTime).1 < length (c :: r).
Proof.
  intros Hc.
  assert (Hret : forall ck, ck `suffix_of` c :: r ->
            (SkipLine ck).2 `suffix_of` c :: r
            /\ length (SkipLine ck).2 < length (c :: r)).
  { intros ck Hck. split; [etrans; [apply SkipLine_suffix|done]|].
    by apply SkipLine_behind. }
  unfold SMDFile.ParseSkeletonElement.
  destruct (ParseUnsignedInt (c :: r)) as [[iBone c1]|] eqn:Hbone; [|by apply Hret].
  apply ParseUnsignedInt_suffix in Hbone.
  destruct (_ <=? iBone)%Z; [by apply Hret|]. cbv zeta.
  assert (Hfloat : forall (A : Type) (P : A -> Prop) cur fail k,
            cur `suffix_of` c :: r ->
            (forall ck, ck `suffix_of` c :: r -> P (fail ck)) ->
            (forall x ck, ck `suffix_of` c :: r -> P (k x ck)) ->
            P (float_then cur fail k)).
  { intros A P cur fail k Hcur Hfail Hk. unfold float_then.
    destruct (ParseFloat cur) as [[x ck]|] eqn:Hx; [|by apply Hfail].
    apply Hk. etrans; [by apply ParseFloat_suffix in Hx|done]. }
  do 6 (apply Hfloat; [done|by intros; apply Hret|intros ? ? ?]).
  by apply Hret.
Qed.

Lemma ParseSkeletonSection_ends fuel cur (st : Importer (R:=R)) iTime :
  length cur < fuel ->
  exists cur' st',
    ParseSkeletonSection fuel cur st iTime = Ret (cur', st') /\ cur' `suffix_of` cur.
Proof.
  revert cur st iTime. induction fuel as [|fuel IH]; intros cur st iTime Hfuel; [lia|].
  cbn [SMDFile.ParseSkeletonSection].
  destruct (SkipSpacesAndLineEnd cur) as [[] c1] eqn:Hs; cbn [negb].
  2:{ eexists _, _. split; [done|].
      pose proof (SkipSpacesAndLineEnd_suffix cur) as Hc1. by rewrite Hs in Hc1. }
  apply SkipSpacesAndLineEnd_token in Hs as (Hc1 & c & r & -> & Hc).
  pose proof (suffix_length _ _ Hc1) as Hl1.
  destruct (TokenMatch (c :: r) "end") as [c2|] eqn:Hend.
  { apply TokenMatch_suffix in Hend as [Hc2 _]. eexists _, _. split; [done|]. by etrans. }
  destruct (TokenMatch (c :: r) "time") as [c2|] eqn:Htime.
  - apply TokenMatch_suffix in Htime as [Hc2 Hlt]. specialize (Hlt ltac:(cbn; lia)).
    destruct (ParseSignedInt c2) as [[t c3]|] eqn:Ht.
    2:{ eexists _, _. split; [done|]. by etrans. }
    apply ParseSignedInt_suffix in Ht.
    pose proof (SkipLine_suffix c3) as H4.
    pose proof (suffix_length _ _ Ht). pose proof (suffix_length _ _ H4).
    destruct (IH (SkipLine c3).2 (with_smallest st (Z.min (iSmallestFrame st) t)) t)
      as (c5 & st5 & -> & Hc5); [lia|].
    eexists _, _. split; [done|]. by repeat (etrans; [eassumption|]).
  - destruct (ParseSkeletonElement_ends c r st iTime (at_token_on_line c Hc)) as [Hc2 Hlt].
    destruct (ParseSkeletonElement (c :: r) st iTime) as [c2 st2]. cbn [fst] in *.
    destruct (IH c2 st2 iTime) as (c3 & st3 & -> & Hc3); [lia|].
    eexists _, _. split; [done|]. by repeat (etrans; [eassumption|]).
Qed.

Ltac suffix_chain :=
  solve [repeat first [eassumption | reflexivity | etrans; [eassumption|]]].

Lemma set_back_vertex_nonempty (tris : list (SFace (R:=R))) i v :
  tris <> [] -> set_back_vertex tris i v <> [].
Proof.
  intros Hne. unfold set_back_vertex.
  destruct (reverse tris) as [|f tl] eqn:Hrev.
  { apply (f_equal reverse) in Hrev. by rewrite reverse_involutive in Hrev. }
  destruct (avVertices f) as [[a b] c]. by destruct (reverse tl).
Qed.

Lemma get_back_vertex_some (tris : list (SFace (R:=R))) i :
  tris <> [] -> is_Some (get_back_vertex tris i).
Proof.
  intros Hne. unfold get_back_vertex.
  destruct (reverse tris) as [|f tl] eqn:Hrev.
  { apply (f_equal reverse) in Hrev. by rewrite reverse_involutive in Hrev. }
  by destruct (avVertices f) as [[a b] c].
Qed.

Lemma VA_loop_ends fuel configFrameID cur (tris : list (SFace (R:=R))) i :
  length cur < fuel -> i = 0%Z \/ tris <> [] ->
  exists cur' tris' i',
    VA_loop fuel configFrameID cur tris i = Some (cur', tris', i')
    /\ cur' `suffix_of` cur.
Proof.
  revert cur tris i. induction fuel as [|fuel IH]; intros cur tris i Hfuel Hinv; [lia|].
  cbn [VA_loop].
  destruct (SkipSpacesAndLineEnd cur) as [[] c1] eqn:Hs; cbn [negb].
  2:{ eexists _, _, _. split; [done|].
      pose proof (SkipSpacesAndLineEnd_suffix cur) as Hc1. by rewrite Hs in Hc1. }
  apply SkipSpacesAndLineEnd_token in Hs as (Hc1 & c & r & -> & Hc).
  pose proof (suffix_length _ _ Hc1) as Hl1.
  destruct (TokenMatch (c :: r) "end") as [c2|] eqn:Hend.
  { apply TokenMatch_suffix in Hend as [Hc2 _]. eexists _, _, _. split; [done|]. by etrans. }
  destruct (TokenMatch (c :: r) "time") as [c2|] eqn:Htime.
  - apply TokenMatch_suffix in Htime as [Hc2 Hlt]. specialize (Hlt ltac:(cbn; lia)).
    destruct (ParseSignedInt c2) as [[t c3]|] eqn:Ht.
    2:{ eexists _, _, _. split; [done|]. by etrans. }
    apply ParseSignedInt_suffix in Ht.
    destruct (negb _).
    { eexists _, _, _. split; [done|]. suffix_chain. }
    pose proof (SkipLine_suffix c3) as H4.
    pose proof (suffix_length _ _ Ht). pose proof (suffix_length _ _ H4).
    destruct (IH (SkipLine c3).2 tris i) as (c5 & t5 & i5 & -> & Hc5); [lia|done|].
    eexists _, _, _. split; [done|]. suffix_chain.
  - cbv zeta. set (tris1 := if (i =? 0)%Z then tris ++ [default_face] else tris).
    assert (Hne : tris1 <> []).
    { unfold tris1. destruct (Z.eqb_spec i 0) as [|Hi]; [by destruct tris|].
      by destruct Hinv. }
    set (i1 := if (i + 1 =? 3)%Z then 0%Z else (i + 1)%Z).
    destruct (get_back_vertex_some tris1 i1 Hne) as [v ->].
    destruct (ParseVertex_ends (length (c :: r)) (c :: r) v true) as ([c2 v'] & -> & Hline).
    destruct Hline as (ck & Hck & Hres). cbn [fst] in Hres. subst c2.
    pose proof (SkipLine_behind ck c r Hck (at_token_on_line c Hc)) as Hlt.
    destruct (IH (SkipLine ck).2 (set_back_vertex tris1 i1 v') i1)
      as (c5 & t5 & i5 & -> & Hc5); [lia|right; by apply set_back_vertex_nonempty|].
    eexists _, _, _. split; [done|].
    etrans; [done|]. etrans; [apply SkipLine_suffix|]. by etrans.
Qed.

Lemma ParseVASection_ends fuel configFrameID cur (tris : list (SFace (R:=R))) :
  length cur < fuel ->
  exists cur' tris',
    ParseVASection fuel configFrameID cur tris = Some (cur', tris')
    /\ cur' `suffix_of` cur.
Proof.
  intros Hfuel. unfold ParseVASection.
  destruct (VA_loop_ends fuel configFrameID cur tris 0 Hfuel ltac:(by left))
    as (c1 & t1 & i1 & -> & Hc1).
  eexists _, _. split; [done|]. etrans; [apply SkipSpacesAndLineEnd_suffix|done].
Qed.

(** The reader passes every section and ends. *)
Lemma ParseFile_ends text fuel configFrameID cur (st : Importer (R:=R)) :
  form_feed ∉ text -> cur `suffix_of` text -> length cur < fuel ->
  (exists st', SMDFile.ParseFile stricmp_eq default_bone fuel configFrameID cur st = Ret st')
  \/ SMDFile.ParseFile stricmp_eq default_bone fuel configFrameID cur st
     = Throw bone_index_error.
Proof.
  intros Hff. revert cur st. induction fuel as [|fuel IH]; intros cur st Hcur Hfuel; [lia|].
  cbn [SMDFile.ParseFile].
  destruct (SkipSpacesAndLineEnd cur) as [[] c1] eqn:Hs; cbn [negb]; [|left; by eexists].
  apply SkipSpacesAndLineEnd_token in Hs as (Hc1 & c & r & -> & Hc).
  pose proof (suffix_length _ _ Hc1) as Hl1.
  assert (Hbase : c :: r `suffix_of` text) by by etrans.
  assert (Hnext : forall c2 st2, c2 `suffix_of` c :: r -> length c2 < length (c :: r) ->
            (exists st', SMDFile.ParseFile stricmp_eq default_bone fuel configFrameID c2 st2
                         = Ret st')
            \/ SMDFile.ParseFile stricmp_eq default_bone fuel configFrameID c2 st2
               = Throw bone_index_error).
  { intros c2 st2 Hc2 Hlt. apply IH; [by etrans|lia]. }
  destruct (TokenMatch (c :: r) "version") as [c2|] eqn:Hversion.
  { apply TokenMatch_suffix in Hversion as [Hc2 Hlt]. specialize (Hlt ltac:(cbn; lia)).
    pose proof (SkipSpaces_suffix c2) as H3. destruct (SkipSpaces c2) as [ok c3].
    cbn [snd] in H3. destruct ok; cbn [negb]; [|left; by eexists].
    pose proof (strtoul10_suffix c3) as H4.
    pose proof (suffix_length _ _ H3). pose proof (suffix_length _ _ H4).
    apply Hnext; [|lia]. suffix_chain. }
  destruct (TokenMatch (c :: r) "nodes") as [c2|] eqn:Hnodes.
  { apply TokenMatch_suffix in Hnodes as [Hc2 Hlt]. specialize (Hlt ltac:(cbn; lia)).
    unfold SMDFile.ParseNodesSection.
    destruct (nodes_loop_ends (S fuel) c2 st) as [(c3 & st3 & -> & Hc3)| ->];
      [lia| |by right].
    pose proof (SkipSpacesAndLineEnd_suffix c3) as H4.
    pose proof (suffix_length _ _ Hc3). pose proof (suffix_length _ _ H4).
    apply Hnext; [|lia]. suffix_chain. }
  destruct (TokenMatch (c :: r) "triangles") as [c2|] eqn:Htriangles.
  { apply TokenMatch_suffix in Htriangles as [Hc2 Hlt]. specialize (Hlt ltac:(cbn; lia)).
    unfold SMDFile.ParseTrianglesSection.
    destruct (triangles_loop_ends text (S fuel) c2 st Hff) as (c3 & st3 & -> & Hc3);
      [by etrans|lia|].
    pose proof (SkipSpacesAndLineEnd_suffix c3) as H4.
    pose proof (suffix_length _ _ Hc3). pose proof (suffix_length _ _ H4).
    apply Hnext; [|lia]. suffix_chain. }
  destruct (TokenMatch (c :: r) "vertexanimation") as [c2|] eqn:Hva.
  { apply TokenMatch_suffix in Hva as [Hc2 Hlt]. specialize (Hlt ltac:(cbn; lia)).
    destruct (ParseVASection_ends (S fuel) configFrameID c2 (asTriangles st))
      as (c3 & t3 & -> & Hc3); [lia|].
    pose proof (suffix_length _ _ Hc3).
    apply Hnext; [|lia]. by etrans. }
  destruct (TokenMatch (c :: r) "skeleton") as [c2|] eqn:Hskeleton.
  { apply TokenMatch_suffix in Hskeleton as [Hc2 Hlt]. specialize (Hlt ltac:(cbn; lia)).
    destruct (ParseSkeletonSection_ends (S fuel) c2 st 0) as (c3 & st3 & -> & Hc3); [lia|].
    pose proof (suffix_length _ _ Hc3).
    apply Hnext; [|lia]. by etrans. }
  apply Hnext; [apply SkipLine_suffix|]. by apply SkipLine_moves, at_token_on_line.
Qed.

End with_names.

(** X21 (SMDLoader.cpp, [SMDImporter::ReadSmd], [ParseFile] and the
    readers of the sections).  When the reader of reals never moves the
    cursor back, the reader of a text without form feed ends once its loops
    may run longer than the text: it returns the importer's tables or
    throws the error of a bone index that cannot be read. *)
Theorem smd_reader_ends (stricmp_eq : string -> string -> bool)
    (default_bone : Bone (R:=R)) fuel configFrameID pFile text :
  form_feed ∉ text -> length text < fuel ->
  (exists st,
     SMDFile.ReadSmd stricmp_eq default_bone fuel configFrameID pFile (Some text) = Ret st)
  \/ SMDFile.ReadSmd stricmp_eq default_bone fuel configFrameID pFile (Some text)
     = Throw bone_index_error.
Proof.
  intros Hff Hfuel. unfold SMDFile.ReadSmd.
  by apply (ParseFile_ends stricmp_eq default_bone text).
Qed.

End SMD_reader_ends.

Lemma no_form_feed (text : list ascii) :
  forallb (fun c => negb (Ascii.eqb c form_feed)) text = true -> form_feed ∉ text.
Proof.
  intros Hall Hin. apply list_elem_of_In in Hin.
  apply (proj1 (forallb_forall _ _) Hall) in Hin. by rewrite Ascii.eqb_refl in Hin.
Qed.

Lemma IntegerReals_move_on (l : list ascii) :
  (Scanner.fast_atoreal_move (R:=B32.t) l).2 `suffix_of` l.
Proof.
  cbn. pose proof (strtol10_suffix l) as Hl. by destruct (Scanner.strtol10 l).
Qed.

Lemma smd_reader_ends_witness :
  (exists st,
     SMDFile.ReadSmd same_name unnamed_bone 300 0 "a.smd" (Some smd_text) = Ret st)
  \/ SMDFile.ReadSmd same_name unnamed_bone 300 0 "a.smd" (Some smd_text)
     = Throw SMDFile.bone_index_error.
Proof.
  apply (smd_reader_ends IntegerReals_move_on same_name unnamed_bone 300 0 "a.smd" smd_text).
  - apply no_form_feed. vm_compute. reflexivity.
  - vm_compute. lia.
Defined.

(** ** STL: the reader of the text flavour ends *)

Section STL_ascii_ends.
Import Scanner STL.
#[local] Open Scope nat_scope.
Context `{FloatParser B32.t}.

Implicit Types (sz : list ascii).

(** The reader of reals leaves the cursor at or behind the place it was
    given. *)
Hypothesis reals_move_on : forall sz, (fast_atoreal_move sz).2 `suffix_of` sz.

(** The errors of the reader of the text flavour. *)
Definition ascii_errors : list string :=
  ["STL: unexpected EOF while parsing facet"; "STL: Node name too long";
   "STL: Invalid number of vertices";
   "Normal buffer size does not match position buffer size"]%string.

Lemma read_vec3_suffix sz : (read_vec3 sz).2 `suffix_of` sz.
Proof.
  unfold read_vec3.
  pose proof (SkipSpaces_suffix sz) as H1. set (s1 := (SkipSpaces sz).2) in *.
  pose proof (reals_move_on s1) as H2. destruct (fast_atoreal_move s1) as [x s2].
  cbn [snd] in H2.
  pose proof (SkipSpaces_suffix s2) as H3. set (s3 := (SkipSpaces s2).2) in *.
  pose proof (reals_move_on s3) as H4. destruct (fast_atoreal_move s3) as [y s4].
  cbn [snd] in H4.
  pose proof (SkipSpaces_suffix s4) as H5. set (s5 := (SkipSpaces s4).2) in *.
  pose proof (reals_move_on s5) as H6. destruct (fast_atoreal_move s5) as [z s6].
  cbn [snd] in *. by repeat (etrans; [eassumption|]).
Qed.

Lemma drop_shorter {A} (n : nat) (c : A) (r : list A) l :
  l `suffix_of` drop (S n) (c :: r) -> length l < length (c :: r).
Proof.
  intros Hl. apply suffix_length in Hl. cbn [drop length] in *.
  rewrite length_drop in Hl. lia.
Qed.

(** The loop over the tokens of a solid ends behind the place it began. *)
Lemma read_solid_ends fuel sz counter positions normals :
  length sz < fuel ->
  (exists sz' positions' normals',
     read_solid fuel sz counter positions normals = Ret (sz', positions', normals')
     /\ sz' `suffix_of` sz)
  \/ exists m, read_solid fuel sz counter positions normals = Throw m /\ m ∈ ascii_errors.
Proof.
  revert sz counter positions normals.
  induction fuel as [|fuel IH]; intros sz counter positions normals Hfuel; [lia|].
  cbn [read_solid].
  destruct (SkipSpacesAndLineEnd sz) as [[] s1] eqn:Hs; cbn [negb].
  2:{ left. eexists _, _, _. split; [done|].
      pose proof (SkipSpacesAndLineEnd_suffix sz) as Hs1. by rewrite Hs in Hs1. }
  apply SkipSpacesAndLineEnd_token in Hs as (Hs1 & c & r & -> & Hc).
  pose proof (suffix_length _ _ Hs1) as Hl1.
  assert (Hnext : forall s2 counter2 positions2 normals2,
            s2 `suffix_of` c :: r -> length s2 < length (c :: r) ->
            (exists sz' positions' normals',
               read_solid fuel s2 counter2 positions2 normals2
               = Ret (sz', positions', normals')
               /\ sz' `suffix_of` sz)
            \/ exists m, read_solid fuel s2 counter2 positions2 normals2 = Throw m
                         /\ m ∈ ascii_errors).
  { intros s2 counter2 positions2 normals2 Hs2 Hlt.
    destruct (IH s2 counter2 positions2 normals2) as [(s3 & p3 & n3 & -> & Hs3)|Hthrow];
      [lia| |by right].
    left. eexists _, _, _. split; [done|]. etrans; [done|]. by etrans. }
  assert (Hdrop : forall n l, l `suffix_of` drop (S n) (c :: r) ->
            l `suffix_of` c :: r /\ length l < length (c :: r)).
  { intros n l Hl. split; [etrans; [done|apply suffix_drop]|by apply (drop_shorter n)]. }
  destruct (_ && _ && _).
  { pose proof (SkipSpaces_suffix (drop 6 (c :: r))) as H2.
    set (s2 := (SkipSpaces (drop 6 (c :: r))).2) in *.
    destruct (Hdrop 5 s2 H2) as [Hs2 Hlt2].
    destruct (negb _); [by apply Hnext|].
    destruct (_ =? _)%char.
    { right. eexists. split; [done|]. unfold ascii_errors. by repeat constructor. }
    pose proof (read_vec3_suffix (drop 7 s2)) as H3.
    destruct (read_vec3 (drop 7 s2)) as [vn s3]. cbn [snd] in H3.
    assert (H4 : s3 `suffix_of` s2) by (etrans; [done|apply suffix_drop]).
    pose proof (suffix_length _ _ H4).
    apply Hnext; [by etrans|lia]. }
  destruct (_ && _).
  { destruct (3 <=? counter)%Z.
    { destruct (Hdrop 0 (drop 1 (c :: r))) as [Hs2 Hlt2]; [done|]. by apply Hnext. }
    destruct (_ =? _)%char.
    { right. eexists. split; [done|]. unfold ascii_errors. by repeat constructor. }
    pose proof (read_vec3_suffix (drop 7 (c :: r))) as H3.
    destruct (read_vec3 (drop 7 (c :: r))) as [v s3]. cbn [snd] in H3.
    destruct (Hdrop 6 s3 H3) as [Hs3 Hlt3]. by apply Hnext. }
  destruct (strncmp_eq (c :: r) "endsolid").
  { left. eexists _, _, _. split; [done|].
    etrans; [apply SkipSpacesAndLineEnd_suffix|].
    etrans; [apply take_until_suffix|]. etrans; [apply suffix_drop|done]. }
  pose proof (take_until_suffix IsSpaceOrNewLine (drop 1 (c :: r))) as H2.
  destruct (Hdrop 0 _ H2) as [Hs2 Hlt2]. by apply Hnext.
Qed.

Lemma IsAsciiSTL_solid char_signed sz size :
  IsAsciiSTL char_signed sz size = Some true ->
  strncmp_eq (SkipSpaces sz).2 "solid" = true.
Proof.
  unfold IsAsciiSTL. destruct (IsBinarySTL sz size); [done|].
  destruct (SkipSpaces sz) as [ok s1]. cbn [snd]. destruct ok; cbn [negb]; [|done].
  destruct (_ <=? _)%Z; [done|]. cbv zeta.
  destruct (strncmp_eq s1 "solid"); [done|]. cbn [andb]. by intros [= ?].
Qed.

(** The bytes behind the buffer are only looked at when [BufferSize] bytes
    or more are said to be left. *)
Lemma IsAsciiSTL_outside char_signed sz size :
  IsAsciiSTL char_signed sz size = None -> (BufferSize <= size)%Z.
Proof.
  unfold IsAsciiSTL. destruct (IsBinarySTL sz size); [done|].
  destruct (SkipSpaces sz) as [ok s1]. destruct ok; cbn [negb]; [|done].
  destruct (_ <=? _)%Z; [done|]. cbv zeta.
  destruct (strncmp_eq s1 "solid"); cbn [andb]; [|done].
  destruct (Z.leb_spec BufferSize size); [done|done].
Qed.

Lemma read_solids_ends fuel char_signed buf sz st :
  sz `suffix_of` buf -> length sz < fuel ->
  (exists st', read_solids fuel char_signed sz st = Ret st')
  \/ (exists m, read_solids fuel char_signed sz st = Throw m /\ m ∈ ascii_errors)
  \/ (read_solids fuel char_signed sz st = Undefined /\ 500 <= length buf).
Proof.
  revert sz st. induction fuel as [|fuel IH]; intros sz st Hsz Hfuel; [lia|].
  cbn [read_solids].
  destruct (IsAsciiSTL char_signed sz _) as [[]|] eqn:Hascii.
  3:{ right. right. split; [done|].
      apply IsAsciiSTL_outside in Hascii. apply suffix_length in Hsz.
      unfold BufferSize, wrap32 in Hascii.
      pose proof (Z.mod_le (Z.of_nat (length sz)) 4294967296). lia. }
  2:{ left. by eexists. }
  apply IsAsciiSTL_solid in Hascii.
  pose proof (SkipSpaces_suffix sz) as H1. set (s1 := (SkipSpaces sz).2) in *.
  apply starts_with_length in Hascii. cbn [list_ascii_of_string length] in Hascii.
  pose proof (SkipSpaces_suffix (drop 5 s1)) as H2.
  set (s2 := (SkipSpaces (drop 5 s1)).2) in *.
  pose proof (take_until_suffix IsSpaceOrNewLine s2) as H3.
  destruct (LWS.take_until IsSpaceOrNewLine s2) as [name s3]. cbn [snd] in H3.
  destruct (_ && _).
  { right. left. eexists. split; [done|]. unfold ascii_errors. by repeat constructor. }
  destruct (read_solid_ends (S (length s3)) s3 3%Z (as_positions st) (as_normals st))
    as [(s4 & positions & normals & -> & H4)|(m & -> & Hm)];
    [lia| |right; left; by eexists].
  destruct (negb _).
  { right. left. eexists. split; [done|]. unfold ascii_errors. by repeat constructor. }
  destruct (negb _).
  { right. left. eexists. split; [done|]. unfold ascii_errors. by repeat constructor. }
  pose proof (suffix_length _ _ H1). pose proof (suffix_length _ _ H2).
  pose proof (suffix_length _ _ H3). pose proof (suffix_length _ _ H4).
  rewrite length_drop in *.
  apply IH; [|lia].
  etrans; [exact H4|]. etrans; [exact H3|]. etrans; [exact H2|].
  etrans; [apply suffix_drop|]. by etrans.
Qed.

(** X22 (STLLoader.cpp, [STLImporter::LoadASCIIFile]).  When the reader of
    reals never moves the cursor back, the reader of the text flavour ends
    on every buffer: every round of the loop over the solids and of the
    loop over the tokens of a solid moves the cursor.  It returns a scene,
    or throws one of its four errors, or, on a buffer of 500 bytes or more,
    the test [IsAsciiSTL] at the head of a solid reads behind the end of the
    buffer. *)
Theorem stl_ascii_ends (char_signed : bool) (buf : list ascii) :
  (exists scene, LoadASCIIFile char_signed buf = Ret scene)
  \/ (exists m, LoadASCIIFile char_signed buf = Throw m /\ m ∈ ascii_errors)
  \/ (LoadASCIIFile char_signed buf = Undefined /\ 500 <= length buf).
Proof.
  unfold LoadASCIIFile.
  destruct (read_solids_ends (S (length buf)) char_signed buf buf
              (mkAsciiState "" [] [] [] [])) as [[st ->]|[(m & -> & Hm)|[-> Hlen]]];
    [done|lia| | |].
  - left. by eexists.
  - right. left. by eexists.
  - right. right. done.
Qed.

End STL_ascii_ends.

Lemma stl_ascii_ends_witness :
  (exists scene, STL.LoadASCIIFile true ascii_solid = Ret scene)
  \/ (exists m, STL.LoadASCIIFile true ascii_solid = Throw m /\ m ∈ ascii_errors)
  \/ (STL.LoadASCIIFile true ascii_solid = Undefined /\ (500 <= length ascii_solid)%nat).
Proof. exact (stl_ascii_ends IntegerReals_move_on true ascii_solid). Defined.

(** ** SMD: the last triangle of a vertex animation section *)

Section SMD_vertex_animation.
Import Scanner SMD.
#[local] Open Scope nat_scope.
Context {R : Type} `{FloatParser R}.

(** The loop of [ParseVASection] (lines 765-793) with a count of the calls
    of [ParseVertex]: the fourth component of the result is the number of
    vertex lines read so far; the rest is the loop as it is. *)
Fixpoint VA_loop_counted (fuel : nat) (configFrameID : Z) (cur : list ascii)
    (asTriangles : list SFace) (iCurIndex : Z) (read : nat)
    : option (list ascii * list SFace * Z * nat) :=
  match fuel with
  | O => None
  | S fuel' =>
      let '(more, cur) := SkipSpacesAndLineEnd cur in
      if negb more then Some (cur, asTriangles, iCurIndex, read)
      else
        match TokenMatch cur "end" with
        | Some cur => Some (cur, asTriangles, iCurIndex, read)
        | None =>
            match TokenMatch cur "time" with
            | Some cur =>
                match ParseSignedInt cur with
                | None => Some (cur, asTriangles, iCurIndex, read)
                | Some (iTime, cur) =>
                    if negb (configFrameID =? wrap32 iTime)%Z
                    then Some (cur, asTriangles, iCurIndex, read)
                    else VA_loop_counted fuel' configFrameID (snd (SkipLine cur))
                           asTriangles iCurIndex read
                end
            | None =>
                let asTriangles :=
                  if (iCurIndex =? 0)%Z then asTriangles ++ [default_face]
                  else asTriangles in
                let iCurIndex :=
                  if (iCurIndex + 1 =? 3)%Z then 0%Z else (iCurIndex + 1)%Z in
                match get_back_vertex asTriangles iCurIndex with
                | None => None
                | Some v =>
                    match ParseVertex (S (length cur)) cur v true with
                    | None => None
                    | Some (cur, v') =>
                        VA_loop_counted fuel' configFrameID cur
                          (set_back_vertex asTriangles iCurIndex v') iCurIndex
                          (S read)
                    end
                end
            end
        end
  end.

(** Without its count the counted loop is the loop of the reader. *)
Lemma VA_loop_counted_erase fuel configFrameID cur tris i n :
  VA_loop fuel configFrameID cur tris i
  = (fun r : list ascii * list SFace * Z * nat => (r.1.1.1, r.1.1.2, r.1.2))
      <$> VA_loop_counted fuel configFrameID cur tris i n.
Proof.
  revert cur tris i n. induction fuel as [|fuel IH]; intros cur tris i n; [done|].
  cbn [VA_loop VA_loop_counted].
  destruct (SkipSpacesAndLineEnd cur) as [more c1].
  destruct (negb more); [done|].
  destruct (TokenMatch c1 "end"); [done|].
  destruct (TokenMatch c1 "time") as [c2|].
  { destruct (ParseSignedInt c2) as [[t c3]|]; [|done].
    destruct (negb _); [done|]. apply IH. }
  cbv zeta.
  destruct (get_back_vertex _ _) as [v|]; [|done].
  destruct (ParseVertex _ _ _ _) as [[c3 v']|]; [|done].
  apply IH.
Qed.

Lemma length_set_back_vertex (tris : list (SFace (R:=R))) i v :
  length (set_back_vertex tris i v) = length tris.
Proof.
  unfold set_back_vertex.
  destruct (reverse tris) as [|f tl] eqn:Hrev.
  { apply (f_equal reverse) in Hrev. rewrite reverse_involutive in Hrev.
    by subst. }
  apply (f_equal (@length _)) in Hrev. rewrite length_reverse in Hrev.
  destruct (avVertices f) as [[a b] c].
  rewrite length_app, length_reverse. cbn [length] in *. lia.
Qed.

(** The index of the corner follows the count of the vertices, and a
    triangle is added for every third vertex, beginning with the first. *)
Lemma VA_loop_counted_shape fuel configFrameID :
  forall cur (tris : list (SFace (R:=R))) i n cur' tris' i' n',
    VA_loop_counted fuel configFrameID cur tris i n = Some (cur', tris', i', n') ->
    i = Z.of_nat (n mod 3) ->
    i' = Z.of_nat (n' mod 3)
    /\ length tris' + (n + 2) / 3 = length tris + (n' + 2) / 3
    /\ n <= n'.
Proof.
  induction fuel as [|fuel IH]; intros cur tris i n cur' tris' i' n' Hrun Hi;
    [done|].
  cbn [VA_loop_counted] in Hrun.
  destruct (SkipSpacesAndLineEnd cur) as [more c1].
  destruct (negb more); [by simplify_eq|].
  destruct (TokenMatch c1 "end"); [by simplify_eq|].
  destruct (TokenMatch c1 "time") as [c2|].
  { destruct (ParseSignedInt c2) as [[t c3]|]; [|by simplify_eq].
    destruct (negb _); [by simplify_eq|]. by eapply IH. }
  cbv zeta in Hrun.
  destruct (get_back_vertex _ _) as [v|]; [|done].
  destruct (ParseVertex _ _ _ _) as [[c3 v']|]; [|done].
  apply IH in Hrun as (Hi' & Hlen & Hn).
  - split; [done|]. rewrite length_set_back_vertex in Hlen.
    split; [|lia].
    pose proof (Nat.div_mod_eq n 3). pose proof (Nat.mod_upper_bound n 3).
    pose proof (Nat.div_mod_eq (n + 2) 3). pose proof (Nat.mod_upper_bound (n + 2) 3).
    pose proof (Nat.div_mod_eq (S n + 2) 3).
    pose proof (Nat.mod_upper_bound (S n + 2) 3).
    destruct (Z.eqb_spec i 0); [rewrite length_app in Hlen; cbn [length] in Hlen|];
      lia.
  - pose proof (Nat.div_mod_eq n 3). pose proof (Nat.mod_upper_bound n 3).
    pose proof (Nat.div_mod_eq (S n) 3). pose proof (Nat.mod_upper_bound (S n) 3).
    destruct (Z.eqb_spec (i + 1) 3); lia.
Qed.

(** X23 (SMDLoader.cpp, [SMDImporter::ParseVASection]).  When the loop of
    the section has read [n] vertex lines, it holds one triangle for every
    three of them, the last one begun with the lines left over.  The section
    keeps all of them only when two lines were left over, the last triangle
    then lacking its first corner; in every other case the last triangle is
    dropped, so that a section of [3 k] vertex lines adds [k - 1] triangles
    to the ones the importer held, and an empty section takes one away. *)
Theorem smd_va_last_triangle (fuel : nat) (configFrameID : Z) (cur : list ascii)
    (tris : list SFace) (cur' : list ascii) (read : list SFace) (i : Z) (n : nat) :
  VA_loop_counted fuel configFrameID cur tris 0 0 = Some (cur', read, i, n) ->
  length read = length tris + (n + 2) / 3
  /\ exists kept,
       ParseVASection fuel configFrameID cur tris
       = Some (snd (SkipSpacesAndLineEnd cur'), kept)
       /\ kept = (if n mod 3 =? 2 then read else removelast read)
       /\ (n mod 3 = 0 -> length kept = length tris + n / 3 - 1).
Proof.
  intros Hrun.
  destruct (VA_loop_counted_shape _ _ _ _ _ _ _ _ _ _ Hrun eq_refl)
    as (Hi & Hlen & _).
  change ((0 + 2) / 3) with 0 in Hlen.
  split; [lia|].
  exists (if n mod 3 =? 2 then read else removelast read).
  split; [|split; [done|]].
  - unfold ParseVASection.
    rewrite (VA_loop_counted_erase _ _ _ _ _ 0), Hrun. cbn [fmap option_fmap option_map fst snd].
    do 2 f_equal. subst i.
    pose proof (Nat.mod_upper_bound n 3).
    destruct (Nat.eqb_spec (n mod 3) 2) as [->|Hn]; [done|].
    destruct (Z.eqb_spec (Z.of_nat (n mod 3)) 2); [lia|].
    cbn [negb andb]. case_bool_decide as Hempty; [by subst|done].
  - intros Hn. rewrite Hn. cbn [Nat.eqb].
    rewrite removelast_firstn_len, length_take.
    pose proof (Nat.div_mod_eq n 3). pose proof (Nat.div_mod_eq (n + 2) 3).
    pose proof (Nat.mod_upper_bound (n + 2) 3). lia.
Qed.

End SMD_vertex_animation.

Lemma smd_va_last_triangle_witness :
  exists cur' read,
    length read = 1%nat
    /\ SMD.ParseVASection 200 5 (list_ascii_of_string va_times_5_10) []
       = Some (snd (Scanner.SkipSpacesAndLineEnd cur'), removelast read).
Proof.
  assert (Hr : exists cur' read,
             VA_loop_counted 200 5 (list_ascii_of_string va_times_5_10) [] 0 0
             = Some (cur', read, 0%Z, 3%nat))
    by (do 2 eexists; vm_compute; reflexivity).
  destruct Hr as (cur' & read & Hr). exists cur', read.
  destruct (smd_va_last_triangle _ _ _ _ _ _ _ _ Hr) as (Hlen & kept & Hp & -> & _).
  split; [exact Hlen|exact Hp].
Defined.
